(** * MetaDat: schema grammar, value parser, writer, inference, validation

    A shallow embedding of the Go package [metadat] (the type model and
    schema functions, the parsing helpers and metadat.go) together with
    the properties of its specification.

    Conventions of the embedding:
    - a Go [string] is a Rocq [string] (a sequence of bytes);
    - a Go [map[string]T] is an association list with pairwise distinct
      keys; the order of the list stands for the order in which [range]
      visits the map, which the Go runtime leaves unspecified, so that a
      statement about all maps is a statement about all iteration orders;
    - a Go [error] is a value of the inductive type [error], one
      constructor per message format of the [fmt.Errorf] calls, rendered
      by [errorString];
    - [int] is the 64-bit Go [int], carried by [Z];
    - [float32]/[float64] and their decimal conversions belong to the Go
      runtime and are taken through the interface [Floats];
    - the capacity that [make] grants depends on the machine and is
      taken through the interface [Machine]; a call that ends the
      program instead of returning has the outcome [Err Aborted]. *)

From Stdlib Require Import String Ascii List ZArith Lia Bool Arith.
From Stdlib Require Import DecimalString DecimalPos Permutation Sorted.
Import ListNotations.

Local Open Scope list_scope.
Local Open Scope string_scope.

(** ** Package [strings] of the Go standard library *)

Module strings.

Fixpoint HasPrefix (s p : string) : bool :=
  match p, s with
  | EmptyString, _ => true
  | String b p', String a s' => Ascii.eqb a b && HasPrefix s' p'
  | String _ _, EmptyString => false
  end.

Fixpoint skip (n : nat) (s : string) : string :=
  match n, s with
  | O, _ => s
  | S n', String _ s' => skip n' s'
  | S _, EmptyString => EmptyString
  end.

Fixpoint take (n : nat) (s : string) : string :=
  match n, s with
  | O, _ => EmptyString
  | S n', String a s' => String a (take n' s')
  | S _, EmptyString => EmptyString
  end.

(** [s[lo:hi]] *)
Definition slice (s : string) (lo hi : nat) : string :=
  take (hi - lo) (skip lo s).

Fixpoint rev_onto (s acc : string) : string :=
  match s with
  | EmptyString => acc
  | String a s' => rev_onto s' (String a acc)
  end.

Definition rev (s : string) : string := rev_onto s EmptyString.

Definition HasSuffix (s p : string) : bool := HasPrefix (rev s) (rev p).

Definition TrimPrefix (s p : string) : string :=
  if HasPrefix s p then skip (String.length p) s else s.

Definition TrimSuffix (s p : string) : string :=
  if HasSuffix s p then take (String.length s - String.length p) s else s.

(** [strings.Index]: the byte offset of the first occurrence, [-1] when
    there is none. *)
Fixpoint index_from (i : Z) (s sub : string) : Z :=
  if HasPrefix s sub then i
  else match s with
       | EmptyString => (-1)%Z
       | String _ s' => index_from (i + 1) s' sub
       end.

Definition Index (s sub : string) : Z := index_from 0 s sub.

Definition Contains (s sub : string) : bool := (0 <=? Index s sub)%Z.

(** [strings.Split(s, sep)] for a separator of one byte, which is the
    only way the package calls it on data and schema text. *)
Fixpoint Split (s : string) (sep : ascii) : list string :=
  match s with
  | EmptyString => [EmptyString]
  | String a s' =>
      if Ascii.eqb a sep then EmptyString :: Split s' sep
      else match Split s' sep with
           | x :: xs => String a x :: xs
           | [] => [String a EmptyString]
           end
  end.

Fixpoint Join (l : list string) (sep : string) : string :=
  match l with
  | [] => EmptyString
  | [x] => x
  | x :: l' => x ++ sep ++ Join l' sep
  end.

Fixpoint Repeat (s : string) (n : nat) : string :=
  match n with
  | O => EmptyString
  | S n' => s ++ Repeat s n'
  end.

Definition bytes (l : list nat) : string :=
  fold_right (fun n s => String (ascii_of_nat n) s) EmptyString l.

(** The UTF-8 encodings of the runes for which [unicode.IsSpace] holds:
    tab, LF, VT, FF, CR, space, U+0085, U+00A0, U+1680, U+2000..U+200A,
    U+2028, U+2029, U+202F, U+205F, U+3000. *)
Definition spaceRunes : list string :=
  map bytes
    [ [9]; [10]; [11]; [12]; [13]; [32]; [194; 133]; [194; 160];
      [225; 154; 128];
      [226; 128; 128]; [226; 128; 129]; [226; 128; 130]; [226; 128; 131];
      [226; 128; 132]; [226; 128; 133]; [226; 128; 134]; [226; 128; 135];
      [226; 128; 136]; [226; 128; 137]; [226; 128; 138];
      [226; 128; 168]; [226; 128; 169]; [226; 128; 175];
      [226; 129; 159]; [227; 128; 128] ].

(** One decoding step of [TrimLeftFunc]: drop one leading space rune. *)
Fixpoint dropRune (runes : list string) (s : string) : option string :=
  match runes with
  | [] => None
  | r :: runes' =>
      if HasPrefix s r then Some (skip (String.length r) s) else dropRune runes' s
  end.

Fixpoint trimLeft (fuel : nat) (runes : list string) (s : string) : string :=
  match fuel with
  | O => s
  | S fuel' =>
      match dropRune runes s with
      | Some s' => trimLeft fuel' runes s'
      | None => s
      end
  end.

Definition TrimLeftSpace (s : string) : string :=
  trimLeft (String.length s) spaceRunes s.

(** [TrimRightFunc] decodes runes backwards; a space rune is a suffix of
    the text exactly when its reversed encoding is a prefix of the
    reversed text. *)
Definition TrimRightSpace (s : string) : string :=
  rev (trimLeft (String.length s) (map rev spaceRunes) (rev s)).

Definition TrimSpace (s : string) : string :=
  TrimRightSpace (TrimLeftSpace s).

(** [a > b] on Go strings: byte-wise lexicographic order. *)
Fixpoint ltb (a b : string) : bool :=
  match a, b with
  | _, EmptyString => false
  | EmptyString, String _ _ => true
  | String x a', String y b' =>
      if (nat_of_ascii x <? nat_of_ascii y)%nat then true
      else if (nat_of_ascii y <? nat_of_ascii x)%nat then false
      else ltb a' b'
  end.

End strings.

(** ** UTF-8

    [for _, ch := range s] reads [s] rune by rune, and [WriteRune] writes
    a rune as its UTF-8 encoding.  A rune is carried by its UTF-8
    encoding here, so that what [WriteRune] writes is the rune itself. *)

Module utf8.

(** The byte [c] lies in [lo..hi]. *)
Definition within (lo hi : nat) (c : ascii) : bool :=
  (lo <=? nat_of_ascii c)%nat && (nat_of_ascii c <=? hi)%nat.

(** A continuation byte, [10xxxxxx]. *)
Definition cont (c : ascii) : bool := within 128 191 c.

(** The number of bytes of the well-formed encoding at the head of [s],
    [0] when [s] starts with none: the decoder of the Go runtime
    accepts one byte below [0x80]; [C2..DF] and a continuation byte;
    [E0..EF] and two, [F0..F4] and three continuation bytes, without
    the overlong forms ([E0 80..9F], [F0 80..8F]), the surrogates
    ([ED A0..BF]) and the runes above U+10FFFF ([F4 90..BF]). *)
Definition runeLen (s : string) : nat :=
  match s with
  | EmptyString => 0
  | String b0 rest =>
      if within 0 127 b0 then 1
      else if within 194 223 b0 then
        match rest with
        | String b1 _ => if cont b1 then 2 else 0
        | _ => 0
        end
      else if within 224 239 b0 then
        match rest with
        | String b1 (String b2 _) =>
            if (if within 224 224 b0 then within 160 191 b1
                else if within 237 237 b0 then within 128 159 b1
                else cont b1)
               && cont b2
            then 3 else 0
        | _ => 0
        end
      else if within 240 244 b0 then
        match rest with
        | String b1 (String b2 (String b3 _)) =>
            if (if within 240 240 b0 then within 144 191 b1
                else if within 244 244 b0 then within 128 143 b1
                else cont b1)
               && cont b2 && cont b3
            then 4 else 0
        | _ => 0
        end
      else 0
  end.

(** U+FFFD, the rune that the decoder returns for a byte that starts no
    well-formed encoding. *)
Definition RuneError : string := strings.bytes [239; 191; 189].

(** The runes that [range s] yields, in order.  A byte that starts no
    well-formed encoding is read as [RuneError], of width one;
    [width] counts the bytes of the rune before that are still to
    pass. *)
Fixpoint runesFrom (width : nat) (s : string) : list string :=
  match s with
  | EmptyString => []
  | String _ rest =>
      match width with
      | S w => runesFrom w rest
      | O =>
          match runeLen s with
          | O => RuneError :: runesFrom 0 rest
          | S w => strings.take (S w) s :: runesFrom w rest
          end
      end
  end.

Definition runes (s : string) : list string := runesFrom 0 s.

End utf8.

(** ** Package [strconv] *)

Module strconv.

Definition isDigit (c : ascii) : bool :=
  let n := nat_of_ascii c in ((48 <=? n) && (n <=? 57))%nat.

Fixpoint digits (acc : Z) (s : string) : option Z :=
  match s with
  | EmptyString => Some acc
  | String c s' =>
      if isDigit c
      then digits (10 * acc + Z.of_nat (nat_of_ascii c - 48)) s'
      else None
  end.

Definition unsigned (s : string) : option Z :=
  match s with
  | EmptyString => None
  | _ => digits 0 s
  end.

(** [strconv.ParseInt(s, 10, 64)]: an optional sign, then one or more
    decimal digits; a value outside the int64 range is an error. *)
Definition ParseInt (s : string) : option Z :=
  let signed :=
    match s with
    | String "+" s' => option_map (fun n => n) (unsigned s')
    | String "-" s' => option_map Z.opp (unsigned s')
    | _ => unsigned s
    end in
  match signed with
  | Some n =>
      if ((- 2 ^ 63 <=? n) && (n <=? 2 ^ 63 - 1))%Z then Some n else None
  | None => None
  end.

(** [strconv.Atoi] on a 64-bit platform. *)
Definition Atoi (s : string) : option Z := ParseInt s.

Definition ParseBool (s : string) : option bool :=
  if existsb (String.eqb s) ["1"; "t"; "T"; "TRUE"; "true"; "True"]
  then Some true
  else if existsb (String.eqb s) ["0"; "f"; "F"; "FALSE"; "false"; "False"]
  then Some false
  else None.

(** [%d] and [%v] of an integer. *)
Definition Itoa (n : Z) : string := NilZero.string_of_int (Z.to_int n).

End strconv.

(** ** Floating point

    The carriers of [float32] and [float64] and the functions of the Go
    runtime on them that the package calls. *)

Class Floats : Type := {
  float32 : Type;
  float64 : Type;
  (** [strconv.ParseFloat(s, 32)] followed by [float32(val)] *)
  ParseFloat32 : string -> option float32;
  (** [strconv.ParseFloat(s, 64)] *)
  ParseFloat64 : string -> option float64;
  (** [fmt.Sprintf("%v", x)] *)
  FormatFloat32 : float32 -> string;
  FormatFloat64 : float64 -> string;
  (** [v == float64(int(v))] *)
  isIntegral : float64 -> bool
}.

(** The float-free fragment: there is no float value and no text parses as
    one.  It runs the definitions on inputs without floating-point
    fields. *)
Definition NoFloats : Floats :=
  {| float32 := Empty_set;
     float64 := Empty_set;
     ParseFloat32 := fun _ => None;
     ParseFloat64 := fun _ => None;
     FormatFloat32 := fun x => match x with end;
     FormatFloat64 := fun x => match x with end;
     isIntegral := fun x => match x with end |}.

(** ** Allocation

    [make([]interface{}, 0, n)] returns when the runtime grants the
    capacity [n].  Otherwise the program ends: with the panic
    [makeslice: cap out of range] when the [16 n] bytes exceed what the
    runtime addresses, which is [2^48] bytes at most, and with the
    fatal error [out of memory] when the operating system refuses them.
    [maxCap] is the largest capacity that the machine grants; the
    package itself asks for a capacity of 1000000 for every multi-line
    array without a declared size. *)

Class Machine : Type := {
  maxCap : Z;
  maxCap_fallback : (1000000 <= maxCap)%Z;
  maxCap_addressable : (maxCap <= 2 ^ 44)%Z
}.

(** A machine that grants every capacity that the runtime addresses. *)
Definition LargeMachine : Machine.
Proof. refine {| maxCap := 2 ^ 44 |}; lia. Defined.

(** ** Go maps with string keys *)

Section GoMap.
Context {V : Type}.

Definition gomap := list (string * V).

(** [v, exists := m[k]] *)
Fixpoint mget (m : list (string * V)) (k : string) : option V :=
  match m with
  | [] => None
  | (k', v) :: m' => if String.eqb k' k then Some v else mget m' k
  end.

(** [m[k] = v] *)
Fixpoint mset (k : string) (v : V) (m : list (string * V)) : list (string * V) :=
  match m with
  | [] => [(k, v)]
  | (k', v') :: m' =>
      if String.eqb k' k then (k, v) :: m' else (k', v') :: mset k v m'
  end.

Definition keys (m : list (string * V)) : list string := map fst m.

(** The representation invariant of a map: no key occurs twice. *)
Definition wf_map (m : list (string * V)) : Prop := NoDup (keys m).
End GoMap.

Arguments gomap V : clear implicits.

(** ** The type model *)

(** [type FieldType struct]; [ElementType] is a nullable pointer. *)
#[local] Unset Elimination Schemes.
Inductive FieldType : Type := mkFieldType {
  Type_ : string;
  ElementType : option FieldType;
  ObjectFields : list (string * FieldType);
  ObjectOrder : list string;
  Name : string
}.
#[local] Set Elimination Schemes.

(** [type Schema struct] *)
Record Schema : Type := mkSchema {
  Fields : list (string * FieldType);
  FieldOrder : list string
}.

(** The zero value [FieldType{}], which a failed map lookup yields. *)
Definition zeroFieldType : FieldType := mkFieldType "" None [] [] "".

(** [FieldType{Type: t}] *)
Definition basic (t : string) : FieldType := mkFieldType t None [] [] "".

(** The alphabetical ordering loop that the package repeats wherever no
    field order was recorded:
    [for i { for j := i+1.. { if names[i] > names[j] { swap } } }].
    [sweep x rest] is one run of the inner loop with [names[i] = x]. *)
Fixpoint sweep (x : string) (rest : list string) : string * list string :=
  match rest with
  | [] => (x, [])
  | y :: rest' =>
      if strings.ltb y x
      then let (m, r) := sweep y rest' in (m, x :: r)
      else let (m, r) := sweep x rest' in (m, y :: r)
  end.

Fixpoint sortLoop (fuel : nat) (names : list string) : list string :=
  match fuel, names with
  | S fuel', x :: rest => let (m, r) := sweep x rest in m :: sortLoop fuel' r
  | _, _ => names
  end.

Definition sortNames (names : list string) : list string :=
  sortLoop (length names) names.

(** [getObjectFieldOrder]; the argument is a nullable pointer. *)
Definition getObjectFieldOrder (fieldType : option FieldType) : list string :=
  match fieldType with
  | Some ft =>
      match ObjectOrder ft with
      | _ :: _ => ObjectOrder ft
      | [] => sortNames (keys (ObjectFields ft))
      end
  | None => []
  end.

(** [getFieldOrder]: the order recorded in the first object-typed field
    that [range] meets, else the names in alphabetical order. *)
Definition getFieldOrder (fields : list (string * FieldType)) : list string :=
  match find (fun kv => String.eqb (Type_ (snd kv)) "object"
                        && negb (Nat.eqb (length (ObjectOrder (snd kv))) 0))
             fields with
  | Some kv => ObjectOrder (snd kv)
  | None => sortNames (keys fields)
  end.

(** [Schema.GetFieldOrder] *)
Definition GetFieldOrder (s : Schema) : list string :=
  match FieldOrder s with
  | _ :: _ => FieldOrder s
  | [] => sortNames (keys (Fields s))
  end.

(** [fieldTypeToString].  The loop body looks each name up in
    [ft.ObjectFields] and renders what it finds; [rendered] holds the
    rendering of every entry of that map, and a name that is not a key
    finds the zero [FieldType], whose rendering is its empty [Type]. *)
Fixpoint fieldTypeToString (ft : FieldType) : string :=
  match ft with
  | mkFieldType ty elem fields order _ =>
      if String.eqb ty "array" then
        match elem with
        | Some e => fieldTypeToString e ++ "[]"
        | None => "[]"
        end
      else if String.eqb ty "object" then
        let rendered :=
          (fix each (l : list (string * FieldType)) : list (string * string) :=
             match l with
             | [] => []
             | (k, t) :: l' => (k, fieldTypeToString t) :: each l'
             end) fields in
        let fieldNames :=
          match order with
          | _ :: _ => order
          | [] => sortNames (keys fields)
          end in
        "{" ++ strings.Join
                 (map (fun name =>
                         name ++ ":" ++
                         match mget rendered name with
                         | Some text => text
                         | None => ""
                         end) fieldNames) "|" ++ "}"
      else ty
  end.

(** [Schema.ToString] *)
Definition ToString (s : Schema) : string :=
  String.concat ""
    (map (fun name =>
            "    " ++ name ++ ": " ++
            fieldTypeToString
              (match mget (Fields s) name with
               | Some ft => ft
               | None => zeroFieldType
               end) ++ String "010" "")
         (GetFieldOrder s)).

(** ** Errors

    One constructor per message format of the [fmt.Errorf] calls of the
    package (the formats that differ in one word only, as
    ["invalid integer value: %s"] and ["invalid boolean value: %s"],
    share a constructor that carries the word); an error that wraps
    another with [%v] carries it.

    [Aborted] is no error value: it is the outcome of a call that does
    not return, because the program ends in a panic or a fatal error of
    the runtime.  The package recovers from none, so a caller that
    meets it has the same outcome, and never wraps it. *)

Inductive error : Type :=
| Aborted
| ErrNoSchemaLoaded
| ErrInvalidDataFormat (lineNo : nat) (line : string)
| ErrUnknownField (name : string)
| ErrParsingField (name : string) (e : error)
| ErrArraySizeMismatch (declared : Z) (found : nat)
| ErrInvalidValue (kind text : string)
| ErrInvalidField (kind name text : string)
| ErrUnknownType (t : string)
| ErrParsingType (name : string) (e : error)
| ErrInvalidObjectField (text : string)
| ErrNoSchemaDefined
| ErrWritingField (name : string) (e : error)
| ErrExpectedArrayFor (name : string)
| ErrExpectedObjectFor (name : string)
| ErrUnknownFieldType (t : string)
| ErrExpectedObjectInArray
| ErrValidation (name : string) (e : error)
| ErrExpected (kind got : string)
| ErrArrayElement (i : nat) (e : error)
| ErrObjectField (name : string) (e : error).

(** [err.Error()]; for [Aborted] there is no error to print. *)
Fixpoint errorString (e : error) : string :=
  match e with
  | Aborted => ""
  | ErrNoSchemaLoaded => "no schema loaded"
  | ErrInvalidDataFormat n line =>
      "invalid data format at line " ++ strconv.Itoa (Z.of_nat n) ++ ": " ++ line
  | ErrUnknownField name => "unknown field: " ++ name
  | ErrParsingField name e' =>
      "error parsing field " ++ name ++ ": " ++ errorString e'
  | ErrArraySizeMismatch d f =>
      "array size mismatch: declared " ++ strconv.Itoa d ++ ", found "
        ++ strconv.Itoa (Z.of_nat f) ++ " elements"
  | ErrInvalidValue kind text => "invalid " ++ kind ++ " value: " ++ text
  | ErrInvalidField kind name text =>
      "invalid " ++ kind ++ " for field " ++ name ++ ": " ++ text
  | ErrUnknownType t => "unknown type: " ++ t
  | ErrParsingType name e' =>
      "error parsing type for field " ++ name ++ ": " ++ errorString e'
  | ErrInvalidObjectField text => "invalid object field format: " ++ text
  | ErrNoSchemaDefined => "no schema defined"
  | ErrWritingField name e' =>
      "error writing field " ++ name ++ ": " ++ errorString e'
  | ErrExpectedArrayFor name => "expected array for field " ++ name
  | ErrExpectedObjectFor name => "expected object for field " ++ name
  | ErrUnknownFieldType t => "unknown field type: " ++ t
  | ErrExpectedObjectInArray => "expected object in array"
  | ErrValidation name e' =>
      "validation error for field " ++ name ++ ": " ++ errorString e'
  | ErrExpected kind got => "expected " ++ kind ++ ", got " ++ got
  | ErrArrayElement i e' =>
      "array element " ++ strconv.Itoa (Z.of_nat i) ++ ": " ++ errorString e'
  | ErrObjectField name e' => "object field " ++ name ++ ": " ++ errorString e'
  end.

Inductive result (A : Type) : Type :=
| Ok (a : A)
| Err (e : error).

Arguments Ok {A} a.
Arguments Err {A} e.

(** What a caller that wraps the errors of a call with [wrap] makes of
    the outcome [e] of that call. *)
Definition passOn (wrap : error -> error) (e : error) : error :=
  match e with
  | Aborted => Aborted
  | _ => wrap e
  end.

(** ** The schema grammar parser *)

(** [splitObjectFields].  The loop ranges over the runes of [objectStr]
    and writes each one to [current], a rune that stands for an
    ill-formed byte as the three bytes of U+FFFD.  [current] is the
    builder's content and [fields] the slice built so far. *)
Fixpoint splitLoop (objectStr : list string) (depth : Z) (current : string)
    (fields : list string) : list string :=
  match objectStr with
  | [] =>
      if (0 <? String.length current)%nat then (fields ++ [current])%list
      else fields
  | ch :: rest =>
      if String.eqb ch "{" then
        splitLoop rest (depth + 1) (current ++ ch) fields
      else if String.eqb ch "}" then
        splitLoop rest (depth - 1) (current ++ ch) fields
      else if String.eqb ch "|" then
        if (depth =? 0)%Z
        then splitLoop rest depth "" (fields ++ [current])%list
        else splitLoop rest depth (current ++ ch) fields
      else splitLoop rest depth (current ++ ch) fields
  end.

Definition splitObjectFields (objectStr : string) : list string :=
  splitLoop (utf8.runes objectStr) 0 "" [].

(** [line[:i]] and [line[i+1:]] around an index that [strings.Index]
    returned. *)
Definition before (line : string) (i : Z) : string :=
  strings.take (Z.to_nat i) line.
Definition after (line : string) (i : Z) : string :=
  strings.skip (Z.to_nat (i + 1)) line.

Definition isBasicType (t : string) : bool :=
  existsb (String.eqb t)
    ["string"; "int"; "int32"; "int64"; "float32"; "float64"; "bool"].

(** The loop of [parseType] over the field pairs of an object
    expression; [parse] is [parseType] itself. *)
Fixpoint parseFieldPairs (parse : string -> option (result FieldType))
    (fieldPairs : list string) (fields : list (string * FieldType))
    (fieldOrder : list string) : option (result FieldType) :=
  match fieldPairs with
  | [] => Some (Ok (mkFieldType "object" None fields fieldOrder ""))
  | fieldPair :: fieldPairs' =>
      let colonIndex := strings.Index fieldPair ":" in
      if (colonIndex =? -1)%Z
      then Some (Err (ErrInvalidObjectField fieldPair))
      else
        let fieldName := strings.TrimSpace (before fieldPair colonIndex) in
        let fieldTypeStr := strings.TrimSpace (after fieldPair colonIndex) in
        match parse fieldTypeStr with
        | None => None
        | Some (Err e) => Some (Err e)
        | Some (Ok (mkFieldType ty elem fs order _)) =>
            parseFieldPairs parse fieldPairs'
              (mset fieldName (mkFieldType ty elem fs order fieldName) fields)
              (fieldOrder ++ [fieldName])%list
        end
  end.

(** [parseType].  The recursion is on shorter and shorter type
    expressions; [fuel] bounds its depth and [None] means that the bound
    was reached. *)
Fixpoint parseTypeFuel (fuel : nat) (typeStr : string)
    : option (result FieldType) :=
  match fuel with
  | O => None
  | S fuel' =>
      let typeStr := strings.TrimSpace typeStr in
      if strings.HasSuffix typeStr "[]" then
        let elementTypeStr := strings.TrimSuffix typeStr "[]" in
        match parseTypeFuel fuel' elementTypeStr with
        | None => None
        | Some (Err e) => Some (Err e)
        | Some (Ok elementType) =>
            Some (Ok (mkFieldType "array" (Some elementType) [] [] ""))
        end
      else if strings.HasPrefix typeStr "{" && strings.HasSuffix typeStr "}" then
        let objectStr := strings.slice typeStr 1 (String.length typeStr - 1) in
        parseFieldPairs (parseTypeFuel fuel') (splitObjectFields objectStr) [] []
      else if isBasicType typeStr then Some (Ok (basic typeStr))
      else Some (Err (ErrUnknownType typeStr))
  end.

(** A type expression of [n] bytes nests fewer than [n + 1] levels, see
    [parseTypeFuel_enough]. *)
Definition parseType (typeStr : string) : result FieldType :=
  match parseTypeFuel (S (String.length typeStr)) typeStr with
  | Some r => r
  | None => Err (ErrUnknownType typeStr)
  end.

(** [parseSchema]: the loop over the lines of the meta section. *)
Fixpoint parseSchemaLines (lines : list string) (schema : Schema)
    : result Schema :=
  match lines with
  | [] => Ok schema
  | line :: lines' =>
      let line := strings.TrimSpace line in
      if String.eqb line "" || strings.HasPrefix line "#"
      then parseSchemaLines lines' schema
      else
        let colonIndex := strings.Index line ":" in
        if (colonIndex =? -1)%Z then parseSchemaLines lines' schema
        else
          let fieldName := strings.TrimSpace (before line colonIndex) in
          let typeStr := strings.TrimSpace (after line colonIndex) in
          match parseType typeStr with
          | Err e => Err (ErrParsingType fieldName e)
          | Ok fieldType =>
              parseSchemaLines lines'
                (mkSchema (mset fieldName fieldType (Fields schema))
                          (FieldOrder schema ++ [fieldName])%list)
          end
  end.

Definition newline : ascii := "010"%char.

Definition parseSchema (metaContent : string) : result Schema :=
  parseSchemaLines (strings.Split (strings.TrimSpace metaContent) newline)
                   (mkSchema [] []).

(** ** Values

    The dynamically typed trees ([interface{}]) that the parser builds and
    the writer, the inferencer and the validator receive. *)

Section Metadat.
Context {F : Floats} {M : Machine}.

#[local] Unset Elimination Schemes.
Inductive Value : Type :=
| VNil                                   (* the nil interface, JSON null *)
| VString (s : string)
| VInt (n : Z)
| VInt32 (n : Z)
| VInt64 (n : Z)
| VFloat32 (x : float32)
| VFloat64 (x : float64)
| VBool (b : bool)
| VArray (l : list Value)                (* []interface{} *)
| VObject (m : list (string * Value))    (* map[string]interface{} *)
| VSlice (ty : string) (l : list Value)  (* a slice of another type [ty] *)
| VOther (ty text : string).             (* any other type, its %T and %v *)
#[local] Set Elimination Schemes.

(** [%T] *)
Definition typeName (v : Value) : string :=
  match v with
  | VNil => "<nil>"
  | VString _ => "string"
  | VInt _ => "int"
  | VInt32 _ => "int32"
  | VInt64 _ => "int64"
  | VFloat32 _ => "float32"
  | VFloat64 _ => "float64"
  | VBool _ => "bool"
  | VArray _ => "[]interface {}"
  | VObject _ => "map[string]interface {}"
  | VSlice ty _ => ty
  | VOther ty _ => ty
  end.

(** [fmt] prints a map with its keys sorted. *)
Fixpoint insertByKey (kv : string * string) (l : list (string * string))
    : list (string * string) :=
  match l with
  | [] => [kv]
  | kv' :: l' =>
      if strings.ltb (fst kv') (fst kv) then kv' :: insertByKey kv l'
      else kv :: l
  end.

Definition sortByKey (l : list (string * string)) : list (string * string) :=
  fold_right insertByKey [] l.

(** [fmt.Sprintf("%v", value)] *)
Fixpoint formatValue (value : Value) : string :=
  let elements l :=
    "[" ++ strings.Join
             ((fix each (l : list Value) : list string :=
                 match l with
                 | [] => []
                 | x :: l' => formatValue x :: each l'
                 end) l) " " ++ "]" in
  match value with
  | VNil => "<nil>"
  | VString s => s
  | VInt n | VInt32 n | VInt64 n => strconv.Itoa n
  | VFloat32 x => FormatFloat32 x
  | VFloat64 x => FormatFloat64 x
  | VBool true => "true"
  | VBool false => "false"
  | VArray l => elements l
  | VSlice _ l => elements l
  | VObject m =>
      "map[" ++ strings.Join
                  (map (fun kv => fst kv ++ ":" ++ snd kv)
                     (sortByKey
                        ((fix each (m : list (string * Value))
                            : list (string * string) :=
                            match m with
                            | [] => []
                            | (k, x) :: m' => (k, formatValue x) :: each m'
                            end) m))) " " ++ "]"
  | VOther _ text => text
  end.

(** ** The type inferencer *)

(** [inferFieldType] *)
Fixpoint inferFieldType (value : Value) : FieldType :=
  match value with
  | VNil => basic "string"
  | VString _ => basic "string"
  | VFloat64 v => if isIntegral v then basic "int" else basic "float64"
  | VInt _ | VInt32 _ | VInt64 _ => basic "int"
  | VFloat32 _ => basic "float32"
  | VBool _ => basic "bool"
  | VArray v =>
      mkFieldType "array"
        match v with
        | first :: _ => Some (inferFieldType first)
        | [] => None
        end [] [] ""
  | VObject v =>
      let '(fields, objectOrder) :=
        (fix each (m : list (string * Value))
             (fields : list (string * FieldType)) (objectOrder : list string)
             : list (string * FieldType) * list string :=
           match m with
           | [] => (fields, objectOrder)
           | (key, val) :: m' =>
               each m' (mset key (inferFieldType val) fields)
                    (objectOrder ++ [key])%list
           end) v [] [] in
      mkFieldType "object" None fields objectOrder ""
  | VSlice _ _ => mkFieldType "array" (Some (basic "string")) [] [] ""
  | VOther _ _ => basic "string"
  end.

(** [InferSchemaFromJSON] *)
Definition InferSchemaFromJSON (data : Value) : Schema :=
  match data with
  | VObject obj =>
      fold_left
        (fun schema kv =>
           mkSchema (mset (fst kv) (inferFieldType (snd kv)) (Fields schema))
                    (FieldOrder schema ++ [fst kv])%list)
        obj (mkSchema [] [])
  | _ => mkSchema [] []
  end.

(** ** The validator *)

Definition isIntType (t : string) : bool :=
  existsb (String.eqb t) ["int"; "int32"; "int64"].
Definition isFloatType (t : string) : bool :=
  existsb (String.eqb t) ["float32"; "float64"].

(** [validateValue]; [None] is the nil error. *)
Fixpoint validateValue (value : Value) (fieldType : FieldType) {struct fieldType}
    : option error :=
  match fieldType with
  | mkFieldType ty elementType objectFields _ _ =>
      if String.eqb ty "string" then
        match value with
        | VString _ => None
        | _ => Some (ErrExpected "string" (typeName value))
        end
      else if isIntType ty then
        match value with
        | VInt _ | VInt32 _ | VInt64 _ | VFloat64 _ => None
        | _ => Some (ErrExpected "integer" (typeName value))
        end
      else if isFloatType ty then
        match value with
        | VFloat32 _ | VFloat64 _ | VInt _ => None
        | _ => Some (ErrExpected "float" (typeName value))
        end
      else if String.eqb ty "bool" then
        match value with
        | VBool _ => None
        | _ => Some (ErrExpected "bool" (typeName value))
        end
      else if String.eqb ty "array" then
        match value with
        | VArray arr =>
            match elementType with
            | Some et =>
                (fix elems (i : nat) (arr : list Value) : option error :=
                   match arr with
                   | [] => None
                   | elem :: arr' =>
                       match validateValue elem et with
                       | Some err => Some (ErrArrayElement i err)
                       | None => elems (S i) arr'
                       end
                   end) O arr
            | None => None
            end
        | _ => Some (ErrExpected "array" (typeName value))
        end
      else if String.eqb ty "object" then
        match value with
        | VObject obj =>
            (fix each (fs : list (string * FieldType)) : option error :=
               match fs with
               | [] => None
               | (fieldName, fieldDef) :: fs' =>
                   match mget obj fieldName with
                   | Some val =>
                       match validateValue val fieldDef with
                       | Some err => Some (ErrObjectField fieldName err)
                       | None => each fs'
                       end
                   | None => each fs'
                   end
               end) objectFields
        | _ => Some (ErrExpected "object" (typeName value))
        end
      else Some (ErrUnknownType ty)
  end.

(** [Schema.ValidateData]: the loop over [s.Fields], then the loop over
    [data]. *)
Fixpoint validateFields (fields : list (string * FieldType))
    (data : list (string * Value)) : option error :=
  match fields with
  | [] => None
  | (fieldName, fieldType) :: fields' =>
      match mget data fieldName with
      | None => validateFields fields' data
      | Some value =>
          match validateValue value fieldType with
          | Some err => Some (ErrValidation fieldName err)
          | None => validateFields fields' data
          end
      end
  end.

Fixpoint unknownFields (s : Schema) (names : list string) : option error :=
  match names with
  | [] => None
  | fieldName :: names' =>
      match mget (Fields s) fieldName with
      | None => Some (ErrUnknownField fieldName)
      | Some _ => unknownFields s names'
      end
  end.

Definition ValidateData (s : Schema) (data : list (string * Value))
    : option error :=
  match validateFields (Fields s) data with
  | Some err => Some err
  | None => unknownFields s (keys data)
  end.

(** ** The value parser (the parsing helpers and metadat.go)

    Every parsing function returns [(value, newIndex, err)]; no caller
    reads the index that comes with an error, so a failure is [Err e]
    and a success is [Ok (value, newIndex)]. *)

Definition tab : string := String "009" "".

(** [strings.HasPrefix(line, "    ") || strings.HasPrefix(line, "\t")] *)
Definition isIndented (line : string) : bool :=
  strings.HasPrefix line "    " || strings.HasPrefix line tab.

(** The [switch fieldDef.Type] of [parseObjectFromLine]: the conversion
    of one trimmed positional text. *)
Definition convertField (ty fieldName valueStr : string) : result Value :=
  if isIntType ty then
    match strconv.ParseInt valueStr with
    | Some val => Ok (VInt val)
    | None => Err (ErrInvalidField "integer" fieldName valueStr)
    end
  else if String.eqb ty "float32" then
    match ParseFloat32 valueStr with
    | Some val => Ok (VFloat32 val)
    | None => Err (ErrInvalidField "float32" fieldName valueStr)
    end
  else if String.eqb ty "float64" then
    match ParseFloat64 valueStr with
    | Some val => Ok (VFloat64 val)
    | None => Err (ErrInvalidField "float64" fieldName valueStr)
    end
  else if String.eqb ty "bool" then
    match strconv.ParseBool valueStr with
    | Some val => Ok (VBool val)
    | None => Err (ErrInvalidField "boolean" fieldName valueStr)
    end
  else Ok (VString valueStr).

(** [fieldType.ObjectFields[fieldName].Type], empty when the name is not a
    key. *)
Definition fieldKind (fields : list (string * FieldType)) (fieldName : string)
    : string :=
  match mget fields fieldName with
  | Some fieldDef => Type_ fieldDef
  | None => ""
  end.

(** [parseObjectFromLine]: the loop over [fieldOrder]; walking
    [fieldOrder] and [values] together is the index [i] with its
    [i >= len(values)] exit. *)
Fixpoint objectFromValues (fields : list (string * FieldType))
    (fieldOrder values : list string) (acc : list (string * Value))
    : result (list (string * Value)) :=
  match fieldOrder, values with
  | fieldName :: fieldOrder', v :: values' =>
      let valueStr := strings.TrimSpace v in
      match convertField (fieldKind fields fieldName) fieldName valueStr with
      | Ok val =>
          objectFromValues fields fieldOrder' values' (mset fieldName val acc)
      | Err e => Err e
      end
  | _, _ => Ok acc
  end.

(** [parseObjectFromLine]; its callers pass a non-nil [fieldType]. *)
Definition parseObjectFromLine (line : string) (fieldType : FieldType)
    : result (list (string * Value)) :=
  objectFromValues (ObjectFields fieldType)
    (getObjectFieldOrder (Some fieldType)) (strings.Split line "|") [].

(** [fieldType.ElementType != nil && fieldType.ElementType.Type == "object"] *)
Definition objectElement (fieldType : FieldType) : option FieldType :=
  match ElementType fieldType with
  | Some et => if String.eqb (Type_ et) "object" then Some et else None
  | None => None
  end.

(** The element of a multi-line array read from one trimmed line. *)
Definition parseElement (fieldType : FieldType) (trimmedLine : string)
    : result Value :=
  match objectElement fieldType with
  | Some et =>
      match parseObjectFromLine trimmedLine et with
      | Ok obj => Ok (VObject obj)
      | Err e => Err e
      end
  | None => Ok (VString trimmedLine)
  end.

(** [parseArray] (the path without a declared size): the loop over
    [lines[i:]], with its limit of 50000 elements, which is also the
    capacity that the slice is made with and that every [Machine]
    grants. *)
Fixpoint parseArrayLoop (fieldType : FieldType) (rest : list string)
    (i : nat) (acc : list Value) : result (list Value * nat) :=
  match rest with
  | [] => Ok (acc, i)
  | line :: rest' =>
      if negb (isIndented line) then Ok (acc, i)
      else
        let trimmedLine := strings.TrimSpace line in
        if String.eqb trimmedLine "" then parseArrayLoop fieldType rest' (S i) acc
        else if (50000 <=? Z.of_nat (length acc))%Z then Ok (acc, i)
        else
          match parseElement fieldType trimmedLine with
          | Err e => Err e
          | Ok elem => parseArrayLoop fieldType rest' (S i) (acc ++ [elem])%list
          end
  end.

Definition inlineArray (valueStr : string) : list Value :=
  map (fun v => VString (strings.TrimSpace v)) (strings.Split valueStr "|").

Definition parseArray (fieldType : FieldType) (valueStr : string)
    (lines : list string) (currentIndex : nat) : result (list Value * nat) :=
  if negb (String.eqb valueStr "") && strings.Contains valueStr "|"
  then Ok (inlineArray valueStr, currentIndex + 1)
  else parseArrayLoop fieldType (skipn (currentIndex + 1) lines)
                      (currentIndex + 1) [].

(** The block that the int, float32, float64 and bool cases of
    [parseValue] share: an empty [valueStr] is replaced by the next line
    when that line is not blank and holds no colon. *)
Definition nextLineValue (valueStr : string) (lines : list string)
    (currentIndex : nat) : string * nat :=
  if String.eqb valueStr "" then
    match nth_error lines (currentIndex + 1) with
    | Some next =>
        let nextLine := strings.TrimSpace next in
        if negb (String.eqb nextLine "") && negb (strings.Contains nextLine ":")
        then (nextLine, currentIndex + 1)
        else (valueStr, currentIndex)
    | None => (valueStr, currentIndex)
    end
  else (valueStr, currentIndex).

Definition fieldParser : Type :=
  string -> list string -> nat -> result (Value * nat).

(** [parseObject]: the field-by-field loop.  [parseField name] is
    [parseValue] at [fieldType.ObjectFields[name]]. *)
Fixpoint parseObjectLoop (parseField : string -> fieldParser)
    (fieldOrder : list string) (lines : list string) (i : nat)
    (acc : list (string * Value)) : result (list (string * Value) * nat) :=
  match fieldOrder with
  | [] => Ok (acc, i)
  | fieldName :: fieldOrder' =>
      match nth_error lines i with
      | None => Ok (acc, i)
      | Some raw =>
          let line := strings.TrimSpace raw in
          if String.eqb line "" then
            parseObjectLoop parseField fieldOrder' lines (S i) acc
          else if strings.HasPrefix line (fieldName ++ ":") then
            let valueStr :=
              strings.TrimSpace (strings.TrimPrefix line (fieldName ++ ":")) in
            match parseField fieldName valueStr lines i with
            | Err e => Err e
            | Ok (value, newIndex) =>
                parseObjectLoop parseField fieldOrder' lines newIndex
                  (mset fieldName value acc)
            end
          else parseObjectLoop parseField fieldOrder' lines i acc
      end
  end.

Definition withIndex {A : Type} (r : result A) (i : nat) : result (A * nat) :=
  match r with
  | Ok a => Ok (a, i)
  | Err e => Err e
  end.

Definition parseObject (parseField : string -> fieldParser)
    (fieldType : FieldType) (valueStr : string) (lines : list string)
    (currentIndex : nat) : result (list (string * Value) * nat) :=
  if negb (String.eqb valueStr "") && strings.Contains valueStr "|"
  then withIndex (parseObjectFromLine valueStr fieldType) (currentIndex + 1)
  else
    let i := currentIndex + 1 in
    let pipeLine :=
      match nth_error lines i with
      | Some next =>
          let nextLine := strings.TrimSpace next in
          if negb (String.eqb nextLine "") && strings.Contains nextLine "|"
          then Some nextLine else None
      | None => None
      end in
    match pipeLine with
    | Some nextLine =>
        withIndex (parseObjectFromLine nextLine fieldType) (i + 1)
    | None =>
        parseObjectLoop parseField (getFieldOrder (ObjectFields fieldType))
                        lines i []
    end.

Definition mapValue {A : Type} (f : A -> Value) (r : result (A * nat))
    : result (Value * nat) :=
  match r with
  | Ok (a, i) => Ok (f a, i)
  | Err e => Err e
  end.

(** [parseValue].  In the object case [parsers] holds [parseValue] at
    every entry of [fieldType.ObjectFields]; a name that is not a key
    finds the zero [FieldType], on which [parseValue] takes its default
    branch. *)
Fixpoint parseValue (fieldType : FieldType) (valueStr : string)
    (lines : list string) (currentIndex : nat) {struct fieldType}
    : result (Value * nat) :=
  match fieldType with
  | mkFieldType ty _ objectFields _ _ =>
      if String.eqb ty "string" then
        match
          (if String.eqb valueStr "" then
             match nth_error lines (currentIndex + 1) with
             | Some nextLine =>
                 if isIndented nextLine then Some nextLine else None
             | None => None
             end
           else None)
        with
        | Some nextLine =>
            Ok (VString (strings.TrimSpace nextLine), currentIndex + 2)
        | None => Ok (VString valueStr, currentIndex + 1)
        end
      else if isIntType ty then
        let '(valueStr, currentIndex) :=
          nextLineValue valueStr lines currentIndex in
        match strconv.ParseInt (strings.TrimSpace valueStr) with
        | Some val => Ok (VInt val, currentIndex + 1)
        | None => Err (ErrInvalidValue "integer" valueStr)
        end
      else if String.eqb ty "float32" then
        let '(valueStr, currentIndex) :=
          nextLineValue valueStr lines currentIndex in
        match ParseFloat32 (strings.TrimSpace valueStr) with
        | Some val => Ok (VFloat32 val, currentIndex + 1)
        | None => Err (ErrInvalidValue "float32" valueStr)
        end
      else if String.eqb ty "float64" then
        let '(valueStr, currentIndex) :=
          nextLineValue valueStr lines currentIndex in
        match ParseFloat64 (strings.TrimSpace valueStr) with
        | Some val => Ok (VFloat64 val, currentIndex + 1)
        | None => Err (ErrInvalidValue "float64" valueStr)
        end
      else if String.eqb ty "bool" then
        let '(valueStr, currentIndex) :=
          nextLineValue valueStr lines currentIndex in
        match strconv.ParseBool (strings.TrimSpace valueStr) with
        | Some val => Ok (VBool val, currentIndex + 1)
        | None => Err (ErrInvalidValue "boolean" valueStr)
        end
      else if String.eqb ty "array" then
        mapValue VArray (parseArray fieldType valueStr lines currentIndex)
      else if String.eqb ty "object" then
        let parsers :=
          (fix each (l : list (string * FieldType))
               : list (string * fieldParser) :=
             match l with
             | [] => []
             | (k, t) :: l' => (k, parseValue t) :: each l'
             end) objectFields in
        let parseField name :=
          match mget parsers name with
          | Some p => p
          | None => fun _ _ _ => Err (ErrUnknownType "")
          end in
        mapValue VObject
          (parseObject parseField fieldType valueStr lines currentIndex)
      else Err (ErrUnknownType ty)
  end.

(** [parseArrayWithDeclaredSize]: the loop
    [for i < len(lines) && (declaredSize <= 0 || len(result) < declaredSize)]
    over [lines[i:]].  The appends stay within the capacity that the
    slice was made with. *)
Fixpoint declaredSizeLoop (fieldType : FieldType) (declaredSize : Z)
    (rest : list string) (i : nat) (acc : list Value)
    : result (list Value * nat) :=
  match rest with
  | [] => Ok (acc, i)
  | line :: rest' =>
      if ((declaredSize <=? 0) || (Z.of_nat (length acc) <? declaredSize))%Z
      then
        if negb (isIndented line) then Ok (acc, i)
        else
          let trimmedLine := strings.TrimSpace line in
          if String.eqb trimmedLine ""
          then declaredSizeLoop fieldType declaredSize rest' (S i) acc
          else
            match parseElement fieldType trimmedLine with
            | Err e => Err e
            | Ok elem =>
                declaredSizeLoop fieldType declaredSize rest' (S i)
                                 (acc ++ [elem])%list
            end
      else Ok (acc, i)
  end.

Definition parseArrayWithDeclaredSize (fieldType : FieldType)
    (valueStr : string) (lines : list string) (currentIndex : nat)
    (declaredSize : Z) : result (list Value * nat) :=
  if negb (String.eqb valueStr "") && strings.Contains valueStr "|" then
    let values := strings.Split valueStr "|" in
    if ((0 <? declaredSize)
        && negb (Z.of_nat (length values) =? declaredSize))%Z
    then Err (ErrArraySizeMismatch declaredSize (length values))
    else Ok (inlineArray valueStr, currentIndex + 1)
  else
    let expectedSize :=
      if (declaredSize <=? 0)%Z then 1000000%Z else declaredSize in
    if (maxCap <? expectedSize)%Z then Err Aborted
    else
      match declaredSizeLoop fieldType declaredSize
              (skipn (currentIndex + 1) lines) (currentIndex + 1) [] with
      | Err e => Err e
      | Ok (elems, i) =>
          if ((0 <? declaredSize)
              && negb (Z.of_nat (length elems) =? declaredSize))%Z
          then Err (ErrArraySizeMismatch declaredSize (length elems))
          else Ok (elems, i)
      end.

(** [Parser.parseValueWithArraySize] *)
Definition parseValueWithArraySize (fieldType : FieldType) (valueStr : string)
    (lines : list string) (currentIndex : nat) (arraySize : Z)
    : result (Value * nat) :=
  if String.eqb (Type_ fieldType) "array"
  then mapValue VArray
         (parseArrayWithDeclaredSize fieldType valueStr lines currentIndex
                                     arraySize)
  else parseValue fieldType valueStr lines currentIndex.

(** The array notation of a data line, [name[size]]: the field name and
    the declared size, which stays [0] when there is none. *)
Definition splitArraySize (fieldNameWithSize : string) : string * Z :=
  if strings.Contains fieldNameWithSize "[" then
    let bracketIndex := strings.Index fieldNameWithSize "[" in
    let closeBracketIndex := strings.Index fieldNameWithSize "]" in
    if (bracketIndex <? closeBracketIndex)%Z then
      let fieldName := strings.take (Z.to_nat bracketIndex) fieldNameWithSize in
      let sizeStr :=
        strings.slice fieldNameWithSize (Z.to_nat (bracketIndex + 1))
                      (Z.to_nat closeBracketIndex) in
      match strconv.Atoi sizeStr with
      | Some size => (fieldName, size)
      | None => (fieldName, 0%Z)
      end
    else (fieldNameWithSize, 0%Z)
  else (fieldNameWithSize, 0%Z).

(** [Parser.ParseData]: the loop [for i < len(lines)].  Every round moves
    [i] forward; [fuel] bounds the number of rounds and [None] means that
    the bound was reached.  A round whose array allocation ends the
    program ends the loop with [Aborted]. *)
Fixpoint parseDataLoop (fuel : nat) (schema : Schema) (lines : list string)
    (i : nat) (acc : list (string * Value))
    : option (result (list (string * Value))) :=
  match fuel with
  | O => None
  | S fuel' =>
      match nth_error lines i with
      | None => Some (Ok acc)
      | Some raw =>
          let line := strings.TrimSpace raw in
          if String.eqb line "" then parseDataLoop fuel' schema lines (S i) acc
          else
            let colonIndex := strings.Index line ":" in
            if (colonIndex =? -1)%Z
            then Some (Err (ErrInvalidDataFormat (i + 1) line))
            else
              let fieldNameWithSize :=
                strings.TrimSpace (before line colonIndex) in
              let fieldValue := strings.TrimSpace (after line colonIndex) in
              let '(fieldName, arraySize) := splitArraySize fieldNameWithSize in
              match mget (Fields schema) fieldName with
              | None => Some (Err (ErrUnknownField fieldName))
              | Some fieldType =>
                  match parseValueWithArraySize fieldType fieldValue lines i
                                                arraySize with
                  | Err e => Some (Err (passOn (ErrParsingField fieldName) e))
                  | Ok (value, newIndex) =>
                      parseDataLoop fuel' schema lines newIndex
                                    (mset fieldName value acc)
                  end
              end
      end
  end.

(** [Parser.ParseData] with [p.schema = schema].  The loop ends within
    its fuel, see [ParseData_defined]. *)
Definition ParseData (schema : Schema) (dataContent : string)
    : result (list (string * Value)) :=
  match Fields schema with
  | [] => Err ErrNoSchemaLoaded
  | _ :: _ =>
      let lines := strings.Split (strings.TrimSpace dataContent) newline in
      match parseDataLoop (S (length lines)) schema lines 0 [] with
      | Some r => r
      | None => Err ErrNoSchemaLoaded
      end
  end.

(** ** The writer (metadat.go) *)

Definition isSimpleType (t : string) : bool :=
  existsb (String.eqb t)
    ["string"; "int"; "int32"; "int64"; "float32"; "float64"; "bool"].

(** [value.([]interface{})], else [convertToInterfaceSlice(value)]. *)
Definition asArray (value : Value) : option (list Value) :=
  match value with
  | VArray arr => Some arr
  | VSlice _ arr => Some arr
  | _ => None
  end.

(** The values of an object in the order of its type, [|]-joined. *)
Definition pipeJoin (fieldType : option FieldType) (obj : list (string * Value))
    : string :=
  strings.Join
    (flat_map (fun fieldName =>
                 match mget obj fieldName with
                 | Some val => [formatValue val]
                 | None => []
                 end)
              (getObjectFieldOrder fieldType)) "|".

(** [Writer.writeArrayItem] *)
Definition writeArrayItem (item : Value) (itemType : option FieldType)
    (indent : nat) : result string :=
  let indentStr := strings.Repeat "    " indent in
  match itemType with
  | None => Ok (indentStr ++ formatValue item)
  | Some it =>
      if String.eqb (Type_ it) "object" then
        match item with
        | VObject obj => Ok (indentStr ++ pipeJoin itemType obj)
        | _ => Err ErrExpectedObjectInArray
        end
      else Ok (indentStr ++ formatValue item)
  end.

(** [strings.TrimRight(s, "\n")] *)
Definition TrimRightNewlines (s : string) : string :=
  strings.rev
    ((fix drop (r : string) : string :=
        match r with
        | String c r' => if Ascii.eqb c newline then drop r' else r
        | EmptyString => r
        end) (strings.rev s)).

Definition nl : string := String newline "".

Fixpoint writeItems (items : list Value) (itemType : option FieldType)
    (indent : nat) (buffer : string) : result string :=
  match items with
  | [] => Ok buffer
  | item :: items' =>
      match writeArrayItem item itemType indent with
      | Err e => Err e
      | Ok itemStr => writeItems items' itemType indent (buffer ++ itemStr ++ nl)
      end
  end.

(** [Writer.writeField]; the four scalar cases of its [switch] have the
    same body. *)
Definition writeField (name : string) (value : Value) (fieldType : FieldType)
    (indent : nat) : result string :=
  let indentStr := strings.Repeat "    " indent in
  let ty := Type_ fieldType in
  if isSimpleType ty then
    Ok (indentStr ++ name ++ ":" ++ nl ++ indentStr ++ "    "
          ++ formatValue value)
  else if String.eqb ty "array" then
    match asArray value with
    | None => Err (ErrExpectedArrayFor name)
    | Some arr =>
        let buffer :=
          indentStr ++ name ++ "["
            ++ strconv.Itoa (Z.of_nat (length arr)) ++ "]:" in
        match arr with
        | [] => Ok buffer
        | _ :: _ =>
            match ElementType fieldType with
            | Some et =>
                if isSimpleType (Type_ et) then
                  Ok (TrimRightNewlines
                        (buffer ++ " "
                           ++ strings.Join (map formatValue arr) "|"))
                else
                  match writeItems arr (Some et) (indent + 1) (buffer ++ nl) with
                  | Err e => Err e
                  | Ok text => Ok (TrimRightNewlines text)
                  end
            | None =>
                match writeItems arr None (indent + 1) (buffer ++ nl) with
                | Err e => Err e
                | Ok text => Ok (TrimRightNewlines text)
                end
            end
        end
    end
  else if String.eqb ty "object" then
    match value with
    | VObject obj =>
        Ok (indentStr ++ name ++ ":" ++ nl
              ++ indentStr ++ "    " ++ pipeJoin (Some fieldType) obj)
    | _ => Err (ErrExpectedObjectFor name)
    end
  else Err (ErrUnknownFieldType ty).

(** [Writer.writeData] with [w.schema = schema]. *)
Fixpoint writeDataLoop (schema : Schema) (data : list (string * Value))
    (fieldOrder : list string) (buffer : string) : result string :=
  match fieldOrder with
  | [] => Ok buffer
  | fieldName :: fieldOrder' =>
      match mget (Fields schema) fieldName, mget data fieldName with
      | Some fieldType, Some value =>
          match writeField fieldName value fieldType 0 with
          | Err e => Err (ErrWritingField fieldName e)
          | Ok fieldStr =>
              writeDataLoop schema data fieldOrder'
                (buffer ++ fieldStr
                   ++ (if strings.HasSuffix fieldStr nl then "" else nl))
          end
      | _, _ => writeDataLoop schema data fieldOrder' buffer
      end
  end.

Definition writeData (schema : Schema) (data : list (string * Value))
    : result string :=
  writeDataLoop schema data (GetFieldOrder schema) "".

End Metadat.

Arguments VNil {F}.
Arguments VString {F} s.
Arguments VInt {F} n.
Arguments VInt32 {F} n.
Arguments VInt64 {F} n.
Arguments VBool {F} b.
Arguments VArray {F} l.
Arguments VObject {F} m.
Arguments VSlice {F} ty l.
Arguments VOther {F} ty text.

(** * The vocabulary of the properties *)

(** The byte [c] occurs in [s]. *)
Fixpoint occurs (c : ascii) (s : string) : bool :=
  match s with
  | EmptyString => false
  | String a s' => Ascii.eqb a c || occurs c s'
  end.

(** [c] is the first byte of one of the [runes]. *)
Definition leads (c : ascii) (runes : list string) : bool :=
  existsb (fun r => match r with
                    | String b _ => Ascii.eqb c b
                    | EmptyString => true
                    end) runes.

(** A byte that is neither a delimiter of a data line nor part of a space
    rune. *)
Definition plainByte (c : ascii) : bool :=
  negb (existsb (occurs c) (":" :: "[" :: "]" :: "|" :: strings.spaceRunes)).

(** Every byte of [s] satisfies [p]. *)
Fixpoint allBytes (p : ascii -> bool) (s : string) : bool :=
  match s with
  | EmptyString => true
  | String a s' => p a && allBytes p s'
  end.

(** A field name as data lines can carry it: not empty, of plain bytes. *)
Definition plainName (name : string) : Prop :=
  name <> "" /\ allBytes plainByte name = true.

(** [m[name]] with the zero value for a missing key. *)
Definition fieldAt (fields : list (string * FieldType)) (name : string)
    : FieldType :=
  match mget fields name with
  | Some ft => ft
  | None => zeroFieldType
  end.

(** The names that the lines of a meta section declare, in the order of
    the lines: a line declares a field when, trimmed, it is not blank, is
    not a [#] comment and holds a colon; the name is the trimmed text
    before the first colon. *)
Definition declaredName (line : string) : option string :=
  let line := strings.TrimSpace line in
  if String.eqb line "" then None
  else if strings.HasPrefix line "#" then None
  else if (strings.Index line ":" =? -1)%Z then None
  else Some (strings.TrimSpace (before line (strings.Index line ":"))).

Definition declaredNames (metaContent : string) : list string :=
  flat_map (fun line => match declaredName line with
                        | Some n => [n]
                        | None => []
                        end)
           (strings.Split (strings.TrimSpace metaContent) newline).

(** The type expression of a declaration line: the trimmed text after the
    first colon of the trimmed line. *)
Definition declaredTypeText (line : string) : string :=
  let line := strings.TrimSpace line in
  strings.TrimSpace (after line (strings.Index line ":")).

(** The type of the last of the [lines] that declares [name]. *)
Fixpoint lastDeclared (lines : list string) (name : string)
    : option FieldType :=
  match lines with
  | [] => None
  | line :: rest =>
      match lastDeclared rest name with
      | Some ft => Some ft
      | None =>
          match declaredName line with
          | Some n =>
              if String.eqb n name then
                match parseType (declaredTypeText line) with
                | Ok ft => Some ft
                | Err _ => None
                end
              else None
          | None => None
          end
      end
  end.

(** One line of [Schema.ToString]. *)
Definition declaration (fields : list (string * FieldType)) (name : string)
    : string :=
  "    " ++ name ++ ": " ++ fieldTypeToString (fieldAt fields name) ++ nl.

(** The kinds that inference can produce. *)
Definition inferredKinds : list string :=
  ["string"; "int"; "float64"; "float32"; "bool"; "array"; "object"].

(** The element lines that follow an array header: the lines of the
    indented block, trimmed, without the blank ones. *)
Fixpoint elementLines (rest : list string) : list string :=
  match rest with
  | [] => []
  | line :: rest' =>
      if isIndented line then
        if String.eqb (strings.TrimSpace line) "" then elementLines rest'
        else strings.TrimSpace line :: elementLines rest'
      else []
  end.

(** The scalar kinds other than string. *)
Definition convertedKinds : list string :=
  ["int"; "int32"; "int64"; "float32"; "float64"; "bool"].

(** The text that a loop over the runes of [s] writes back: [s] with
    every byte that starts no well-formed encoding replaced by the
    three bytes of U+FFFD. *)
Definition scrub (s : string) : string := String.concat "" (utf8.runes s).

(** [s] is well-formed UTF-8: writing its runes back gives [s] itself
    (an ill-formed byte would come back as three bytes). *)
Definition wellFormed (s : string) : Prop := scrub s = s.

(** A byte of a multi-byte encoding. *)
Definition high (c : ascii) : bool := negb (utf8.within 0 127 c).

(** The number of bytes of [s] below [0x80]. *)
Fixpoint asciiCount (s : string) : nat :=
  match s with
  | EmptyString => 0
  | String c s' => (if utf8.within 0 127 c then 1 else 0) + asciiCount s'
  end.

(** The loop of [splitObjectFields] run over the bytes of a text
    instead of its runes. *)
Fixpoint splitBytes (objectStr : string) (depth : Z) (current : string)
    (fields : list string) : list string :=
  match objectStr with
  | EmptyString =>
      if (0 <? String.length current)%nat then (fields ++ [current])%list
      else fields
  | String ch rest =>
      if Ascii.eqb ch "{" then
        splitBytes rest (depth + 1) (current ++ String ch "") fields
      else if Ascii.eqb ch "}" then
        splitBytes rest (depth - 1) (current ++ String ch "") fields
      else if Ascii.eqb ch "|" then
        if (depth =? 0)%Z
        then splitBytes rest depth "" (fields ++ [current])%list
        else splitBytes rest depth (current ++ String ch "") fields
      else splitBytes rest depth (current ++ String ch "") fields
  end.

(** The brace depth after [s], read from depth [depth]; [None] when [s]
    has a pipe at depth zero. *)
Fixpoint depthAfter (s : string) (depth : Z) : option Z :=
  match s with
  | EmptyString => Some depth
  | String ch rest =>
      if Ascii.eqb ch "{" then depthAfter rest (depth + 1)
      else if Ascii.eqb ch "}" then depthAfter rest (depth - 1)
      else if Ascii.eqb ch "|" then
        if (depth =? 0)%Z then None else depthAfter rest depth
      else depthAfter rest depth
  end.

(** A field of an object expression: its braces are closed at its end and
    each of its pipes lies inside braces. *)
Definition nestedPipesOnly (s : string) : Prop := depthAfter s 0 = Some 0%Z.

(** A text of several lines. *)
(** A text of several lines. *)
Definition text (ls : list string) : string := strings.Join ls nl.

(** The type [string[]]. *)
Definition stringArray : FieldType :=
  mkFieldType "array" (Some (basic "string")) [] [] "".

(** The schema [tags: string[]]. *)
Definition tagsSchema : Schema := mkSchema [("tags", stringArray)] ["tags"].

(** The type [{id:int|name:string}]. *)
Definition idName : FieldType :=
  mkFieldType "object" None
    [("id", mkFieldType "int" None [] [] "id");
     ("name", mkFieldType "string" None [] [] "name")]
    ["id"; "name"] "".

Section Vocabulary.
Context {F : Floats} {M : Machine}.

(** A value matches a declared type: a string matches [string]; an
    [int], [int32], [int64] or [float64] matches the int kinds; a
    [float32], [float64] or [int] matches the float kinds; a [bool]
    matches [bool]; an [[]interface{}] matches [array] when each of its
    elements matches the element type, where the type has one; a
    [map[string]interface{}] matches [object] when each declared field
    that it holds matches the type of that field.  Nothing matches a
    type of another kind. *)
#[local] Unset Elimination Schemes.
Inductive conforms : Value -> FieldType -> Prop :=
| conforms_string text ft :
    Type_ ft = "string" -> conforms (VString text) ft
| conforms_int n ft :
    isIntType (Type_ ft) = true -> conforms (VInt n) ft
| conforms_int32 n ft :
    isIntType (Type_ ft) = true -> conforms (VInt32 n) ft
| conforms_int64 n ft :
    isIntType (Type_ ft) = true -> conforms (VInt64 n) ft
| conforms_int_float64 x ft :
    isIntType (Type_ ft) = true -> conforms (VFloat64 x) ft
| conforms_float32 x ft :
    isFloatType (Type_ ft) = true -> conforms (VFloat32 x) ft
| conforms_float64 x ft :
    isFloatType (Type_ ft) = true -> conforms (VFloat64 x) ft
| conforms_float_int n ft :
    isFloatType (Type_ ft) = true -> conforms (VInt n) ft
| conforms_bool b ft :
    Type_ ft = "bool" -> conforms (VBool b) ft
| conforms_array arr ft :
    Type_ ft = "array" ->
    (forall et, ElementType ft = Some et ->
                Forall (fun elem => conforms elem et) arr) ->
    conforms (VArray arr) ft
| conforms_object obj ft :
    Type_ ft = "object" ->
    (forall name fieldDef val,
        In (name, fieldDef) (ObjectFields ft) -> mget obj name = Some val ->
        conforms val fieldDef) ->
    conforms (VObject obj) ft.
#[local] Set Elimination Schemes.

(** A present field mismatches its declared type. *)
Definition mismatch (s : Schema) (data : list (string * Value))
    (f : string) : Prop :=
  exists t v, mget (Fields s) f = Some t /\ mget data f = Some v /\
              ~ conforms v t.

(** A field of the value that the schema does not declare. *)
Definition unknown (s : Schema) (data : list (string * Value))
    (f : string) : Prop :=
  In f (keys data) /\ mget (Fields s) f = None.

(** The conversion that [parseValue] applies to the text of a scalar of
    kind [ty]; the error quotes the text as it was before trimming. *)
Definition convertScalar (ty text : string) : result Value :=
  if isIntType ty then
    match strconv.ParseInt (strings.TrimSpace text) with
    | Some val => Ok (VInt val)
    | None => Err (ErrInvalidValue "integer" text)
    end
  else if String.eqb ty "float32" then
    match ParseFloat32 (strings.TrimSpace text) with
    | Some val => Ok (VFloat32 val)
    | None => Err (ErrInvalidValue "float32" text)
    end
  else if String.eqb ty "float64" then
    match ParseFloat64 (strings.TrimSpace text) with
    | Some val => Ok (VFloat64 val)
    | None => Err (ErrInvalidValue "float64" text)
    end
  else
    match strconv.ParseBool (strings.TrimSpace text) with
    | Some val => Ok (VBool val)
    | None => Err (ErrInvalidValue "boolean" text)
    end.

(** The element that [parseElement] reads from a line; nil stands for a
    line that it rejects. *)
Definition elementOf (fieldType : FieldType) (line : string) : Value :=
  match parseElement fieldType line with
  | Ok v => v
  | Err _ => VNil
  end.

(** Infer the schema of [data], write [data] under it, parse the text
    back under the same schema. *)
Definition roundTrip (data : list (string * Value))
    : result (list (string * Value)) :=
  let schema := InferSchemaFromJSON (VObject data) in
  match writeData schema data with
  | Ok text => ParseData schema text
  | Err e => Err e
  end.

End Vocabulary.

(** Induction on a [FieldType], through its element type and the types of
    its fields. *)
Section FieldTypeInduction.
Variable P : FieldType -> Prop.
Hypothesis step :
  forall ty elem fields order name,
    match elem with Some e => P e | None => True end ->
    Forall (fun kv => P (snd kv)) fields ->
    P (mkFieldType ty elem fields order name).

Fixpoint FieldType_nested_ind (ft : FieldType) : P ft :=
  match ft with
  | mkFieldType ty elem fields order name =>
      step ty elem fields order name
        match elem with
        | Some e => FieldType_nested_ind e
        | None => I
        end
        ((fix all (l : list (string * FieldType))
            : Forall (fun kv => P (snd kv)) l :=
            match l with
            | [] => Forall_nil _
            | (k, t) :: l' =>
                Forall_cons (k, t) (FieldType_nested_ind t) (all l')
            end) fields)
  end.
End FieldTypeInduction.

(** [a <= b] on Go strings. *)
Definition notAfter (a b : string) : Prop := strings.ltb b a = false.

(** The number of indented lines at the head of [rest]: the block that
    follows a header line. *)
Fixpoint indentedBlock (rest : list string) : nat :=
  match rest with
  | [] => 0
  | line :: rest' => if isIndented line then S (indentedBlock rest') else 0
  end.

Section Regular.
Context {F : Floats} {M : Machine}.

(** A value without nulls and without values of foreign types, whose
    arrays hold elements of one inferred type and whose objects have no
    key twice. *)
#[local] Unset Elimination Schemes.
Inductive regular : Value -> Prop :=
| regular_string s : regular (VString s)
| regular_int n : regular (VInt n)
| regular_int32 n : regular (VInt32 n)
| regular_int64 n : regular (VInt64 n)
| regular_float32 x : regular (VFloat32 x)
| regular_float64 x : regular (VFloat64 x)
| regular_bool b : regular (VBool b)
| regular_array l :
    Forall regular l ->
    (forall first rest x,
        l = first :: rest -> In x rest ->
        inferFieldType x = inferFieldType first) ->
    regular (VArray l)
| regular_object m :
    wf_map m -> Forall (fun kv => regular (snd kv)) m -> regular (VObject m).
#[local] Set Elimination Schemes.

End Regular.

(** Induction on a [Value], through the elements of its arrays and the
    fields of its objects. *)
Section ValueInduction.
Context {F : Floats} {M : Machine}.
Variable P : Value -> Prop.
Hypothesis leaf :
  forall v,
    match v with
    | VArray _ | VObject _ | VSlice _ _ => False
    | _ => True
    end -> P v.
Hypothesis array : forall l, Forall P l -> P (VArray l).
Hypothesis object : forall m, Forall (fun kv => P (snd kv)) m -> P (VObject m).
Hypothesis slice : forall ty l, Forall P l -> P (VSlice ty l).

Fixpoint Value_nested_ind (v : Value) : P v :=
  let all :=
    fix all (l : list Value) : Forall P l :=
      match l with
      | [] => Forall_nil _
      | x :: l' => Forall_cons x (Value_nested_ind x) (all l')
      end in
  match v with
  | VArray l => array l (all l)
  | VSlice ty l => slice ty l (all l)
  | VObject m =>
      object m
        ((fix each (m : list (string * Value))
            : Forall (fun kv => P (snd kv)) m :=
            match m with
            | [] => Forall_nil _
            | (k, x) :: m' => Forall_cons (k, x) (Value_nested_ind x) (each m')
            end) m)
  | VNil => leaf VNil I
  | VString s => leaf (VString s) I
  | VInt n => leaf (VInt n) I
  | VInt32 n => leaf (VInt32 n) I
  | VInt64 n => leaf (VInt64 n) I
  | VFloat32 x => leaf (VFloat32 x) I
  | VFloat64 x => leaf (VFloat64 x) I
  | VBool b => leaf (VBool b) I
  | VOther ty text => leaf (VOther ty text) I
  end.
End ValueInduction.

(** A text that [strings.TrimSpace] leaves as it is: it neither starts
    nor ends with white space. *)
Definition tidy (s : string) : Prop := strings.TrimSpace s = s.

(** The bytes of a decimal numeral. *)
Definition numeralByte (c : ascii) : bool :=
  strconv.isDigit c || Ascii.eqb c "-".

(** The range of [int64]. *)
Definition int64 (n : Z) : Prop := (- 2 ^ 63 <= n <= 2 ^ 63 - 1)%Z.

(** The text of the lines [ls], each ended by a newline. *)
Definition unlines (ls : list string) : string :=
  fold_right (fun l acc => l ++ nl ++ acc) "" ls.

(** Two maps with the same value at every key. *)
Definition sameFields {V : Type} (m m' : list (string * V)) : Prop :=
  forall k, mget m' k = mget m k.

Section RoundTripVocabulary.
Context {F : Floats} {M : Machine}.

(** A scalar that a data line carries unchanged under the type [ty]: a
    string without white space around it, not empty and of one line; an
    integer of the [int64] range under an integer type; a boolean. *)
Definition scalarFits (ty : string) (v : Value) : Prop :=
  match v with
  | VString s =>
      ty = "string" /\ tidy s /\ s <> "" /\ occurs newline s = false
  | VInt n => isIntType ty = true /\ int64 n
  | VBool _ => ty = "bool"
  | _ => False
  end.

(** The lines [block] of a field, wherever they stand in a data section
    before the end or a line that is not indented, are read by one round
    of the loop of [ParseData] as the value [v] of the field [name]. *)
Definition readsBack (schema : Schema) (name : string) (block : list string)
    (v : Value) : Prop :=
  forall fuel pre post acc,
    match post with
    | [] => True
    | next :: _ => isIndented next = false
    end ->
    parseDataLoop (S fuel) schema (pre ++ block ++ post)%list (length pre) acc
    = parseDataLoop fuel schema (pre ++ block ++ post)%list
                    (length pre + length block) (mset name v acc).

(** The lines that the writer gives a field: the first starts with a byte
    that starts no white space, none holds a newline, and the last is
    not empty and ends on a byte that ends no white space. *)
Definition fieldLines (block : list string) : Prop :=
  (exists c0 pre rest,
      block = String c0 pre :: rest /\ leads c0 strings.spaceRunes = false)
  /\ Forall (fun l => occurs newline l = false) block
  /\ last block "" <> ""
  /\ strings.dropRune (map strings.rev strings.spaceRunes)
                      (strings.rev (last block "")) = None.

(** What the writer puts out for the present fields of [data], in the
    order [fieldOrder]: for each one its name, its lines [block] and the
    value [back] that the lines are read back as. *)
Definition written (schema : Schema) (data : list (string * Value))
    (block : string -> FieldType -> Value -> list string)
    (back : FieldType -> Value -> Value) (fieldOrder : list string)
    : list (string * list string * Value) :=
  flat_map (fun name =>
              match mget (Fields schema) name, mget data name with
              | Some ft, Some v => [(name, block name ft v, back ft v)]
              | _, _ => []
              end) fieldOrder.

End RoundTripVocabulary.

(** The header line of an array of [n] elements: [name[n]:]. *)
Definition arrayHeader (name : string) (n : nat) : string :=
  (name ++ "[" ++ strconv.Itoa (Z.of_nat n) ++ "]") ++ ":".

(** A text that a pipe-separated line carries unchanged. *)
Definition pipeText (s : string) : Prop :=
  tidy s /\ occurs "|" s = false /\ occurs newline s = false.

Section NestedVocabulary.
Context {F : Floats} {M : Machine}.

(** A scalar that a pipe-separated line carries unchanged under the type
    [ty]. *)
Definition pipeFits (ty : string) (v : Value) : Prop :=
  match v with
  | VString s => ty = "string" /\ pipeText s
  | VInt n => isIntType ty = true /\ int64 n
  | VBool _ => ty = "bool"
  | _ => False
  end.

(** [obj[name]], nil for a missing key. *)
Definition valueAt (obj : list (string * Value)) (name : string) : Value :=
  match mget obj name with
  | Some v => v
  | None => VNil
  end.

(** An object that one pipe-separated line carries under the object type
    [ft]: the type has two fields or more, none twice; the object holds
    the fields of the type and no other, each a scalar that a
    pipe-separated line carries under the kind of the field. *)
Definition objectFits (ft : FieldType) (obj : list (string * Value)) : Prop :=
  let order := getObjectFieldOrder (Some ft) in
  NoDup order /\ (2 <= length order)%nat
  /\ (forall name,
         In name order ->
         exists v, mget obj name = Some v
                   /\ pipeFits (fieldKind (ObjectFields ft) name) v)
  /\ (forall name, In name (keys obj) -> In name order).

(** The fields of [obj] in the order of the object type [ft]. *)
Definition inOrder (ft : FieldType) (obj : list (string * Value))
    : list (string * Value) :=
  fold_left (fun acc name => mset name (valueAt obj name) acc)
            (getObjectFieldOrder (Some ft)) [].

(** The values of a field that the data format carries. *)
Inductive fieldFits (ft : FieldType) : Value -> Prop :=
| fits_scalar v : scalarFits (Type_ ft) v -> fieldFits ft v
| fits_empty_array : Type_ ft = "array" -> fieldFits ft (VArray [])
| fits_strings et texts :
    Type_ ft = "array" -> ElementType ft = Some et ->
    isSimpleType (Type_ et) = true ->
    (2 <= length texts)%nat -> int64 (Z.of_nat (length texts)) ->
    Forall pipeText texts ->
    fieldFits ft (VArray (map VString texts))
| fits_objects et objs :
    Type_ ft = "array" -> ElementType ft = Some et -> Type_ et = "object" ->
    objs <> [] -> (Z.of_nat (length objs) <= maxCap)%Z ->
    Forall (objectFits et) objs ->
    fieldFits ft (VArray (map VObject objs))
| fits_object obj :
    Type_ ft = "object" -> objectFits ft obj -> fieldFits ft (VObject obj).

(** The same value, for the maps in it up to the order of their keys. *)
Definition sameElement (x x' : Value) : Prop :=
  match x, x' with
  | VObject o, VObject o' => sameFields o o'
  | _, _ => x = x'
  end.

Definition sameValue (v v' : Value) : Prop :=
  match v, v' with
  | VArray l, VArray l' => Forall2 sameElement l l'
  | _, _ => sameElement v v'
  end.

(** What a field that fits is read back as: its objects come back with
    their fields in the order of the type. *)
Definition readAs (ft : FieldType) (v : Value) : Value :=
  match v with
  | VObject obj => VObject (inOrder ft obj)
  | VArray l =>
      match objectElement ft with
      | Some et =>
          VArray (map (fun x => match x with
                                | VObject o => VObject (inOrder et o)
                                | _ => x
                                end) l)
      | None => v
      end
  | _ => v
  end.

(** The lines that the writer gives a field that fits. *)
Definition linesOf (name : string) (ft : FieldType) (v : Value)
    : list string :=
  match writeField name v ft 0 with
  | Ok fieldStr => strings.Split fieldStr newline
  | Err _ => []
  end.

End NestedVocabulary.

(** [ft] under the name [name]. *)
Definition named (name : string) (ft : FieldType) : FieldType :=
  mkFieldType (Type_ ft) (ElementType ft) (ObjectFields ft) (ObjectOrder ft)
              name.

(** The names in the order of their first occurrence, each once: the keys
    of a map that was filled by assignments to these names. *)
Definition firstOccurrences (names : list string) : list string :=
  fold_left (fun ks k => if existsb (String.eqb k) ks then ks
                         else (ks ++ [k])%list) names [].

(** The shape of the types that [parseType] builds: a basic type; an
    array of a type of that shape; an object whose map holds the names of
    its order, whose field names are trimmed and hold no colon, and
    whose fields are types of that shape that carry their names. *)
#[local] Unset Elimination Schemes.
Inductive parsedType : FieldType -> Prop :=
| parsed_basic t name :
    isBasicType t = true -> parsedType (mkFieldType t None [] [] name)
| parsed_array e name :
    parsedType e -> Name e = "" ->
    parsedType (mkFieldType "array" (Some e) [] [] name)
| parsed_object fields order name :
    keys fields = firstOccurrences order ->
    (forall k ft,
        In (k, ft) fields ->
        parsedType ft /\ Name ft = k /\ tidy k /\ occurs ":" k = false) ->
    parsedType (mkFieldType "object" None fields order name).
#[local] Set Elimination Schemes.

(** The field names of [ft], at every depth. *)
Fixpoint fieldNames (ft : FieldType) : list string :=
  match ft with
  | mkFieldType _ elem fields _ _ =>
      (match elem with
       | Some e => fieldNames e
       | None => []
       end
       ++ (fix each (l : list (string * FieldType)) : list string :=
             match l with
             | [] => []
             | (k, t) :: l' => k :: (fieldNames t ++ each l')
             end) fields)%list
  end.

(** A field name that an object expression carries as it is:
    well-formed UTF-8, without brace and pipe. *)
Definition bareName (k : string) : Prop :=
  wellFormed k /\ occurs "{" k = false /\ occurs "}" k = false
  /\ occurs "|" k = false.

(** A text that neither starts nor ends with a byte of a space rune. *)
Definition goodEnds (s : string) : Prop :=
  exists c0 pre cl post,
    s = String c0 pre /\ strings.rev s = String cl post
    /\ leads c0 strings.spaceRunes = false
    /\ leads cl (map strings.rev strings.spaceRunes) = false.

(** Induction on a parsed type, through its element type and the types
    of its fields. *)
Section ParsedTypeInduction.
Variable P : FieldType -> Prop.
Hypothesis basic_step :
  forall t name, isBasicType t = true -> P (mkFieldType t None [] [] name).
Hypothesis array_step :
  forall e name,
    parsedType e -> P e -> Name e = "" ->
    P (mkFieldType "array" (Some e) [] [] name).
Hypothesis object_step :
  forall fields order name,
    keys fields = firstOccurrences order ->
    (forall k ft,
        In (k, ft) fields ->
        (parsedType ft /\ P ft)
        /\ Name ft = k /\ tidy k /\ occurs ":" k = false) ->
    P (mkFieldType "object" None fields order name).

Fixpoint parsedType_nested_ind (ft : FieldType) (H : parsedType ft) : P ft :=
  match H with
  | parsed_basic t name Hb => basic_step t name Hb
  | parsed_array e name He Hn =>
      array_step e name He (parsedType_nested_ind e He) Hn
  | parsed_object fields order name Hk Hall =>
      object_step fields order name Hk
        (fun k t Hin =>
           match Hall k t Hin with
           | conj Hp Hrest => conj (conj Hp (parsedType_nested_ind t Hp)) Hrest
           end)
  end.
End ParsedTypeInduction.

(** A text without a line break. *)
Definition oneLine (k : string) : Prop := occurs newline k = false.

(** A field name that a line of the meta section carries as it is: it
    opens no comment, and it has no white space around it, no colon and
    no line break. *)
Definition lineName (k : string) : Prop :=
  strings.HasPrefix k "#" = false
  /\ tidy k /\ occurs ":" k = false /\ oneLine k.

(** The schema as [parseSchema] builds it: the map holds the names of
    the order, each of them a name of a line, and the types are parsed
    types without a name, whose field names have no line break. *)
Definition parsedSchema (s : Schema) : Prop :=
  keys (Fields s) = firstOccurrences (FieldOrder s)
  /\ forall k ft,
       In (k, ft) (Fields s) ->
       parsedType ft /\ Name ft = "" /\ lineName k
       /\ Forall oneLine (fieldNames ft).

(** A text that ends with a byte that ends no space rune. *)
Definition goodEnd (l : string) : Prop :=
  exists cl post,
    strings.rev l = String cl post
    /\ leads cl (map strings.rev strings.spaceRunes) = false.

(** * Properties *)

(** ** The library functions at a few inputs *)

Example TrimSpace_ex : strings.TrimSpace "  a b	 " = "a b".
Proof. reflexivity. Qed.
Example Split_ex : strings.Split "a||b|" "|" = ["a"; ""; "b"; ""].
Proof. reflexivity. Qed.
Example Index_ex : strings.Index "name[3]: x" "[" = 4%Z.
Proof. reflexivity. Qed.
Example Atoi_ex : strconv.Atoi "-12" = Some (-12)%Z /\ strconv.Atoi "1_0" = None
                  /\ strconv.Atoi "" = None /\ strconv.Itoa (-7) = "-7".
Proof. repeat split. Qed.

(** The runes of [a], the ill-formed byte [FF], U+00E9 and the three
    bytes of a surrogate, which no encoding holds. *)
Example runes_ex :
  utf8.runes (strings.bytes [97; 255; 195; 169; 237; 160; 128])
  = ["a"; utf8.RuneError; strings.bytes [195; 169];
     utf8.RuneError; utf8.RuneError; utf8.RuneError].
Proof. reflexivity. Qed.

(** An ill-formed byte comes back from [splitObjectFields] as U+FFFD. *)
Example splitObjectFields_ex :
  splitObjectFields (strings.bytes [97; 58; 255; 124; 98])
  = [strings.bytes [97; 58; 239; 191; 189]; "b"].
Proof. reflexivity. Qed.

Example sortNames_ex : sortNames ["b"; "c"; "a"; "ab"] = ["a"; "ab"; "b"; "c"].
Proof. reflexivity. Qed.

Example parseType_ex :
  parseType " {id:int|name:string}[] " =
  Ok (mkFieldType "array"
        (Some (mkFieldType "object" None
                 [("id", mkFieldType "int" None [] [] "id");
                  ("name", mkFieldType "string" None [] [] "name")]
                 ["id"; "name"] ""))
        [] [] "").
Proof. reflexivity. Qed.

Example parseType_empty_array : parseType "[]" = Err (ErrUnknownType "").
Proof. reflexivity. Qed.

(** ** Go maps *)

Section GoMapFacts.
Context {V : Type}.
Implicit Types (m : list (string * V)) (k : string) (v : V).

Lemma mget_In m k v : mget m k = Some v -> In (k, v) m.
Proof.
  induction m as [|[k' v'] m IH]; simpl; [discriminate|].
  destruct (String.eqb_spec k' k) as [->|Hne]; intros H.
  - injection H as ->. now left.
  - right. now apply IH.
Qed.

Lemma In_mget m k v : wf_map m -> In (k, v) m -> mget m k = Some v.
Proof.
  unfold wf_map, keys.
  induction m as [|[k' v'] m IH]; simpl; intros Hnd Hin; [contradiction|].
  inversion Hnd as [|? ? Hnotin Hnd']; subst.
  destruct Hin as [Heq|Hin].
  - injection Heq as -> ->. now rewrite String.eqb_refl.
  - destruct (String.eqb_spec k' k) as [->|Hne].
    + exfalso. apply Hnotin. now apply (in_map fst) in Hin.
    + now apply IH.
Qed.

Lemma mget_None_iff m k : mget m k = None <-> ~ In k (keys m).
Proof.
  unfold keys.
  induction m as [|[k' v'] m IH]; simpl.
  - tauto.
  - destruct (String.eqb_spec k' k) as [->|Hne].
    + split; [discriminate|]. intros H. exfalso. apply H. now left.
    + rewrite IH. split; intros H; [intros [Heq|Hin]|]; tauto.
Qed.

Lemma mget_mset_eq m k v : mget (mset k v m) k = Some v.
Proof.
  induction m as [|[k' v'] m IH]; simpl.
  - now rewrite String.eqb_refl.
  - destruct (String.eqb_spec k' k) as [->|Hne]; simpl.
    + now rewrite String.eqb_refl.
    + destruct (String.eqb_spec k' k); [contradiction|exact IH].
Qed.

Lemma mget_mset_ne m k k' v : k <> k' -> mget (mset k v m) k' = mget m k'.
Proof.
  intros Hne.
  induction m as [|[k0 v0] m IH]; simpl.
  - destruct (String.eqb_spec k k'); [contradiction|reflexivity].
  - destruct (String.eqb_spec k0 k) as [->|Hne0]; simpl.
    + destruct (String.eqb_spec k k'); [contradiction|reflexivity].
    + destruct (String.eqb_spec k0 k'); [reflexivity|exact IH].
Qed.

(** Two lists that hold the same entries of a map, in whatever order,
    answer every lookup alike. *)
Lemma mget_Permutation m m' k :
  wf_map m -> Permutation m m' -> mget m' k = mget m k.
Proof.
  intros Hwf Hperm.
  assert (Hwf' : wf_map m').
  { unfold wf_map, keys in *.
    eapply Permutation_NoDup; [|exact Hwf]. now apply Permutation_map. }
  destruct (mget m k) as [v|] eqn:Hm.
  - apply In_mget; [exact Hwf'|].
    eapply Permutation_in; [exact Hperm|]. now apply mget_In.
  - apply mget_None_iff. apply mget_None_iff in Hm. intros Hin. apply Hm.
    unfold keys in *. eapply Permutation_in; [|exact Hin].
    apply Permutation_map. now apply Permutation_sym.
Qed.
End GoMapFacts.

(** ** The validator *)

Section ValidatorFacts.
Context {F : Floats} {M : Machine}.
Implicit Types (s : Schema) (data : list (string * Value)).

Lemma validateFields_None fields data :
  validateFields fields data = None ->
  forall f t v, In (f, t) fields -> mget data f = Some v ->
                validateValue v t = None.
Proof.
  induction fields as [|[f0 t0] fields IH]; simpl; intros H f t v Hin Hv.
  - contradiction.
  - destruct Hin as [Heq|Hin].
    + injection Heq as -> ->. rewrite Hv in H.
      destruct (validateValue v t); [discriminate|reflexivity].
    + destruct (mget data f0) as [v0|].
      * destruct (validateValue v0 t0); [discriminate|]. eauto.
      * eauto.
Qed.

Lemma validateFields_Some fields data err :
  validateFields fields data = Some err ->
  exists f t v e, In (f, t) fields /\ mget data f = Some v /\
                  validateValue v t = Some e /\ err = ErrValidation f e.
Proof.
  induction fields as [|[f0 t0] fields IH]; simpl; intros H.
  - discriminate.
  - destruct (mget data f0) as [v0|] eqn:Hv0.
    + destruct (validateValue v0 t0) as [e0|] eqn:He0.
      * injection H as <-. exists f0, t0, v0, e0. auto.
      * destruct (IH H) as (f & t & v & e & Hin & ?). exists f, t, v, e. auto.
    + destruct (IH H) as (f & t & v & e & Hin & ?). exists f, t, v, e. auto.
Qed.

Lemma unknownFields_None s names :
  unknownFields s names = None ->
  forall f, In f names -> mget (Fields s) f <> None.
Proof.
  induction names as [|n names IH]; simpl; intros H f Hin; [contradiction|].
  destruct (mget (Fields s) n) as [ft|] eqn:Hn; [|discriminate].
  destruct Hin as [<-|Hin]; [congruence|eauto].
Qed.

Lemma unknownFields_Some s names err :
  unknownFields s names = Some err ->
  exists f, In f names /\ mget (Fields s) f = None /\ err = ErrUnknownField f.
Proof.
  induction names as [|n names IH]; simpl; intros H; [discriminate|].
  destruct (mget (Fields s) n) as [ft|] eqn:Hn.
  - destruct (IH H) as (f & Hin & ?). exists f. auto.
  - injection H as <-. exists n. auto.
Qed.

(** What [validateValue] accepts at the scalar kinds. *)
Lemma validateValue_scalar (value : Value) (fieldType : FieldType) :
  (Type_ fieldType = "string" ->
   validateValue value fieldType =
   match value with
   | VString _ => None
   | _ => Some (ErrExpected "string" (typeName value))
   end)
  /\ (isIntType (Type_ fieldType) = true ->
      validateValue value fieldType =
      match value with
      | VInt _ | VInt32 _ | VInt64 _ | VFloat64 _ => None
      | _ => Some (ErrExpected "integer" (typeName value))
      end)
  /\ (isFloatType (Type_ fieldType) = true ->
      validateValue value fieldType =
      match value with
      | VFloat32 _ | VFloat64 _ | VInt _ => None
      | _ => Some (ErrExpected "float" (typeName value))
      end)
  /\ (Type_ fieldType = "bool" ->
      validateValue value fieldType =
      match value with
      | VBool _ => None
      | _ => Some (ErrExpected "bool" (typeName value))
      end).
Proof.
  destruct fieldType as [ty elem fs order name]. cbn [Type_].
  repeat split.
  - intros ->. reflexivity.
  - unfold isIntType. cbn [existsb]. intros H.
    repeat (apply orb_prop in H; destruct H as [H|H]);
      try discriminate H; apply String.eqb_eq in H; subst ty; reflexivity.
  - unfold isFloatType. cbn [existsb]. intros H.
    repeat (apply orb_prop in H; destruct H as [H|H]);
      try discriminate H; apply String.eqb_eq in H; subst ty; reflexivity.
  - intros ->. reflexivity.
Qed.

Lemma kinds_disjoint ty :
  (isIntType ty = true -> isFloatType ty = false)
  /\ (isIntType ty = true ->
      ty <> "string" /\ ty <> "bool" /\ ty <> "array" /\ ty <> "object")
  /\ (isFloatType ty = true ->
      ty <> "string" /\ ty <> "bool" /\ ty <> "array" /\ ty <> "object").
Proof.
  unfold isIntType, isFloatType. cbn [existsb].
  split; [|split]; intros Hk;
    repeat (apply orb_prop in Hk; destruct Hk as [Hk|Hk]);
    try discriminate Hk; apply String.eqb_eq in Hk; subst ty;
    repeat split; (reflexivity || discriminate).
Qed.

(** The loops of [validateValue] over the elements of an array and the
    fields of an object. *)
Lemma validateValue_elements (P : Value -> Prop) (et : FieldType) (arr : list Value) :
  (forall v, validateValue v et = None <-> P v) ->
  forall i,
    (fix elems (i : nat) (arr : list Value) : option error :=
       match arr with
       | [] => None
       | elem :: arr' =>
           match validateValue elem et with
           | Some err => Some (ErrArrayElement i err)
           | None => elems (S i) arr'
           end
       end) i arr = None
    <-> Forall P arr.
Proof.
  intros HP. induction arr as [|x arr IH]; intros i.
  - split; [constructor|reflexivity].
  - destruct (validateValue x et) as [e|] eqn:E.
    + split; [discriminate|]. intros H. apply Forall_cons_iff in H.
      destruct H as (Hx & _). apply HP in Hx. congruence.
    + rewrite IH, Forall_cons_iff. pose proof (proj1 (HP x) E). tauto.
Qed.

Lemma validateValue_fields (P : Value -> FieldType -> Prop)
      (obj : list (string * Value)) (fields : list (string * FieldType)) :
  Forall (fun kv => forall v, validateValue v (snd kv) = None <-> P v (snd kv))
         fields ->
  (fix each (fs : list (string * FieldType)) : option error :=
     match fs with
     | [] => None
     | (fieldName, fieldDef) :: fs' =>
         match mget obj fieldName with
         | Some val =>
             match validateValue val fieldDef with
             | Some err => Some (ErrObjectField fieldName err)
             | None => each fs'
             end
         | None => each fs'
         end
     end) fields = None
  <-> (forall name fieldDef val,
          In (name, fieldDef) fields -> mget obj name = Some val ->
          P val fieldDef).
Proof.
  induction fields as [|[k t] fields IH]; intros HP.
  - split; [intros _ ? ? ? []|reflexivity].
  - apply Forall_cons_iff in HP. destruct HP as (Ht & HP). cbn [snd] in Ht.
    specialize (IH HP).
    destruct (mget obj k) as [val|] eqn:Ek.
    + destruct (validateValue val t) as [e|] eqn:E.
      * split; [discriminate|]. intros H.
        pose proof (proj2 (Ht val) (H k t val (or_introl eq_refl) Ek)).
        congruence.
      * rewrite IH. split.
        -- intros H name fieldDef v [[= <- <-]|Hin] Hv.
           ++ rewrite Ek in Hv. injection Hv as <-. now apply Ht.
           ++ now apply (H name fieldDef).
        -- intros H name fieldDef v Hin. apply H. now right.
    + rewrite IH. split.
      * intros H name fieldDef v [[= <- <-]|Hin] Hv; [congruence|].
        now apply (H name fieldDef).
      * intros H name fieldDef v Hin. apply H. now right.
Qed.

(** [validateValue] accepts exactly the values that match the type. *)
Lemma validateValue_conforms (fieldType : FieldType) :
  forall value, validateValue value fieldType = None <-> conforms value fieldType.
Proof.
  induction fieldType as [ty elem fields order name IHelem IHfields]
    using FieldType_nested_ind.
  intros v.
  destruct (kinds_disjoint ty) as (Hif & Hi & Hf).
  cbn [validateValue].
  destruct (String.eqb_spec ty "string") as [->|Hs].
  { split.
    - destruct v; try discriminate. intros _. now constructor.
    - intros H. inversion H; subst; cbn [Type_] in *;
        reflexivity || discriminate. }
  destruct (isIntType ty) eqn:Ei.
  { destruct (Hi eq_refl) as (_ & Hb & Ha & Ho). specialize (Hif eq_refl).
    split.
    - destruct v; try discriminate; intros _; now constructor.
    - intros H. inversion H; subst; cbn [Type_] in *;
        reflexivity || congruence. }
  destruct (isFloatType ty) eqn:Ef.
  { destruct (Hf eq_refl) as (_ & Hb & Ha & Ho).
    split.
    - destruct v; try discriminate; intros _; now constructor.
    - intros H. inversion H; subst; cbn [Type_] in *;
        reflexivity || congruence. }
  destruct (String.eqb_spec ty "bool") as [->|Hb].
  { split.
    - destruct v; try discriminate. intros _. now constructor.
    - intros H. inversion H; subst; cbn [Type_] in *;
        reflexivity || discriminate. }
  destruct (String.eqb_spec ty "array") as [->|Ha].
  { split.
    - destruct v; try discriminate. intros H.
      apply conforms_array; [reflexivity|]. cbn [ElementType]. intros et ->.
      now apply (validateValue_elements _ et l (IHelem)) in H.
    - intros H. inversion H as [| | | | | | | | |arr ft Hty Hall|];
        subst; cbn [Type_ ElementType] in *; try discriminate.
      destruct elem as [et|]; [|reflexivity].
      apply (validateValue_elements _ et arr (IHelem)).
      now apply Hall. }
  destruct (String.eqb_spec ty "object") as [->|Ho].
  { split.
    - destruct v; try discriminate. intros H.
      apply conforms_object; [reflexivity|]. cbn [ObjectFields].
      now apply (validateValue_fields conforms m fields IHfields).
    - intros H. inversion H as [| | | | | | | | | |obj ft Hty Hall];
        subst; cbn [Type_ ObjectFields] in *; try discriminate.
      now apply (validateValue_fields conforms obj fields IHfields). }
  split; [discriminate|].
  intros H. inversion H; subst; cbn [Type_] in *; congruence.
Qed.

(** C6 (as amended).  Validation checks the declared fields first and
    the unknown ones after: if some present field mismatches its
    declared type, the result is a validation error that names a
    mismatching field; if none does and the value has a field that the
    schema lacks, the result is an unknown-field error that names such
    a field; if neither is the case validation succeeds, whichever
    declared fields the value leaves out.  A field mismatches when its
    value does not match the declared type, at a scalar kind, at an
    array type, at an object type or at a type of an unknown kind, see
    [conforms]. *)
Theorem ValidateData_order_of_checks s data :
  wf_map (Fields s) ->
  ((exists f, mismatch s data f) ->
   exists f e, mismatch s data f /\
               ValidateData s data = Some (ErrValidation f e))
  /\ ((forall f, ~ mismatch s data f) ->
      (exists f, unknown s data f) ->
      exists f, unknown s data f /\
                ValidateData s data = Some (ErrUnknownField f))
  /\ ((forall f, ~ mismatch s data f) ->
      (forall f, ~ unknown s data f) ->
      ValidateData s data = None).
Proof.
  intros Hwf. unfold ValidateData.
  assert (Hnone : (forall f, ~ mismatch s data f) ->
                  validateFields (Fields s) data = None).
  { intros Hno. destruct (validateFields (Fields s) data) as [err|] eqn:Hv;
      [|reflexivity].
    apply validateFields_Some in Hv.
    destruct Hv as (f & t & v & e & Hin & Hv & He & _).
    exfalso. apply (Hno f). exists t, v. split; [now apply In_mget|].
    split; [exact Hv|]. intros Hc. apply validateValue_conforms in Hc.
    congruence. }
  split; [|split].
  - intros (f & t & v & Ht & Hv & Hc).
    destruct (validateFields (Fields s) data) as [err|] eqn:Hvf.
    + apply validateFields_Some in Hvf.
      destruct Hvf as (f' & t' & v' & e' & Hin & Hv' & He' & ->).
      exists f', e'. split; [|reflexivity].
      exists t', v'. split; [now apply In_mget|]. split; [exact Hv'|].
      intros Hc'. apply validateValue_conforms in Hc'. congruence.
    + exfalso. apply Hc. apply validateValue_conforms. apply mget_In in Ht.
      exact (validateFields_None _ _ Hvf _ _ _ Ht Hv).
  - intros Hno (f & Hin & Hf). rewrite (Hnone Hno).
    destruct (unknownFields s (keys data)) as [err|] eqn:Hu.
    + apply unknownFields_Some in Hu. destruct Hu as (f' & Hin' & Hf' & ->).
      exists f'. split; [split; assumption|reflexivity].
    + exfalso. exact (unknownFields_None _ _ Hu _ Hin Hf).
  - intros Hno Hnu. rewrite (Hnone Hno).
    destruct (unknownFields s (keys data)) as [err|] eqn:Hu; [|reflexivity].
    apply unknownFields_Some in Hu. destruct Hu as (f' & Hin' & Hf' & _).
    exfalso. apply (Hnu f'). split; assumption.
Qed.
End ValidatorFacts.

(** ** Rendering *)

Lemma mget_each {A B : Type} (f : A -> B) (m : list (string * A)) (k : string) :
  mget ((fix each (l : list (string * A)) : list (string * B) :=
           match l with
           | [] => []
           | (k', t) :: l' => (k', f t) :: each l'
           end) m) k
  = option_map f (mget m k).
Proof.
  induction m as [|[k' t] m IH]; simpl; [reflexivity|].
  destruct (String.eqb k' k); [reflexivity|exact IH].
Qed.

(** The equation of [fieldTypeToString] on an object type, as the source
    has it: each name is looked up in [ObjectFields]. *)
Lemma fieldTypeToString_object elem fields order name :
  fieldTypeToString (mkFieldType "object" elem fields order name) =
  "{" ++ strings.Join
           (map (fun n => n ++ ":" ++ fieldTypeToString (fieldAt fields n))
                match order with
                | _ :: _ => order
                | [] => sortNames (keys fields)
                end) "|" ++ "}".
Proof.
  cbn [fieldTypeToString String.eqb Ascii.eqb Bool.eqb].
  f_equal. f_equal. f_equal. apply map_ext. intros n. do 2 f_equal.
  rewrite mget_each. unfold fieldAt.
  destruct (mget fields n); reflexivity.
Qed.

Lemma fieldAt_Permutation fields fields' name :
  wf_map fields -> Permutation fields fields' ->
  fieldAt fields' name = fieldAt fields name.
Proof.
  intros Hwf Hp. unfold fieldAt. now rewrite (mget_Permutation _ _ name Hwf Hp).
Qed.

Lemma parseSchemaLines_FieldOrder lines s0 s :
  parseSchemaLines lines s0 = Ok s ->
  FieldOrder s =
  (FieldOrder s0 ++
   flat_map (fun line => match declaredName line with
                         | Some n => [n]
                         | None => []
                         end) lines)%list.
Proof.
  revert s0. induction lines as [|line lines IH]; simpl; intros s0 H.
  - injection H as <-. now rewrite app_nil_r.
  - unfold declaredName.
    destruct (String.eqb (strings.TrimSpace line) ""); simpl in *.
    { now apply IH. }
    destruct (strings.HasPrefix (strings.TrimSpace line) "#"); simpl in *.
    { now apply IH. }
    destruct (strings.Index (strings.TrimSpace line) ":" =? -1)%Z.
    { now apply IH. }
    destruct (parseType _) as [ft|e]; [|discriminate].
    rewrite (IH _ H). simpl. now rewrite <- app_assoc.
Qed.

(** C3.  A schema that records a field order renders its declarations in
    exactly that order, whatever the order in which the field map is
    stored or visited; a schema read from a meta section records the
    names in the order of its declaration lines; and an object type that
    records a field order renders its fields in that order, again
    whatever the order of its field map. *)
Theorem rendering_keeps_declaration_order :
  (forall s s' : Schema,
      FieldOrder s <> [] -> wf_map (Fields s) ->
      Permutation (Fields s) (Fields s') -> FieldOrder s' = FieldOrder s ->
      ToString s' =
      String.concat "" (map (declaration (Fields s)) (FieldOrder s)))
  /\ (forall metaContent s,
         parseSchema metaContent = Ok s -> declaredNames metaContent <> [] ->
         ToString s =
         String.concat ""
           (map (declaration (Fields s)) (declaredNames metaContent)))
  /\ (forall elem fields fields' order name,
         order <> [] -> wf_map fields -> Permutation fields fields' ->
         fieldTypeToString (mkFieldType "object" elem fields' order name) =
         "{" ++ strings.Join
                  (map (fun n =>
                          n ++ ":" ++ fieldTypeToString (fieldAt fields n))
                       order) "|" ++ "}").
Proof.
  split; [|split].
  - intros s s' Hne Hwf Hp Ho. unfold ToString, GetFieldOrder. rewrite Ho.
    destruct (FieldOrder s) as [|n0 ns] eqn:Hfo; [contradiction|].
    f_equal. apply map_ext. intros n. unfold declaration.
    now rewrite <- (fieldAt_Permutation _ _ n Hwf Hp).
  - intros metaContent s Hparse Hne. unfold parseSchema in Hparse.
    apply parseSchemaLines_FieldOrder in Hparse. simpl in Hparse.
    fold (declaredNames metaContent) in Hparse.
    unfold ToString, GetFieldOrder. rewrite Hparse.
    destruct (declaredNames metaContent) as [|n0 ns]; [contradiction|].
    reflexivity.
  - intros elem fields fields' order name Hne Hwf Hp.
    rewrite fieldTypeToString_object.
    destruct order as [|n0 ns]; [contradiction|].
    do 3 f_equal. apply map_ext. intros n.
    now rewrite (fieldAt_Permutation _ _ n Hwf Hp).
Qed.

(** ** Duplicate declarations *)

Lemma parseSchemaLines_Fields lines :
  forall s0 s,
    parseSchemaLines lines s0 = Ok s ->
    forall name,
      mget (Fields s) name =
      match lastDeclared lines name with
      | Some ft => Some ft
      | None => mget (Fields s0) name
      end.
Proof.
  induction lines as [|line lines IH]; intros s0 s H name.
  - simpl in *. now injection H as <-.
  - cbn [parseSchemaLines lastDeclared] in *.
    unfold declaredName, declaredTypeText.
    destruct (String.eqb (strings.TrimSpace line) ""); cbn [orb] in H.
    { rewrite (IH _ _ H name). now destruct (lastDeclared lines name). }
    destruct (strings.HasPrefix (strings.TrimSpace line) "#"); cbn [orb] in H.
    { rewrite (IH _ _ H name). now destruct (lastDeclared lines name). }
    destruct (strings.Index (strings.TrimSpace line) ":" =? -1)%Z.
    { rewrite (IH _ _ H name). now destruct (lastDeclared lines name). }
    destruct (parseType _) as [ft|e]; [|discriminate].
    rewrite (IH _ _ H name). simpl.
    destruct (lastDeclared lines name); [reflexivity|].
    destruct (String.eqb_spec
                (strings.TrimSpace
                   (before (strings.TrimSpace line)
                           (strings.Index (strings.TrimSpace line) ":")))
                name) as [<-|Hne].
    + apply mget_mset_eq.
    + now apply mget_mset_ne.
Qed.

Lemma parseSchemaLines_total lines :
  forall s0,
    (forall line n,
        In line lines -> declaredName line = Some n ->
        exists ft, parseType (declaredTypeText line) = Ok ft) ->
    exists s, parseSchemaLines lines s0 = Ok s.
Proof.
  induction lines as [|line lines IH]; intros s0 Hall; [now exists s0|].
  assert (Hrest : forall l n, In l lines -> declaredName l = Some n ->
                              exists ft, parseType (declaredTypeText l) = Ok ft).
  { intros l n Hin. apply Hall. now right. }
  specialize (Hall line). unfold declaredName, declaredTypeText in Hall.
  cbn [parseSchemaLines].
  destruct (String.eqb (strings.TrimSpace line) ""); cbn [orb]; [now apply IH|].
  destruct (strings.HasPrefix (strings.TrimSpace line) "#"); cbn [orb];
    [now apply IH|].
  destruct (strings.Index (strings.TrimSpace line) ":" =? -1)%Z; [now apply IH|].
  destruct (Hall _ (or_introl eq_refl) eq_refl) as [ft ->]. now apply IH.
Qed.

(** C8 (as amended).  A meta section all of whose declared types parse is
    read without error; the schema maps every name to the type of the
    last line that declares it, so that a later declaration overwrites
    an earlier one; and the field order lists the names line by line. *)
Theorem parseSchema_later_declaration_wins metaContent :
  let lines := strings.Split (strings.TrimSpace metaContent) newline in
  ((forall line n,
       In line lines -> declaredName line = Some n ->
       exists ft, parseType (declaredTypeText line) = Ok ft) ->
   exists s, parseSchema metaContent = Ok s)
  /\ (forall s,
         parseSchema metaContent = Ok s ->
         (forall name, mget (Fields s) name = lastDeclared lines name)
         /\ FieldOrder s = declaredNames metaContent).
Proof.
  intros lines. split.
  - intros Hall. now apply parseSchemaLines_total.
  - intros s H. unfold parseSchema in H. fold lines in H. split.
    + intros name. rewrite (parseSchemaLines_Fields _ _ _ H name). simpl.
      now destruct (lastDeclared lines name).
    + now apply parseSchemaLines_FieldOrder in H.
Qed.

(** ** Inference *)

Section InferenceFacts.
Context {F : Floats} {M : Machine}.

Lemma inferFieldType_kind (v : Value) :
  In (Type_ (inferFieldType v)) inferredKinds.
Proof.
  destruct v as [|s|n|n|n|x|x|b|l|m|ty l|ty text]; simpl; auto 10.
  - destruct (isIntegral x); simpl; auto 10.
  - match goal with
    | |- context [let '(_, _) := ?p in _] => destruct p
    end. simpl. auto 10.
Qed.

Lemma inferSchema_fold (obj : list (string * Value)) :
  forall s0,
    wf_map obj ->
    let s := fold_left
               (fun schema kv =>
                  mkSchema
                    (mset (fst kv) (inferFieldType (snd kv)) (Fields schema))
                    (FieldOrder schema ++ [fst kv])%list)
               obj s0 in
    FieldOrder s = (FieldOrder s0 ++ keys obj)%list
    /\ forall k,
         mget (Fields s) k =
         match mget obj k with
         | Some v => Some (inferFieldType v)
         | None => mget (Fields s0) k
         end.
Proof.
  induction obj as [|[k0 v0] obj IH]; intros s0 Hwf; cbn [fold_left].
  - split; [now rewrite app_nil_r|reflexivity].
  - inversion Hwf as [|? ? Hnotin Hwf']; subst.
    destruct (IH (mkSchema (mset k0 (inferFieldType v0) (Fields s0))
                           (FieldOrder s0 ++ [k0])%list) Hwf') as [Ho Hf].
    cbv zeta in *. cbn [fst snd] in *. split.
    + rewrite Ho. cbn [FieldOrder keys map fst]. now rewrite <- app_assoc.
    + intros k. rewrite Hf. cbn [Fields mget].
      destruct (String.eqb_spec k0 k) as [<-|Hne].
      * apply mget_None_iff in Hnotin. rewrite Hnotin. apply mget_mset_eq.
      * destruct (mget obj k); [reflexivity|]. now apply mget_mset_ne.
Qed.

(** C7 (as amended).  A non-empty array takes its element type from its
    first element alone; an empty [[]interface{}] gets an array type
    without element type, which renders as [[]]; a slice of any other
    type gets the element type string; nil and values of unrecognized
    types get string; every value gets a type of one of the seven kinds,
    inference having no failure case; and the schema of an object lists
    its keys in the order in which they were visited and gives each the
    type inferred from its value. *)
Theorem inferFieldType_shapes :
  (forall (first : Value) rest,
      inferFieldType (VArray (first :: rest)) =
      mkFieldType "array" (Some (inferFieldType first)) [] [] "")
  /\ (forall (first : Value) rest rest',
         inferFieldType (VArray (first :: rest)) =
         inferFieldType (VArray (first :: rest')))
  /\ inferFieldType VNil = basic "string"
  /\ inferFieldType (VArray []) = mkFieldType "array" None [] [] ""
  /\ fieldTypeToString (inferFieldType (VArray [])) = "[]"
  /\ (forall ty l,
         inferFieldType (VSlice ty l) =
         mkFieldType "array" (Some (basic "string")) [] [] "")
  /\ (forall ty text, inferFieldType (VOther ty text) = basic "string")
  /\ (forall v : Value, In (Type_ (inferFieldType v)) inferredKinds)
  /\ (forall obj : list (string * Value),
         wf_map obj ->
         FieldOrder (InferSchemaFromJSON (VObject obj)) = keys obj
         /\ forall k,
              mget (Fields (InferSchemaFromJSON (VObject obj))) k =
              option_map inferFieldType (mget obj k)).
Proof.
  repeat split; try reflexivity.
  - apply inferFieldType_kind.
  - exact (proj1 (inferSchema_fold obj (mkSchema [] []) H)).
  - intros k. unfold InferSchemaFromJSON.
    rewrite (proj2 (inferSchema_fold obj (mkSchema [] []) H) k).
    now destruct (mget obj k).
Qed.
End InferenceFacts.

(** ** Arrays with a declared size *)

Section DeclaredSizeFacts.
Context {F : Floats} {M : Machine}.


Lemma parseElement_scalar fieldType line :
  objectElement fieldType = None -> parseElement fieldType line = Ok (VString line).
Proof. intros H. unfold parseElement. now rewrite H. Qed.

(** The capacity that a declared size asks for is granted when the size
    is none, as the fallback is, or within [maxCap]. *)
Lemma capacity_granted (declaredSize : Z) :
  (declaredSize <= maxCap)%Z ->
  (maxCap <? (if (declaredSize <=? 0)%Z then 1000000 else declaredSize))%Z
  = false.
Proof.
  intros H. pose proof maxCap_fallback.
  apply Z.ltb_ge. destruct (declaredSize <=? 0)%Z; lia.
Qed.

End DeclaredSizeFacts.

(** ** Scalars *)

Section ScalarFacts.
Context {F : Floats} {M : Machine}.

Lemma parseValue_string fieldType valueStr lines currentIndex :
  Type_ fieldType = "string" ->
  parseValue fieldType valueStr lines currentIndex =
  match (if String.eqb valueStr "" then
           match nth_error lines (currentIndex + 1) with
           | Some nextLine =>
               if isIndented nextLine then Some nextLine else None
           | None => None
           end
         else None) with
  | Some nextLine =>
      Ok (VString (strings.TrimSpace nextLine), currentIndex + 2)
  | None => Ok (VString valueStr, currentIndex + 1)
  end.
Proof.
  destruct fieldType as [ty e fs o n]. simpl. intros ->. reflexivity.
Qed.

Lemma parseValue_converted fieldType valueStr lines currentIndex :
  In (Type_ fieldType) convertedKinds ->
  parseValue fieldType valueStr lines currentIndex =
  withIndex
    (convertScalar (Type_ fieldType)
                   (fst (nextLineValue valueStr lines currentIndex)))
    (snd (nextLineValue valueStr lines currentIndex) + 1).
Proof.
  destruct fieldType as [ty e fs o n]. simpl.
  intros [<-|[<-|[<-|[<-|[<-|[<-|[]]]]]]];
    cbn [parseValue String.eqb Ascii.eqb Bool.eqb isIntType existsb orb
         convertScalar];
    destruct (nextLineValue valueStr lines currentIndex) as [text idx];
    cbn [fst snd];
    match goal with
    | |- context [match ?p with Some _ => _ | None => _ end] =>
        destruct p; reflexivity
    end.
Qed.

(** C9 (as amended).  With an empty same-line text, a string field takes
    the next line, trimmed, when that line starts with four spaces or a
    tab, whether or not it holds a colon; a field of another scalar kind
    takes the next line, trimmed, when that line is not blank and holds
    no colon, whether or not it is indented.  Either way the cursor
    moves two lines.  In every other case the same-line text is the
    value and the cursor moves one line. *)
Theorem scalar_next_line fieldType valueStr lines currentIndex :
  (Type_ fieldType = "string" ->
   (forall nextLine,
       valueStr = "" ->
       nth_error lines (currentIndex + 1) = Some nextLine ->
       isIndented nextLine = true ->
       parseValue fieldType valueStr lines currentIndex =
       Ok (VString (strings.TrimSpace nextLine), currentIndex + 2))
   /\ ((valueStr <> ""
        \/ nth_error lines (currentIndex + 1) = None
        \/ exists nextLine,
             nth_error lines (currentIndex + 1) = Some nextLine /\
             isIndented nextLine = false) ->
       parseValue fieldType valueStr lines currentIndex =
       Ok (VString valueStr, currentIndex + 1)))
  /\ (In (Type_ fieldType) convertedKinds ->
      (forall nextLine,
          valueStr = "" ->
          nth_error lines (currentIndex + 1) = Some nextLine ->
          strings.TrimSpace nextLine <> "" ->
          strings.Contains (strings.TrimSpace nextLine) ":" = false ->
          parseValue fieldType valueStr lines currentIndex =
          withIndex
            (convertScalar (Type_ fieldType) (strings.TrimSpace nextLine))
            (currentIndex + 2))
      /\ ((valueStr <> ""
           \/ nth_error lines (currentIndex + 1) = None
           \/ exists nextLine,
                nth_error lines (currentIndex + 1) = Some nextLine /\
                (strings.TrimSpace nextLine = "" \/
                 strings.Contains (strings.TrimSpace nextLine) ":" = true)) ->
          parseValue fieldType valueStr lines currentIndex =
          withIndex (convertScalar (Type_ fieldType) valueStr)
                    (currentIndex + 1))).
Proof.
  split.
  - intros Hty. rewrite (parseValue_string _ _ _ _ Hty). split.
    + intros nextLine -> Hnext Hind. simpl. now rewrite Hnext, Hind.
    + intros [Hne|[Hnone|(nextLine & Hnext & Hind)]].
      * now destruct (String.eqb_spec valueStr "").
      * rewrite Hnone. now destruct (String.eqb valueStr "").
      * rewrite Hnext, Hind. now destruct (String.eqb valueStr "").
  - intros Hty. rewrite (parseValue_converted _ _ _ _ Hty).
    unfold nextLineValue. split.
    + intros nextLine -> Hnext Hnb Hnc. simpl. rewrite Hnext, Hnc.
      destruct (String.eqb_spec (strings.TrimSpace nextLine) "");
        [contradiction|]. simpl.
      now replace (currentIndex + 1 + 1)%nat with (currentIndex + 2)%nat by lia.
    + intros [Hne|[Hnone|(nextLine & Hnext & Hno)]].
      * now destruct (String.eqb_spec valueStr "").
      * rewrite Hnone. now destruct (String.eqb valueStr "").
      * rewrite Hnext. destruct (String.eqb valueStr ""); [|reflexivity].
        destruct Hno as [Hblank|Hcolon].
        -- now rewrite Hblank.
        -- rewrite Hcolon. simpl. now rewrite andb_false_r.
Qed.
End ScalarFacts.

(** ** Objects on one line *)

Section ObjectFacts.
Context {F : Floats} {M : Machine}.

Lemma convertField_Err ty fieldName text e :
  convertField ty fieldName text = Err e ->
  exists label, e = ErrInvalidField label fieldName text.
Proof.
  unfold convertField.
  repeat match goal with
         | |- context [if ?b then _ else _] => destruct b
         | |- context [match ?o with Some _ => _ | None => _ end] =>
             destruct o
         end; intros H; try discriminate; injection H as <-; eauto.
Qed.

(** The loop invariant of [parseObjectFromLine]. *)
Lemma objectFromValues_Ok fields fieldOrder :
  forall values acc obj,
    objectFromValues fields fieldOrder values acc = Ok obj ->
    NoDup fieldOrder ->
    (forall n, In n fieldOrder -> mget acc n = None) ->
    (forall i name,
        nth_error fieldOrder i = Some name ->
        match nth_error values i with
        | Some v =>
            exists val,
              convertField (fieldKind fields name) name (strings.TrimSpace v)
              = Ok val /\ mget obj name = Some val
        | None => mget obj name = None
        end)
    /\ (forall n, ~ In n fieldOrder -> mget obj n = mget acc n).
Proof.
  induction fieldOrder as [|name0 fieldOrder IH]; intros values acc obj H Hnd Hacc.
  - simpl in H. injection H as <-. split; [|reflexivity].
    intros [|i] name Hn; discriminate.
  - destruct values as [|v values].
    + simpl in H. injection H as <-. split; [|reflexivity].
      intros i name Hn. replace (nth_error [] i) with (@None string)
        by (now destruct i).
      apply Hacc. eapply nth_error_In; eassumption.
    + simpl in H.
      destruct (convertField (fieldKind fields name0) name0
                             (strings.TrimSpace v)) as [val|e] eqn:Hconv;
        [|discriminate].
      inversion Hnd as [|? ? Hnotin Hnd']; subst.
      destruct (IH values (mset name0 val acc) obj H Hnd') as [Hpos Hout].
      { intros n Hin. rewrite mget_mset_ne; [apply Hacc; now right|].
        intros ->. contradiction. }
      split.
      * intros [|i] name Hn; simpl in *.
        -- injection Hn as <-. exists val. split; [exact Hconv|].
           rewrite (Hout _ Hnotin). apply mget_mset_eq.
        -- now apply Hpos.
      * intros n Hn. rewrite Hout by (intros Hin; apply Hn; now right).
        apply mget_mset_ne. intros ->. apply Hn. now left.
Qed.

Lemma objectFromValues_Err fields fieldOrder :
  forall values acc e,
    objectFromValues fields fieldOrder values acc = Err e ->
    exists i name v,
      nth_error fieldOrder i = Some name /\ nth_error values i = Some v /\
      convertField (fieldKind fields name) name (strings.TrimSpace v) = Err e.
Proof.
  induction fieldOrder as [|name0 fieldOrder IH]; intros values acc e H.
  - discriminate.
  - destruct values as [|v values]; [discriminate|]. simpl in H.
    destruct (convertField (fieldKind fields name0) name0
                           (strings.TrimSpace v)) as [val|e'] eqn:Hconv.
    + destruct (IH _ _ _ H) as (i & name & v' & ? & ? & ?).
      exists (S i), name, v'. auto.
    + injection H as <-. exists O, name0, v. auto.
Qed.

Lemma objectFromValues_total fields fieldOrder :
  forall values acc,
    (forall i name v,
        nth_error fieldOrder i = Some name -> nth_error values i = Some v ->
        exists val,
          convertField (fieldKind fields name) name (strings.TrimSpace v)
          = Ok val) ->
    exists obj, objectFromValues fields fieldOrder values acc = Ok obj.
Proof.
  induction fieldOrder as [|name0 fieldOrder IH]; intros values acc Hall.
  - now exists acc.
  - destruct values as [|v values]; [now exists acc|]. simpl.
    destruct (Hall O name0 v eq_refl eq_refl) as [val ->].
    apply IH. intros i name v' Hn Hv. exact (Hall (S i) name v' Hn Hv).
Qed.

Lemma objectFromValues_firstn fields fieldOrder :
  forall values acc,
    objectFromValues fields fieldOrder values acc =
    objectFromValues fields fieldOrder (firstn (length fieldOrder) values) acc.
Proof.
  induction fieldOrder as [|name0 fieldOrder IH]; intros values acc.
  - now destruct values.
  - destruct values as [|v values]; [reflexivity|]. simpl.
    destruct (convertField _ _ _); [apply IH|reflexivity].
Qed.

(** C5 (as amended).  The object type carries its declared field order,
    [ObjectOrder], which is empty only when the type has no field.  The
    line is split at its pipes and every piece is
    stripped of surrounding white space before it is used.  Where the
    declared order repeats no name, piece [i] goes to field [i] of the
    declared order and fields beyond the last piece are absent from
    the result.  A piece is converted by the kind of its field: the int
    kinds by the base-10 integer parse, the float kinds by the float
    parse, bool by the boolean parse, any other kind taken as the
    stripped text itself.  Pieces beyond the last field are ignored,
    and the result is an error exactly when some conversion fails, the
    error naming the field and the text. *)
Theorem parseObjectFromLine_positional fieldType line :
  (ObjectOrder fieldType = [] -> ObjectFields fieldType = []) ->
  let fieldOrder := ObjectOrder fieldType in
  let values := strings.Split line "|" in
  let kind := fieldKind (ObjectFields fieldType) in
  (forall obj,
      parseObjectFromLine line fieldType = Ok obj -> NoDup fieldOrder ->
      (forall i name,
          nth_error fieldOrder i = Some name ->
          match nth_error values i with
          | Some v =>
              exists val,
                convertField (kind name) name (strings.TrimSpace v) = Ok val
                /\ mget obj name = Some val
          | None => mget obj name = None
          end)
      /\ (forall name, ~ In name fieldOrder -> mget obj name = None))
  /\ (forall e,
         parseObjectFromLine line fieldType = Err e ->
         exists i name v label,
           nth_error fieldOrder i = Some name /\ nth_error values i = Some v /\
           convertField (kind name) name (strings.TrimSpace v) = Err e /\
           e = ErrInvalidField label name (strings.TrimSpace v))
  /\ ((forall i name v,
          nth_error fieldOrder i = Some name -> nth_error values i = Some v ->
          exists val,
            convertField (kind name) name (strings.TrimSpace v) = Ok val) ->
      exists obj, parseObjectFromLine line fieldType = Ok obj)
  /\ (forall extra,
         (length fieldOrder <= length values)%nat ->
         objectFromValues (ObjectFields fieldType) fieldOrder
                          (values ++ extra)%list []
         = parseObjectFromLine line fieldType)
  /\ (forall ty name text,
         convertField ty name text =
         if isIntType ty then
           match strconv.ParseInt text with
           | Some n => Ok (VInt n)
           | None => Err (ErrInvalidField "integer" name text)
           end
         else if String.eqb ty "float32" then
           match ParseFloat32 text with
           | Some x => Ok (VFloat32 x)
           | None => Err (ErrInvalidField "float32" name text)
           end
         else if String.eqb ty "float64" then
           match ParseFloat64 text with
           | Some x => Ok (VFloat64 x)
           | None => Err (ErrInvalidField "float64" name text)
           end
         else if String.eqb ty "bool" then
           match strconv.ParseBool text with
           | Some b => Ok (VBool b)
           | None => Err (ErrInvalidField "boolean" name text)
           end
         else Ok (VString text)).
Proof.
  intros Hdeclared fieldOrder values kind. unfold parseObjectFromLine.
  replace (getObjectFieldOrder (Some fieldType)) with fieldOrder
    by (unfold getObjectFieldOrder, fieldOrder;
        destruct (ObjectOrder fieldType);
        [now rewrite Hdeclared|reflexivity]).
  fold values.
  split; [|split; [|split; [|split]]].
  - intros obj H Hnd.
    destruct (objectFromValues_Ok _ _ _ _ _ H Hnd (fun _ _ => eq_refl))
      as [Hpos Hout].
    split; [exact Hpos|]. intros name Hn. now rewrite (Hout _ Hn).
  - intros e H.
    destruct (objectFromValues_Err _ _ _ _ _ H) as (i & name & v & Hn & Hv & He).
    destruct (convertField_Err _ _ _ _ He) as [label ->].
    exists i, name, v, label. auto.
  - intros Hall. now apply objectFromValues_total.
  - intros extra Hlen.
    rewrite objectFromValues_firstn.
    rewrite (objectFromValues_firstn _ _ values).
    rewrite firstn_app.
    replace (length fieldOrder - length values)%nat with O by lia.
    simpl. now rewrite app_nil_r.
  - reflexivity.
Qed.
End ObjectFacts.

(** ** Splitting an object expression *)

Lemma append_String_assoc (a : string) (ch : ascii) (b : string) :
  (a ++ String ch "") ++ b = a ++ String ch b.
Proof. induction a as [|c a IH]; simpl; [reflexivity|now rewrite IH]. Qed.

Lemma append_assoc (a b c : string) : (a ++ b) ++ c = a ++ (b ++ c).
Proof. induction a as [|x a IH]; simpl; [reflexivity|now rewrite IH]. Qed.

Lemma append_nil_r (a : string) : a ++ "" = a.
Proof. induction a as [|x a IH]; simpl; [reflexivity|now rewrite IH]. Qed.

Lemma splitBytes_through (piece rest : string) :
  forall depth depth' current fields,
    depthAfter piece depth = Some depth' ->
    splitBytes (piece ++ rest) depth current fields =
    splitBytes rest depth' (current ++ piece) fields.
Proof.
  induction piece as [|ch piece IH]; intros depth depth' current fields H.
  - simpl in *. injection H as <-. now rewrite append_nil_r.
  - simpl in *.
    destruct (Ascii.eqb ch "{").
    { rewrite (IH _ _ _ _ H). now rewrite append_String_assoc. }
    destruct (Ascii.eqb ch "}").
    { rewrite (IH _ _ _ _ H). now rewrite append_String_assoc. }
    destruct (Ascii.eqb ch "|").
    { destruct (depth =? 0)%Z; [discriminate|].
      rewrite (IH _ _ _ _ H). now rewrite append_String_assoc. }
    rewrite (IH _ _ _ _ H). now rewrite append_String_assoc.
Qed.

Lemma splitBytes_pieces (pieces : list string) :
  forall fields,
    Forall nestedPipesOnly pieces -> pieces <> [] -> last pieces "" <> "" ->
    splitBytes (strings.Join pieces "|") 0 "" fields = (fields ++ pieces)%list.
Proof.
  induction pieces as [|x pieces IH]; intros fields Hall Hne Hlast.
  - contradiction.
  - inversion Hall as [|? ? Hx Hrest]; subst.
    destruct pieces as [|y pieces].
    + simpl in *. rewrite <- (append_nil_r x) at 1.
      rewrite (splitBytes_through x "" _ _ _ _ Hx). simpl.
      destruct x; [contradiction|reflexivity].
    + change (strings.Join (x :: y :: pieces) "|")
        with (x ++ String "|" (strings.Join (y :: pieces) "|")).
      rewrite (splitBytes_through x _ _ _ _ _ Hx).
      cbn [splitBytes Ascii.eqb Bool.eqb Z.eqb append].
      rewrite IH; [|assumption|discriminate|exact Hlast].
      now rewrite <- app_assoc.
Qed.

(** ** Facts on strings *)

Section StringFacts.
Import strings.

Lemma occurs_app c a b : occurs c (a ++ b) = occurs c a || occurs c b.
Proof.
  induction a as [|x a IH]; simpl; [reflexivity|].
  now rewrite IH, orb_assoc.
Qed.

Lemma rev_onto_app s acc : rev_onto s acc = rev s ++ acc.
Proof.
  unfold rev. revert acc.
  induction s as [|a s IH]; intros acc; simpl; [reflexivity|].
  rewrite (IH (String a acc)), (IH (String a "")).
  now rewrite append_String_assoc.
Qed.

Lemma rev_String a s : rev (String a s) = rev s ++ String a "".
Proof. unfold rev at 1. simpl. apply rev_onto_app. Qed.

Lemma rev_app a b : rev (a ++ b) = rev b ++ rev a.
Proof.
  induction a as [|x a IH]; simpl.
  - now rewrite append_nil_r.
  - now rewrite !rev_String, IH, append_assoc.
Qed.

Lemma rev_rev s : rev (rev s) = s.
Proof.
  induction s as [|a s IH]; [reflexivity|].
  now rewrite rev_String, rev_app, IH.
Qed.

Lemma occurs_rev c s : occurs c (rev s) = occurs c s.
Proof.
  induction s as [|a s IH]; [reflexivity|].
  rewrite rev_String, occurs_app, IH. simpl.
  now rewrite orb_false_r, orb_comm.
Qed.

Lemma occurs_skip c n s : occurs c s = false -> occurs c (skip n s) = false.
Proof.
  revert s. induction n as [|n IH]; intros [|a s] H; simpl; auto.
  simpl in H. apply orb_false_elim in H. now apply IH.
Qed.

Lemma skip_app_length a b : skip (String.length a) (a ++ b) = b.
Proof. induction a as [|x a IH]; simpl; [now destruct b|exact IH]. Qed.

Lemma take_app_length a b : take (String.length a) (a ++ b) = a.
Proof. induction a as [|x a IH]; simpl; [reflexivity|now rewrite IH]. Qed.

Lemma length_app a b :
  String.length (a ++ b) = (String.length a + String.length b)%nat.
Proof. induction a as [|x a IH]; simpl; [reflexivity|now rewrite IH]. Qed.

(** A prefix that lacks the byte [c] ends before the first [c]. *)
Lemma HasPrefix_before r :
  forall a c b,
    occurs c r = false -> HasPrefix (a ++ String c b) r = true ->
    exists a', a = r ++ a'.
Proof.
  induction r as [|x r IH]; intros a c b Hc Hp.
  - now exists a.
  - simpl in Hc. apply orb_false_elim in Hc. destruct Hc as [Hx Hr].
    destruct a as [|y a]; simpl in Hp.
    + apply andb_prop in Hp. destruct Hp as [Hp _].
      apply Ascii.eqb_eq in Hp. subst x.
      rewrite Ascii.eqb_refl in Hx. discriminate.
    + apply andb_prop in Hp. destruct Hp as [Hy Hp].
      apply Ascii.eqb_eq in Hy. subst y.
      destruct (IH _ _ _ Hr Hp) as [a' ->]. now exists a'.
Qed.

Lemma dropRune_before runes :
  forall a c b s',
    existsb (occurs c) runes = false ->
    dropRune runes (a ++ String c b) = Some s' ->
    exists r a', a = r ++ a' /\ s' = a' ++ String c b.
Proof.
  induction runes as [|r runes IH]; intros a c b s' Hc H; [discriminate|].
  simpl in Hc. apply orb_false_elim in Hc. destruct Hc as [Hr Hrunes].
  simpl in H. destruct (HasPrefix (a ++ String c b) r) eqn:Hp.
  - injection H as <-. destruct (HasPrefix_before _ _ _ _ Hr Hp) as [a' ->].
    exists r, a'. split; [reflexivity|].
    now rewrite append_assoc, skip_app_length.
  - eauto.
Qed.

Lemma trimLeft_before n runes :
  forall a c b,
    existsb (occurs c) runes = false ->
    exists z a', a = z ++ a' /\
                 trimLeft n runes (a ++ String c b) = a' ++ String c b.
Proof.
  induction n as [|n IH]; intros a c b Hc.
  - now exists "", a.
  - simpl. destruct (dropRune runes (a ++ String c b)) as [s'|] eqn:Hd.
    + destruct (dropRune_before _ _ _ _ _ Hc Hd) as (r & a1 & -> & ->).
      destruct (IH a1 c b Hc) as (z & a' & -> & Ht).
      exists (r ++ z), a'. split; [now rewrite append_assoc|exact Ht].
    + now exists "", a.
Qed.

Lemma dropRune_lead runes c rest :
  leads c runes = false -> dropRune runes (String c rest) = None.
Proof.
  induction runes as [|r runes IH]; intros H; [reflexivity|].
  simpl in H. apply orb_false_elim in H. destruct H as [Hr Hrunes].
  simpl. destruct r as [|b r]; [discriminate|]. simpl. rewrite Hr. simpl.
  now apply IH.
Qed.

Lemma trimLeft_lead n runes c rest :
  leads c runes = false -> trimLeft n runes (String c rest) = String c rest.
Proof.
  intros H. destruct n; simpl; [reflexivity|]. now rewrite dropRune_lead.
Qed.

(** Trimming a text that starts with a byte that begins no space rune
    and whose byte [c] ends no space rune removes at most a part of
    what follows [c]. *)
Lemma TrimSpace_guarded (c0 : ascii) (pre : string) (c : ascii) (w : string) :
  leads c0 spaceRunes = false ->
  existsb (occurs c) (map rev spaceRunes) = false ->
  exists w' z,
    w = w' ++ z /\
    TrimSpace (String c0 pre ++ String c w) = String c0 pre ++ String c w'.
Proof.
  intros Hlead Htail. unfold TrimSpace, TrimLeftSpace.
  change (String c0 pre ++ String c w) with (String c0 (pre ++ String c w)).
  rewrite (trimLeft_lead _ _ _ _ Hlead). unfold TrimRightSpace.
  change (String c0 (pre ++ String c w)) with (String c0 pre ++ String c w).
  rewrite rev_app, rev_String.
  rewrite append_String_assoc.
  destruct (trimLeft_before
              (String.length (String c0 pre ++ String c w))
              (map rev spaceRunes) (rev w) c (rev (String c0 pre)) Htail)
    as (z & a' & Hw & ->).
  exists (rev a'), (rev z). split.
  - rewrite <- rev_app, <- Hw. now rewrite rev_rev.
  - rewrite rev_app, rev_String, rev_rev. now rewrite append_String_assoc.
Qed.

Lemma TrimSpace_occurs c s : occurs c s = false -> occurs c (TrimSpace s) = false.
Proof.
  assert (Hleft : forall n runes t,
             occurs c t = false -> occurs c (trimLeft n runes t) = false).
  { induction n as [|n IH]; intros runes t Ht; simpl; [exact Ht|].
    destruct (dropRune runes t) as [t'|] eqn:Hd; [|exact Ht].
    apply IH. clear IH. revert Hd.
    induction runes as [|r runes IHr]; simpl; [discriminate|].
    destruct (HasPrefix t r).
    - intros H. injection H as <-. now apply occurs_skip.
    - exact IHr. }
  intros H. unfold TrimSpace, TrimRightSpace, TrimLeftSpace.
  rewrite occurs_rev. apply Hleft. rewrite occurs_rev. now apply Hleft.
Qed.

Lemma Contains_occurs c s :
  occurs c s = false -> Contains s (String c "") = false.
Proof.
  unfold Contains, Index. intros H.
  assert (Hi : forall i, index_from i s (String c "") = (-1)%Z).
  { induction s as [|a s IH]; intros i; [reflexivity|].
    simpl in *. apply orb_false_elim in H. destruct H as [Ha Hs].
    rewrite Ha. simpl. now apply IH. }
  now rewrite Hi.
Qed.

Lemma Split_occurs c s : occurs c s = false -> Split s c = [s].
Proof.
  induction s as [|a s IH]; intros H; [reflexivity|].
  simpl in *. apply orb_false_elim in H. destruct H as [Ha Hs].
  now rewrite Ha, (IH Hs).
Qed.

Lemma Index_first c a b :
  occurs c a = false ->
  Index (a ++ String c b) (String c "") = Z.of_nat (String.length a).
Proof.
  unfold Index. intros H.
  assert (Hi : forall i, index_from i (a ++ String c b) (String c "")
                         = (i + Z.of_nat (String.length a))%Z).
  { induction a as [|x a IH]; intros i.
    - cbn [append index_from HasPrefix]. rewrite Ascii.eqb_refl.
      cbn [andb String.length Z.of_nat].
      replace (HasPrefix b "") with true by (now destruct b). lia.
    - simpl in H. apply orb_false_elim in H. destruct H as [Hx Ha].
      cbn [append index_from HasPrefix]. rewrite Hx. cbn [andb].
      rewrite (IH Ha). cbn [String.length]. lia. }
  rewrite Hi. lia.
Qed.
End StringFacts.

(** ** Runes *)

Section RuneFacts.
Import strings utf8.

Lemma take_skip n : forall s, take n s ++ skip n s = s.
Proof.
  induction n as [|n IH]; intros [|a s]; simpl; try reflexivity.
  now rewrite IH.
Qed.

Lemma length_skip_le n : forall s, (String.length (skip n s) <= String.length s)%nat.
Proof.
  induction n as [|n IH]; intros [|a s]; simpl; try specialize (IH s); lia.
Qed.

Lemma length_take_exact n :
  forall s, (n <= String.length s)%nat -> String.length (take n s) = n.
Proof.
  induction n as [|n IH]; intros [|a s]; simpl; try lia.
  intros H. rewrite IH; lia.
Qed.

Lemma depthAfter_app a :
  forall b d d',
    depthAfter a d = Some d' -> depthAfter (a ++ b) d = depthAfter b d'.
Proof.
  induction a as [|ch a IH]; intros b d d'; cbn [depthAfter append].
  - now intros [= <-].
  - destruct (Ascii.eqb ch "{"); [apply IH|].
    destruct (Ascii.eqb ch "}"); [apply IH|].
    destruct (Ascii.eqb ch "|"); [|apply IH].
    destruct (d =? 0)%Z; [discriminate|apply IH].
Qed.

Lemma high_not_ascii c : within 0 127 c = false -> high c = true.
Proof. unfold high. now intros ->. Qed.

Lemma within_high lo hi c :
  within lo hi c = true -> (128 <=? lo)%nat = true -> high c = true.
Proof.
  unfold high, within. intros H Hlo.
  apply andb_prop in H. destruct H as (H & _).
  apply Nat.leb_le in H, Hlo.
  replace (nat_of_ascii c <=? 127)%nat with false
    by (symmetry; apply Nat.leb_gt; lia).
  now rewrite andb_false_r.
Qed.

Lemma high_differs c d :
  high c = true -> within 0 127 d = true -> Ascii.eqb c d = false.
Proof.
  unfold high. intros Hc Hd. destruct (Ascii.eqb_spec c d) as [->|]; [|easy].
  now rewrite Hd in Hc.
Qed.

Ltac rune_cases :=
  repeat match goal with
         | H : context [if ?b then _ else _] |- _ => destruct b eqn:?
         | H : (_ && _)%bool = true |- _ =>
             apply andb_prop in H; destruct H
         end.

Ltac high_bytes :=
  cbn [take allBytes];
  repeat (apply andb_true_intro; split);
  solve [ reflexivity
        | now apply high_not_ascii
        | eapply within_high; [eassumption|reflexivity] ].

Lemma runeLen_le s : (runeLen s <= String.length s)%nat.
Proof.
  destruct s as [|b0 [|b1 [|b2 [|b3 s]]]]; unfold runeLen;
    repeat match goal with
           | |- context [if ?b then _ else _] => destruct b
           end; simpl; lia.
Qed.

Lemma runeLen_ascii c s : within 0 127 c = true -> runeLen (String c s) = 1%nat.
Proof. intros H. unfold runeLen. now rewrite H. Qed.

Lemma runeLen_zero c s : runeLen (String c s) = 0%nat -> high c = true.
Proof.
  unfold runeLen. destruct (within 0 127 c) eqn:E; [discriminate|].
  intros _. now apply high_not_ascii.
Qed.

(** The bytes of an encoding of several bytes are all above [0x7F]. *)
Lemma runeLen_high s n :
  runeLen s = S (S n) -> allBytes high (take (S (S n)) s) = true.
Proof.
  intros H.
  destruct s as [|b0 [|b1 [|b2 [|b3 s]]]]; unfold runeLen, cont in H;
    rune_cases; try discriminate H; injection H as <-; high_bytes.
Qed.

Lemma runesFrom_skip w : forall s, runesFrom w s = runes (skip w s).
Proof.
  induction w as [|w IH]; intros [|a s]; try reflexivity.
  cbn [runesFrom skip]. apply IH.
Qed.

(** One step of [range]. *)
Lemma runes_step (s : string) :
  s <> "" ->
  runes s =
  match runeLen s with
  | O => RuneError :: runes (skip 1 s)
  | S w => take (S w) s :: runes (skip (S w) s)
  end.
Proof.
  destruct s as [|a s]; [congruence|]. intros _.
  unfold runes at 1. cbn [runesFrom].
  destruct (runeLen (String a s)); rewrite runesFrom_skip; reflexivity.
Qed.

(** Induction over the runes of a text: a byte below [0x80], an
    encoding of several bytes, or a byte that starts no encoding. *)
Lemma runes_ind (P : string -> list string -> Prop) :
  P "" [] ->
  (forall c s,
      within 0 127 c = true ->
      P s (runes s) -> P (String c s) (String c "" :: runes s)) ->
  (forall p s,
      runeLen (p ++ s) = String.length p -> (2 <= String.length p)%nat ->
      allBytes high p = true ->
      P s (runes s) -> P (p ++ s) (p :: runes s)) ->
  (forall c s,
      runeLen (String c s) = 0%nat -> high c = true ->
      P s (runes s) -> P (String c s) (RuneError :: runes s)) ->
  forall s, P s (runes s).
Proof.
  intros Hnil Hascii Hmulti Hbad s.
  remember (String.length s) as n eqn:Hn.
  revert s Hn. induction n as [n IH] using lt_wf_ind. intros s Hn.
  destruct s as [|c s]; [exact Hnil|].
  rewrite runes_step by discriminate.
  destruct (runeLen (String c s)) as [|[|w]] eqn:E.
  - cbn [skip]. apply Hbad; [exact E|now apply runeLen_zero in E|].
    apply (IH (String.length s)); [subst n; simpl; lia|reflexivity].
  - cbn [take skip]. apply Hascii.
    + unfold runeLen in E. destruct (within 0 127 c); [reflexivity|].
      exfalso. revert E.
      destruct s as [|b1 [|b2 [|b3 s]]]; unfold cont;
        repeat match goal with
               | |- context [if ?b then _ else _] => destruct b
               end; discriminate.
    + apply (IH (String.length s)); [subst n; simpl; lia|reflexivity].
  - pose proof (runeLen_le (String c s)) as Hle. rewrite E in Hle.
    pose proof (runeLen_high _ _ E) as Hhigh.
    pose proof (take_skip (S (S w)) (String c s)) as Hsplit.
    pose proof (length_take_exact _ _ Hle) as Hlen.
    rewrite <- Hsplit at 1.
    apply Hmulti.
    + now rewrite Hsplit, Hlen.
    + lia.
    + exact Hhigh.
    + apply (IH (String.length (skip (S (S w)) (String c s)))); [|reflexivity].
      apply (f_equal String.length) in Hsplit. rewrite length_app in Hsplit.
      subst n. lia.
Qed.

Lemma concat_cons (r : string) (rs : list string) :
  String.concat "" (r :: rs) = r ++ String.concat "" rs.
Proof. destruct rs; simpl; [now rewrite append_nil_r|reflexivity]. Qed.

Lemma scrub_ascii c s :
  within 0 127 c = true -> scrub (String c s) = String c (scrub s).
Proof.
  intros H. unfold scrub. rewrite runes_step by discriminate.
  rewrite (runeLen_ascii c s H). cbn [take skip]. now rewrite concat_cons.
Qed.

Lemma depthAfter_high r :
  allBytes high r = true -> forall d, depthAfter r d = Some d.
Proof.
  induction r as [|c r IH]; cbn [allBytes depthAfter]; [reflexivity|].
  intros H d. apply andb_prop in H. destruct H as (Hc & Hr).
  rewrite !(high_differs c) by (exact Hc || reflexivity).
  now apply IH.
Qed.

Lemma high_RuneError : allBytes high RuneError = true.
Proof. reflexivity. Qed.

Lemma high_not_special r (c : ascii) :
  r <> "" -> allBytes high r = true -> within 0 127 c = true ->
  String.eqb r (String c "") = false.
Proof.
  destruct r as [|a r]; [congruence|]. intros _ H Hc.
  cbn [allBytes] in H. apply andb_prop in H. destruct H as (Ha & _).
  cbn [String.eqb]. now rewrite (high_differs a c Ha Hc).
Qed.

Lemma splitLoop_high r rest depth current fields :
  r <> "" -> allBytes high r = true ->
  splitLoop (r :: rest) depth current fields
  = splitLoop rest depth (current ++ r) fields.
Proof.
  intros Hne H. cbn [splitLoop].
  now rewrite !(high_not_special r) by (assumption || reflexivity).
Qed.

(** The loop over the runes of a text is the loop over the bytes of
    the text that the runes write back. *)
Lemma splitLoop_bytes (s : string) :
  forall depth current fields,
    splitLoop (runes s) depth current fields
    = splitBytes (scrub s) depth current fields.
Proof.
  unfold scrub. apply (runes_ind (fun s rs =>
    forall depth current fields,
      splitLoop rs depth current fields
      = splitBytes (String.concat "" rs) depth current fields)).
  - reflexivity.
  - intros c s' Hc IH depth current fields. rewrite concat_cons.
    cbn [splitLoop splitBytes append String.eqb].
    destruct (Ascii.eqb c "{"); [apply IH|].
    destruct (Ascii.eqb c "}"); [apply IH|].
    destruct (Ascii.eqb c "|"); [|apply IH].
    destruct (depth =? 0)%Z; apply IH.
  - intros r s' _ Hlen Hr IH depth current fields.
    rewrite concat_cons, splitLoop_high; [|destruct r; [simpl in Hlen; lia|discriminate]|exact Hr].
    rewrite (splitBytes_through r _ depth depth) by now apply depthAfter_high.
    apply IH.
  - intros c s' _ _ IH depth current fields.
    rewrite concat_cons, splitLoop_high by (discriminate || reflexivity).
    rewrite (splitBytes_through RuneError _ depth depth) by reflexivity.
    apply IH.
Qed.

Lemma splitObjectFields_bytes (objectStr : string) :
  splitObjectFields objectStr = splitBytes (scrub objectStr) 0 "" [].
Proof. apply splitLoop_bytes. Qed.

Lemma asciiCount_app a b : asciiCount (a ++ b) = (asciiCount a + asciiCount b)%nat.
Proof. induction a as [|c a IH]; simpl; [reflexivity|rewrite IH; lia]. Qed.

Lemma asciiCount_high r : allBytes high r = true -> asciiCount r = 0%nat.
Proof.
  induction r as [|c r IH]; cbn [allBytes asciiCount]; [reflexivity|].
  intros H. apply andb_prop in H. destruct H as (Hc & Hr).
  unfold high in Hc. destruct (within 0 127 c); [discriminate|]. now apply IH.
Qed.

Lemma asciiCount_scrub s : asciiCount (scrub s) = asciiCount s.
Proof.
  unfold scrub. apply (runes_ind (fun s rs =>
    asciiCount (String.concat "" rs) = asciiCount s)).
  - reflexivity.
  - intros c s' Hc IH. rewrite concat_cons. cbn [append asciiCount].
    now rewrite IH.
  - intros r s' _ _ Hr IH. now rewrite concat_cons, !asciiCount_app, IH.
  - intros c s' _ Hc IH. rewrite concat_cons, asciiCount_app, IH.
    cbn [asciiCount]. unfold high in Hc.
    destruct (within 0 127 c); [discriminate|reflexivity].
Qed.

Lemma asciiCount_le s : (asciiCount s <= String.length s)%nat.
Proof.
  induction s as [|c s IH]; simpl; [lia|].
  destruct (within 0 127 c); lia.
Qed.

Lemma depthAfter_scrub s : forall d, depthAfter (scrub s) d = depthAfter s d.
Proof.
  unfold scrub. apply (runes_ind (fun s rs =>
    forall d, depthAfter (String.concat "" rs) d = depthAfter s d)).
  - reflexivity.
  - intros c s' Hc IH d. rewrite concat_cons. cbn [append depthAfter].
    destruct (Ascii.eqb c "{"); [apply IH|].
    destruct (Ascii.eqb c "}"); [apply IH|].
    destruct (Ascii.eqb c "|"); [|apply IH].
    destruct (d =? 0)%Z; [reflexivity|apply IH].
  - intros r s' _ _ Hr IH d. rewrite concat_cons.
    rewrite !(depthAfter_app r _ d d) by now apply depthAfter_high.
    apply IH.
  - intros c s' _ Hc IH d. rewrite concat_cons.
    rewrite (depthAfter_app RuneError _ d d) by reflexivity.
    rewrite IH. cbn [depthAfter].
    now rewrite !(high_differs c) by (exact Hc || reflexivity).
Qed.

Lemma scrub_nonempty s : s <> "" -> scrub s <> "".
Proof.
  destruct s as [|c s]; [congruence|]. intros _. unfold scrub.
  rewrite runes_step by discriminate.
  destruct (runeLen (String c s)) as [|w]; rewrite concat_cons; discriminate.
Qed.

Lemma ascii_not_within lo hi c :
  within 0 127 c = true -> (128 <=? lo)%nat = true -> within lo hi c = false.
Proof.
  unfold within. intros H Hlo. apply andb_prop in H. destruct H as (_ & H).
  apply Nat.leb_le in H, Hlo.
  replace (lo <=? nat_of_ascii c)%nat with false
    by (symmetry; apply Nat.leb_gt; lia).
  reflexivity.
Qed.

(** A byte below [0x80] that follows a text completes no encoding that
    the text leaves open. *)
Lemma runeLen_app_ascii x c b :
  x <> "" -> within 0 127 c = true ->
  runeLen (x ++ String c b) = runeLen x.
Proof.
  intros Hne Hc.
  destruct x as [|b0 [|b1 [|b2 [|b3 x]]]]; [congruence|..];
    cbn [append]; unfold runeLen, cont;
    repeat rewrite (ascii_not_within _ _ c Hc) by reflexivity;
    try reflexivity;
    destruct b as [|c1 [|c2 b]];
    repeat match goal with
           | |- context [within ?lo ?hi ?t] => destruct (within lo hi t)
           end; reflexivity.
Qed.

Lemma concat_app (l l' : list string) :
  String.concat "" (l ++ l')%list = String.concat "" l ++ String.concat "" l'.
Proof.
  induction l as [|r l IH]; [reflexivity|].
  rewrite <- app_comm_cons, !concat_cons, IH. now rewrite append_assoc.
Qed.

Lemma runes_app_ascii a c b :
  within 0 127 c = true ->
  runes (a ++ String c b) = (runes a ++ String c "" :: runes b)%list.
Proof.
  intros Hc. apply (runes_ind (fun a rs =>
    runes (a ++ String c b) = (rs ++ String c "" :: runes b)%list)).
  - cbn [append app]. rewrite runes_step by discriminate.
    now rewrite (runeLen_ascii c b Hc).
  - intros c' s Hc' IH. cbn [append]. rewrite runes_step by discriminate.
    rewrite (runeLen_ascii c' _ Hc'). cbn [take skip]. now rewrite IH.
  - intros r s Hlen Htwo _ IH.
    destruct r as [|r0 r]; [simpl in Htwo; lia|].
    rewrite runes_step by discriminate.
    rewrite runeLen_app_ascii, Hlen by (discriminate || exact Hc).
    cbn [String.length].
    change (S (String.length r)) with (String.length (String r0 r)).
    rewrite append_assoc, take_app_length, skip_app_length, IH.
    reflexivity.
  - intros c' s Hbad _ IH.
    change (String c' s ++ String c b) with (String c' (s ++ String c b)).
    rewrite runes_step by discriminate.
    change (String c' (s ++ String c b)) with (String c' s ++ String c b).
    rewrite runeLen_app_ascii, Hbad by (discriminate || exact Hc).
    cbn [append skip]. now rewrite IH.
Qed.

Lemma scrub_app_ascii a c b :
  within 0 127 c = true ->
  scrub (a ++ String c b) = scrub a ++ String c (scrub b).
Proof.
  intros Hc. unfold scrub.
  now rewrite (runes_app_ascii a c b Hc), concat_app, concat_cons.
Qed.

Lemma scrub_Join (pieces : list string) (c : ascii) :
  within 0 127 c = true ->
  scrub (Join pieces (String c "")) = Join (map scrub pieces) (String c "").
Proof.
  intros Hc. induction pieces as [|x [|y pieces] IH]; try reflexivity.
  change (Join (x :: y :: pieces) (String c ""))
    with (x ++ String c (Join (y :: pieces) (String c ""))).
  rewrite (scrub_app_ascii _ _ _ Hc), IH. reflexivity.
Qed.

(** A text of bytes below [0x80] is well-formed. *)
Lemma ascii_wellFormed s : allBytes (within 0 127) s = true -> wellFormed s.
Proof.
  unfold wellFormed. induction s as [|c s IH]; [reflexivity|].
  cbn [allBytes]. intros H. apply andb_prop in H. destruct H as (Hc & Hs).
  now rewrite (scrub_ascii c s Hc), (IH Hs).
Qed.

(** The pipe-join of fields whose pipes are all nested is split into
    the fields, as the loop over the runes writes them. *)
Lemma splitObjectFields_Join (pieces : list string) :
  Forall nestedPipesOnly pieces -> last pieces "x" <> "" ->
  splitObjectFields (Join pieces "|") = map scrub pieces.
Proof.
  intros Hall Hlast.
  rewrite splitObjectFields_bytes, (scrub_Join pieces "|" eq_refl).
  destruct pieces as [|x pieces]; [reflexivity|].
  apply (splitBytes_pieces (map scrub (x :: pieces)) []).
  - rewrite Forall_map. revert Hall. apply Forall_impl.
    intros p Hp. unfold nestedPipesOnly in *. now rewrite depthAfter_scrub.
  - discriminate.
  - clear Hall. revert x Hlast.
    induction pieces as [|y pieces IH]; intros x Hlast.
    + now apply scrub_nonempty.
    + apply (IH y). exact Hlast.
Qed.

Lemma map_scrub_wellFormed (pieces : list string) :
  Forall wellFormed pieces -> map scrub pieces = pieces.
Proof.
  induction 1 as [|p pieces Hp _ IH]; [reflexivity|].
  cbn [map]. now rewrite Hp, IH.
Qed.

End RuneFacts.

(** C4.  Joining with pipes any fields whose own pipes all lie inside
    braces, and splitting the result, gives the fields back: a nested
    pipe ends no field.  The fields come back as the loop over the
    runes writes them, which is as they are when they are well-formed
    UTF-8, and with U+FFFD for every ill-formed byte otherwise.  And
    [{a:{b:int|c:string}|d:bool}] parses to an object of the two fields
    [a], itself an object of [b] and [c], and [d]. *)
Theorem splitObjectFields_depth_aware :
  (forall pieces,
      Forall nestedPipesOnly pieces -> last pieces "x" <> "" ->
      splitObjectFields (strings.Join pieces "|") = map scrub pieces)
  /\ (forall pieces,
         Forall nestedPipesOnly pieces -> Forall wellFormed pieces ->
         last pieces "x" <> "" ->
         splitObjectFields (strings.Join pieces "|") = pieces)
  /\ splitObjectFields "a:{b:int|c:string}|d:bool"
     = ["a:{b:int|c:string}"; "d:bool"]
  /\ parseType "{a:{b:int|c:string}|d:bool}" =
     Ok (mkFieldType "object" None
           [("a", mkFieldType "object" None
                    [("b", mkFieldType "int" None [] [] "b");
                     ("c", mkFieldType "string" None [] [] "c")]
                    ["b"; "c"] "a");
            ("d", mkFieldType "bool" None [] [] "d")]
           ["a"; "d"] "").
Proof.
  split; [exact splitObjectFields_Join|].
  split; [|split; vm_compute; reflexivity].
  intros pieces Hall Hwf Hlast.
  rewrite (splitObjectFields_Join pieces Hall Hlast).
  now apply map_scrub_wellFormed.
Qed.

(** ** The bound of [parseType] *)

Section ParseTypeFuel.
Import strings.

Lemma length_rev s : String.length (rev s) = String.length s.
Proof.
  induction s as [|a s IH]; [reflexivity|].
  rewrite rev_String, length_app, IH. simpl. lia.
Qed.

Lemma length_skip n s : (String.length (skip n s) <= String.length s)%nat.
Proof.
  revert s. induction n as [|n IH]; intros [|a s]; simpl;
    try specialize (IH s); lia.
Qed.

Lemma length_take n s : (String.length (take n s) <= n)%nat.
Proof.
  revert s. induction n as [|n IH]; intros [|a s]; simpl;
    try specialize (IH s); lia.
Qed.

Lemma length_trimLeft n runes s :
  (String.length (trimLeft n runes s) <= String.length s)%nat.
Proof.
  revert s. induction n as [|n IH]; intros s; simpl; [lia|].
  destruct (dropRune runes s) as [s'|] eqn:Hd; [|lia].
  assert (Hs' : (String.length s' <= String.length s)%nat).
  { clear IH. revert Hd. induction runes as [|r runes IHr]; simpl; [discriminate|].
    destruct (HasPrefix s r); [|exact IHr].
    intros H. injection H as <-. apply length_skip. }
  specialize (IH s'). lia.
Qed.

Lemma length_TrimSpace s : (String.length (TrimSpace s) <= String.length s)%nat.
Proof.
  unfold TrimSpace, TrimRightSpace, TrimLeftSpace.
  rewrite length_rev.
  etransitivity; [apply length_trimLeft|]. rewrite length_rev.
  apply length_trimLeft.
Qed.

Lemma HasPrefix_length s p :
  HasPrefix s p = true -> (String.length p <= String.length s)%nat.
Proof.
  revert s. induction p as [|b p IH]; intros s H; simpl; [lia|].
  destruct s as [|a s]; simpl in H; [discriminate|].
  apply andb_prop in H. destruct H as [_ H]. specialize (IH _ H). simpl. lia.
Qed.

Lemma length_TrimSuffix s :
  HasSuffix s "[]" = true ->
  (String.length (TrimSuffix s "[]") < String.length s)%nat.
Proof.
  intros H. unfold TrimSuffix. rewrite H.
  apply HasPrefix_length in H. rewrite !length_rev in H.
  pose proof (length_take (String.length s - String.length "[]") s) as Ht.
  change (String.length "[]") with 2%nat in *. lia.
Qed.

Lemma length_slice s :
  HasPrefix s "{" = true ->
  (String.length (slice s 1 (String.length s - 1)) < String.length s)%nat.
Proof.
  intros H. apply HasPrefix_length in H. simpl in H. unfold slice.
  pose proof (length_take (String.length s - 1 - 1) (skip 1 s)). lia.
Qed.

(** The recursion of [parseType] is bounded by the bytes below [0x80]:
    every call strips some, and no step adds one. *)
Lemma asciiCount_rev s : asciiCount (rev s) = asciiCount s.
Proof.
  induction s as [|a s IH]; [reflexivity|].
  rewrite rev_String, asciiCount_app, IH. simpl. lia.
Qed.

Lemma asciiCount_skip n : forall s, (asciiCount (skip n s) <= asciiCount s)%nat.
Proof.
  induction n as [|n IH]; intros [|a s]; simpl; try specialize (IH s); lia.
Qed.

Lemma asciiCount_take n : forall s, (asciiCount (take n s) <= asciiCount s)%nat.
Proof.
  induction n as [|n IH]; intros [|a s]; simpl; try specialize (IH s); lia.
Qed.

Lemma asciiCount_trimLeft n runes s :
  (asciiCount (trimLeft n runes s) <= asciiCount s)%nat.
Proof.
  revert s. induction n as [|n IH]; intros s; simpl; [lia|].
  destruct (dropRune runes s) as [s'|] eqn:Hd; [|lia].
  assert (Hs' : (asciiCount s' <= asciiCount s)%nat).
  { clear IH. revert Hd. induction runes as [|r runes IHr]; simpl; [discriminate|].
    destruct (HasPrefix s r); [|exact IHr].
    intros H. injection H as <-. apply asciiCount_skip. }
  specialize (IH s'). lia.
Qed.

Lemma asciiCount_TrimSpace s : (asciiCount (TrimSpace s) <= asciiCount s)%nat.
Proof.
  unfold TrimSpace, TrimRightSpace, TrimLeftSpace.
  rewrite asciiCount_rev.
  etransitivity; [apply asciiCount_trimLeft|]. rewrite asciiCount_rev.
  apply asciiCount_trimLeft.
Qed.

Lemma HasPrefix_true p :
  forall s, HasPrefix s p = true -> s = p ++ skip (String.length p) s.
Proof.
  induction p as [|b p IH]; intros s H; [reflexivity|].
  destruct s as [|a s]; simpl in H; [discriminate|].
  apply andb_prop in H. destruct H as [Hab H].
  apply Ascii.eqb_eq in Hab. subst b. simpl. f_equal. now apply IH.
Qed.

Lemma asciiCount_TrimSuffix s :
  HasSuffix s "[]" = true ->
  (asciiCount (TrimSuffix s "[]") < asciiCount s)%nat.
Proof.
  intros H. unfold TrimSuffix. rewrite H.
  apply HasPrefix_true in H.
  set (x := skip (String.length (rev "[]")) (rev s)) in H.
  assert (Hs : s = rev x ++ "[]").
  { rewrite <- (rev_rev s), H, rev_app. reflexivity. }
  rewrite Hs at 1 3. rewrite Hs at 1.
  rewrite length_app. change (String.length "[]") with 2%nat.
  replace (String.length (rev x) + 2 - 2)%nat with (String.length (rev x))
    by lia.
  rewrite take_app_length, asciiCount_app. simpl. lia.
Qed.

Lemma asciiCount_slice s :
  HasPrefix s "{" = true ->
  (asciiCount (slice s 1 (String.length s - 1)) < asciiCount s)%nat.
Proof.
  intros H. apply HasPrefix_true in H. unfold slice.
  pose proof (asciiCount_take (String.length s - 1 - 1) (skip 1 s)) as Ht.
  rewrite H at 3. change (String.length "{") with 1%nat.
  rewrite asciiCount_app. change (asciiCount "{") with 1%nat. lia.
Qed.

Lemma splitBytes_counts (bound : nat) objectStr :
  forall depth current fields,
    Forall (fun p => (asciiCount p <= bound)%nat) fields ->
    (asciiCount current + asciiCount objectStr <= bound)%nat ->
    Forall (fun p => (asciiCount p <= bound)%nat)
           (splitBytes objectStr depth current fields).
Proof.
  induction objectStr as [|ch rest IH]; intros depth current fields Hf Hc.
  - simpl. destruct (0 <? String.length current)%nat; [|exact Hf].
    apply Forall_app. split; [exact Hf|]. constructor; [|constructor].
    simpl in Hc. lia.
  - assert (Hnext : (asciiCount (current ++ String ch "")
                     + asciiCount rest <= bound)%nat).
    { rewrite asciiCount_app. simpl in *. lia. }
    simpl.
    destruct (Ascii.eqb ch "{"); [now apply IH|].
    destruct (Ascii.eqb ch "}"); [now apply IH|].
    destruct (Ascii.eqb ch "|"); [|now apply IH].
    destruct (depth =? 0)%Z; [|now apply IH].
    apply IH.
    + apply Forall_app. split; [exact Hf|]. constructor; [|constructor].
      simpl in Hc. lia.
    + simpl in *. lia.
Qed.

(** The fuel that [parseType] passes to [parseTypeFuel] is never used up:
    the bound is reached by no type expression. *)
Lemma parseTypeFuel_enough fuel :
  forall typeStr,
    (asciiCount typeStr < fuel)%nat ->
    exists r, parseTypeFuel fuel typeStr = Some r.
Proof.
  induction fuel as [|fuel IH]; intros typeStr Hlen; [lia|].
  pose proof (asciiCount_TrimSpace typeStr) as Htrim.
  cbn [parseTypeFuel].
  set (t := TrimSpace typeStr) in *.
  destruct (HasSuffix t "[]") eqn:Harr.
  - pose proof (asciiCount_TrimSuffix t Harr) as Hel.
    destruct (IH (TrimSuffix t "[]") ltac:(lia)) as [[ft|e] ->]; eauto.
  - destruct (HasPrefix t "{" && HasSuffix t "}") eqn:Hobj.
    + apply andb_prop in Hobj. destruct Hobj as [Hopen _].
      pose proof (asciiCount_slice t Hopen) as Hslice.
      set (objectStr := slice t 1 (String.length t - 1)) in *.
      pose proof (splitBytes_counts (asciiCount objectStr) (scrub objectStr)
                    0 "" [] (Forall_nil _)) as Hpieces.
      rewrite asciiCount_scrub, <- splitObjectFields_bytes in Hpieces.
      specialize (Hpieces (Nat.le_refl _)).
      generalize (@nil (string * FieldType)) as fields.
      generalize (@nil string) as fieldOrder.
      induction Hpieces as [|fieldPair fieldPairs Hp _ IHp];
        intros fieldOrder fields; cbn [parseFieldPairs]; [eauto|].
      destruct ((Index fieldPair ":" =? -1)%Z); [eauto|].
      assert (Hlt : (asciiCount
                       (TrimSpace (after fieldPair (Index fieldPair ":")))
                     < fuel)%nat).
      { pose proof (asciiCount_TrimSpace (after fieldPair (Index fieldPair ":"))).
        pose proof (asciiCount_skip (Z.to_nat (Index fieldPair ":" + 1)) fieldPair).
        unfold after in *. lia. }
      destruct (IH _ Hlt) as [[[ty elem fs order n]|e] ->]; [apply IHp|eauto].
    + destruct (isBasicType t); eauto.
Qed.

Lemma parseType_defined typeStr :
  parseTypeFuel (S (String.length typeStr)) typeStr = Some (parseType typeStr).
Proof.
  unfold parseType.
  pose proof (asciiCount_le typeStr) as Hle.
  destruct (parseTypeFuel_enough (S (String.length typeStr)) typeStr
              ltac:(lia)) as [r ->].
  reflexivity.
Qed.
End ParseTypeFuel.

(** ** The bound of [ParseData] *)

Section ParseDataFuel.
Context {F : Floats} {M : Machine}.

Lemma nextLineValue_index valueStr lines i :
  (i <= snd (nextLineValue valueStr lines i))%nat.
Proof.
  unfold nextLineValue.
  destruct (String.eqb valueStr ""); [|simpl; lia].
  destruct (nth_error lines (i + 1)) as [next|]; [|simpl; lia].
  destruct (_ && _); simpl; lia.
Qed.

Lemma parseArrayLoop_index fieldType rest :
  forall i acc elems j,
    parseArrayLoop fieldType rest i acc = Ok (elems, j) -> (i <= j)%nat.
Proof.
  induction rest as [|line rest IH]; intros i acc elems j H; simpl in H.
  - injection H as _ <-. lia.
  - destruct (negb (isIndented line)); [injection H as _ <-; lia|].
    destruct (String.eqb (strings.TrimSpace line) "").
    { apply IH in H. lia. }
    destruct (50000 <=? Z.of_nat (length acc))%Z; [injection H as _ <-; lia|].
    destruct (parseElement fieldType (strings.TrimSpace line)); [|discriminate].
    apply IH in H. lia.
Qed.

Lemma declaredSizeLoop_index fieldType declaredSize rest :
  forall i acc elems j,
    declaredSizeLoop fieldType declaredSize rest i acc = Ok (elems, j) ->
    (i <= j)%nat.
Proof.
  induction rest as [|line rest IH]; intros i acc elems j H; simpl in H.
  - injection H as _ <-. lia.
  - destruct (_ || _)%Z; [|injection H as _ <-; lia].
    destruct (negb (isIndented line)); [injection H as _ <-; lia|].
    destruct (String.eqb (strings.TrimSpace line) "").
    { apply IH in H. lia. }
    destruct (parseElement fieldType (strings.TrimSpace line)); [|discriminate].
    apply IH in H. lia.
Qed.

Lemma parseObjectLoop_index (parseField : string -> fieldParser) lines
      fieldOrder :
  (forall name valueStr k v j,
      parseField name valueStr lines k = Ok (v, j) -> (k < j)%nat) ->
  forall i acc obj j,
    parseObjectLoop parseField fieldOrder lines i acc = Ok (obj, j) ->
    (i <= j)%nat.
Proof.
  intros Hfield.
  induction fieldOrder as [|fieldName fieldOrder IH]; intros i acc obj j H;
    simpl in H.
  - injection H as _ <-. lia.
  - destruct (nth_error lines i) as [raw|]; [|injection H as _ <-; lia].
    destruct (String.eqb (strings.TrimSpace raw) "").
    { apply IH in H. lia. }
    destruct (strings.HasPrefix _ _); [|now apply IH in H].
    destruct (parseField _ _ _ _) as [[value newIndex]|e] eqn:Hp; [|discriminate].
    apply Hfield in Hp. apply IH in H. lia.
Qed.

(** Every successful [parseValue] moves the cursor forward. *)
Lemma parseValue_advances fieldType :
  forall valueStr lines i v j,
    parseValue fieldType valueStr lines i = Ok (v, j) -> (i < j)%nat.
Proof.
  induction fieldType as [ty elem fields order name _ IHfields]
    using FieldType_nested_ind.
  intros valueStr lines i v j. cbn [parseValue].
  destruct (String.eqb ty "string").
  { destruct (if String.eqb valueStr "" then _ else _);
      intros H; injection H as _ <-; lia. }
  assert (Hconv : forall (A : Type) (conv : option A) (mk : A -> Value)
                         (text kind : string) (k : nat),
             (i <= k)%nat ->
             match conv with
             | Some val => Ok (mk val, (k + 1)%nat)
             | None => Err (ErrInvalidValue kind text)
             end = Ok (v, j) -> (i < j)%nat).
  { intros A [val|] mk text kind k Hk H; [|discriminate].
    injection H as _ <-. lia. }
  pose proof (nextLineValue_index valueStr lines i) as Hnext.
  destruct (isIntType ty).
  { destruct (nextLineValue valueStr lines i) as [t k]. now apply Hconv. }
  destruct (String.eqb ty "float32").
  { destruct (nextLineValue valueStr lines i) as [t k]. now apply Hconv. }
  destruct (String.eqb ty "float64").
  { destruct (nextLineValue valueStr lines i) as [t k]. now apply Hconv. }
  destruct (String.eqb ty "bool").
  { destruct (nextLineValue valueStr lines i) as [t k]. now apply Hconv. }
  destruct (String.eqb ty "array").
  { unfold parseArray.
    destruct (_ && _); simpl; [intros H; injection H as _ <-; lia|].
    destruct (parseArrayLoop _ _ _ _) as [[elems k]|e] eqn:Hl; simpl;
      [|discriminate].
    intros H. injection H as _ <-. apply parseArrayLoop_index in Hl. lia. }
  destruct (String.eqb ty "object"); [|discriminate].
  unfold parseObject.
  destruct (_ && _).
  { destruct (parseObjectFromLine _ _); simpl; [|discriminate].
    intros H. injection H as _ <-. lia. }
  match goal with
  | |- context [match ?p with Some _ => _ | None => _ end] => destruct p
  end.
  { destruct (parseObjectFromLine _ _); simpl; [|discriminate].
    intros H. injection H as _ <-. lia. }
  match goal with
  | |- context [parseObjectLoop ?pf ?o ?l ?k ?a] =>
      destruct (parseObjectLoop pf o l k a) as [[obj k']|e] eqn:Hl
  end; simpl; [|discriminate].
  intros H. injection H as _ <-.
  apply parseObjectLoop_index in Hl; [lia|].
  clear Hl. intros fname vs k v' j' Hp.
  induction fields as [|[k0 t0] fields IHf]; simpl in Hp; [discriminate|].
  inversion IHfields as [|? ? Ht0 Hrest]; subst.
  destruct (String.eqb k0 fname).
  - exact (Ht0 _ _ _ _ _ Hp).
  - exact (IHf Hrest Hp).
Qed.

Lemma parseValueWithArraySize_advances fieldType valueStr lines i arraySize v j :
  parseValueWithArraySize fieldType valueStr lines i arraySize = Ok (v, j) ->
  (i < j)%nat.
Proof.
  unfold parseValueWithArraySize.
  destruct (String.eqb (Type_ fieldType) "array");
    [|apply parseValue_advances].
  unfold parseArrayWithDeclaredSize.
  destruct (_ && _).
  - destruct (_ && _)%Z; simpl; [discriminate|].
    intros H. injection H as _ <-. lia.
  - cbv zeta. destruct (maxCap <? _)%Z; [discriminate|].
    destruct (declaredSizeLoop _ _ _ _ _) as [[elems k]|e] eqn:Hl; simpl;
      [|discriminate].
    apply declaredSizeLoop_index in Hl.
    destruct (_ && _)%Z; simpl; [discriminate|].
    intros H. injection H as _ <-. lia.
Qed.

(** The loop of [ParseData] ends within the fuel that the lines left to
    read allow. *)
Lemma parseDataLoop_enough schema lines fuel :
  forall i acc,
    (length lines - i < fuel)%nat ->
    exists r, parseDataLoop fuel schema lines i acc = Some r.
Proof.
  induction fuel as [|fuel IH]; intros i acc Hfuel; [lia|].
  cbn [parseDataLoop].
  destruct (nth_error lines i) as [raw|] eqn:Hraw; [|eauto].
  assert (Hi : (i < length lines)%nat)
    by (apply nth_error_Some; congruence).
  destruct (String.eqb (strings.TrimSpace raw) ""); [apply IH; lia|].
  destruct (_ =? -1)%Z; [eauto|].
  destruct (splitArraySize _) as [fieldName arraySize].
  destruct (mget (Fields schema) fieldName) as [fieldType|]; [|eauto].
  destruct (parseValueWithArraySize _ _ _ _ _) as [[value newIndex]|e] eqn:Hp;
    [|eauto].
  apply parseValueWithArraySize_advances in Hp. apply IH. lia.
Qed.

Lemma ParseData_defined schema dataContent :
  Fields schema <> [] ->
  let lines := strings.Split (strings.TrimSpace dataContent) newline in
  parseDataLoop (S (length lines)) schema lines 0 []
  = Some (ParseData schema dataContent).
Proof.
  intros Hne lines. unfold ParseData.
  destruct (Fields schema) as [|kv fs] eqn:Hf; [contradiction|].
  fold lines.
  destruct (parseDataLoop_enough schema lines (S (length lines)) 0 [] ltac:(lia))
    as [r ->].
  reflexivity.
Qed.
End ParseDataFuel.

(** ** Field names *)

Lemma plainByte_spec (c : ascii) :
  plainByte c = true ->
  leads c strings.spaceRunes = false
  /\ Ascii.eqb c ":" = false /\ Ascii.eqb c "[" = false
  /\ Ascii.eqb c "]" = false /\ Ascii.eqb c "|" = false
  /\ Ascii.eqb c newline = false.
Proof.
  destruct c as [[] [] [] [] [] [] [] []]; vm_compute; intros H;
    try discriminate H; repeat split.
Qed.

Lemma plainName_occurs (name : string) (d : ascii) :
  allBytes plainByte name = true ->
  In d [":"; "["; "]"; "|"; newline]%char ->
  occurs d name = false.
Proof.
  intros Hall Hd. induction name as [|a name IH]; [reflexivity|].
  simpl in Hall. apply andb_prop in Hall. destruct Hall as [Ha Hall].
  simpl. rewrite (IH Hall), orb_false_r.
  destruct (plainByte_spec a Ha) as (_ & H1 & H2 & H3 & H4 & H5).
  simpl in Hd. intuition (subst; assumption).
Qed.

Lemma splitArraySize_declared (name digits : string) :
  occurs "[" name = false -> occurs "]" name = false ->
  occurs "]" digits = false ->
  splitArraySize (name ++ "[" ++ digits ++ "]") =
  (name, match strconv.Atoi digits with Some n => n | None => 0%Z end).
Proof.
  intros Hopen Hclose Hdigits.
  set (s := name ++ "[" ++ digits ++ "]").
  assert (H1 : strings.Index s "[" = Z.of_nat (String.length name)).
  { exact (Index_first "[" name (digits ++ "]") Hopen). }
  assert (H2 : strings.Index s "]"
               = Z.of_nat (String.length name + S (String.length digits))).
  { replace s with ((name ++ String "[" digits) ++ String "]" "")
      by (unfold s; simpl; now rewrite append_assoc).
    rewrite Index_first.
    - rewrite length_app. reflexivity.
    - rewrite occurs_app. simpl. now rewrite Hclose, Hdigits. }
  assert (H3 : strings.take (String.length name) s = name).
  { apply take_app_length. }
  assert (H4 : strings.slice s (String.length name + 1)
                 (String.length name + S (String.length digits)) = digits).
  { unfold strings.slice.
    replace s with ((name ++ "[") ++ (digits ++ "]"))
      by (unfold s; now rewrite append_assoc).
    replace (String.length name + 1)%nat with (String.length (name ++ "["))
      by (rewrite length_app; reflexivity).
    rewrite skip_app_length.
    replace (String.length name + S (String.length digits)
             - String.length (name ++ "["))%nat
      with (String.length digits) by (rewrite length_app; simpl; lia).
    apply take_app_length. }
  unfold splitArraySize, strings.Contains. rewrite H1, H2.
  replace (0 <=? Z.of_nat (String.length name))%Z with true
    by (symmetry; apply Z.leb_le; lia).
  replace (Z.of_nat (String.length name)
           <? Z.of_nat (String.length name + S (String.length digits)))%Z
    with true by (symmetry; apply Z.ltb_lt; lia).
  replace (Z.to_nat (Z.of_nat (String.length name) + 1))
    with (String.length name + 1)%nat by lia.
  rewrite !Nat2Z.id, H3, H4.
  now destruct (strconv.Atoi digits).
Qed.

Lemma TrimSpace_header (name digits w : string) :
  plainName name ->
  exists w' z,
    w = w' ++ z /\
    strings.TrimSpace ((name ++ "[" ++ digits ++ "]") ++ String ":" w)
    = (name ++ "[" ++ digits ++ "]") ++ String ":" w'.
Proof.
  intros [Hne Hall]. destruct name as [|c0 name]; [contradiction|].
  simpl in Hall. apply andb_prop in Hall. destruct Hall as [Hc0 _].
  destruct (plainByte_spec c0 Hc0) as [Hlead _].
  exact (TrimSpace_guarded c0 (name ++ "[" ++ digits ++ "]") ":" w Hlead
           eq_refl).
Qed.

Lemma TrimSpace_name_size (name digits : string) :
  plainName name ->
  strings.TrimSpace (name ++ "[" ++ digits ++ "]") = name ++ "[" ++ digits ++ "]".
Proof.
  intros [Hne Hall]. destruct name as [|c0 name]; [contradiction|].
  simpl in Hall. apply andb_prop in Hall. destruct Hall as [Hc0 _].
  destruct (plainByte_spec c0 Hc0) as [Hlead _].
  destruct (TrimSpace_guarded c0 (name ++ "[" ++ digits) "]" "" Hlead eq_refl)
    as (w' & z & Hw & Ht).
  destruct w'; [|discriminate].
  replace (String c0 name ++ "[" ++ digits ++ "]")
    with (String c0 (name ++ "[" ++ digits) ++ String "]" "").
  - exact Ht.
  - simpl. f_equal. rewrite append_assoc. reflexivity.
Qed.

Lemma TrimRightNewlines_id (s : string) :
  occurs newline s = false -> TrimRightNewlines s = s.
Proof.
  intros H. unfold TrimRightNewlines.
  rewrite <- (occurs_rev newline s) in H.
  destruct (strings.rev s) as [|c r] eqn:Hr.
  - rewrite <- (rev_rev s), Hr. reflexivity.
  - simpl in H. apply orb_false_elim in H. destruct H as [Hc _].
    rewrite Hc. rewrite <- Hr. apply rev_rev.
Qed.

Section SingleElementArray.
Context {F : Floats} {M : Machine}.

(** One round of the loop of [ParseData] on a line that, trimmed, reads
    [name[digits]:w]. *)
Lemma parseDataLoop_array_header fuel schema lines i acc raw
      (name digits w : string) (fieldType : FieldType) :
  plainName name ->
  occurs "]" digits = false -> occurs ":" digits = false ->
  nth_error lines i = Some raw ->
  strings.TrimSpace raw = (name ++ "[" ++ digits ++ "]") ++ String ":" w ->
  mget (Fields schema) name = Some fieldType ->
  parseDataLoop (S fuel) schema lines i acc =
  match parseValueWithArraySize fieldType (strings.TrimSpace w) lines i
          (match strconv.Atoi digits with Some n => n | None => 0%Z end) with
  | Err e => Some (Err (passOn (ErrParsingField name) e))
  | Ok (value, newIndex) =>
      parseDataLoop fuel schema lines newIndex (mset name value acc)
  end.
Proof.
  intros Hname Hd1 Hd2 Hraw Htrim Hfield.
  assert (Hocc : forall d, In d [":"; "["; "]"; "|"; newline]%char ->
                           occurs d name = false).
  { intros d Hd. apply plainName_occurs; [apply Hname|exact Hd]. }
  cbn [parseDataLoop]. rewrite Hraw, Htrim.
  replace (((name ++ "[" ++ digits ++ "]") ++ String ":" w) =? "")
    with false
    by (destruct Hname as [Hne _]; destruct name; [contradiction|reflexivity]).
  rewrite Index_first.
  2:{ rewrite !occurs_app, Hd2, (Hocc ":"%char) by (simpl; auto 10).
      reflexivity. }
  replace (Z.of_nat (String.length (name ++ "[" ++ digits ++ "]")) =? -1)%Z
    with false by (symmetry; apply Z.eqb_neq; lia).
  unfold before, after.
  replace (Z.to_nat (Z.of_nat (String.length (name ++ "[" ++ digits ++ "]")) + 1))
    with (String.length ((name ++ "[" ++ digits ++ "]") ++ ":"))
    by (rewrite (length_app _ ":"); simpl; lia).
  rewrite Nat2Z.id, take_app_length.
  replace ((name ++ "[" ++ digits ++ "]") ++ String ":" w)
    with (((name ++ "[" ++ digits ++ "]") ++ ":") ++ w)
    by (now rewrite append_assoc).
  rewrite skip_app_length.
  rewrite (TrimSpace_name_size _ _ Hname).
  rewrite splitArraySize_declared
    by (auto; apply Hocc; simpl; auto 10).
  rewrite Hfield. reflexivity.
Qed.

(** C10.  For an array field with a scalar element type and a value of
    one element whose text holds no pipe and no line break, the writer
    emits the one line [name[1]: v], without a pipe; and parsing that
    line under the same schema does not give the array back: it fails
    with the array-size-mismatch error for declared 1, found 0. *)
Theorem single_element_array_not_read_back
    (schema : Schema) (name : string) (fieldType elementType : FieldType)
    (v : Value) :
  plainName name ->
  mget (Fields schema) name = Some fieldType ->
  Type_ fieldType = "array" ->
  ElementType fieldType = Some elementType ->
  isSimpleType (Type_ elementType) = true ->
  occurs "|" (formatValue v) = false ->
  occurs newline (formatValue v) = false ->
  let line := name ++ "[1]: " ++ formatValue v in
  writeField name (VArray [v]) fieldType 0 = Ok line
  /\ strings.Contains line "|" = false
  /\ ParseData schema line
     = Err (ErrParsingField name (ErrArraySizeMismatch 1 0)).
Proof.
  intros Hname Hfield Hty Helem Hsimple Hpipe Hnl line.
  assert (Hocc : forall d, In d [":"; "["; "]"; "|"; newline]%char ->
                           occurs d name = false).
  { intros d Hd. apply plainName_occurs; [apply Hname|exact Hd]. }
  assert (Hline_nl : occurs newline line = false).
  { unfold line. rewrite !occurs_app, Hnl, (Hocc newline) by (simpl; auto 10).
    reflexivity. }
  assert (Hline_pipe : occurs "|" line = false).
  { unfold line. rewrite !occurs_app, Hpipe, (Hocc "|"%char) by (simpl; auto 10).
    reflexivity. }
  split; [|split].
  - unfold writeField. rewrite Hty.
    change (isSimpleType "array") with false.
    change ("array" =? "array") with true.
    cbn [asArray length]. rewrite Helem, Hsimple.
    replace ((strings.Repeat "    " 0 ++
              name ++ "[" ++ strconv.Itoa (Z.of_nat 1) ++ "]:") ++
             " " ++ strings.Join (map formatValue [v]) "|")
      with line
      by (unfold line; simpl; rewrite append_assoc; reflexivity).
    now rewrite TrimRightNewlines_id.
  - now apply Contains_occurs.
  - assert (Hshape : line = (name ++ "[" ++ "1" ++ "]")
                            ++ String ":" (" " ++ formatValue v)).
    { unfold line. simpl. now rewrite append_assoc. }
    destruct (TrimSpace_header name "1" (" " ++ formatValue v) Hname)
      as (w1 & z1 & Hw1 & Ht1).
    destruct (TrimSpace_header name "1" w1 Hname) as (w2 & z2 & Hw2 & Ht2).
    assert (Hw1_nl : occurs newline w1 = false).
    { assert (H : occurs newline (w1 ++ z1) = false)
        by (rewrite <- Hw1; simpl; exact Hnl).
      rewrite occurs_app in H. now apply orb_false_elim in H. }
    assert (Hw2_pipe : occurs "|" w2 = false).
    { assert (H : occurs "|" ((w2 ++ z2) ++ z1) = false)
        by (rewrite <- Hw2, <- Hw1; simpl; exact Hpipe).
      rewrite !occurs_app in H. apply orb_false_elim in H.
      destruct H as [H _]. now apply orb_false_elim in H. }
    unfold ParseData.
    destruct (Fields schema) as [|kv fs] eqn:Hfs; [discriminate|].
    rewrite <- Hfs in Hfield. clear Hfs kv fs.
    rewrite Hshape, Ht1, Split_occurs.
    2:{ rewrite !occurs_app, (Hocc newline) by (simpl; auto 10).
        simpl. exact Hw1_nl. }
    cbn [length].
    rewrite (parseDataLoop_array_header 1 schema
               [(name ++ "[" ++ "1" ++ "]") ++ String ":" w1] 0 []
               ((name ++ "[" ++ "1" ++ "]") ++ String ":" w1) name "1" w2
               fieldType Hname eq_refl eq_refl eq_refl Ht2 Hfield).
    unfold parseValueWithArraySize. rewrite Hty.
    change ("array" =? "array") with true.
    unfold parseArrayWithDeclaredSize.
    rewrite (Contains_occurs "|" _ (TrimSpace_occurs _ _ Hw2_pipe)).
    rewrite andb_false_r.
    rewrite (capacity_granted 1) by (pose proof maxCap_fallback; lia).
    reflexivity.
Qed.
End SingleElementArray.

(** ** The declared size of an array line *)

Section ArrayLines.
Context {F : Floats} {M : Machine}.

End ArrayLines.

(** * Further properties of the code *)

(** ** The alphabetical fallback order *)

Section SortFacts.
Import strings.

Lemma ltb_irrefl a : ltb a a = false.
Proof.
  induction a as [|x a IH]; simpl; [reflexivity|].
  now rewrite Nat.ltb_irrefl.
Qed.

Lemma ltb_trans a :
  forall b c, ltb a b = true -> ltb b c = true -> ltb a c = true.
Proof.
  induction a as [|x a IH]; intros [|y b] [|z c]; simpl; try congruence.
  destruct (Nat.ltb_spec (nat_of_ascii x) (nat_of_ascii y)) as [Hxy|Hxy];
    destruct (Nat.ltb_spec (nat_of_ascii y) (nat_of_ascii z)) as [Hyz|Hyz];
    destruct (Nat.ltb_spec (nat_of_ascii y) (nat_of_ascii x)) as [Hyx|Hyx];
    destruct (Nat.ltb_spec (nat_of_ascii z) (nat_of_ascii y)) as [Hzy|Hzy];
    destruct (Nat.ltb_spec (nat_of_ascii x) (nat_of_ascii z)) as [Hxz|Hxz];
    destruct (Nat.ltb_spec (nat_of_ascii z) (nat_of_ascii x)) as [Hzx|Hzx];
    try congruence; try lia.
  apply IH.
Qed.

Lemma ltb_total a :
  forall b, ltb a b = false -> ltb b a = false -> a = b.
Proof.
  induction a as [|x a IH]; intros [|y b]; simpl; try congruence.
  destruct (Nat.ltb_spec (nat_of_ascii x) (nat_of_ascii y)) as [Hxy|Hxy];
    destruct (Nat.ltb_spec (nat_of_ascii y) (nat_of_ascii x)) as [Hyx|Hyx];
    try congruence; try lia.
  intros H1 H2.
  assert (x = y).
  { rewrite <- (ascii_nat_embedding x), <- (ascii_nat_embedding y).
    f_equal. lia. }
  subst y. f_equal. now apply IH.
Qed.

Lemma notAfter_refl a : notAfter a a.
Proof. apply ltb_irrefl. Qed.

Lemma notAfter_trans a b c : notAfter a b -> notAfter b c -> notAfter a c.
Proof.
  unfold notAfter. intros Hab Hbc.
  destruct (ltb c a) eqn:Hca; [|reflexivity].
  destruct (ltb a b) eqn:Hab'.
  - now rewrite (ltb_trans _ _ _ Hca Hab') in Hbc.
  - rewrite (ltb_total _ _ Hab' Hab) in Hca. congruence.
Qed.

Lemma notAfter_of_ltb a b : ltb a b = true -> notAfter a b.
Proof.
  unfold notAfter. intros H. destruct (ltb b a) eqn:Hba; [|reflexivity].
  pose proof (ltb_trans _ _ _ H Hba) as Haa. now rewrite ltb_irrefl in Haa.
Qed.

(** One run of the inner loop leaves the least name in front. *)
Lemma sweep_spec rest :
  forall x m r,
    sweep x rest = (m, r) ->
    Permutation (m :: r) (x :: rest)
    /\ notAfter m x /\ Forall (notAfter m) r.
Proof.
  induction rest as [|y rest IH]; intros x m r; simpl.
  - intros [= <- <-]. repeat split; auto. apply notAfter_refl.
  - destruct (ltb y x) eqn:Hyx.
    + destruct (sweep y rest) as [m' r'] eqn:Hs. intros [= <- <-].
      destruct (IH _ _ _ Hs) as (Hp & Hmy & Hall).
      assert (Hmx : notAfter m' x).
      { eapply notAfter_trans; [exact Hmy|]. now apply notAfter_of_ltb. }
      repeat split; auto.
      rewrite perm_swap. now apply perm_skip.
    + destruct (sweep x rest) as [m' r'] eqn:Hs. intros [= <- <-].
      destruct (IH _ _ _ Hs) as (Hp & Hmx & Hall).
      repeat split; auto.
      * rewrite perm_swap. rewrite Hp. apply perm_swap.
      * constructor; auto. eapply notAfter_trans; [exact Hmx|exact Hyx].
Qed.

Lemma sortLoop_spec fuel :
  forall names,
    (length names <= fuel)%nat ->
    Permutation (sortLoop fuel names) names
    /\ StronglySorted notAfter (sortLoop fuel names).
Proof.
  induction fuel as [|fuel IH]; intros [|x rest] Hlen; simpl in *;
    try (split; [reflexivity|constructor]); try lia.
  destruct (sweep x rest) as [m r] eqn:Hs.
  destruct (sweep_spec _ _ _ _ Hs) as (Hp & Hmx & Hall).
  assert (Hr : (length r <= fuel)%nat).
  { apply Permutation_length in Hp. simpl in Hp. lia. }
  destruct (IH r Hr) as (Hp' & Hsorted).
  split.
  - rewrite Hp'. exact Hp.
  - constructor; [exact Hsorted|].
    rewrite Forall_forall in *. intros z Hz. apply Hall.
    eapply Permutation_in; [exact Hp'|exact Hz].
Qed.

Lemma sortNames_spec names :
  Permutation (sortNames names) names
  /\ StronglySorted notAfter (sortNames names).
Proof. apply sortLoop_spec. reflexivity. Qed.

(** Two ascending arrangements of the same names are the same list. *)
Lemma sorted_unique (l : list string) :
  forall l',
    StronglySorted notAfter l -> StronglySorted notAfter l' ->
    Permutation l l' -> l = l'.
Proof.
  induction l as [|a l IH]; intros [|b l'] Hs Hs' Hp.
  - reflexivity.
  - now apply Permutation_nil in Hp.
  - symmetry in Hp. now apply Permutation_nil in Hp.
  - inversion Hs as [|? ? Hsl Hal]; subst.
    inversion Hs' as [|? ? Hsl' Hbl']; subst.
    assert (Hab : a = b).
    { assert (Ha : In a (b :: l')) by (eapply Permutation_in; [exact Hp|now left]).
      assert (Hb : In b (a :: l)).
      { eapply Permutation_in; [symmetry; exact Hp|now left]. }
      rewrite Forall_forall in Hal, Hbl'.
      destruct Ha as [Ha|Ha]; [now symmetry|].
      destruct Hb as [Hb|Hb]; [assumption|].
      apply ltb_total; [apply (Hbl' _ Ha)|apply (Hal _ Hb)]. }
    subst b. f_equal. apply IH; auto.
    now apply Permutation_cons_inv in Hp.
Qed.

Lemma sortNames_Permutation names names' :
  Permutation names names' -> sortNames names' = sortNames names.
Proof.
  intros Hp.
  destruct (sortNames_spec names) as (Hp1 & Hs1).
  destruct (sortNames_spec names') as (Hp2 & Hs2).
  apply sorted_unique; auto.
  rewrite Hp2, Hp1. now symmetry.
Qed.

End SortFacts.

(** X1.  Where no order was recorded, the field order is the set of keys
    in ascending byte order: every key once, each name not after the
    names that follow it; it is the same for every iteration order of
    the map. *)
Theorem fallback_order_sorted :
  (forall names,
      Permutation (sortNames names) names
      /\ StronglySorted notAfter (sortNames names))
  /\ (forall s s' : Schema,
         FieldOrder s = [] -> FieldOrder s' = [] ->
         Permutation (Fields s) (Fields s') ->
         Permutation (GetFieldOrder s) (keys (Fields s))
         /\ StronglySorted notAfter (GetFieldOrder s)
         /\ GetFieldOrder s' = GetFieldOrder s
         /\ (wf_map (Fields s) -> ToString s' = ToString s))
  /\ (forall ft ft' : FieldType,
         ObjectOrder ft = [] -> ObjectOrder ft' = [] ->
         Permutation (ObjectFields ft) (ObjectFields ft') ->
         Permutation (getObjectFieldOrder (Some ft)) (keys (ObjectFields ft))
         /\ StronglySorted notAfter (getObjectFieldOrder (Some ft))
         /\ getObjectFieldOrder (Some ft') = getObjectFieldOrder (Some ft)).
Proof.
  split; [exact sortNames_spec|]. split.
  - intros s s' H H' Hp. unfold GetFieldOrder. rewrite H, H'.
    destruct (sortNames_spec (keys (Fields s))) as (Hp1 & Hs1).
    assert (Hk : sortNames (keys (Fields s')) = sortNames (keys (Fields s))).
    { apply sortNames_Permutation. unfold keys. now apply Permutation_map. }
    repeat split; auto.
    intros Hwf. unfold ToString, GetFieldOrder. rewrite H, H', Hk.
    f_equal. apply map_ext. intros name.
    now rewrite (mget_Permutation _ _ name Hwf Hp).
  - intros ft ft' H H' Hp. unfold getObjectFieldOrder. rewrite H, H'.
    destruct (sortNames_spec (keys (ObjectFields ft))) as (Hp1 & Hs1).
    repeat split; auto.
    apply sortNames_Permutation. unfold keys. now apply Permutation_map.
Qed.

(** ** What [splitObjectFields] keeps *)

Lemma Join_snoc (fields : list string) (current x : string) :
  fold_right (fun f acc => f ++ "|" ++ acc) (current ++ x) fields
  = strings.Join (fields ++ [current])%list "|" ++ x.
Proof.
  induction fields as [|f fields IH]; [reflexivity|].
  change ((f :: fields) ++ [current])%list with (f :: (fields ++ [current]))%list.
  cbn [strings.Join fold_right]. rewrite IH.
  destruct (fields ++ [current])%list as [|g rest] eqn:E.
  - now destruct fields.
  - now rewrite !append_assoc.
Qed.

Lemma splitBytes_keeps (objectStr : string) :
  forall depth current fields,
    exists tail,
      (tail = "" \/ tail = "|") /\
      fold_right (fun f acc => f ++ "|" ++ acc) (current ++ objectStr) fields
      = strings.Join (splitBytes objectStr depth current fields) "|" ++ tail.
Proof.
  induction objectStr as [|ch rest IH]; intros depth current fields.
  - cbn [splitBytes]. destruct current as [|c current'].
    + cbn [String.length Nat.ltb Nat.leb].
      destruct fields as [|f fields'] using rev_ind.
      * exists "". split; [now left|reflexivity].
      * exists "|". split; [now right|].
        rewrite fold_right_app. cbn [fold_right].
        change ("" ++ "") with "". apply Join_snoc.
    + exists "". split; [now left|].
      change (0 <? String.length (String c current'))%nat with true. cbv iota.
      apply Join_snoc.
  - cbn [splitBytes].
    assert (Hstep : forall d,
      exists tail,
        (tail = "" \/ tail = "|") /\
        fold_right (fun f acc => f ++ "|" ++ acc)
                   (current ++ String ch rest) fields
        = strings.Join (splitBytes rest d (current ++ String ch "") fields) "|"
            ++ tail).
    { intros d. destruct (IH d (current ++ String ch "") fields)
        as (tail & Ht & E).
      exists tail. split; [exact Ht|]. rewrite <- E.
      now rewrite append_String_assoc. }
    destruct (Ascii.eqb ch "{"); [apply Hstep|].
    destruct (Ascii.eqb ch "}"); [apply Hstep|].
    destruct (Ascii.eqb ch "|") eqn:Hpipe; [|apply Hstep].
    destruct (depth =? 0)%Z; [|apply Hstep].
    apply Ascii.eqb_eq in Hpipe. subst ch.
    destruct (IH depth "" (fields ++ [current])%list) as (tail & Ht & E).
    exists tail. split; [exact Ht|]. rewrite <- E.
    rewrite fold_right_app. reflexivity.
Qed.

(** X2.  [splitObjectFields] drops nothing but a last pipe at depth
    zero: the pieces, joined by pipes again, are the object expression
    as the loop over its runes writes it, up to that pipe.  That is the
    expression itself when it is well-formed UTF-8; otherwise it has
    U+FFFD in the place of every ill-formed byte.  Only the empty
    expression has no piece. *)
Theorem splitObjectFields_keeps_text (objectStr : string) :
  (exists tail,
      (tail = "" \/ tail = "|") /\
      scrub objectStr = strings.Join (splitObjectFields objectStr) "|" ++ tail)
  /\ (wellFormed objectStr ->
      exists tail,
        (tail = "" \/ tail = "|") /\
        objectStr = strings.Join (splitObjectFields objectStr) "|" ++ tail)
  /\ (splitObjectFields objectStr = [] <-> objectStr = "").
Proof.
  assert (H : exists tail,
      (tail = "" \/ tail = "|") /\
      scrub objectStr = strings.Join (splitObjectFields objectStr) "|" ++ tail).
  { rewrite splitObjectFields_bytes.
    destruct (splitBytes_keeps (scrub objectStr) 0 "" []) as (tail & Ht & E).
    exists tail. split; [exact Ht|]. exact E. }
  split; [exact H|]. split.
  - intros Hwf. unfold wellFormed in Hwf. now rewrite Hwf in H.
  - split.
    + intros E. destruct H as (tail & [Ht|Ht] & H); rewrite E in H; subst tail.
      * destruct objectStr as [|c s]; [reflexivity|].
        now apply scrub_nonempty in H.
      * exfalso. revert E. rewrite splitObjectFields_bytes, H. discriminate.
    + intros ->. reflexivity.
Qed.

(** ** The keys of a parsed record *)

Section ParsedKeys.
Context {F : Floats} {M : Machine}.

Lemma keys_mset {V : Type} (k : string) (v : V) (m : list (string * V)) :
  keys (mset k v m) = if existsb (String.eqb k) (keys m) then keys m
                      else (keys m ++ [k])%list.
Proof.
  induction m as [|[k' v'] m IH]; [reflexivity|].
  cbn [mset keys map fst existsb]. rewrite (String.eqb_sym k k').
  destruct (String.eqb k' k) eqn:E.
  - apply String.eqb_eq in E. now subst k'.
  - cbn [orb map fst]. fold (keys (mset k v m)). rewrite IH.
    fold (keys m). now destruct (existsb (String.eqb k) (keys m)).
Qed.

Lemma wf_map_mset {V : Type} (k : string) (v : V) (m : list (string * V)) :
  wf_map m -> wf_map (mset k v m).
Proof.
  unfold wf_map. rewrite keys_mset. intros Hwf.
  destruct (existsb (String.eqb k) (keys m)) eqn:E; [exact Hwf|].
  apply NoDup_app; [exact Hwf|repeat constructor; intros []|].
  intros x Hx [E'|[]]. subst x.
  assert (existsb (String.eqb k) (keys m) = true); [|congruence].
  apply existsb_exists. exists k. split; [exact Hx|apply String.eqb_refl].
Qed.

Lemma In_keys_mset {V : Type} (k : string) (v : V) (m : list (string * V)) x :
  In x (keys (mset k v m)) -> x = k \/ In x (keys m).
Proof.
  rewrite keys_mset. destruct (existsb (String.eqb k) (keys m)); [now right|].
  rewrite in_app_iff. intros [H|[E|[]]]; auto.
Qed.

Lemma parseDataLoop_keys fuel schema lines :
  forall i acc data,
    parseDataLoop fuel schema lines i acc = Some (Ok data) ->
    wf_map acc ->
    (forall name, In name (keys acc) -> mget (Fields schema) name <> None) ->
    wf_map data
    /\ forall name, In name (keys data) -> mget (Fields schema) name <> None.
Proof.
  induction fuel as [|fuel IH]; intros i acc data; [discriminate|].
  cbn [parseDataLoop].
  destruct (nth_error lines i) as [raw|]; [|intros [= <-]; auto].
  destruct (String.eqb (strings.TrimSpace raw) ""); [apply IH|].
  destruct (strings.Index (strings.TrimSpace raw) ":" =? -1)%Z; [discriminate|].
  destruct (splitArraySize _) as [fieldName arraySize].
  destruct (mget (Fields schema) fieldName) as [fieldType|] eqn:Hf;
    [|discriminate].
  destruct (parseValueWithArraySize _ _ _ _ _) as [[value newIndex]|e];
    [|discriminate].
  intros H Hwf Hdecl. apply (IH _ _ _ H).
  - now apply wf_map_mset.
  - intros name Hin. apply In_keys_mset in Hin. destruct Hin as [->|Hin].
    + congruence.
    + now apply Hdecl.
Qed.

(** Every value of the result was read by [parseValueWithArraySize] at
    the declared type of its field. *)
Lemma parseDataLoop_values fuel schema lines :
  forall i acc data,
    parseDataLoop fuel schema lines i acc = Some (Ok data) ->
    forall name v,
      mget data name = Some v ->
      mget acc name = Some v
      \/ exists ft valueStr k N j,
           mget (Fields schema) name = Some ft /\
           parseValueWithArraySize ft valueStr lines k N = Ok (v, j).
Proof.
  induction fuel as [|fuel IH]; intros i acc data; [discriminate|].
  cbn [parseDataLoop].
  destruct (nth_error lines i) as [raw|]; [|intros [= <-]; auto].
  destruct (String.eqb (strings.TrimSpace raw) ""); [apply IH|].
  destruct (strings.Index (strings.TrimSpace raw) ":" =? -1)%Z; [discriminate|].
  destruct (splitArraySize _) as [fieldName arraySize].
  destruct (mget (Fields schema) fieldName) as [fieldType|] eqn:Hf;
    [|discriminate].
  destruct (parseValueWithArraySize _ _ _ _ _) as [[value newIndex]|e] eqn:Hv;
    [|discriminate].
  intros H name v Hget.
  destruct (IH _ _ _ H _ _ Hget) as [Hacc|Hread]; [|now right].
  destruct (String.eqb_spec fieldName name) as [<-|Hne].
  - rewrite mget_mset_eq in Hacc. injection Hacc as <-.
    right. now exists fieldType, (strings.TrimSpace
      (after (strings.TrimSpace raw) (strings.Index (strings.TrimSpace raw) ":"))),
      i, arraySize, newIndex.
  - rewrite mget_mset_ne in Hacc by exact Hne. now left.
Qed.

(** The value that [parseValue] reads for a scalar type is of that type. *)
Lemma parseValue_scalar_validates fieldType valueStr lines i v j :
  isSimpleType (Type_ fieldType) = true ->
  parseValue fieldType valueStr lines i = Ok (v, j) ->
  validateValue v fieldType = None.
Proof.
  intros Hs H.
  destruct (validateValue_scalar v fieldType) as (Hstr & Hint & Hflt & Hbool).
  destruct fieldType as [ty elem fields order name]. cbn [Type_] in *.
  cbn [parseValue] in H.
  destruct (String.eqb_spec ty "string") as [->|Hn1].
  { rewrite (Hstr eq_refl).
    destruct (if String.eqb valueStr "" then _ else _);
      injection H as <- <-; reflexivity. }
  destruct (isIntType ty) eqn:Hi.
  { rewrite (Hint eq_refl).
    destruct (nextLineValue _ _ _) as [vs k].
    destruct (strconv.ParseInt _); [|discriminate].
    now injection H as <- <-. }
  assert (Hf : forall t, ty = t -> isFloatType t = true ->
                         isFloatType ty = true) by (now intros t ->).
  destruct (String.eqb_spec ty "float32") as [E|Hn2].
  { rewrite (Hflt (Hf _ E eq_refl)).
    destruct (nextLineValue _ _ _) as [vs k].
    destruct (ParseFloat32 _); [|discriminate].
    now injection H as <- <-. }
  destruct (String.eqb_spec ty "float64") as [E|Hn3].
  { rewrite (Hflt (Hf _ E eq_refl)).
    destruct (nextLineValue _ _ _) as [vs k].
    destruct (ParseFloat64 _); [|discriminate].
    now injection H as <- <-. }
  destruct (String.eqb_spec ty "bool") as [->|Hn4].
  { rewrite (Hbool eq_refl).
    destruct (nextLineValue _ _ _) as [vs k].
    destruct (strconv.ParseBool _); [|discriminate].
    now injection H as <- <-. }
  exfalso. unfold isSimpleType, isIntType in *. cbn [existsb] in *.
  repeat match goal with
         | H : ?t <> ?u |- _ =>
             apply String.eqb_neq in H
         end.
  rewrite Hn1, Hn2, Hn3, Hn4 in Hs. cbn [orb] in *.
  rewrite Hi in Hs. discriminate.
Qed.

End ParsedKeys.

Section ParsedRecords.
Context {F : Floats} {M : Machine}.

Lemma unknownFields_declared (s : Schema) (names : list string) :
  (forall name, In name names -> mget (Fields s) name <> None) ->
  unknownFields s names = None.
Proof.
  induction names as [|n names IH]; intros H; [reflexivity|].
  cbn [unknownFields].
  destruct (mget (Fields s) n) eqn:E.
  - apply IH. intros name Hin. apply H. now right.
  - exfalso. apply (H n); [now left|exact E].
Qed.

Lemma ParseData_loop schema dataContent data :
  ParseData schema dataContent = Ok data ->
  exists fuel lines,
    parseDataLoop fuel schema lines 0 [] = Some (Ok data).
Proof.
  unfold ParseData. destruct (Fields schema); [discriminate|].
  destruct (parseDataLoop _ _ _ _ _) as [r|] eqn:E; [|discriminate].
  intros ->. eauto.
Qed.

Lemma declaredSizeLoop_strings fieldType declaredSize rest :
  objectElement fieldType = None ->
  forall i acc elems j,
    declaredSizeLoop fieldType declaredSize rest i acc = Ok (elems, j) ->
    (exists texts, acc = map VString texts) ->
    exists texts, elems = map VString texts.
Proof.
  intros Hno. induction rest as [|line rest IH]; intros i acc elems j;
    cbn [declaredSizeLoop].
  - now intros [= <- <-].
  - destruct (_ || _)%bool; [|now intros [= <- <-]].
    destruct (negb (isIndented line)); [now intros [= <- <-]|].
    destruct (String.eqb _ ""); [apply IH|].
    rewrite (parseElement_scalar _ _ Hno).
    intros H (texts & ->). apply (IH _ _ _ _ H).
    exists (texts ++ [strings.TrimSpace line])%list. now rewrite map_app.
Qed.

Lemma parseArrayWithDeclaredSize_strings fieldType valueStr lines i N elems j :
  objectElement fieldType = None ->
  parseArrayWithDeclaredSize fieldType valueStr lines i N = Ok (elems, j) ->
  exists texts, elems = map VString texts.
Proof.
  intros Hno. unfold parseArrayWithDeclaredSize.
  destruct (_ && _)%bool.
  - destruct (_ && _)%bool; [discriminate|]. intros [= <- <-].
    exists (map strings.TrimSpace (strings.Split valueStr "|")).
    unfold inlineArray. now rewrite map_map.
  - cbv zeta. destruct (maxCap <? _)%Z; [discriminate|].
    destruct (declaredSizeLoop _ _ _ _ _) as [[es k]|e] eqn:E; [|discriminate].
    destruct (_ && _)%bool; [discriminate|]. intros [= <- <-].
    apply (declaredSizeLoop_strings _ _ _ Hno _ _ _ _ E). now exists [].
Qed.

End ParsedRecords.

Section ParsedRecordTheorems.
Context {F : Floats} {M : Machine}.

(** X3.  A record that [ParseData] returns has no key twice and only keys
    that the schema declares, so the unknown-field check of
    [ValidateData] never fires on it. *)
Theorem ParseData_keys_declared schema dataContent data :
  ParseData schema dataContent = Ok data ->
  wf_map data
  /\ (forall name, In name (keys data) -> mget (Fields schema) name <> None)
  /\ unknownFields schema (keys data) = None.
Proof.
  intros H. destruct (ParseData_loop _ _ _ H) as (fuel & lines & Hloop).
  destruct (parseDataLoop_keys _ _ _ _ _ _ Hloop) as (Hwf & Hdecl).
  - constructor.
  - intros name [].
  - repeat split; auto. now apply unknownFields_declared.
Qed.

(** X4.  Under a schema of scalar fields only, every value that
    [ParseData] returns passes [validateValue] at the declared type of
    its field, and the record passes [ValidateData]. *)
Theorem parsed_scalars_validate schema dataContent data :
  wf_map (Fields schema) ->
  (forall name ft,
      mget (Fields schema) name = Some ft -> isSimpleType (Type_ ft) = true) ->
  ParseData schema dataContent = Ok data ->
  (forall name ft v,
      mget (Fields schema) name = Some ft -> mget data name = Some v ->
      validateValue v ft = None)
  /\ ValidateData schema data = None.
Proof.
  intros Hwf Hflat H.
  destruct (ParseData_loop _ _ _ H) as (fuel & lines & Hloop).
  assert (Hvals : forall name ft v,
             mget (Fields schema) name = Some ft -> mget data name = Some v ->
             validateValue v ft = None).
  { intros name ft v Hft Hv.
    destruct (parseDataLoop_values _ _ _ _ _ _ Hloop _ _ Hv)
      as [Hacc|(ft' & valueStr & k & N & j & Hft' & Hread)]; [discriminate|].
    assert (ft' = ft) by congruence. subst ft'.
    pose proof (Hflat _ _ Hft) as Hs.
    unfold parseValueWithArraySize in Hread.
    destruct (String.eqb_spec (Type_ ft) "array") as [E|_].
    - rewrite E in Hs. discriminate.
    - now apply (parseValue_scalar_validates _ _ _ _ _ _ Hs Hread). }
  split; [exact Hvals|].
  unfold ValidateData.
  destruct (validateFields (Fields schema) data) as [err|] eqn:E.
  - destruct (validateFields_Some _ _ _ E) as (f & t & v & e & Hin & Hv & He & _).
    rewrite (Hvals f t v) in He; [discriminate| |exact Hv].
    now apply In_mget.
  - destruct (parseDataLoop_keys _ _ _ _ _ _ Hloop) as (_ & Hdecl).
    + constructor.
    + intros name [].
    + now apply unknownFields_declared.
Qed.

(** X5.  The elements of an array whose element type is not an object
    are never converted: [ParseData] returns them as strings, whatever
    element type the schema declares.  So a non-empty array of a declared
    numeric or boolean element type is parsed; [validateValue] rejects
    the parsed array at its declared type with the array-element error
    of index 0, which says that it got a string; and [ValidateData]
    rejects the record that holds it with a validation error. *)
Theorem parsed_array_elements_are_strings schema dataContent data name ft v :
  ParseData schema dataContent = Ok data ->
  mget (Fields schema) name = Some ft ->
  Type_ ft = "array" -> objectElement ft = None ->
  mget data name = Some v ->
  exists texts,
    v = VArray (map VString texts)
    /\ (forall et,
           ElementType ft = Some et -> In (Type_ et) convertedKinds ->
           texts <> [] ->
           (exists label,
               validateValue v ft
               = Some (ErrArrayElement 0 (ErrExpected label "string")))
           /\ exists f e, ValidateData schema data = Some (ErrValidation f e)).
Proof.
  intros H Hft Harr Hno Hv.
  destruct (ParseData_loop _ _ _ H) as (fuel & lines & Hloop).
  destruct (parseDataLoop_values _ _ _ _ _ _ Hloop _ _ Hv)
    as [Hacc|(ft' & valueStr & k & N & j & Hft' & Hread)]; [discriminate|].
  assert (ft' = ft) by congruence. subst ft'.
  unfold parseValueWithArraySize in Hread. rewrite Harr in Hread.
  cbn [String.eqb Ascii.eqb Bool.eqb] in Hread.
  destruct (parseArrayWithDeclaredSize ft valueStr lines k N)
    as [[elems j']|e] eqn:E; [|discriminate].
  cbn [mapValue] in Hread. injection Hread as <- <-.
  destruct (parseArrayWithDeclaredSize_strings _ _ _ _ _ _ _ Hno E)
    as (texts & ->).
  exists texts. split; [reflexivity|].
  intros et Het Hkind Hne.
  assert (Hval : exists label,
             validateValue (VArray (map VString texts)) ft
             = Some (ErrArrayElement 0 (ErrExpected label "string"))).
  { destruct texts as [|t texts]; [congruence|].
    destruct (validateValue_scalar (VString t) et) as (_ & Hint & Hflt & Hbool).
    destruct ft as [ty elem fields order nm]. cbn [Type_ ElementType] in *.
    subst ty elem. cbn [validateValue String.eqb Ascii.eqb Bool.eqb isIntType
                        isFloatType existsb orb map].
    unfold convertedKinds in Hkind. cbn [In] in Hkind.
    destruct Hkind as [K|[K|[K|[K|[K|[K|[]]]]]]];
      [rewrite Hint by (now rewrite <- K)
      |rewrite Hint by (now rewrite <- K)
      |rewrite Hint by (now rewrite <- K)
      |rewrite Hflt by (now rewrite <- K)
      |rewrite Hflt by (now rewrite <- K)
      |rewrite Hbool by (now rewrite <- K)]; eauto. }
  split; [exact Hval|].
  destruct Hval as (label & Hval).
  unfold ValidateData.
  destruct (validateFields (Fields schema) data) as [err|] eqn:Ev.
  - destruct (validateFields_Some _ _ _ Ev) as (f & t & v' & e' & _ & _ & _ & ->).
    eauto.
  - rewrite (validateFields_None _ _ Ev name ft _ (mget_In _ _ _ Hft) Hv) in Hval.
    discriminate.
Qed.

End ParsedRecordTheorems.

(** ** Arrays without a declared size *)

Section UndeclaredSizeFacts.
Context {F : Floats} {M : Machine}.

Lemma declaredSizeLoop_whole_block fieldType declaredSize rest :
  (declaredSize <= 0)%Z ->
  forall i acc,
    Forall (fun l => exists v, parseElement fieldType l = Ok v)
           (elementLines rest) ->
    declaredSizeLoop fieldType declaredSize rest i acc =
    Ok ((acc ++ map (elementOf fieldType) (elementLines rest))%list,
        i + indentedBlock rest).
Proof.
  intros Hle.
  induction rest as [|line rest IH]; intros i acc Hok;
    cbn [declaredSizeLoop elementLines indentedBlock].
  - cbn [map]. now rewrite app_nil_r, Nat.add_0_r.
  - replace (declaredSize <=? 0)%Z with true by (symmetry; apply Z.leb_le; lia).
    cbn [orb]. cbn [elementLines] in Hok.
    destruct (isIndented line); cbn [negb].
    + destruct (String.eqb (strings.TrimSpace line) "").
      * rewrite IH by exact Hok. f_equal. f_equal. lia.
      * inversion Hok as [|? ? [v Hv] Hrest]; subst.
        rewrite Hv, IH by exact Hrest. cbn [map].
        unfold elementOf at 2. rewrite Hv. rewrite <- app_assoc.
        f_equal. f_equal. lia.
    + cbn [map]. now rewrite app_nil_r, Nat.add_0_r.
Qed.

Lemma declaredSizeLoop_rejects fieldType declaredSize rest :
  forall i acc line e,
    (declaredSize <= 0)%Z ->
    In line (elementLines rest) -> parseElement fieldType line = Err e ->
    exists e', declaredSizeLoop fieldType declaredSize rest i acc = Err e'.
Proof.
  intros i acc line e Hle. revert i acc.
  induction rest as [|l rest IH]; intros i acc Hin He; [destruct Hin|].
  cbn [declaredSizeLoop elementLines] in *.
  replace (declaredSize <=? 0)%Z with true by (symmetry; apply Z.leb_le; lia).
  cbn [orb]. destruct (isIndented l); [|destruct Hin]. cbn [negb].
  destruct (String.eqb (strings.TrimSpace l) ""); [now apply IH|].
  destruct (parseElement fieldType (strings.TrimSpace l)) as [v|e'] eqn:Hv;
    [|now exists e'].
  destruct Hin as [<-|Hin]; [congruence|]. now apply IH.
Qed.

(** The loop of [parseArray] collects the element lines of the block
    until it holds 50000 of them. *)
Lemma parseArrayLoop_block fieldType rest :
  forall i acc,
    Forall (fun l => exists v, parseElement fieldType l = Ok v)
           (firstn (Z.to_nat 50000 - length acc) (elementLines rest)) ->
    exists i',
      parseArrayLoop fieldType rest i acc =
      Ok ((acc ++ map (elementOf fieldType)
                    (firstn (Z.to_nat 50000 - length acc)
                            (elementLines rest)))%list, i').
Proof.
  induction rest as [|line rest IH]; intros i acc Hok;
    cbn [parseArrayLoop elementLines].
  - exists i. now rewrite firstn_nil, app_nil_r.
  - cbn [elementLines] in Hok. destruct (isIndented line); cbn [negb].
    + destruct (String.eqb (strings.TrimSpace line) ""); [now apply IH|].
      destruct (Z.leb_spec 50000 (Z.of_nat (length acc))) as [Hfull|Hroom].
      * exists i. replace (Z.to_nat 50000 - length acc)%nat with O by lia.
        cbn [firstn map]. now rewrite app_nil_r.
      * remember (Z.to_nat 50000) as limit eqn:Hlimit.
        replace (limit - length acc)%nat
          with (S (limit - (length acc + 1)))%nat in * by lia.
        cbn [firstn map] in *.
        inversion Hok as [|? ? [v Hv] Hrest]; subst.
        rewrite Hv.
        destruct (IH (S i) (acc ++ [v])%list) as [i' Hi'].
        { now rewrite List.length_app. }
        exists i'. rewrite Hi'. rewrite List.length_app. cbn [length].
        unfold elementOf at 2. rewrite Hv. now rewrite <- app_assoc.
    + exists i. now rewrite firstn_nil, app_nil_r.
Qed.

Lemma parseArrayLoop_limit fieldType rest :
  forall i acc elems j,
    parseArrayLoop fieldType rest i acc = Ok (elems, j) ->
    (Z.of_nat (length acc) <= 50000)%Z ->
    (Z.of_nat (length elems) <= 50000)%Z.
Proof.
  induction rest as [|line rest IH]; intros i acc elems j;
    cbn [parseArrayLoop].
  - now intros [= <- <-].
  - destruct (negb (isIndented line)); [now intros [= <- <-]|].
    destruct (String.eqb (strings.TrimSpace line) ""); [apply IH|].
    destruct (Z.leb_spec 50000 (Z.of_nat (length acc))) as [Hfull|Hroom];
      [now intros [= <- <-]|].
    destruct (parseElement fieldType (strings.TrimSpace line)) as [v|e];
      [|discriminate].
    intros H _. apply (IH _ _ _ _ H). rewrite List.length_app. cbn [length]. lia.
Qed.

End UndeclaredSizeFacts.

Section UndeclaredSizeTheorems.
Context {F : Floats} {M : Machine}.

(** X6.  An array header with no declared size (or a size that is not
    positive) and no pipe on its line is followed by its elements, one
    per line: [parseArrayWithDeclaredSize] reads the whole indented
    block, skips its blank lines, hands back the index of the first line
    that is not indented, and ignores the text on the header line.  The
    array fails when a line of the block is not an element. *)
Theorem undeclared_size_reads_block fieldType valueStr lines currentIndex N :
  (N <= 0)%Z ->
  valueStr = "" \/ strings.Contains valueStr "|" = false ->
  let rest := skipn (currentIndex + 1) lines in
  (Forall (fun l => exists v, parseElement fieldType l = Ok v)
          (elementLines rest) ->
   parseArrayWithDeclaredSize fieldType valueStr lines currentIndex N
   = Ok (map (elementOf fieldType) (elementLines rest),
         currentIndex + 1 + indentedBlock rest))
  /\ (forall line e,
         In line (elementLines rest) -> parseElement fieldType line = Err e ->
         exists e',
           parseArrayWithDeclaredSize fieldType valueStr lines currentIndex N
           = Err e').
Proof.
  intros Hle Hmulti rest.
  assert (Hcond : negb (String.eqb valueStr "")
                  && strings.Contains valueStr "|" = false).
  { destruct Hmulti as [Hempty | Hnopipe].
    - now rewrite Hempty.
    - rewrite Hnopipe. apply andb_false_r. }
  unfold parseArrayWithDeclaredSize. rewrite Hcond. cbv zeta.
  rewrite (capacity_granted N) by (pose proof maxCap_fallback; lia).
  fold rest.
  split.
  - intros Hok.
    rewrite (declaredSizeLoop_whole_block _ _ _ Hle _ _ Hok).
    now replace (0 <? N)%Z with false by (symmetry; apply Z.ltb_ge; lia).
  - intros line e Hin He.
    destruct (declaredSizeLoop_rejects fieldType N rest (currentIndex + 1) []
                line e Hle Hin He) as (e' & ->).
    now exists e'.
Qed.

(** X7.  The array parser of nested fields, [parseArray], has no declared
    size to go by; on the multi-line path it stops after 50000 elements,
    so it returns the first 50000 element lines of the block at most. *)
Theorem parseArray_limit fieldType valueStr lines currentIndex :
  valueStr = "" \/ strings.Contains valueStr "|" = false ->
  let block := elementLines (skipn (currentIndex + 1) lines) in
  (forall elems i,
      parseArray fieldType valueStr lines currentIndex = Ok (elems, i) ->
      (Z.of_nat (length elems) <= 50000)%Z)
  /\ (Forall (fun l => exists v, parseElement fieldType l = Ok v)
             (firstn (Z.to_nat 50000) block) ->
      exists i,
        parseArray fieldType valueStr lines currentIndex
        = Ok (map (elementOf fieldType) (firstn (Z.to_nat 50000) block), i)).
Proof.
  intros Hmulti block.
  assert (Hcond : negb (String.eqb valueStr "")
                  && strings.Contains valueStr "|" = false).
  { destruct Hmulti as [Hempty | Hnopipe].
    - now rewrite Hempty.
    - rewrite Hnopipe. apply andb_false_r. }
  unfold parseArray. rewrite Hcond.
  split.
  - intros elems i H. apply (parseArrayLoop_limit _ _ _ _ _ _ H). cbn [length]. lia.
  - intros Hok.
    destruct (parseArrayLoop_block fieldType (skipn (currentIndex + 1) lines)
                (currentIndex + 1) []) as [i' Hi'].
    { cbn [length]. now rewrite Nat.sub_0_r. }
    exists i'. rewrite Hi'. cbn [length app]. now rewrite Nat.sub_0_r.
Qed.

End UndeclaredSizeTheorems.

(** ** Validation and the writer *)

Section WritableFacts.
Context {F : Floats} {M : Machine}.

Lemma simple_kinds (ty : string) :
  isSimpleType ty =
  (String.eqb ty "string" || isIntType ty || isFloatType ty
   || String.eqb ty "bool")%bool.
Proof.
  unfold isSimpleType, isIntType, isFloatType. cbn [existsb].
  repeat rewrite orb_false_r. repeat rewrite orb_assoc. reflexivity.
Qed.

Lemma validateValue_array elem fields order name (v : Value) :
  validateValue v (mkFieldType "array" elem fields order name) = None ->
  exists arr,
    v = VArray arr
    /\ forall et, elem = Some et -> Forall (fun x => validateValue x et = None) arr.
Proof.
  cbn [validateValue String.eqb Ascii.eqb Bool.eqb isIntType isFloatType
       existsb orb].
  destruct v; try discriminate.
  intros H. exists l. split; [reflexivity|]. intros et ->.
  revert H. generalize O.
  induction l as [|x l IH]; intros i H; constructor.
  - destruct (validateValue x et); [discriminate|reflexivity].
  - destruct (validateValue x et); [discriminate|]. now apply (IH (S i)).
Qed.

Lemma validateValue_object elem fields order name (v : Value) :
  validateValue v (mkFieldType "object" elem fields order name) = None ->
  exists obj, v = VObject obj.
Proof.
  cbn [validateValue String.eqb Ascii.eqb Bool.eqb isIntType isFloatType
       existsb orb].
  destruct v; try discriminate. eauto.
Qed.

Lemma writeItems_Ok (items : list Value) (itemType : option FieldType)
      (indent : nat) :
  (forall it, itemType = Some it -> Type_ it = "object" ->
              Forall (fun x => exists obj, x = VObject obj) items) ->
  forall buffer, exists text, writeItems items itemType indent buffer = Ok text.
Proof.
  induction items as [|x items IH]; intros Hobj buffer; cbn [writeItems].
  - eauto.
  - assert (Hitem : exists s, writeArrayItem x itemType indent = Ok s).
    { unfold writeArrayItem. destruct itemType as [it|]; [|eauto].
      destruct (String.eqb_spec (Type_ it) "object") as [E|_]; [|eauto].
      pose proof (Hobj it eq_refl E) as Hall.
      inversion Hall as [|? ? [obj ->] _]; subst. eauto. }
    destruct Hitem as (s & ->). apply IH.
    intros it Hit E. pose proof (Hobj it Hit E) as Hall.
    now inversion Hall.
Qed.

Lemma validated_field_is_writable name (v : Value) ft indent :
  validateValue v ft = None ->
  exists text, writeField name v ft indent = Ok text.
Proof.
  intros H. unfold writeField.
  destruct (isSimpleType (Type_ ft)) eqn:Hs; [eauto|].
  destruct ft as [ty elem fields order nm]. cbn [Type_ ElementType] in *.
  rewrite simple_kinds in Hs.
  apply orb_false_elim in Hs. destruct Hs as (Hs & Hb).
  apply orb_false_elim in Hs. destruct Hs as (Hs & Hf).
  apply orb_false_elim in Hs. destruct Hs as (Hs & Hi).
  destruct (String.eqb_spec ty "array") as [->|Hna].
  { destruct (validateValue_array _ _ _ _ _ H) as (arr & -> & Helems).
    cbn [asArray]. destruct arr as [|x arr]; [eauto|].
    destruct elem as [et|].
    - destruct (isSimpleType (Type_ et)); [eauto|].
      destruct (writeItems_Ok (x :: arr) (Some et) (indent + 1)) with
        (buffer := (strings.Repeat "    " indent ++ name ++ "["
                     ++ strconv.Itoa (Z.of_nat (length (x :: arr))) ++ "]:")
                     ++ nl) as (text & Ht).
      + intros it [= <-] E. specialize (Helems et eq_refl).
        eapply Forall_impl; [|exact Helems].
        intros y Hy. destruct et as [ty' e' f' o' n']. cbn [Type_] in E. subst ty'.
        now apply validateValue_object in Hy.
      + rewrite Ht. eauto.
    - destruct (writeItems_Ok (x :: arr) None (indent + 1)) with
        (buffer := (strings.Repeat "    " indent ++ name ++ "["
                     ++ strconv.Itoa (Z.of_nat (length (x :: arr))) ++ "]:")
                     ++ nl) as (text & Ht).
      + discriminate.
      + rewrite Ht. eauto. }
  destruct (String.eqb_spec ty "object") as [->|Hno].
  { destruct (validateValue_object _ _ _ _ _ H) as (obj & ->). eauto. }
  exfalso. cbn [validateValue] in H.
  rewrite Hs, Hi, Hf, Hb in H.
  apply String.eqb_neq in Hna, Hno. rewrite Hna, Hno in H. discriminate.
Qed.

End WritableFacts.

Section WritableTheorems.
Context {F : Floats} {M : Machine}.

Lemma writeDataLoop_Ok schema (data : list (string * Value)) fieldOrder :
  (forall name ft v,
      mget (Fields schema) name = Some ft -> mget data name = Some v ->
      validateValue v ft = None) ->
  forall buffer,
    exists text, writeDataLoop schema data fieldOrder buffer = Ok text.
Proof.
  intros Hvalid.
  induction fieldOrder as [|name fieldOrder IH]; intros buffer;
    cbn [writeDataLoop]; [eauto|].
  destruct (mget (Fields schema) name) as [ft|] eqn:Hft; [|apply IH].
  destruct (mget data name) as [v|] eqn:Hv; [|apply IH].
  destruct (validated_field_is_writable name v ft 0 (Hvalid _ _ _ Hft Hv))
    as (fieldStr & ->).
  apply IH.
Qed.

(** X8.  What passes validation can be written: [writeField] returns no
    error on a value that [validateValue] accepts at the type, and
    [writeData] returns no error on a record that [ValidateData]
    accepts. *)
Theorem validated_data_is_writable :
  (forall name (v : Value) ft indent,
      validateValue v ft = None ->
      exists text, writeField name v ft indent = Ok text)
  /\ (forall schema data,
         ValidateData schema data = None ->
         exists text, writeData schema data = Ok text).
Proof.
  split; [exact validated_field_is_writable|].
  intros schema data H. unfold writeData. apply writeDataLoop_Ok.
  intros name ft v Hft Hv.
  unfold ValidateData in H.
  destruct (validateFields (Fields schema) data) eqn:E; [discriminate|].
  exact (validateFields_None _ _ E name ft v (mget_In _ _ _ Hft) Hv).
Qed.

End WritableTheorems.

(** ** What validation lets through *)

Section ValidationEdges.
Context {F : Floats} {M : Machine}.

Lemma validateValue_nil ft : validateValue VNil ft <> None.
Proof.
  destruct ft as [ty elem fields order name]. cbn [validateValue].
  repeat match goal with
         | |- context [if ?b then _ else _] => destruct b; try discriminate
         end.
Qed.

Lemma validateFields_ext fields (data data' : list (string * Value)) :
  (forall name, In name (keys fields) -> mget data' name = mget data name) ->
  validateFields fields data' = validateFields fields data.
Proof.
  induction fields as [|[f t] fields IH]; intros H; [reflexivity|].
  cbn [validateFields]. rewrite (H f) by now left.
  rewrite IH; [reflexivity|]. intros name Hin. apply H. now right.
Qed.

Lemma object_fields_ext fields (obj obj' : list (string * Value)) :
  (forall name, In name (keys fields) -> mget obj' name = mget obj name) ->
  forall elem order name,
    validateValue (VObject obj') (mkFieldType "object" elem fields order name)
    = validateValue (VObject obj) (mkFieldType "object" elem fields order name).
Proof.
  intros H elem order name.
  cbn [validateValue String.eqb Ascii.eqb Bool.eqb isIntType isFloatType
       existsb orb].
  induction fields as [|[f t] fields IH]; [reflexivity|].
  rewrite (H f) by now left.
  rewrite IH; [reflexivity|]. intros n Hin. apply H. now right.
Qed.

End ValidationEdges.

Section ValidationEdgeTheorems.
Context {F : Floats} {M : Machine}.

Lemma unknownFields_app s names names' :
  unknownFields s (names ++ names')%list =
  match unknownFields s names with
  | Some e => Some e
  | None => unknownFields s names'
  end.
Proof.
  induction names as [|n names IH]; [reflexivity|].
  cbn [app unknownFields]. now destruct (mget (Fields s) n).
Qed.

(** X9.  What [ValidateData] lets through and what it does not: a null
    is rejected at every type; no field is required, the empty record
    passes under every schema; a key that the type does not declare is
    ignored inside a nested object, and rejected as an unknown field at
    the top of the record. *)
Theorem validation_edges :
  (forall ft, validateValue VNil ft <> None)
  /\ (forall s, ValidateData s [] = None)
  /\ (forall (obj : list (string * Value)) k v ft,
         Type_ ft = "object" -> mget (ObjectFields ft) k = None ->
         validateValue (VObject (mset k v obj)) ft
         = validateValue (VObject obj) ft)
  /\ (forall s (data : list (string * Value)) k v,
         ValidateData s data = None -> mget (Fields s) k = None ->
         ValidateData s (mset k v data) = Some (ErrUnknownField k)).
Proof.
  split; [exact validateValue_nil|]. split; [|split].
  - intros s. unfold ValidateData.
    assert (H : validateFields (Fields s) [] = None).
    { induction (Fields s) as [|[f t] fields IH]; [reflexivity|exact IH]. }
    now rewrite H.
  - intros obj k v [ty elem fields order name] Hty Hk.
    cbn [Type_ ObjectFields] in *. subst ty.
    apply object_fields_ext. intros n Hin.
    apply mget_mset_ne. intros ->.
    now apply mget_None_iff in Hk.
  - intros s data k v H Hk. unfold ValidateData in *.
    assert (Hsame : validateFields (Fields s) (mset k v data)
                    = validateFields (Fields s) data).
    { apply validateFields_ext. intros n Hin.
      apply mget_mset_ne. intros ->. now apply mget_None_iff in Hk. }
    rewrite Hsame.
    destruct (validateFields (Fields s) data); [discriminate|].
    rewrite keys_mset.
    destruct (existsb (String.eqb k) (keys data)) eqn:E.
    + exfalso. apply existsb_exists in E. destruct E as (x & Hx & Ex).
      apply String.eqb_eq in Ex. subst x.
      now apply (unknownFields_None _ _ H k Hx).
    + rewrite unknownFields_app, H. cbn [unknownFields]. now rewrite Hk.
Qed.

End ValidationEdgeTheorems.

(** ** Inference, then validation *)

Section InferredTypeFacts.
Context {F : Floats} {M : Machine}.

Lemma In_mset {V : Type} (k : string) (v : V) (m : list (string * V)) kv :
  In kv (mset k v m) -> kv = (k, v) \/ In kv m.
Proof.
  induction m as [|[k' v'] m IH]; cbn [mset].
  - intros [<-|[]]. now left.
  - destruct (String.eqb k' k).
    + intros [<-|H]; [now left|right; now right].
    + intros [<-|H]; [right; now left|].
      destruct (IH H) as [->|H']; [now left|right; now right].
Qed.

Lemma inferred_fields (m : list (string * Value)) :
  forall fields order f t,
    In (f, t)
       (fst ((fix each (m : list (string * Value))
                (fields : list (string * FieldType)) (objectOrder : list string)
                : list (string * FieldType) * list string :=
                match m with
                | [] => (fields, objectOrder)
                | (key, val) :: m' =>
                    each m' (mset key (inferFieldType val) fields)
                         (objectOrder ++ [key])%list
                end) m fields order)) ->
    In (f, t) fields \/ exists x, In (f, x) m /\ t = inferFieldType x.
Proof.
  induction m as [|[k x] m IH]; intros fields order f t; cbn [fst].
  - now left.
  - intros H. destruct (IH _ _ _ _ H) as [Hin|(y & Hy & ->)].
    + apply In_mset in Hin. destruct Hin as [[= -> ->]|Hin]; [|now left].
      right. exists x. split; [now left|reflexivity].
    + right. exists y. split; [now right|reflexivity].
Qed.

Lemma array_elements_validate (et : FieldType) (arr : list Value) :
  (forall x, In x arr -> validateValue x et = None) ->
  forall elem fields order name,
    elem = Some et ->
    validateValue (VArray arr) (mkFieldType "array" elem fields order name)
    = None.
Proof.
  intros H elem fields order name ->.
  cbn [validateValue String.eqb Ascii.eqb Bool.eqb isIntType isFloatType
       existsb orb].
  generalize O. induction arr as [|x arr IH]; intros i; [reflexivity|].
  rewrite (H x) by now left. apply IH. intros y Hy. apply H. now right.
Qed.

Lemma object_fields_validate (fields : list (string * FieldType))
      (obj : list (string * Value)) :
  (forall f t val,
      In (f, t) fields -> mget obj f = Some val -> validateValue val t = None) ->
  forall elem order name,
    validateValue (VObject obj) (mkFieldType "object" elem fields order name)
    = None.
Proof.
  intros H elem order name.
  cbn [validateValue String.eqb Ascii.eqb Bool.eqb isIntType isFloatType
       existsb orb].
  induction fields as [|[f t] fields IH]; [reflexivity|].
  destruct (mget obj f) as [val|] eqn:E.
  - rewrite (H f t val) by (auto; now left).
    apply IH. intros f' t' val' Hin. apply H. now right.
  - apply IH. intros f' t' val' Hin. apply H. now right.
Qed.

Lemma regular_validates (v : Value) :
  regular v -> validateValue v (inferFieldType v) = None.
Proof.
  induction v as [v Hleaf|l IH|m IH|ty l IH] using Value_nested_ind;
    intros Hreg.
  - destruct v; try (now inversion Hreg); try reflexivity; try contradiction.
    cbn [inferFieldType]. now destruct (isIntegral x).
  - inversion Hreg as [| | | | | | |l' Hall Hsame|]; subst.
    cbn [inferFieldType]. destruct l as [|first rest]; [reflexivity|].
    apply array_elements_validate with (et := inferFieldType first);
      [|reflexivity].
    rewrite Forall_forall in IH, Hall.
    intros x [<-|Hx].
    + apply IH; [now left|apply Hall; now left].
    + rewrite <- (Hsame first rest x eq_refl Hx).
      apply IH; [now right|apply Hall; now right].
  - inversion Hreg as [| | | | | | | |m' Hwf Hall]; subst.
    cbn [inferFieldType].
    destruct ((fix each (m : list (string * Value))
                 (fields : list (string * FieldType)) (objectOrder : list string)
                 : list (string * FieldType) * list string :=
                 match m with
                 | [] => (fields, objectOrder)
                 | (key, val) :: m' =>
                     each m' (mset key (inferFieldType val) fields)
                          (objectOrder ++ [key])%list
                 end) m [] []) as [fields order] eqn:E.
    apply object_fields_validate.
    intros f t val Hin Hval.
    pose proof (inferred_fields m [] [] f t) as Hf. rewrite E in Hf.
    destruct (Hf Hin) as [[]|(x & Hx & ->)].
    rewrite (In_mget _ _ _ Hwf Hx) in Hval. injection Hval as <-.
    rewrite Forall_forall in IH, Hall.
    apply (IH (f, x) Hx). apply (Hall (f, x) Hx).
  - inversion Hreg.
Qed.

Lemma inferSchema_wf (obj : list (string * Value)) :
  forall s0,
    wf_map (Fields s0) ->
    wf_map (Fields (fold_left
                      (fun schema kv =>
                         mkSchema
                           (mset (fst kv) (inferFieldType (snd kv))
                                 (Fields schema))
                           (FieldOrder schema ++ [fst kv])%list)
                      obj s0)).
Proof.
  induction obj as [|[k v] obj IH]; intros s0 H; [exact H|].
  cbn [fold_left]. apply IH. cbn [Fields fst snd]. now apply wf_map_mset.
Qed.

End InferredTypeFacts.

Section InferredTypeTheorems.
Context {F : Floats} {M : Machine}.

(** X10.  A value validates against the type inferred from it when it is
    regular: no null, no value of a foreign type, arrays of one inferred
    element type, objects without a key twice.  A record of regular
    values passes [ValidateData] under the schema inferred from it; a
    record with a null field does not, since a null is inferred as a
    string and rejected as one. *)
Theorem inferred_type_validates :
  (forall v : Value, regular v -> validateValue v (inferFieldType v) = None)
  /\ (forall obj : list (string * Value),
         regular (VObject obj) ->
         ValidateData (InferSchemaFromJSON (VObject obj)) obj = None)
  /\ (forall (obj : list (string * Value)) k,
         wf_map obj -> mget obj k = Some VNil ->
         exists f e,
           ValidateData (InferSchemaFromJSON (VObject obj)) obj
           = Some (ErrValidation f e)).
Proof.
  split; [exact regular_validates|]. split.
  - intros obj Hreg.
    inversion Hreg as [| | | | | | | |m Hwf Hall]; subst.
    destruct (inferSchema_fold obj (mkSchema [] []) Hwf) as (Horder & Hfields).
    cbn [InferSchemaFromJSON].
    set (s := fold_left _ obj _) in *.
    unfold ValidateData.
    destruct (validateFields (Fields s) obj) as [err|] eqn:E.
    + destruct (validateFields_Some _ _ _ E)
        as (f & t & v & e & Hin & Hv & He & _).
      exfalso.
      assert (Ht : mget (Fields s) f = Some (inferFieldType v)).
      { rewrite Hfields, Hv. reflexivity. }
      assert (Hwfs : wf_map (Fields s)).
      { apply inferSchema_wf. constructor. }
      rewrite (In_mget _ _ _ Hwfs Hin) in Ht. injection Ht as ->.
      rewrite regular_validates in He; [discriminate|].
      rewrite Forall_forall in Hall.
      exact (Hall (f, v) (mget_In _ _ _ Hv)).
    + apply unknownFields_declared. intros name Hin.
      rewrite Hfields.
      destruct (mget obj name) eqn:En; [discriminate|].
      now apply mget_None_iff in En.
  - intros obj k Hwf Hk.
    destruct (inferSchema_fold obj (mkSchema [] []) Hwf) as (Horder & Hfields).
    cbn [InferSchemaFromJSON].
    set (s := fold_left _ obj _) in *.
    unfold ValidateData.
    destruct (validateFields (Fields s) obj) as [err|] eqn:E.
    + destruct (validateFields_Some _ _ _ E)
        as (f & t & v & e & _ & _ & _ & ->). eauto.
    + exfalso.
      assert (Ht : mget (Fields s) k = Some (inferFieldType VNil)).
      { rewrite Hfields, Hk. reflexivity. }
      pose proof (validateFields_None _ _ E k _ VNil (mget_In _ _ _ Ht) Hk) as Hn.
      now apply validateValue_nil in Hn.
Qed.

End InferredTypeTheorems.

(** ** Texts without white space around them *)

Section TidyFacts.
Import strings.

Lemma dropRune_None runes s :
  dropRune runes s = None <-> forall r, In r runes -> HasPrefix s r = false.
Proof.
  induction runes as [|r runes IH]; cbn [dropRune].
  - split; [intros _ r []|reflexivity].
  - destruct (HasPrefix s r) eqn:E.
    + split; [discriminate|]. intros H. rewrite (H r) in E by now left.
      discriminate.
    + rewrite IH. split.
      * intros H r' [<-|Hin]; auto.
      * intros H r' Hin. apply H. now right.
Qed.

Lemma trimLeft_fixed n runes s :
  dropRune runes s = None -> trimLeft n runes s = s.
Proof. intros H. destruct n; cbn [trimLeft]; [reflexivity|now rewrite H]. Qed.

Lemma TrimSpace_fixed s :
  dropRune spaceRunes s = None ->
  dropRune (map rev spaceRunes) (rev s) = None ->
  TrimSpace s = s.
Proof.
  intros Hl Hr. unfold TrimSpace, TrimLeftSpace, TrimRightSpace.
  rewrite (trimLeft_fixed _ _ _ Hl), (trimLeft_fixed _ _ _ Hr).
  apply rev_rev.
Qed.

Lemma length_skip_exact n :
  forall s, String.length (skip n s) = (String.length s - n)%nat.
Proof.
  induction n as [|n IH]; intros s; cbn [skip]; [lia|].
  destruct s as [|a s]; cbn [String.length]; [reflexivity|apply IH].
Qed.

Lemma dropRune_shorter runes s s' :
  Forall (fun r => r <> "") runes ->
  dropRune runes s = Some s' ->
  (String.length s' < String.length s)%nat.
Proof.
  induction runes as [|r runes IH]; intros Hne; cbn [dropRune]; [discriminate|].
  inversion Hne as [|? ? Hr Hrest]; subst.
  destruct (HasPrefix s r) eqn:E; [|now apply IH].
  intros [= <-]. apply HasPrefix_length in E.
  rewrite length_skip_exact.
  destruct r as [|c r]; [congruence|]. cbn [String.length] in *. lia.
Qed.

Lemma spaceRunes_nonempty :
  Forall (fun r => r <> "") spaceRunes
  /\ Forall (fun r => r <> "") (map rev spaceRunes).
Proof. split; repeat constructor; discriminate. Qed.

Lemma trimLeft_shorter n runes s :
  Forall (fun r => r <> "") runes ->
  forall s', dropRune runes s = Some s' ->
  (String.length (trimLeft (S n) runes s) < String.length s)%nat.
Proof.
  intros Hne s' H. cbn [trimLeft]. rewrite H.
  pose proof (dropRune_shorter _ _ _ Hne H).
  pose proof (length_trimLeft n runes s'). lia.
Qed.

Lemma trimLeft_stable runes :
  Forall (fun r => r <> "") runes ->
  forall n s,
    (String.length s <= n)%nat ->
    dropRune runes (trimLeft n runes s) = None.
Proof.
  intros Hne. induction n as [|n IH]; intros s Hlen; cbn [trimLeft].
  - destruct s; [|cbn in Hlen; lia].
    apply dropRune_None. intros r Hin.
    rewrite Forall_forall in Hne. specialize (Hne r Hin).
    destruct r; [congruence|reflexivity].
  - destruct (dropRune runes s) as [s'|] eqn:E; [|exact E].
    apply IH. pose proof (dropRune_shorter _ _ _ Hne E). lia.
Qed.

Lemma trimLeft_suffix n runes :
  forall s, exists z, s = z ++ trimLeft n runes s.
Proof.
  induction n as [|n IH]; intros s; cbn [trimLeft]; [now exists ""|].
  destruct (dropRune runes s) as [s'|] eqn:E; [|now exists ""].
  destruct (IH s') as (z & Hz).
  assert (exists r, s = r ++ s') as (r & ->).
  { clear - E. induction runes as [|r runes IH]; cbn [dropRune] in E;
      [discriminate|].
    destruct (HasPrefix s r) eqn:Hp; [|now apply IH].
    injection E as <-. exists (take (String.length r) s).
    clear - Hp. revert s Hp.
    induction r as [|c r IH]; intros s Hp; [reflexivity|].
    destruct s as [|a s]; [discriminate|]. cbn [HasPrefix] in Hp.
    apply andb_prop in Hp. destruct Hp as (_ & Hp).
    cbn [String.length take skip append]. f_equal. now apply IH. }
  exists (r ++ z). rewrite append_assoc. now rewrite <- Hz.
Qed.

Lemma HasPrefix_app s r z : HasPrefix s r = true -> HasPrefix (s ++ z) r = true.
Proof.
  revert s. induction r as [|c r IH]; intros s; [now destruct s, z|].
  destruct s as [|a s]; [discriminate|]. cbn [HasPrefix append].
  intros H. apply andb_prop in H. destruct H as (-> & H). now rewrite IH.
Qed.

Lemma tidy_ends s :
  tidy s <->
  dropRune spaceRunes s = None /\ dropRune (map rev spaceRunes) (rev s) = None.
Proof.
  split; [|intros (Hl & Hr); now apply TrimSpace_fixed].
  unfold tidy, TrimSpace, TrimLeftSpace, TrimRightSpace. intros H.
  destruct spaceRunes_nonempty as (Hne & Hne').
  assert (Hl : dropRune spaceRunes s = None).
  { destruct (dropRune spaceRunes s) as [s'|] eqn:E; [|reflexivity].
    exfalso.
    destruct s as [|c s]; [now apply dropRune_shorter in E|].
    pose proof (trimLeft_shorter (String.length s) _ _ Hne _ E) as Hlt.
    change (S (String.length s)) with (String.length (String c s)) in Hlt.
    apply (f_equal String.length) in H. rewrite length_rev in H.
    match type of H with
    | String.length (trimLeft ?n ?runes ?x) = _ =>
        pose proof (length_trimLeft n runes x) as Hle
    end.
    rewrite length_rev in Hle. lia. }
  split; [exact Hl|].
  rewrite (trimLeft_fixed _ _ _ Hl) in H.
  destruct (dropRune (map rev spaceRunes) (rev s)) as [s'|] eqn:E;
    [|reflexivity].
  exfalso.
  destruct s as [|c s]; [now apply dropRune_shorter in E|].
  pose proof (trimLeft_shorter (String.length s) _ _ Hne' _ E) as Hlt.
  change (S (String.length s)) with (String.length (String c s)) in Hlt.
  apply (f_equal String.length) in H. rewrite !length_rev in *. lia.
Qed.

Lemma TrimSpace_tidy s : tidy (TrimSpace s).
Proof.
  destruct spaceRunes_nonempty as (Hne & Hne').
  unfold TrimSpace. set (l := TrimLeftSpace s).
  assert (Hl : dropRune spaceRunes l = None).
  { apply trimLeft_stable; [exact Hne|reflexivity]. }
  unfold TrimRightSpace.
  set (t := trimLeft (String.length l) (map rev spaceRunes) (rev l)).
  assert (Ht : dropRune (map rev spaceRunes) t = None).
  { apply trimLeft_stable; [exact Hne'|]. now rewrite length_rev. }
  apply tidy_ends. rewrite rev_rev. split; [|exact Ht].
  destruct (trimLeft_suffix (String.length l) (map rev spaceRunes) (rev l))
    as (z & Hz).
  fold t in Hz. apply (f_equal rev) in Hz. rewrite rev_rev, rev_app in Hz.
  apply dropRune_None. intros r Hin.
  destruct (HasPrefix (rev t) r) eqn:E; [|reflexivity].
  rewrite dropRune_None in Hl. rewrite <- (Hl r Hin), Hz.
  symmetry. now apply HasPrefix_app.
Qed.

End TidyFacts.

Section TidyLines.
Import strings.

Lemma HasPrefix_split r :
  forall a c b,
    HasPrefix (a ++ String c b) r = true ->
    HasPrefix a r = true \/ occurs c r = true.
Proof.
  induction r as [|y r IH]; intros a c b H; [left; now destruct a|].
  destruct a as [|x a]; cbn [append HasPrefix occurs] in *.
  - apply andb_prop in H. destruct H as (H & _). right.
    rewrite Ascii.eqb_sym in H. now rewrite H.
  - apply andb_prop in H. destruct H as (Hxy & H). rewrite Hxy.
    destruct (IH _ _ _ H) as [Ha|Hc]; [now left|right].
    rewrite Hc. apply orb_true_r.
Qed.

(** A rune that starts inside [a] does not reach a byte [c] that no rune
    holds after its first byte. *)
Lemma dropRune_app_None runes (a : string) (c : ascii) (b : string) :
  a <> "" ->
  dropRune runes a = None ->
  (forall r, In r runes -> occurs c (skip 1 r) = false) ->
  dropRune runes (a ++ String c b) = None.
Proof.
  intros Hne Ha Hc. rewrite dropRune_None in *. intros r Hin.
  destruct (HasPrefix (a ++ String c b) r) eqn:E; [|reflexivity].
  destruct a as [|x a]; [congruence|].
  destruct r as [|y r].
  - now rewrite <- (Ha "" Hin).
  - cbn [append HasPrefix] in E. apply andb_prop in E. destruct E as (Hxy & E).
    destruct (HasPrefix_split _ _ _ _ E) as [Hp|Ho].
    + rewrite <- (Ha _ Hin). cbn [HasPrefix]. now rewrite Hxy, Hp.
    + specialize (Hc _ Hin). cbn [skip] in Hc. congruence.
Qed.

Lemma space_in_no_rune_tail :
  forall r, In r spaceRunes \/ In r (map rev spaceRunes) ->
            occurs " " (skip 1 r) = false /\ occurs newline (skip 1 r) = false.
Proof.
  assert (H : forallb (fun r => negb (occurs " " (skip 1 r))
                                && negb (occurs newline (skip 1 r)))
                      (spaceRunes ++ map rev spaceRunes)%list = true)
    by (vm_compute; reflexivity).
  rewrite forallb_forall in H. intros r Hin.
  specialize (H r). rewrite in_app_iff in H. specialize (H Hin).
  apply andb_prop in H. destruct H as (H1 & H2).
  now rewrite negb_true_iff in H1, H2.
Qed.

Lemma dropRune_space x : dropRune spaceRunes (String " " x) = Some x.
Proof. destruct x; reflexivity. Qed.

Lemma TrimSpace_indent (v : string) : tidy v -> TrimSpace ("    " ++ v) = v.
Proof.
  intros Hv. apply tidy_ends in Hv. destruct Hv as (Hl & Hr).
  unfold TrimSpace, TrimLeftSpace.
  assert (E : trimLeft (String.length ("    " ++ v)) spaceRunes ("    " ++ v) = v).
  { cbn [append String.length].
    do 4 (cbn [trimLeft]; rewrite dropRune_space).
    now apply trimLeft_fixed. }
  rewrite E. unfold TrimRightSpace.
  rewrite (trimLeft_fixed _ _ _ Hr). apply rev_rev.
Qed.

Lemma Split_app (c : ascii) (a b : string) :
  occurs c a = false -> Split (a ++ String c b) c = a :: Split b c.
Proof.
  induction a as [|x a IH]; cbn [append Split occurs].
  - now rewrite Ascii.eqb_refl.
  - intros H. apply orb_false_elim in H. destruct H as (Hx & Ha).
    rewrite Hx, IH by exact Ha. reflexivity.
Qed.

Lemma Split_Join (c : ascii) (ls : list string) :
  ls <> [] -> Forall (fun l => occurs c l = false) ls ->
  Split (Join ls (String c "")) c = ls.
Proof.
  induction ls as [|l ls IH]; intros Hne Hall; [congruence|].
  inversion Hall as [|? ? Hl Hrest]; subst.
  destruct ls as [|l' ls]; cbn [Join].
  - now apply Split_occurs.
  - cbn [append]. rewrite Split_app by exact Hl. f_equal.
    apply IH; [discriminate|exact Hrest].
Qed.

End TidyLines.

(** ** Decimal numerals *)

Section NumeralFacts.
Import strconv.

Lemma digits_acc (d : Decimal.uint) :
  forall acc : positive,
    digits (Z.pos acc) (NilEmpty.string_of_uint d)
    = Some (Z.pos (Pos.of_uint_acc d acc)).
Proof.
  induction d; intros acc; cbn [NilEmpty.string_of_uint digits Pos.of_uint_acc];
    [reflexivity|..];
    match goal with
    | |- (if isDigit ?c then _ else _) = _ =>
        change (isDigit c) with true; cbv iota
    end;
    match goal with
    | |- digits (10 * Z.pos acc + ?k)%Z _
         = Some (Z.pos (Pos.of_uint_acc _ ?p)) =>
        let k' := eval vm_compute in k in
        replace (10 * Z.pos acc + k)%Z with (Z.pos p)
          by (change k with k'; lia)
    end; apply IHd.
Qed.

Lemma digits_zero (d : Decimal.uint) :
  digits 0 (NilEmpty.string_of_uint d) = Some (Z.of_N (Pos.of_uint d)).
Proof.
  induction d; cbn [NilEmpty.string_of_uint digits Pos.of_uint];
    [reflexivity|..];
    match goal with
    | |- (if isDigit ?c then _ else _) = _ =>
        change (isDigit c) with true; cbv iota
    end;
    [exact IHd|..];
    match goal with
    | |- digits ?z _ = Some (Z.of_N (N.pos (Pos.of_uint_acc _ ?p))) =>
        change z with (Z.pos p)
    end; apply digits_acc.
Qed.

Lemma string_of_uint_digits (d : Decimal.uint) :
  allBytes isDigit (NilEmpty.string_of_uint d) = true.
Proof. induction d; cbn; auto. Qed.

Lemma to_uint_not_Nil (p : positive) : Pos.to_uint p <> Decimal.Nil.
Proof.
  intros E. pose proof (DecimalPos.Unsigned.of_to p) as H.
  rewrite E in H. discriminate.
Qed.

Lemma unsigned_to_uint (p : positive) :
  let s := NilZero.string_of_uint (Pos.to_uint p) in
  unsigned s = Some (Z.pos p) /\ allBytes isDigit s = true /\ s <> "".
Proof.
  cbv zeta. pose proof (to_uint_not_Nil p) as Hne.
  pose proof (DecimalPos.Unsigned.of_to p) as Hof.
  pose proof (digits_zero (Pos.to_uint p)) as Hd.
  pose proof (string_of_uint_digits (Pos.to_uint p)) as Hall.
  rewrite Hof in Hd.
  assert (E : NilZero.string_of_uint (Pos.to_uint p)
              = NilEmpty.string_of_uint (Pos.to_uint p)).
  { destruct (Pos.to_uint p); [congruence|reflexivity..]. }
  rewrite E.
  assert (Hs : NilEmpty.string_of_uint (Pos.to_uint p) <> "").
  { destruct (Pos.to_uint p); [congruence|discriminate..]. }
  repeat split; auto.
  unfold unsigned.
  destruct (NilEmpty.string_of_uint (Pos.to_uint p)); [congruence|exact Hd].
Qed.

Lemma ParseInt_digit c s :
  isDigit c = true ->
  ParseInt (String c s) =
  match unsigned (String c s) with
  | Some n =>
      if ((- 2 ^ 63 <=? n) && (n <=? 2 ^ 63 - 1))%Z then Some n else None
  | None => None
  end.
Proof.
  destruct c as [[|] [|] [|] [|] [|] [|] [|] [|]]; try discriminate;
    intros _; reflexivity.
Qed.

Lemma ParseInt_Itoa (n : Z) : int64 n -> ParseInt (Itoa n) = Some n.
Proof.
  unfold int64. intros Hrange.
  assert (Hin : ((- 2 ^ 63 <=? n) && (n <=? 2 ^ 63 - 1))%Z = true).
  { apply andb_true_intro. split; apply Z.leb_le; lia. }
  unfold Itoa. destruct n as [|p|p]; cbn [Z.to_int NilZero.string_of_int].
  - reflexivity.
  - destruct (unsigned_to_uint p) as (Hu & Hall & Hne).
    destruct (NilZero.string_of_uint (Pos.to_uint p)) as [|c s] eqn:E;
      [congruence|].
    cbn [allBytes] in Hall. apply andb_prop in Hall. destruct Hall as (Hc & _).
    rewrite (ParseInt_digit _ _ Hc), Hu. now rewrite Hin.
  - destruct (unsigned_to_uint p) as (Hu & Hall & Hne).
    unfold ParseInt. rewrite Hu. cbn [option_map Z.opp]. now rewrite Hin.
Qed.

Lemma Itoa_numeral (n : Z) :
  allBytes numeralByte (Itoa n) = true /\ Itoa n <> "".
Proof.
  assert (Hd : forall s, allBytes isDigit s = true ->
                         allBytes numeralByte s = true).
  { induction s as [|c s IH]; cbn [allBytes]; [reflexivity|].
    intros H. apply andb_prop in H. destruct H as (Hc & Hs).
    unfold numeralByte at 1. now rewrite Hc, IH. }
  unfold Itoa. destruct n as [|p|p]; cbn [Z.to_int NilZero.string_of_int].
  - split; [reflexivity|discriminate].
  - destruct (unsigned_to_uint p) as (_ & Hall & Hne). auto.
  - destruct (unsigned_to_uint p) as (_ & Hall & Hne).
    split; [|discriminate]. cbn [allBytes]. now rewrite Hd.
Qed.

End NumeralFacts.

(** ** Lines *)

Section LineFacts.
Import strings.

Lemma allBytes_app p a b : allBytes p (a ++ b) = allBytes p a && allBytes p b.
Proof.
  induction a as [|x a IH]; cbn [append allBytes]; [reflexivity|].
  now rewrite IH, andb_assoc.
Qed.

Lemma allBytes_rev p s : allBytes p (rev s) = allBytes p s.
Proof.
  induction s as [|x s IH]; [reflexivity|].
  rewrite rev_String, allBytes_app, IH. cbn [allBytes].
  rewrite andb_true_r. apply andb_comm.
Qed.

Lemma allBytes_occurs p c s :
  p c = false -> allBytes p s = true -> occurs c s = false.
Proof.
  intros Hc. induction s as [|x s IH]; cbn [allBytes occurs]; [reflexivity|].
  intros H. apply andb_prop in H. destruct H as (Hx & Hs).
  rewrite (IH Hs), orb_false_r.
  destruct (Ascii.eqb_spec x c) as [->|]; [congruence|reflexivity].
Qed.

Lemma tidy_by_ends s :
  (forall c0 pre, s = String c0 pre -> leads c0 spaceRunes = false) ->
  (forall cl post,
      rev s = String cl post -> leads cl (map rev spaceRunes) = false) ->
  tidy s.
Proof.
  intros Hl Hr. apply tidy_ends. split.
  - destruct s as [|c0 pre]; [reflexivity|].
    apply dropRune_lead. now apply (Hl c0 pre).
  - destruct (rev s) as [|cl post] eqn:E; [reflexivity|].
    apply dropRune_lead. now apply (Hr cl post).
Qed.

Lemma allBytes_tidy (p : ascii -> bool) s :
  (forall c, p c = true ->
             leads c spaceRunes = false
             /\ leads c (map rev spaceRunes) = false) ->
  allBytes p s = true -> tidy s.
Proof.
  intros Hp Hs. apply tidy_by_ends.
  - intros c0 pre ->. cbn [allBytes] in Hs. apply andb_prop in Hs.
    now apply Hp.
  - intros cl post E. rewrite <- (allBytes_rev p s), E in Hs.
    cbn [allBytes] in Hs. apply andb_prop in Hs. now apply Hp.
Qed.

Lemma plainByte_ends c :
  plainByte c = true ->
  leads c spaceRunes = false /\ leads c (map rev spaceRunes) = false.
Proof.
  destruct c as [[] [] [] [] [] [] [] []]; vm_compute; intros H;
    try discriminate H; split; reflexivity.
Qed.

Lemma numeralByte_ends c :
  numeralByte c = true ->
  leads c spaceRunes = false /\ leads c (map rev spaceRunes) = false.
Proof.
  destruct c as [[] [] [] [] [] [] [] []]; vm_compute; intros H;
    try discriminate H; split; reflexivity.
Qed.

Lemma plainName_tidy name : plainName name -> tidy name.
Proof. intros (_ & H). exact (allBytes_tidy _ _ plainByte_ends H). Qed.

Lemma Itoa_tidy n :
  tidy (strconv.Itoa n) /\ strconv.Itoa n <> ""
  /\ occurs ":" (strconv.Itoa n) = false
  /\ occurs "|" (strconv.Itoa n) = false
  /\ occurs newline (strconv.Itoa n) = false.
Proof.
  destruct (Itoa_numeral n) as (Hall & Hne).
  repeat split.
  - exact (allBytes_tidy _ _ numeralByte_ends Hall).
  - exact Hne.
  - now apply (allBytes_occurs numeralByte).
  - now apply (allBytes_occurs numeralByte).
  - now apply (allBytes_occurs numeralByte).
Qed.

Lemma unlines_Join ls : ls <> [] -> unlines ls = Join ls nl ++ nl.
Proof.
  induction ls as [|l ls IH]; intros Hne; [congruence|].
  cbn [unlines fold_right]. fold (unlines ls).
  destruct ls as [|l' ls]; [reflexivity|].
  rewrite IH by discriminate. cbn [Join].
  now rewrite !append_assoc.
Qed.

Lemma unlines_app ls ls' : unlines (ls ++ ls')%list = unlines ls ++ unlines ls'.
Proof.
  induction ls as [|l ls IH]; [reflexivity|].
  cbn [app unlines fold_right]. fold (unlines (ls ++ ls')%list).
  fold (unlines ls). now rewrite IH, !append_assoc.
Qed.

Lemma Join_last ls :
  ls <> [] ->
  exists P, Join ls nl = P ++ last ls ""
            /\ (P = "" \/ exists P', P = P' ++ nl).
Proof.
  induction ls as [|l ls IH]; intros Hne; [congruence|].
  destruct ls as [|l' ls].
  - exists "". split; [reflexivity|now left].
  - destruct IH as (P & E & HP); [discriminate|].
    exists (l ++ nl ++ P). split.
    + change (last (l :: l' :: ls) "") with (last (l' :: ls) "").
      change (Join (l :: l' :: ls) nl) with (l ++ nl ++ Join (l' :: ls) nl).
      rewrite E. now rewrite !append_assoc.
    + right. destruct HP as [->|(P' & ->)].
      * exists l. now rewrite append_nil_r.
      * exists (l ++ nl ++ P'). now rewrite !append_assoc.
Qed.

Lemma dropRune_newline x :
  dropRune (map rev spaceRunes) (String newline x) = Some x.
Proof. destruct x; reflexivity. Qed.

(** Trimming the text of a data section takes its last newline away and
    nothing else, when the first line starts with a byte that starts no
    white space and the last line ends on a byte that ends none. *)
Lemma TrimSpace_unlines ls :
  (exists c0 pre rest, ls = String c0 pre :: rest
                       /\ leads c0 spaceRunes = false) ->
  last ls "" <> "" ->
  dropRune (map rev spaceRunes) (rev (last ls "")) = None ->
  TrimSpace (unlines ls) = Join ls nl.
Proof.
  intros (c0 & pre & rest & -> & Hlead) Hne Hlast.
  set (ls := String c0 pre :: rest) in *.
  rewrite unlines_Join by discriminate.
  assert (Hc0 : exists tl, Join ls nl = String c0 tl).
  { unfold ls. destruct rest; cbn [Join append]; eauto. }
  destruct Hc0 as (tl & Htl).
  unfold TrimSpace, TrimLeftSpace. rewrite Htl.
  change (String c0 tl ++ nl) with (String c0 (tl ++ nl)).
  rewrite trimLeft_lead by exact Hlead.
  unfold TrimRightSpace.
  change (String c0 (tl ++ nl)) with (String c0 tl ++ nl).
  rewrite <- Htl. rewrite rev_app.
  change (rev nl) with nl. rewrite length_app.
  change (String.length nl) with 1%nat. rewrite Nat.add_1_r.
  change (nl ++ rev (Join ls nl)) with (String newline (rev (Join ls nl))).
  cbn [trimLeft]. rewrite dropRune_newline.
  rewrite trimLeft_fixed; [apply rev_rev|].
  destruct (Join_last ls) as (P & E & HP); [discriminate|].
  rewrite E, rev_app.
  destruct HP as [->|(P' & ->)].
  - change (rev "") with "". now rewrite append_nil_r.
  - rewrite rev_app. change (rev nl) with nl. cbn [append].
    apply dropRune_app_None.
    + intros Er. apply (f_equal rev) in Er. rewrite rev_rev in Er.
      now apply Hne.
    + exact Hlast.
    + intros r Hin. apply space_in_no_rune_tail. now right.
Qed.

End LineFacts.

(** ** Reading the lines of a field back *)

Section ReadBackFacts.
Context {F : Floats} {M : Machine}.

(** One round of the loop of [ParseData] at a line that reads
    [name:w], without a size. *)
Lemma parseDataLoop_plain_header fuel schema lines i acc raw
      (name w : string) (fieldType : FieldType) :
  plainName name ->
  nth_error lines i = Some raw ->
  strings.TrimSpace raw = name ++ String ":" w ->
  mget (Fields schema) name = Some fieldType ->
  parseDataLoop (S fuel) schema lines i acc =
  match parseValueWithArraySize fieldType (strings.TrimSpace w) lines i 0 with
  | Err e => Some (Err (passOn (ErrParsingField name) e))
  | Ok (value, newIndex) =>
      parseDataLoop fuel schema lines newIndex (mset name value acc)
  end.
Proof.
  intros Hname Hraw Htrim Hfield.
  assert (Hocc : forall d, In d [":"; "["; "]"; "|"; newline]%char ->
                           occurs d name = false).
  { intros d Hd. apply plainName_occurs; [apply Hname|exact Hd]. }
  cbn [parseDataLoop]. rewrite Hraw, Htrim.
  replace ((name ++ String ":" w) =? "") with false
    by (destruct Hname as [Hne _]; destruct name; [contradiction|reflexivity]).
  rewrite Index_first by (apply Hocc; cbn; auto).
  replace (Z.of_nat (String.length name) =? -1)%Z
    with false by (symmetry; apply Z.eqb_neq; lia).
  unfold before, after.
  replace (Z.to_nat (Z.of_nat (String.length name) + 1))
    with (String.length (name ++ ":"))
    by (rewrite (length_app _ ":"); cbn; lia).
  rewrite Nat2Z.id, take_app_length.
  replace (name ++ String ":" w) with ((name ++ ":") ++ w)
    by (now rewrite append_assoc).
  rewrite skip_app_length.
  rewrite (plainName_tidy _ Hname).
  unfold splitArraySize.
  rewrite Contains_occurs by (apply Hocc; cbn; auto).
  rewrite Hfield. reflexivity.
Qed.

Lemma nth_error_block {A : Type} (pre block post : list A) k :
  (k < length block)%nat ->
  nth_error (pre ++ block ++ post)%list (length pre + k) = nth_error block k.
Proof.
  intros Hk. rewrite nth_error_app2 by lia.
  replace (length pre + k - length pre)%nat with k by lia.
  now rewrite nth_error_app1.
Qed.

Lemma TrimSpace_plain_colon name :
  plainName name -> strings.TrimSpace (name ++ ":") = name ++ ":".
Proof.
  intros Hname. apply tidy_by_ends.
  - intros c0 pre E. destruct Hname as (Hne & Hall).
    destruct name as [|c name]; [congruence|].
    injection E as <- _. cbn [allBytes] in Hall. apply andb_prop in Hall.
    now apply plainByte_ends.
  - intros cl post E. rewrite rev_app in E. injection E as <- _. reflexivity.
Qed.

Lemma isIndented_indent s : isIndented ("    " ++ s) = true.
Proof. destruct s; reflexivity. Qed.

Lemma convertedKinds_not_array ty :
  isSimpleType ty = true -> String.eqb ty "array" = false.
Proof.
  unfold isSimpleType. cbn [existsb]. intros H.
  destruct (String.eqb_spec ty "array") as [->|]; [discriminate|reflexivity].
Qed.

Lemma bool_text (b : bool) :
  let t := if b then "true" else "false" in
  tidy t /\ String.eqb t "" = false /\ strings.Contains t ":" = false
  /\ convertScalar "bool" t = Ok (VBool b).
Proof. destruct b; vm_compute; repeat split; reflexivity. Qed.

Lemma scalar_reads_back schema name ft (v : Value) :
  plainName name ->
  mget (Fields schema) name = Some ft ->
  scalarFits (Type_ ft) v ->
  readsBack schema name [name ++ ":"; "    " ++ formatValue v] v.
Proof.
  intros Hname Hft Hfit fuel pre post acc _.
  set (block := [name ++ ":"; "    " ++ formatValue v]).
  set (lines := (pre ++ block ++ post)%list).
  assert (H0 : nth_error lines (length pre) = Some (name ++ ":")).
  { replace (length pre) with (length pre + 0)%nat by lia.
    unfold lines. now rewrite nth_error_block by (cbn; lia). }
  assert (H1 : nth_error lines (length pre + 1)
               = Some ("    " ++ formatValue v)).
  { unfold lines. now rewrite nth_error_block by (cbn; lia). }
  rewrite (parseDataLoop_plain_header fuel schema lines (length pre) acc
             (name ++ ":") name "" ft Hname H0)
    by (try exact Hft; rewrite TrimSpace_plain_colon by exact Hname;
        reflexivity).
  change (strings.TrimSpace "") with "".
  change (length block) with 2%nat.
  replace (length pre + 2)%nat with (length pre + 1 + 1)%nat by lia.
  destruct v; try contradiction; cbn [scalarFits formatValue] in *.
  - destruct Hfit as (Hty & Htidy & Hne & Hnl).
    unfold parseValueWithArraySize. rewrite Hty.
    cbn [String.eqb Ascii.eqb Bool.eqb].
    rewrite parseValue_string by exact Hty.
    cbn [String.eqb]. rewrite H1.
    rewrite isIndented_indent.
    rewrite TrimSpace_indent by exact Htidy.
    now replace (length pre + 2)%nat with (length pre + 1 + 1)%nat by lia.
  - destruct Hfit as (Hty & Hrange).
    destruct (Itoa_tidy n) as (Htidy & Hne & Hcolon & _ & _).
    assert (Hkind : In (Type_ ft) convertedKinds).
    { unfold isIntType in Hty. cbn [existsb] in Hty. unfold convertedKinds.
      cbn [In].
      repeat match type of Hty with
             | (String.eqb ?a ?b || _)%bool = true =>
                 destruct (String.eqb_spec a b); [intuition congruence|];
                 cbn [orb] in Hty
             end. discriminate. }
    unfold parseValueWithArraySize.
    replace (String.eqb (Type_ ft) "array") with false.
    2:{ symmetry. apply convertedKinds_not_array.
        unfold isSimpleType, isIntType in *. cbn [existsb] in *.
        destruct (String.eqb (Type_ ft) "string"); [reflexivity|].
        cbn [orb]. apply orb_true_iff in Hty. destruct Hty as [->|Hty];
          [reflexivity|].
        apply orb_true_iff in Hty. destruct Hty as [->|Hty];
          [now rewrite orb_true_r|].
        apply orb_true_iff in Hty. destruct Hty as [->|Hty];
          [now rewrite !orb_true_r|discriminate]. }
    rewrite parseValue_converted by exact Hkind.
    unfold nextLineValue. cbn [String.eqb]. rewrite H1.
    rewrite TrimSpace_indent by exact Htidy.
    replace (String.eqb (strconv.Itoa n) "") with false
      by (symmetry; now apply String.eqb_neq).
    rewrite Contains_occurs by exact Hcolon.
    cbn [negb andb fst snd]. unfold convertScalar. rewrite Hty.
    rewrite Htidy, ParseInt_Itoa by exact Hrange. reflexivity.
  - unfold parseValueWithArraySize. rewrite Hfit.
    change ("bool" =? "array") with false. cbv iota.
    assert (Hkind : In (Type_ ft) convertedKinds).
    { rewrite Hfit. unfold convertedKinds. cbn [In]. auto 10. }
    rewrite parseValue_converted by exact Hkind.
    unfold nextLineValue. cbn [String.eqb]. rewrite H1, Hfit.
    destruct (bool_text b) as (Htidy & Hne & Hcolon & Hconv).
    rewrite TrimSpace_indent by exact Htidy.
    rewrite Hne, Hcolon. cbn [negb andb fst snd]. rewrite Hconv.
    reflexivity.
Qed.

End ReadBackFacts.

(** ** Writing a record and reading it back *)

Section RecordFacts.
Context {F : Floats} {M : Machine}.

Lemma not_indented c0 pre :
  leads c0 strings.spaceRunes = false -> isIndented (String c0 pre) = false.
Proof.
  destruct c0 as [[] [] [] [] [] [] [] []]; vm_compute; intros H;
    try discriminate H; reflexivity.
Qed.

Lemma parseDataLoop_blocks schema (items : list (string * list string * Value)) :
  Forall (fun it => fieldLines (snd (fst it))
                    /\ readsBack schema (fst (fst it)) (snd (fst it)) (snd it))
         items ->
  forall pre acc fuel,
    (length items < fuel)%nat ->
    parseDataLoop fuel schema
                  (pre ++ flat_map (fun it => snd (fst it)) items)%list
                  (length pre) acc
    = Some (Ok (fold_left (fun a it => mset (fst (fst it)) (snd it) a)
                          items acc)).
Proof.
  induction items as [|[[name block] v] items IH]; intros Hall pre acc fuel Hfuel.
  - destruct fuel as [|fuel]; [lia|]. cbn [flat_map fold_left parseDataLoop].
    rewrite app_nil_r.
    now replace (nth_error pre (length pre)) with (@None string)
      by (symmetry; apply nth_error_None; lia).
  - inversion Hall as [|? ? (_ & Hit) Hrest]; subst. cbn [fst snd] in Hit.
    destruct fuel as [|fuel]; [lia|].
    cbn [flat_map fold_left fst snd].
    rewrite (Hit fuel pre (flat_map (fun it => snd (fst it)) items) acc).
    + rewrite app_assoc, <- List.length_app.
      apply IH; [exact Hrest|cbn [length] in Hfuel; lia].
    + destruct items as [|it items']; [exact I|].
      inversion Hrest as [|? ? (((c0 & p & r & Hb & Hlead) & _) & _) _]; subst.
      cbn [flat_map]. rewrite Hb. cbn [app]. now apply not_indented.
Qed.

Lemma HasSuffix_newline (P l : string) :
  l <> "" -> occurs newline l = false ->
  strings.HasSuffix (P ++ l) nl = false.
Proof.
  intros Hne Hnl. unfold strings.HasSuffix. rewrite rev_app.
  rewrite <- occurs_rev in Hnl.
  destruct (strings.rev l) as [|c r] eqn:E.
  - apply (f_equal strings.rev) in E. rewrite rev_rev in E. now subst l.
  - cbn [occurs] in Hnl. apply orb_false_elim in Hnl. destruct Hnl as (Hc & _).
    change (strings.rev nl) with nl. cbn [append strings.HasPrefix nl].
    now rewrite Hc.
Qed.

Lemma fieldLines_suffix block :
  fieldLines block -> strings.HasSuffix (strings.Join block nl) nl = false.
Proof.
  intros ((c0 & pre & rest & -> & _) & Hnl & Hne & _).
  destruct (Join_last (String c0 pre :: rest)) as (P & E & _); [discriminate|].
  rewrite E. apply HasSuffix_newline; [exact Hne|].
  rewrite Forall_forall in Hnl. apply Hnl.
  clear. generalize (String c0 pre). induction rest as [|x rest IH]; intros a.
  - now left.
  - right. apply IH.
Qed.

Section Written.
Variable schema : Schema.
Variable data : list (string * Value).
Variable block : string -> FieldType -> Value -> list string.
Variable back : FieldType -> Value -> Value.
Hypothesis writes :
  forall name ft v,
    mget (Fields schema) name = Some ft -> mget data name = Some v ->
    fieldLines (block name ft v)
    /\ writeField name v ft 0 = Ok (strings.Join (block name ft v) nl)
    /\ readsBack schema name (block name ft v) (back ft v).

Lemma written_lines fieldOrder :
  Forall (fun it => fieldLines (snd (fst it))
                    /\ readsBack schema (fst (fst it)) (snd (fst it)) (snd it))
         (written schema data block back fieldOrder).
Proof.
  induction fieldOrder as [|name fieldOrder IH]; [constructor|].
  cbn [written flat_map]. fold (written schema data block back fieldOrder).
  destruct (mget (Fields schema) name) as [ft|] eqn:Hft; [|exact IH].
  destruct (mget data name) as [v|] eqn:Hv; [|exact IH].
  cbn [app]. constructor; [|exact IH]. cbn [fst snd].
  destruct (writes name ft v Hft Hv) as (Hl & _ & Hr). now split.
Qed.

Lemma writeDataLoop_written fieldOrder :
  forall buffer,
    writeDataLoop schema data fieldOrder buffer
    = Ok (buffer ++ unlines (flat_map (fun it => snd (fst it))
                               (written schema data block back fieldOrder))).
Proof.
  induction fieldOrder as [|name fieldOrder IH]; intros buffer;
    cbn [writeDataLoop written flat_map].
  - now rewrite append_nil_r.
  - fold (written schema data block back fieldOrder).
    destruct (mget (Fields schema) name) as [ft|] eqn:Hft; [|apply IH].
    destruct (mget data name) as [v|] eqn:Hv; [|apply IH].
    destruct (writes name ft v Hft Hv) as (Hl & -> & _).
    rewrite (fieldLines_suffix _ Hl), IH.
    cbn [app flat_map fst snd]. rewrite unlines_app.
    rewrite (unlines_Join (block name ft v)).
    { now rewrite !append_assoc. }
    destruct Hl as ((c0 & pre & rest & -> & _) & _). discriminate.
Qed.

Lemma written_first fieldOrder it items :
  written schema data block back fieldOrder = it :: items ->
  exists c0 pre rest,
    flat_map (fun it => snd (fst it))
             (written schema data block back fieldOrder)
    = String c0 pre :: rest
    /\ leads c0 strings.spaceRunes = false.
Proof.
  intros E. pose proof (written_lines fieldOrder) as Hall. rewrite E in *.
  inversion Hall as [|? ? (((c0 & pre & rest & Hb & Hlead) & _) & _) _]; subst.
  cbn [flat_map]. rewrite Hb. cbn [app]. eauto.
Qed.

Lemma last_app_nonempty {A : Type} (a b : list A) (d : A) :
  b <> [] -> last (a ++ b)%list d = last b d.
Proof.
  intros Hb. induction a as [|x a IH]; [reflexivity|].
  cbn [app]. destruct (a ++ b)%list eqn:E.
  - destruct a; [cbn in E; congruence|discriminate].
  - rewrite <- IH. reflexivity.
Qed.

Lemma blocks_last (items : list (string * list string * Value)) :
  Forall (fun it => fieldLines (snd (fst it))) items -> items <> [] ->
  exists b, fieldLines b
            /\ last (flat_map (fun it => snd (fst it)) items) "" = last b "".
Proof.
  induction items as [|it items IH]; intros Hall Hne; [congruence|].
  inversion Hall as [|? ? Hit Hrest]; subst. cbn [flat_map].
  destruct items as [|it' items].
  - exists (snd (fst it)). split; [exact Hit|]. cbn [flat_map].
    now rewrite app_nil_r.
  - destruct (IH Hrest) as (b & Hb & E); [discriminate|].
    exists b. split; [exact Hb|]. rewrite <- E.
    apply last_app_nonempty.
    inversion Hrest as [|? ? ((c0 & pre & rest & Hb' & _) & _) _]; subst.
    cbn [flat_map]. rewrite Hb'. discriminate.
Qed.

Lemma blocks_length (items : list (string * list string * Value)) :
  Forall (fun it => fieldLines (snd (fst it))) items ->
  (length items <= length (flat_map (fun it => snd (fst it)) items))%nat.
Proof.
  induction items as [|it items IH]; intros Hall; [cbn; lia|].
  inversion Hall as [|? ? ((c0 & pre & rest & Hb & _) & _) Hrest]; subst.
  cbn [flat_map length]. rewrite List.length_app, Hb. cbn [length].
  specialize (IH Hrest). lia.
Qed.

Lemma blocks_newline (items : list (string * list string * Value)) :
  Forall (fun it => fieldLines (snd (fst it))) items ->
  Forall (fun l => occurs newline l = false)
         (flat_map (fun it => snd (fst it)) items).
Proof.
  induction items as [|it items IH]; intros Hall; [constructor|].
  inversion Hall as [|? ? (_ & Hnl & _) Hrest]; subst.
  cbn [flat_map]. apply Forall_app. split; [exact Hnl|now apply IH].
Qed.

(** The record is written, and the text is read back as the values
    that the lines of each field are read back as. *)
Lemma written_round_trip :
  Fields schema <> [] ->
  exists text,
    writeData schema data = Ok text
    /\ ParseData schema text
       = Ok (fold_left (fun a it => mset (fst (fst it)) (snd it) a)
                       (written schema data block back (GetFieldOrder schema))
                       []).
Proof.
  intros Hfields. unfold writeData. rewrite writeDataLoop_written.
  eexists. split; [reflexivity|]. cbn [append].
  pose proof (written_lines (GetFieldOrder schema)) as Hall.
  set (items := written schema data block back (GetFieldOrder schema)) in *.
  assert (Hlines : Forall (fun it => fieldLines (snd (fst it))) items).
  { eapply Forall_impl; [|exact Hall]. now intros it (H & _). }
  set (L := flat_map (fun it => snd (fst it)) items).
  pose proof (ParseData_defined schema (unlines L) Hfields) as Hd.
  cbv zeta in Hd.
  assert (Hloop :
    parseDataLoop
      (S (length (strings.Split (strings.TrimSpace (unlines L)) newline)))
      schema (strings.Split (strings.TrimSpace (unlines L)) newline) 0 []
    = Some (Ok (fold_left (fun a it => mset (fst (fst it)) (snd it) a)
                          items []))).
  { destruct items as [|it items'] eqn:Eitems.
    - reflexivity.
    - assert (Htrim : strings.TrimSpace (unlines L) = strings.Join L nl).
      { destruct (written_first _ _ _ Eitems) as (c0 & pre & rest & E & Hlead).
        destruct (blocks_last (it :: items') Hlines) as (b & Hb & El);
          [discriminate|].
        fold items in E. rewrite Eitems in E. fold L in E.
        destruct Hb as (_ & _ & Hne & Hright).
        apply TrimSpace_unlines.
        - exists c0, pre, rest. now split.
        - fold L in El. now rewrite El.
        - fold L in El. now rewrite El. }
      rewrite Htrim.
      assert (Hsplit : strings.Split (strings.Join L nl) newline = L).
      { apply Split_Join.
        - pose proof (blocks_length _ Hlines) as Hlen. fold L in Hlen.
          destruct L; [cbn in Hlen; lia|discriminate].
        - now apply blocks_newline. }
      rewrite Hsplit.
      pose proof (parseDataLoop_blocks schema (it :: items') Hall []
                    [] (S (length L))) as Hparse.
      cbn [app length] in Hparse. fold L in Hparse.
      pose proof (blocks_length _ Hlines) as Hlen. fold L in Hlen.
      cbn [length] in Hlen.
      apply Hparse. lia. }
  rewrite Hloop in Hd. now injection Hd.
Qed.

Lemma mget_written fieldOrder :
  forall acc k,
    mget (fold_left (fun a it => mset (fst (fst it)) (snd it) a)
                    (written schema data block back fieldOrder) acc) k
    = if existsb (String.eqb k) fieldOrder
      then match mget (Fields schema) k, mget data k with
           | Some ft, Some v => Some (back ft v)
           | _, _ => mget acc k
           end
      else mget acc k.
Proof.
  induction fieldOrder as [|name fieldOrder IH]; intros acc k; [reflexivity|].
  cbn [written flat_map existsb].
  fold (written schema data block back fieldOrder).
  destruct (String.eqb_spec k name) as [->|Hne]; cbn [orb].
  - destruct (mget (Fields schema) name) as [ft|] eqn:Hft.
    + destruct (mget data name) as [v|] eqn:Hv.
      * cbn [app fold_left fst snd]. rewrite IH, Hft, Hv.
        rewrite mget_mset_eq. now destruct (existsb _ _).
      * cbn [app]. rewrite IH, Hft, Hv. now destruct (existsb _ _).
    + cbn [app]. rewrite IH, Hft. now destruct (existsb _ _).
  - assert (Hacc : forall ft v,
               mget (mset name (back ft v) acc) k = mget acc k).
    { intros ft v. apply mget_mset_ne. congruence. }
    destruct (mget (Fields schema) name) as [ft|];
      [destruct (mget data name) as [v|]|];
      cbn [app fold_left fst snd]; rewrite IH, ?Hacc; reflexivity.
Qed.

End Written.

End RecordFacts.

Section FlatRecord.
Context {F : Floats} {M : Machine}.

Lemma scalar_lines name (v : Value) ty :
  plainName name -> scalarFits ty v ->
  fieldLines [name ++ ":"; "    " ++ formatValue v].
Proof.
  intros Hname Hfit.
  assert (Hv : tidy (formatValue v) /\ formatValue v <> ""
               /\ occurs newline (formatValue v) = false).
  { destruct v; try contradiction; cbn [scalarFits formatValue] in *.
    - tauto.
    - destruct (Itoa_tidy n) as (H1 & H2 & _ & _ & H3). auto.
    - destruct b; repeat split; try discriminate; reflexivity. }
  destruct Hv as (Htidy & Hne & Hnl).
  split; [|split; [|split]].
  - destruct Hname as (Hn & Hall).
    destruct name as [|c0 name]; [congruence|].
    exists c0, (name ++ ":"), ["    " ++ formatValue v]. split; [reflexivity|].
    cbn [allBytes] in Hall. apply andb_prop in Hall.
    now apply plainByte_ends.
  - constructor; [|constructor; [|constructor]].
    + rewrite occurs_app. rewrite (plainName_occurs name newline);
        [reflexivity|apply Hname|cbn; auto 10].
    + now rewrite occurs_app, Hnl.
  - cbn [last]. discriminate.
  - cbn [last]. rewrite rev_app.
    apply tidy_ends in Htidy. destruct Htidy as (_ & Hr).
    change (strings.rev "    ") with "    ". cbn [append].
    apply dropRune_app_None.
    + intros E. apply (f_equal strings.rev) in E.
      rewrite rev_rev in E. now apply Hne.
    + exact Hr.
    + intros r Hin. apply space_in_no_rune_tail. now right.
Qed.

Lemma scalarFits_simple ty (v : Value) :
  scalarFits ty v -> isSimpleType ty = true.
Proof.
  rewrite simple_kinds.
  destruct v; try contradiction; cbn [scalarFits].
  - now intros (-> & _).
  - intros (-> & _). now rewrite orb_true_r.
  - now intros ->.
Qed.

Lemma scalar_written name (v : Value) ft :
  isSimpleType (Type_ ft) = true ->
  writeField name v ft 0
  = Ok (strings.Join [name ++ ":"; "    " ++ formatValue v] nl).
Proof.
  intros Hs. unfold writeField. rewrite Hs.
  cbn [strings.Repeat strings.Join append]. now rewrite !append_assoc.
Qed.

(** X11.  A record of scalars survives the round trip through the writer
    and the parser: when every field of the record is declared, named
    by plain bytes and holds a string without white space around it
    (not empty, of one line), an integer of the [int64] range or a
    boolean, of the declared kind, [writeData] succeeds and [ParseData]
    reads its text back as a record with the same value at every
    key. *)
Theorem flat_record_round_trip schema (data : list (string * Value)) :
  Fields schema <> [] ->
  (forall name v,
      mget data name = Some v ->
      In name (GetFieldOrder schema) /\ plainName name
      /\ exists ft, mget (Fields schema) name = Some ft
                    /\ scalarFits (Type_ ft) v) ->
  exists text data',
    writeData schema data = Ok text
    /\ ParseData schema text = Ok data'
    /\ sameFields data data'.
Proof.
  intros Hfields Hdata.
  destruct (written_round_trip schema data
              (fun name _ v => [name ++ ":"; "    " ++ formatValue v])
              (fun _ v => v)) as (text & Hw & Hp).
  - intros name ft v Hft Hv.
    destruct (Hdata name v Hv) as (_ & Hname & ft' & Hft' & Hfit).
    assert (ft' = ft) by congruence. subst ft'.
    split; [|split].
    + exact (scalar_lines name v _ Hname Hfit).
    + apply scalar_written. exact (scalarFits_simple _ _ Hfit).
    + exact (scalar_reads_back schema name ft v Hname Hft Hfit).
  - exact Hfields.
  - exists text. eexists. split; [exact Hw|]. split; [exact Hp|].
    intros k. rewrite mget_written. cbn [mget].
    destruct (mget data k) as [v|] eqn:Hv.
    + destruct (Hdata k v Hv) as (Hin & _ & ft & Hft & _).
      rewrite Hft.
      replace (existsb (String.eqb k) (GetFieldOrder schema)) with true;
        [reflexivity|].
      symmetry. apply existsb_exists. exists k.
      split; [exact Hin|apply String.eqb_refl].
    + destruct (existsb _ _); [|reflexivity].
      now destruct (mget (Fields schema) k).
Qed.

End FlatRecord.

(** ** Pipe-separated lines *)

Section PipeFacts.
Context {F : Floats} {M : Machine}.

Lemma tidy_app_sep (a : string) (c : ascii) (b : string) :
  tidy a -> tidy b ->
  leads c strings.spaceRunes = false ->
  leads c (map strings.rev strings.spaceRunes) = false ->
  (forall r, In r strings.spaceRunes \/ In r (map strings.rev strings.spaceRunes) ->
             occurs c (strings.skip 1 r) = false) ->
  tidy (a ++ String c b).
Proof.
  intros Ha Hb Hl Hr Hc. apply tidy_ends in Ha, Hb.
  destruct Ha as (Hal & _). destruct Hb as (_ & Hbr).
  apply tidy_ends. split.
  - destruct a as [|x a]; [now apply dropRune_lead|].
    apply dropRune_app_None; [discriminate|exact Hal|].
    intros r Hin. apply Hc. now left.
  - rewrite rev_app, rev_String, append_assoc. cbn [append].
    destruct (strings.rev b) as [|y rb] eqn:E; [now apply dropRune_lead|].
    apply dropRune_app_None; [discriminate|exact Hbr|].
    intros r Hin. apply Hc. now right.
Qed.

Lemma pipe_in_no_rune :
  leads "|" strings.spaceRunes = false
  /\ leads "|" (map strings.rev strings.spaceRunes) = false
  /\ forall r, In r strings.spaceRunes \/ In r (map strings.rev strings.spaceRunes) ->
               occurs "|" (strings.skip 1 r) = false.
Proof.
  split; [reflexivity|]. split; [reflexivity|].
  assert (H : forallb (fun r => negb (occurs "|" (strings.skip 1 r)))
                      (strings.spaceRunes
                         ++ map strings.rev strings.spaceRunes)%list = true)
    by (vm_compute; reflexivity).
  rewrite forallb_forall in H. intros r Hin.
  specialize (H r). rewrite in_app_iff in H.
  now apply negb_true_iff, H.
Qed.

Lemma Join_tidy (texts : list string) :
  Forall tidy texts -> tidy (strings.Join texts "|").
Proof.
  induction texts as [|t texts IH]; intros Hall; [reflexivity|].
  inversion Hall as [|? ? Ht Hrest]; subst.
  destruct texts as [|t' texts]; [exact Ht|].
  change (strings.Join (t :: t' :: texts) "|")
    with (t ++ String "|" (strings.Join (t' :: texts) "|")).
  destruct pipe_in_no_rune as (H1 & H2 & H3).
  apply tidy_app_sep; auto.
Qed.

Lemma Join_occurs (c : ascii) (texts : list string) :
  Ascii.eqb "|" c = false ->
  Forall (fun t => occurs c t = false) texts ->
  occurs c (strings.Join texts "|") = false.
Proof.
  intros Hc. induction texts as [|t texts IH]; intros Hall; [reflexivity|].
  inversion Hall as [|? ? Ht Hrest]; subst.
  destruct texts as [|t' texts]; [exact Ht|].
  change (strings.Join (t :: t' :: texts) "|")
    with (t ++ String "|" (strings.Join (t' :: texts) "|")).
  rewrite occurs_app, Ht. cbn [occurs orb]. rewrite Hc. cbn [orb].
  now apply IH.
Qed.

Lemma Join_two (t t' : string) (texts : list string) :
  occurs "|" t = false ->
  let line := strings.Join (t :: t' :: texts) "|" in
  line <> "" /\ strings.Contains line "|" = true.
Proof.
  intros Ht. cbv zeta.
  change (strings.Join (t :: t' :: texts) "|")
    with (t ++ String "|" (strings.Join (t' :: texts) "|")).
  split.
  - destruct t; discriminate.
  - unfold strings.Contains. rewrite Index_first by exact Ht.
    apply Z.leb_le. lia.
Qed.

Lemma pipe_scalar ty name (v : Value) :
  pipeFits ty v ->
  pipeText (formatValue v)
  /\ convertField ty name (formatValue v) = Ok v.
Proof.
  destruct v; try contradiction; cbn [pipeFits formatValue].
  - intros (-> & Ht). split; [exact Ht|reflexivity].
  - intros (Hty & Hrange).
    destruct (Itoa_tidy n) as (H1 & _ & _ & H2 & H3).
    split; [repeat split; assumption|].
    unfold convertField. rewrite Hty.
    now rewrite ParseInt_Itoa by exact Hrange.
  - intros ->. split; [destruct b; repeat split; reflexivity|].
    destruct b; reflexivity.
Qed.

Lemma objectFromValues_texts fields (obj : list (string * Value)) order :
  (forall name, In name order ->
                pipeFits (fieldKind fields name) (valueAt obj name)) ->
  forall acc,
    objectFromValues fields order
      (map (fun n => formatValue (valueAt obj n)) order) acc
    = Ok (fold_left (fun a n => mset n (valueAt obj n) a) order acc).
Proof.
  induction order as [|name order IH]; intros Hfit acc; [reflexivity|].
  cbn [map objectFromValues fold_left].
  destruct (pipe_scalar _ name _ (Hfit name (or_introl eq_refl)))
    as ((Htidy & _) & Hconv).
  rewrite Htidy, Hconv. apply IH. intros n Hin. apply Hfit. now right.
Qed.

Lemma objectFits_values ft (obj : list (string * Value)) :
  objectFits ft obj ->
  forall name, In name (getObjectFieldOrder (Some ft)) ->
               mget obj name = Some (valueAt obj name)
               /\ pipeFits (fieldKind (ObjectFields ft) name) (valueAt obj name).
Proof.
  intros (_ & _ & Hall & _) name Hin.
  destruct (Hall name Hin) as (v & Hv & Hfit).
  unfold valueAt. rewrite Hv. now split.
Qed.

Lemma pipeJoin_texts ft (obj : list (string * Value)) :
  objectFits ft obj ->
  pipeJoin (Some ft) obj
  = strings.Join (map (fun n => formatValue (valueAt obj n))
                      (getObjectFieldOrder (Some ft))) "|".
Proof.
  intros Hfit. unfold pipeJoin. f_equal.
  pose proof (objectFits_values ft obj Hfit) as Hv.
  induction (getObjectFieldOrder (Some ft)) as [|n order IH]; [reflexivity|].
  cbn [flat_map map]. destruct (Hv n (or_introl eq_refl)) as (-> & _).
  cbn [app]. f_equal. apply IH. intros m Hm. apply Hv. now right.
Qed.

Lemma pipeJoin_line ft (obj : list (string * Value)) :
  objectFits ft obj ->
  let line := pipeJoin (Some ft) obj in
  tidy line /\ line <> "" /\ strings.Contains line "|" = true
  /\ occurs newline line = false
  /\ parseObjectFromLine line ft = Ok (inOrder ft obj).
Proof.
  intros Hfit. cbv zeta. rewrite (pipeJoin_texts _ _ Hfit).
  pose proof (objectFits_values ft obj Hfit) as Hv.
  destruct Hfit as (_ & Hlen & _ & _).
  unfold parseObjectFromLine, inOrder.
  set (order := getObjectFieldOrder (Some ft)) in *.
  set (texts := map (fun n => formatValue (valueAt obj n)) order).
  assert (Htexts : Forall pipeText texts).
  { unfold texts. apply Forall_map. apply Forall_forall. intros n Hn.
    destruct (Hv n Hn) as (_ & Hp).
    now destruct (pipe_scalar _ n _ Hp). }
  assert (H2 : exists t t' rest, texts = t :: t' :: rest).
  { unfold texts. destruct order as [|a [|b order]]; cbn in Hlen; try lia.
    cbn [map]. eauto. }
  destruct H2 as (t & t' & rest & E).
  split; [|split; [|split; [|split]]].
  - apply Join_tidy. eapply Forall_impl; [|exact Htexts]. now intros s (H & _).
  - rewrite E. apply Join_two. rewrite E in Htexts.
    inversion Htexts as [|? ? (_ & Hp & _) _]. exact Hp.
  - rewrite E. apply Join_two. rewrite E in Htexts.
    inversion Htexts as [|? ? (_ & Hp & _) _]. exact Hp.
  - apply Join_occurs; [reflexivity|].
    eapply Forall_impl; [|exact Htexts]. now intros s (_ & _ & H).
  - rewrite (Split_Join "|" texts).
    + apply objectFromValues_texts. intros n Hn. now apply Hv.
    + rewrite E. discriminate.
    + eapply Forall_impl; [|exact Htexts]. now intros s (_ & H & _).
Qed.

Lemma mget_inOrder order (obj : list (string * Value)) :
  forall acc k,
    mget (fold_left (fun a n => mset n (valueAt obj n) a) order acc) k
    = if existsb (String.eqb k) order then Some (valueAt obj k)
      else mget acc k.
Proof.
  induction order as [|n order IH]; intros acc k; [reflexivity|].
  cbn [fold_left existsb]. rewrite IH.
  destruct (String.eqb_spec k n) as [->|Hne]; cbn [orb].
  - rewrite mget_mset_eq. now destruct (existsb _ _).
  - now rewrite mget_mset_ne by congruence.
Qed.

Lemma sameFields_inOrder ft (obj : list (string * Value)) :
  objectFits ft obj -> sameFields obj (inOrder ft obj).
Proof.
  intros Hfit k. unfold inOrder. rewrite mget_inOrder. cbn [mget].
  pose proof (objectFits_values ft obj Hfit) as Hv.
  destruct Hfit as (_ & _ & _ & Hkeys).
  destruct (existsb (String.eqb k) (getObjectFieldOrder (Some ft))) eqn:E.
  - apply existsb_exists in E. destruct E as (x & Hx & Ex).
    apply String.eqb_eq in Ex. subst x. now destruct (Hv k Hx) as (-> & _).
  - destruct (mget obj k) as [v|] eqn:Ek; [|reflexivity].
    exfalso. apply mget_In in Ek.
    assert (Hin : In k (keys obj)) by (apply in_map_iff; now exists (k, v)).
    apply Hkeys in Hin.
    assert (existsb (String.eqb k) (getObjectFieldOrder (Some ft)) = true);
      [|congruence].
    apply existsb_exists. exists k. split; [exact Hin|apply String.eqb_refl].
Qed.

End PipeFacts.

(** ** The lines of a field *)

Section FieldBlocks.
Context {F : Floats} {M : Machine}.

Lemma right_tidy_after (text pre : string) (c : ascii) :
  tidy text -> text <> "" ->
  (forall r, In r (map strings.rev strings.spaceRunes) ->
             occurs c (strings.skip 1 r) = false) ->
  strings.dropRune (map strings.rev strings.spaceRunes)
                   (strings.rev ((pre ++ String c "") ++ text)) = None.
Proof.
  intros Htidy Hne Hc. apply tidy_ends in Htidy. destruct Htidy as (_ & Hr).
  rewrite rev_app, rev_app. change (strings.rev (String c "")) with (String c "").
  cbn [append]. apply dropRune_app_None; [|exact Hr|exact Hc].
  intros E. apply (f_equal strings.rev) in E. rewrite rev_rev in E.
  now apply Hne.
Qed.

Lemma plainName_first name :
  plainName name ->
  exists c0 pre, name = String c0 pre /\ leads c0 strings.spaceRunes = false.
Proof.
  intros (Hne & Hall). destruct name as [|c0 pre]; [congruence|].
  exists c0, pre. split; [reflexivity|].
  cbn [allBytes] in Hall. apply andb_prop in Hall.
  now apply plainByte_ends.
Qed.

(** A header line and one indented line. *)
Lemma two_line_block (name text : string) :
  plainName name -> tidy text -> text <> "" -> occurs newline text = false ->
  fieldLines [name ++ ":"; "    " ++ text].
Proof.
  intros Hname Htidy Hne Hnl.
  destruct (plainName_first _ Hname) as (c0 & pre & -> & Hlead).
  split; [|split; [|split]].
  - exists c0, (pre ++ ":"), ["    " ++ text]. now split.
  - constructor; [|constructor; [|constructor]].
    + rewrite occurs_app. rewrite (plainName_occurs _ newline);
        [reflexivity|apply Hname|cbn; auto 10].
    + now rewrite occurs_app, Hnl.
  - cbn [last]. discriminate.
  - cbn [last]. apply (right_tidy_after text "   " " "); auto.
    intros r Hin. apply space_in_no_rune_tail. now right.
Qed.

Lemma TrimSpace_space (v : string) : tidy v -> strings.TrimSpace (" " ++ v) = v.
Proof.
  intros Hv. apply tidy_ends in Hv. destruct Hv as (Hl & Hr).
  unfold strings.TrimSpace, strings.TrimLeftSpace.
  cbn [append String.length strings.trimLeft]. rewrite dropRune_space.
  rewrite trimLeft_fixed by exact Hl.
  unfold strings.TrimRightSpace.
  rewrite (trimLeft_fixed _ _ _ Hr). apply rev_rev.
Qed.

Lemma TrimRightNewlines_line (P l : string) :
  l <> "" -> occurs newline l = false ->
  TrimRightNewlines ((P ++ l) ++ nl) = P ++ l.
Proof.
  intros Hne Hnl. unfold TrimRightNewlines.
  rewrite rev_app. change (strings.rev nl) with nl.
  change (nl ++ strings.rev (P ++ l))
    with (String newline (strings.rev (P ++ l))).
  set (drop := fix drop (r : string) : string :=
                 match r with
                 | String c r' => if Ascii.eqb c newline then drop r' else r
                 | EmptyString => r
                 end).
  change (drop (String newline (strings.rev (P ++ l))))
    with (if Ascii.eqb newline newline then drop (strings.rev (P ++ l))
          else String newline (strings.rev (P ++ l))).
  rewrite Ascii.eqb_refl, rev_app.
  rewrite <- occurs_rev in Hnl.
  destruct (strings.rev l) as [|c r] eqn:E.
  - apply (f_equal strings.rev) in E. rewrite rev_rev in E. now subst l.
  - cbn [occurs] in Hnl. apply orb_false_elim in Hnl. destruct Hnl as (Hc & _).
    change (drop (String c r ++ strings.rev P))
      with (if Ascii.eqb c newline then drop (r ++ strings.rev P)
            else String c r ++ strings.rev P).
    rewrite Hc, <- E, <- rev_app. apply rev_rev.
Qed.

End FieldBlocks.

(** ** Fields that are read back *)

(** Texts up to the bracketing of their concatenation. *)
Ltac same_text :=
  unfold arrayHeader in *;
  repeat (progress (rewrite ?append_assoc in *; cbn [append] in * ));
  try reflexivity; try assumption.

Section FieldsReadBack.
Context {F : Floats} {M : Machine}.

Lemma block_lines {A : Type} (pre post : list A) (h x : A) (rest : list A) :
  nth_error (pre ++ (h :: x :: rest) ++ post)%list (length pre) = Some h
  /\ nth_error (pre ++ (h :: x :: rest) ++ post)%list (length pre + 1) = Some x.
Proof.
  split.
  - pose proof (nth_error_block pre (h :: x :: rest) post 0) as H.
    rewrite Nat.add_0_r in H. apply H. cbn. lia.
  - now rewrite nth_error_block by (cbn; lia).
Qed.

Lemma object_field schema name ft (obj : list (string * Value)) :
  plainName name -> mget (Fields schema) name = Some ft ->
  Type_ ft = "object" -> objectFits ft obj ->
  let block := [name ++ ":"; "    " ++ pipeJoin (Some ft) obj] in
  writeField name (VObject obj) ft 0 = Ok (strings.Join block nl)
  /\ fieldLines block
  /\ readsBack schema name block (VObject (inOrder ft obj)).
Proof.
  intros Hname Hft Hty Hfit block.
  destruct (pipeJoin_line ft obj Hfit) as (Htidy & Hne & Hpipe & Hnl & Hparse).
  set (line := pipeJoin (Some ft) obj) in *.
  split; [|split].
  - unfold writeField. rewrite Hty.
    change (isSimpleType "object") with false.
    change ("object" =? "array") with false.
    change ("object" =? "object") with true. cbv iota.
    cbn [strings.Repeat strings.Join append block]. fold line.
    now rewrite !append_assoc.
  - now apply two_line_block.
  - intros fuel pre post acc _.
    destruct (block_lines pre post (name ++ ":") ("    " ++ line) [])
      as (H0 & H1).
    fold block in H0, H1.
    set (lines := (pre ++ block ++ post)%list) in *.
    rewrite (parseDataLoop_plain_header fuel schema lines (length pre) acc
               (name ++ ":") name "" ft Hname H0)
      by (try exact Hft; rewrite TrimSpace_plain_colon by exact Hname;
          reflexivity).
    change (strings.TrimSpace "") with "".
    change (length block) with 2%nat.
    unfold parseValueWithArraySize. rewrite Hty.
    change ("object" =? "array") with false. cbv iota.
    assert (Hval : parseValue ft "" lines (length pre)
                   = Ok (VObject (inOrder ft obj), (length pre + 1 + 1)%nat)).
    { destruct ft as [ty elem fields order nm]. cbn [Type_] in Hty. subst ty.
      cbn [parseValue String.eqb Ascii.eqb Bool.eqb isIntType existsb orb].
      unfold parseObject. cbn [String.eqb negb andb]. rewrite H1.
      rewrite TrimSpace_indent by exact Htidy.
      replace (String.eqb line "") with false
        by (symmetry; now apply String.eqb_neq).
      rewrite Hpipe. cbn [negb andb]. rewrite Hparse. reflexivity. }
    rewrite Hval. now replace (length pre + 1 + 1)%nat
                      with (length pre + 2)%nat by lia.
Qed.

Lemma block_first {A : Type} (pre post : list A) (h : A) (rest : list A) :
  nth_error (pre ++ (h :: rest) ++ post)%list (length pre) = Some h.
Proof.
  pose proof (nth_error_block pre (h :: rest) post 0) as H.
  rewrite Nat.add_0_r in H. apply H. cbn. lia.
Qed.

Lemma skipn_block {A : Type} (pre post : list A) (h : A) (rest : list A) :
  skipn (length pre + 1) (pre ++ (h :: rest) ++ post)%list = (rest ++ post)%list.
Proof.
  replace (length pre + 1)%nat with (length (pre ++ [h])%list)
    by (rewrite List.length_app; reflexivity).
  replace (pre ++ (h :: rest) ++ post)%list
    with ((pre ++ [h]) ++ rest ++ post)%list
    by (now rewrite <- app_assoc).
  rewrite skipn_app, skipn_all, Nat.sub_diag. reflexivity.
Qed.

(** The header of an array of [n] elements. *)
Lemma array_header name (n : nat) :
  plainName name ->
  let header := name ++ "[" ++ strconv.Itoa (Z.of_nat n) ++ "]" in
  occurs newline (header ++ ":") = false
  /\ strings.TrimSpace (header ++ ":") = header ++ ":"
  /\ occurs "]" (strconv.Itoa (Z.of_nat n)) = false
  /\ occurs ":" (strconv.Itoa (Z.of_nat n)) = false.
Proof.
  intros Hname. cbv zeta.
  destruct (Itoa_numeral (Z.of_nat n)) as (Hall & Hne).
  destruct (Itoa_tidy (Z.of_nat n)) as (_ & _ & Hcolon & _ & Hnl).
  assert (Hclose : occurs "]" (strconv.Itoa (Z.of_nat n)) = false)
    by now apply (allBytes_occurs numeralByte).
  repeat split; auto.
  - rewrite !occurs_app, Hnl.
    rewrite (plainName_occurs name newline);
      [reflexivity|apply Hname|cbn; auto 10].
  - destruct (TrimSpace_header name (strconv.Itoa (Z.of_nat n)) "" Hname)
      as (w' & z & Hw & E).
    destruct w'; [exact E|discriminate].
Qed.

Lemma header_lines name (n : nat) (rest : list string) :
  plainName name ->
  Forall (fun l => occurs newline l = false) rest ->
  last (arrayHeader name n :: rest) "" <> "" ->
  strings.dropRune (map strings.rev strings.spaceRunes)
    (strings.rev (last (arrayHeader name n :: rest) "")) = None ->
  fieldLines (arrayHeader name n :: rest).
Proof.
  intros Hname Hrest Hlast Hright.
  destruct (array_header name n Hname) as (Hnl & _).
  destruct (plainName_first _ Hname) as (c0 & pre & -> & Hlead).
  split; [|split; [|split]]; auto.
  exists c0, ((pre ++ "[" ++ strconv.Itoa (Z.of_nat n) ++ "]") ++ ":"), rest.
  now split.
Qed.

Lemma empty_array schema name ft :
  plainName name -> mget (Fields schema) name = Some ft ->
  Type_ ft = "array" ->
  let block := [arrayHeader name 0] in
  writeField name (VArray []) ft 0 = Ok (strings.Join block nl)
  /\ fieldLines block
  /\ readsBack schema name block (VArray []).
Proof.
  intros Hname Hft Hty block.
  destruct (array_header name 0 Hname) as (Hnl & Htrim & Hclose & Hcolon).
  split; [|split].
  - unfold writeField. rewrite Hty.
    change (isSimpleType "array") with false.
    change ("array" =? "array") with true. cbv iota.
    cbn [asArray length strings.Repeat strings.Join append block].
    unfold arrayHeader. now rewrite !append_assoc.
  - apply header_lines; auto.
    + cbn [last]. unfold arrayHeader. destruct name; discriminate.
    + cbn [last]. unfold arrayHeader. rewrite rev_app. now apply dropRune_lead.
  - intros fuel pre post acc Hpost.
    pose proof (block_first pre post (arrayHeader name 0) []) as H0.
    pose proof (skipn_block pre post (arrayHeader name 0) []) as Hskip.
    fold block in H0, Hskip.
    set (lines := (pre ++ block ++ post)%list) in *.
    rewrite (parseDataLoop_array_header fuel schema lines (length pre) acc _
               name (strconv.Itoa (Z.of_nat 0)) "" ft Hname Hclose Hcolon H0)
      by (try exact Hft; exact Htrim).
    change (strings.TrimSpace "") with "".
    change (strconv.Atoi (strconv.Itoa (Z.of_nat 0))) with (Some 0%Z).
    cbv iota.
    unfold parseValueWithArraySize. rewrite Hty.
    change ("array" =? "array") with true. cbv iota.
    unfold parseArrayWithDeclaredSize. cbn [String.eqb negb andb]. cbv zeta.
    rewrite (capacity_granted 0) by (pose proof maxCap_fallback; lia).
    rewrite Hskip. cbn [app].
    assert (Hloop : declaredSizeLoop ft 0 post (length pre + 1) []
                    = Ok ([], (length pre + 1)%nat)).
    { destruct post as [|next post']; [reflexivity|].
      cbn [declaredSizeLoop]. change (0 <=? 0)%Z with true. cbn [orb].
      now rewrite Hpost. }
    rewrite Hloop. reflexivity.
Qed.

Lemma Atoi_length (n : nat) :
  int64 (Z.of_nat n) ->
  strconv.Atoi (strconv.Itoa (Z.of_nat n)) = Some (Z.of_nat n).
Proof. intros H. unfold strconv.Atoi. now apply ParseInt_Itoa. Qed.

Lemma string_array schema name ft et (texts : list string) :
  plainName name -> mget (Fields schema) name = Some ft ->
  Type_ ft = "array" -> ElementType ft = Some et ->
  isSimpleType (Type_ et) = true ->
  (2 <= length texts)%nat -> int64 (Z.of_nat (length texts)) ->
  Forall pipeText texts ->
  let block :=
    [arrayHeader name (length texts) ++ " " ++ strings.Join texts "|"] in
  writeField name (VArray (map VString texts)) ft 0
  = Ok (strings.Join block nl)
  /\ fieldLines block
  /\ readsBack schema name block (VArray (map VString texts)).
Proof.
  intros Hname Hft Hty Het Hsimple Hlen Hint Htexts block.
  set (n := length texts) in *.
  set (J := strings.Join texts "|").
  destruct (array_header name n Hname) as (Hnl & Htrim & Hclose & Hcolon).
  assert (Htidy : tidy J).
  { apply Join_tidy. eapply Forall_impl; [|exact Htexts]. now intros t (H & _). }
  assert (HJnl : occurs newline J = false).
  { apply Join_occurs; [reflexivity|].
    eapply Forall_impl; [|exact Htexts]. now intros t (_ & _ & H). }
  assert (H2 : exists t t' rest, texts = t :: t' :: rest).
  { destruct texts as [|a [|b texts']]; cbn in Hlen; try lia. eauto. }
  destruct H2 as (t & t' & rest & E).
  assert (HJ : J <> "" /\ strings.Contains J "|" = true).
  { unfold J. rewrite E. apply Join_two. rewrite E in Htexts.
    inversion Htexts as [|? ? (_ & Hp & _) _]. exact Hp. }
  destruct HJ as (HJne & HJpipe).
  assert (Hline : occurs newline (arrayHeader name n ++ " " ++ J) = false).
  { rewrite !occurs_app. unfold arrayHeader in *. rewrite Hnl, HJnl.
    reflexivity. }
  assert (Hright :
    strings.dropRune (map strings.rev strings.spaceRunes)
      (strings.rev (arrayHeader name n ++ " " ++ J)) = None).
  { rewrite <- append_assoc. apply right_tidy_after; auto.
    intros r Hin. apply space_in_no_rune_tail. now right. }
  split; [|split].
  - unfold writeField. rewrite Hty, Het, Hsimple.
    change (isSimpleType "array") with false.
    change ("array" =? "array") with true. cbv iota.
    cbn [asArray]. rewrite length_map. fold n.
    replace (map formatValue (map VString texts)) with texts
      by (rewrite map_map; cbn [formatValue]; now rewrite map_id).
    rewrite E at 1. cbn [map]. fold J.
    cbn [strings.Repeat strings.Join append block].
    rewrite TrimRightNewlines_id; [f_equal|]; clear - Hline; same_text.
  - destruct (plainName_first _ Hname) as (c0 & pre & Ename & Hlead).
    split; [|split; [|split]].
    + unfold block, arrayHeader. rewrite Ename. cbn [append]. eauto.
    + constructor; [exact Hline|constructor].
    + unfold block, arrayHeader. cbn [last]. rewrite Ename. discriminate.
    + exact Hright.
  - intros fuel pre post acc _.
    pose proof (block_first pre post (arrayHeader name n ++ " " ++ J) [])
      as H0.
    fold block in H0.
    set (lines := (pre ++ block ++ post)%list) in *.
    assert (Hraw : strings.TrimSpace (arrayHeader name n ++ " " ++ J)
                   = (name ++ "[" ++ strconv.Itoa (Z.of_nat n) ++ "]")
                       ++ String ":" (" " ++ J)).
    { replace ((name ++ "[" ++ strconv.Itoa (Z.of_nat n) ++ "]")
                 ++ String ":" (" " ++ J))
        with (arrayHeader name n ++ " " ++ J)
        by (unfold arrayHeader; now rewrite !append_assoc).
      apply tidy_ends. split; [|exact Hright].
      destruct (plainName_first _ Hname) as (c0 & p & Ename & Hlead).
      unfold arrayHeader. rewrite Ename. cbn [append].
      now apply dropRune_lead. }
    rewrite (parseDataLoop_array_header fuel schema lines (length pre) acc _
               name (strconv.Itoa (Z.of_nat n)) (" " ++ J) ft
               Hname Hclose Hcolon H0 Hraw Hft).
    rewrite TrimSpace_space by exact Htidy.
    rewrite Atoi_length by exact Hint.
    unfold parseValueWithArraySize. rewrite Hty.
    change ("array" =? "array") with true. cbv iota.
    unfold parseArrayWithDeclaredSize.
    replace (String.eqb J "") with false
      by (symmetry; now apply String.eqb_neq).
    rewrite HJpipe. cbn [negb andb].
    assert (Hsplit : strings.Split J "|" = texts).
    { apply (Split_Join "|" texts).
      - rewrite E. discriminate.
      - eapply Forall_impl; [|exact Htexts]. now intros s0 (_ & H & _). }
    rewrite Hsplit. fold n. rewrite Z.eqb_refl. cbn [negb]. rewrite andb_false_r.
    unfold inlineArray. rewrite Hsplit. cbn [mapValue].
    replace (map (fun v => VString (strings.TrimSpace v)) texts)
      with (map VString texts).
    + reflexivity.
    + apply map_ext_in. intros s0 Hs0. rewrite Forall_forall in Htexts.
      destruct (Htexts s0 Hs0) as (Ht & _). now rewrite Ht.
Qed.

(** The loop reads as many element lines as were declared, and stops
    behind them. *)
Lemma declaredSizeLoop_elements fieldType N (elines : list string) post :
  (0 < N)%Z ->
  forall i acc,
    Z.of_nat (length acc + length elines) = N ->
    Forall (fun l => isIndented l = true
                     /\ strings.TrimSpace l <> ""
                     /\ exists v, parseElement fieldType (strings.TrimSpace l)
                                  = Ok v) elines ->
    declaredSizeLoop fieldType N (elines ++ post)%list i acc
    = Ok ((acc ++ map (fun l => elementOf fieldType (strings.TrimSpace l))
                      elines)%list,
          (i + length elines)%nat).
Proof.
  intros Hpos.
  induction elines as [|l elines IH]; intros i acc Hlen Hall.
  - cbn [app map length] in *. rewrite app_nil_r, Nat.add_0_r.
    destruct post as [|next post]; [reflexivity|].
    cbn [declaredSizeLoop].
    replace (N <=? 0)%Z with false by (symmetry; apply Z.leb_gt; lia).
    replace (Z.of_nat (length acc) <? N)%Z with false
      by (symmetry; apply Z.ltb_ge; lia).
    reflexivity.
  - apply Forall_cons_iff in Hall.
    destruct Hall as ((Hind & Hne & v & Hv) & Hrest).
    cbn [app declaredSizeLoop length] in *.
    replace (Z.of_nat (length acc) <? N)%Z with true
      by (symmetry; apply Z.ltb_lt; lia).
    rewrite orb_true_r, Hind. cbn [negb].
    replace (String.eqb (strings.TrimSpace l) "") with false
      by (symmetry; now apply String.eqb_neq).
    rewrite Hv, IH.
    + cbn [map]. unfold elementOf at 2. rewrite Hv.
      rewrite <- app_assoc. cbn [app]. f_equal. f_equal. lia.
    + rewrite List.length_app. cbn [length]. lia.
    + exact Hrest.
Qed.

Lemma writeItems_objects et (objs : list (list (string * Value))) :
  Type_ et = "object" ->
  forall buffer,
    writeItems (map VObject objs) (Some et) 1 buffer
    = Ok (buffer ++ unlines (map (fun o => "    " ++ pipeJoin (Some et) o)
                                 objs)).
Proof.
  intros Hty. induction objs as [|o objs IH]; intros buffer;
    cbn [map writeItems unlines fold_right].
  - now rewrite append_nil_r.
  - unfold writeArrayItem. rewrite Hty.
    change ("object" =? "object") with true. cbv iota.
    rewrite IH. cbn [strings.Repeat append]. f_equal.
    fold (unlines (map (fun o => "    " ++ pipeJoin (Some et) o) objs)).
    same_text.
Qed.

Lemma match_nonempty {A B : Type} (l : list A) (a b : B) :
  l <> [] -> match l with [] => a | _ :: _ => b end = b.
Proof. destruct l; [congruence|reflexivity]. Qed.

Lemma object_array schema name ft et (objs : list (list (string * Value))) :
  plainName name -> mget (Fields schema) name = Some ft ->
  Type_ ft = "array" -> ElementType ft = Some et -> Type_ et = "object" ->
  objs <> [] -> (Z.of_nat (length objs) <= maxCap)%Z ->
  Forall (objectFits et) objs ->
  let block :=
    arrayHeader name (length objs)
      :: map (fun o => "    " ++ pipeJoin (Some et) o) objs in
  writeField name (VArray (map VObject objs)) ft 0
  = Ok (strings.Join block nl)
  /\ fieldLines block
  /\ readsBack schema name block
       (VArray (map (fun o => VObject (inOrder et o)) objs)).
Proof.
  intros Hname Hft Hty Het Hobj Hne Hcap Hfits block.
  assert (Hint : int64 (Z.of_nat (length objs))).
  { pose proof maxCap_addressable. unfold int64. lia. }
  set (n := length objs) in *.
  set (elines := map (fun o => "    " ++ pipeJoin (Some et) o) objs) in *.
  destruct (array_header name n Hname) as (Hnl & Htrim & Hclose & Hcolon).
  assert (Hlines : Forall (fun l => exists o,
                               l = "    " ++ pipeJoin (Some et) o
                               /\ objectFits et o) elines).
  { unfold elines. apply Forall_map. eapply Forall_impl; [|exact Hfits].
    intros o Ho. now exists o. }
  assert (Hene : elines <> []).
  { unfold elines. destruct objs; [congruence|discriminate]. }
  assert (Hlast : exists o, last elines "" = "    " ++ pipeJoin (Some et) o
                            /\ objectFits et o).
  { rewrite Forall_forall in Hlines. apply Hlines.
    clear - Hene. induction elines as [|a l IH]; [congruence|].
    destruct l as [|b l]; [now left|]. right. apply IH. discriminate. }
  destruct Hlast as (olast & Elast & Hfitlast).
  destruct (pipeJoin_line et olast Hfitlast)
    as (Htl & Hnel & _ & Hnll & _).
  split; [|split].
  - unfold writeField. rewrite Hty, Het, Hobj.
    change (isSimpleType "array") with false.
    change (isSimpleType "object") with false.
    change ("array" =? "array") with true. cbv iota.
    cbn [asArray]. rewrite length_map. fold n.
    rewrite match_nonempty by (destruct objs; [congruence|discriminate]).
    change (0 + 1)%nat with 1%nat.
    rewrite (writeItems_objects et objs Hobj). fold elines.
    rewrite unlines_Join by exact Hene.
    destruct (Join_last elines Hene) as (P & EP & _).
    rewrite EP.
    set (B := strings.Repeat "    " 0
                ++ name ++ "[" ++ strconv.Itoa (Z.of_nat n) ++ "]:").
    replace ((B ++ nl) ++ (P ++ last elines "") ++ nl)
      with (((B ++ nl ++ P) ++ last elines "") ++ nl)
      by (now rewrite !append_assoc).
    rewrite TrimRightNewlines_line.
    + f_equal. unfold block. fold elines.
      assert (EJ : strings.Join (arrayHeader name n :: elines) nl
                   = arrayHeader name n ++ nl ++ strings.Join elines nl).
      { destruct elines; [congruence|reflexivity]. }
      rewrite EJ, EP. unfold B. cbn [strings.Repeat].
      generalize (last elines ""). intros lastLine. clear. same_text.
    + rewrite Elast. discriminate.
    + rewrite Elast, occurs_app, Hnll. reflexivity.
  - apply header_lines; auto.
    + eapply Forall_impl; [|exact Hlines].
      intros l (o & -> & Ho).
      destruct (pipeJoin_line et o Ho) as (_ & _ & _ & Hn & _).
      now rewrite occurs_app, Hn.
    + destruct elines as [|e1 elines'] eqn:Ee; [congruence|].
      change (last (arrayHeader name n :: e1 :: elines') "")
        with (last (e1 :: elines') "").
      rewrite Elast. discriminate.
    + destruct elines as [|e1 elines'] eqn:Ee; [congruence|].
      change (last (arrayHeader name n :: e1 :: elines') "")
        with (last (e1 :: elines') "").
      rewrite Elast. apply (right_tidy_after _ "   " " "); auto.
      intros r Hin. apply space_in_no_rune_tail. now right.
  - intros fuel pre post acc _.
    pose proof (block_first pre post (arrayHeader name n) elines) as H0.
    pose proof (skipn_block pre post (arrayHeader name n) elines) as Hskip.
    fold block in H0, Hskip.
    set (lines := (pre ++ block ++ post)%list) in *.
    rewrite (parseDataLoop_array_header fuel schema lines (length pre) acc _
               name (strconv.Itoa (Z.of_nat n)) "" ft Hname Hclose Hcolon H0)
      by (try exact Hft; exact Htrim).
    change (strings.TrimSpace "") with "".
    rewrite Atoi_length by exact Hint.
    unfold parseValueWithArraySize. rewrite Hty.
    change ("array" =? "array") with true. cbv iota.
    unfold parseArrayWithDeclaredSize. cbn [String.eqb negb andb]. cbv zeta.
    rewrite (capacity_granted (Z.of_nat n)) by exact Hcap.
    rewrite Hskip.
    assert (Hn : (0 < Z.of_nat n)%Z).
    { unfold n. destruct objs; [congruence|cbn [length]; lia]. }
    assert (Hoe : objectElement ft = Some et).
    { unfold objectElement. rewrite Het, Hobj. reflexivity. }
    assert (Hlen : length elines = n).
    { unfold elines. now rewrite length_map. }
    rewrite (declaredSizeLoop_elements ft (Z.of_nat n) elines post Hn).
    + rewrite List.length_app, length_map. cbn [length app plus].
      rewrite Hlen, Z.eqb_refl. cbn [negb]. rewrite andb_false_r.
      cbn [mapValue]. unfold block. cbn [length]. rewrite Hlen.
      replace (length pre + 1 + n)%nat with (length pre + S n)%nat by lia.
      f_equal. f_equal. f_equal. f_equal.
      unfold elines. rewrite map_map. apply map_ext_in.
      intros o Ho. rewrite Forall_forall in Hfits.
      destruct (pipeJoin_line et o (Hfits o Ho)) as (Ht & _ & _ & _ & Hp).
      rewrite TrimSpace_indent by exact Ht.
      unfold elementOf, parseElement. rewrite Hoe, Hp. reflexivity.
    + cbn [length]. now rewrite Hlen.
    + eapply Forall_impl; [|exact Hlines].
      intros l (o & -> & Ho).
      destruct (pipeJoin_line et o Ho) as (Ht & Hne' & _ & _ & Hp).
      rewrite isIndented_indent, TrimSpace_indent by exact Ht.
      repeat split; auto.
      unfold parseElement. rewrite Hoe, Hp. eauto.
Qed.

End FieldsReadBack.

(** ** Records that are read back *)

Section RecordRoundTrip.
Context {F : Floats} {M : Machine}.

Lemma simple_not_object ty :
  isSimpleType ty = true -> String.eqb ty "object" = false.
Proof.
  unfold isSimpleType. cbn [existsb]. intros H.
  destruct (String.eqb_spec ty "object") as [->|]; [discriminate|reflexivity].
Qed.

Lemma fits_field schema name ft (v : Value) :
  plainName name -> mget (Fields schema) name = Some ft -> fieldFits ft v ->
  exists block,
    writeField name v ft 0 = Ok (strings.Join block nl)
    /\ fieldLines block
    /\ readsBack schema name block (readAs ft v)
    /\ sameValue v (readAs ft v).
Proof.
  intros Hname Hft Hfit.
  destruct Hfit as [v Hs|Hty|et texts Hty Het Hsimple Hlen Hint Htexts
                    |et objs Hty Het Hobj Hne Hcap Hfits|obj Hty Hfit].
  - exists [name ++ ":"; "    " ++ formatValue v].
    assert (Hv : readAs ft v = v /\ sameValue v v).
    { destruct v; try contradiction; now split. }
    destruct Hv as (-> & Hsame).
    split; [|split; [|split]].
    + apply scalar_written. exact (scalarFits_simple _ _ Hs).
    + exact (scalar_lines name v _ Hname Hs).
    + exact (scalar_reads_back schema name ft v Hname Hft Hs).
    + exact Hsame.
  - destruct (empty_array schema name ft Hname Hft Hty) as (Hw & Hl & Hr).
    exists [arrayHeader name 0].
    assert (Hv : readAs ft (VArray []) = VArray []).
    { unfold readAs. now destruct (objectElement ft). }
    rewrite Hv. split; [exact Hw|]. split; [exact Hl|]. split; [exact Hr|].
    constructor.
  - destruct (string_array schema name ft et texts Hname Hft Hty Het Hsimple
                Hlen Hint Htexts) as (Hw & Hl & Hr).
    eexists. split; [exact Hw|]. split; [exact Hl|].
    assert (Hv : readAs ft (VArray (map VString texts))
                 = VArray (map VString texts)).
    { unfold readAs, objectElement. rewrite Het.
      now rewrite (simple_not_object _ Hsimple). }
    rewrite Hv. split; [exact Hr|].
    cbn [sameValue]. clear.
    induction texts as [|t texts IH]; cbn [map]; constructor;
      [reflexivity|exact IH].
  - destruct (object_array schema name ft et objs Hname Hft Hty Het Hobj
                Hne Hcap Hfits) as (Hw & Hl & Hr).
    eexists. split; [exact Hw|]. split; [exact Hl|].
    assert (Hv : readAs ft (VArray (map VObject objs))
                 = VArray (map (fun o => VObject (inOrder et o)) objs)).
    { unfold readAs, objectElement. rewrite Het, Hobj.
      change ("object" =? "object") with true. cbv iota.
      now rewrite map_map. }
    rewrite Hv. split; [exact Hr|].
    cbn [sameValue]. clear - Hfits.
    induction Hfits as [|o objs Ho _ IH]; cbn [map]; constructor;
      [|exact IH].
    cbn [sameElement]. now apply sameFields_inOrder.
  - destruct (object_field schema name ft obj Hname Hft Hty Hfit)
      as (Hw & Hl & Hr).
    eexists. split; [exact Hw|]. split; [exact Hl|].
    split; [exact Hr|]. cbn [readAs sameValue sameElement].
    now apply sameFields_inOrder.
Qed.

Lemma linesOf_block name ft (v : Value) block :
  writeField name v ft 0 = Ok (strings.Join block nl) ->
  fieldLines block ->
  linesOf name ft v = block.
Proof.
  intros Hw ((c0 & pre & rest & -> & _) & Hnl & _).
  unfold linesOf. rewrite Hw. apply (Split_Join newline); [discriminate|].
  exact Hnl.
Qed.

Lemma record_read_back schema (data : list (string * Value)) :
  Fields schema <> [] ->
  (forall name v,
      mget data name = Some v ->
      In name (GetFieldOrder schema) /\ plainName name
      /\ exists ft, mget (Fields schema) name = Some ft /\ fieldFits ft v) ->
  exists text data',
    writeData schema data = Ok text
    /\ ParseData schema text = Ok data'
    /\ forall k,
         match mget data k with
         | Some v => exists v', mget data' k = Some v' /\ sameValue v v'
         | None => mget data' k = None
         end.
Proof.
  intros Hfields Hdata.
  assert (Hfit : forall name ft v,
             mget (Fields schema) name = Some ft -> mget data name = Some v ->
             exists block,
               writeField name v ft 0 = Ok (strings.Join block nl)
               /\ fieldLines block
               /\ readsBack schema name block (readAs ft v)
               /\ sameValue v (readAs ft v)).
  { intros name ft v Hft Hv.
    destruct (Hdata name v Hv) as (_ & Hname & ft' & Hft' & Hf).
    assert (ft' = ft) by congruence. subst ft'.
    now apply fits_field. }
  destruct (written_round_trip schema data linesOf readAs) as (text & Hw & Hp).
  - intros name ft v Hft Hv.
    destruct (Hfit name ft v Hft Hv) as (block & Hwf & Hl & Hr & _).
    rewrite (linesOf_block name ft v block Hwf Hl). auto.
  - exact Hfields.
  - exists text. eexists. split; [exact Hw|]. split; [exact Hp|].
    intros k. rewrite mget_written. cbn [mget].
    destruct (mget data k) as [v|] eqn:Hv.
    + destruct (Hdata k v Hv) as (Hin & _ & ft & Hft & _).
      rewrite Hft.
      replace (existsb (String.eqb k) (GetFieldOrder schema)) with true.
      * exists (readAs ft v). split; [reflexivity|].
        now destruct (Hfit k ft v Hft Hv) as (_ & _ & _ & _ & Hs).
      * symmetry. apply existsb_exists. exists k.
        split; [exact Hin|apply String.eqb_refl].
    + destruct (existsb _ _); [|reflexivity].
      now destruct (mget (Fields schema) k).
Qed.


(** X12.  Records survive the round trip through the writer and the
    parser when each of their fields is declared, named by plain bytes,
    and holds what the data format carries, see [fieldFits]: a scalar
    as in X11; an empty array; under a scalar element type an array of
    two or more strings, each without pipe, line break and white
    space around it; under an object element type a non-empty array
    of flat objects, of a length for which the machine grants a slice;
    or a flat object.  A flat object holds exactly the fields of its
    type, which are two or more and none twice, and each field holds a
    string without pipe, line break and white space around it, an
    integer of the [int64] range or a boolean, of the declared kind.
    [writeData] succeeds, and [ParseData] reads its text back as a
    record with the same keys and the same values, the maps in them
    compared key by key. *)
Theorem record_round_trip schema (data : list (string * Value)) :
  Fields schema <> [] ->
  (forall name v,
      mget data name = Some v ->
      In name (GetFieldOrder schema) /\ plainName name
      /\ exists ft, mget (Fields schema) name = Some ft /\ fieldFits ft v) ->
  exists text data',
    writeData schema data = Ok text
    /\ ParseData schema text = Ok data'
    /\ forall k,
         match mget data k with
         | Some v => exists v', mget data' k = Some v' /\ sameValue v v'
         | None => mget data' k = None
         end.
Proof. exact (record_read_back schema data). Qed.

(** X13.  Inference, writing and parsing compose to the identity on the
    records that the format carries: when every value of a record with
    plain field names fits the type that [inferFieldType] gives it,
    the record, written under the schema inferred from it and parsed
    back under that schema, comes back with the same keys and the same
    values. *)
Theorem inferred_record_round_trip (data : list (string * Value)) :
  wf_map data -> data <> [] ->
  (forall name v,
      mget data name = Some v ->
      plainName name /\ fieldFits (inferFieldType v) v) ->
  exists data',
    roundTrip data = Ok data'
    /\ forall k,
         match mget data k with
         | Some v => exists v', mget data' k = Some v' /\ sameValue v v'
         | None => mget data' k = None
         end.
Proof.
  intros Hwf Hne Hdata.
  destruct (inferSchema_fold data (mkSchema [] []) Hwf) as (Horder & Hfields).
  set (schema := InferSchemaFromJSON (VObject data)).
  change (fold_left _ data _) with schema in Horder, Hfields.
  cbn [FieldOrder Fields mget app] in Horder, Hfields.
  assert (Hget : GetFieldOrder schema = keys data).
  { unfold GetFieldOrder. rewrite Horder.
    destruct data; [congruence|reflexivity]. }
  destruct (record_read_back schema data) as (text & data' & Hw & Hp & Hsame).
  - destruct data as [|[k v] data'] eqn:E; [congruence|].
    intros Hnil. specialize (Hfields k). rewrite Hnil in Hfields.
    cbn [mget] in Hfields. now rewrite String.eqb_refl in Hfields.
  - intros name v Hv. destruct (Hdata name v Hv) as (Hname & Hfit).
    split; [|split; [exact Hname|]].
    + rewrite Hget. apply mget_In in Hv.
      apply in_map_iff. now exists (name, v).
    + exists (inferFieldType v). split; [|exact Hfit].
      now rewrite Hfields, Hv.
  - exists data'. split; [|exact Hsame].
    unfold roundTrip. fold schema. now rewrite Hw.
Qed.

End RecordRoundTrip.

(** ** The types that [parseType] builds *)

Section ParsedTypes.

Lemma parsedType_named name ft : parsedType ft -> parsedType (named name ft).
Proof.
  intros H. destruct H; unfold named; cbn [Type_ ElementType ObjectFields
                                          ObjectOrder]; now constructor.
Qed.

Lemma Index_split (c : ascii) (s : string) :
  strings.Index s (String c "") <> (-1)%Z ->
  exists a b, s = a ++ String c b /\ occurs c a = false.
Proof.
  unfold strings.Index. generalize 0%Z.
  induction s as [|x s IH]; intros i; cbn [strings.index_from strings.HasPrefix].
  - congruence.
  - destruct (Ascii.eqb_spec x c) as [->|Hne].
    + intros _. exists "", s. now split.
    + cbn [andb]. intros H. destruct (IH _ H) as (a & b & -> & Ha).
      exists (String x a), b. split; [reflexivity|].
      cbn [occurs]. rewrite Ha, orb_false_r. now apply Ascii.eqb_neq.
Qed.

(** The name and the type text of a field pair. *)
Lemma field_pair (fieldPair : string) :
  strings.Index fieldPair ":" <> (-1)%Z ->
  exists a b,
    fieldPair = a ++ String ":" b /\ occurs ":" a = false
    /\ before fieldPair (strings.Index fieldPair ":") = a
    /\ after fieldPair (strings.Index fieldPair ":") = b.
Proof.
  intros H. destruct (Index_split ":" fieldPair H) as (a & b & -> & Ha).
  exists a, b. rewrite Index_first by exact Ha.
  unfold before, after. rewrite Nat2Z.id. repeat split; auto.
  - apply take_app_length.
  - replace (Z.to_nat (Z.of_nat (String.length a) + 1))
      with (String.length (a ++ ":")) by (rewrite length_app; cbn; lia).
    replace (a ++ String ":" b) with ((a ++ ":") ++ b)
      by (now rewrite append_assoc).
    apply skip_app_length.
Qed.

Lemma firstOccurrences_snoc names name :
  firstOccurrences (names ++ [name])%list
  = if existsb (String.eqb name) (firstOccurrences names)
    then firstOccurrences names
    else (firstOccurrences names ++ [name])%list.
Proof. unfold firstOccurrences. now rewrite fold_left_app. Qed.

Lemma existsb_eqb_In (k : string) (ks : list string) :
  existsb (String.eqb k) ks = true <-> In k ks.
Proof.
  rewrite existsb_exists. split.
  - intros (x & Hin & Hx). apply String.eqb_eq in Hx. now subst.
  - intros Hin. exists k. split; [exact Hin|apply String.eqb_refl].
Qed.

Lemma firstOccurrences_In names :
  forall k, In k (firstOccurrences names) <-> In k names.
Proof.
  induction names as [|name names IH] using rev_ind; intros k;
    [reflexivity|].
  rewrite firstOccurrences_snoc, in_app_iff.
  destruct (existsb _ _) eqn:E.
  - rewrite IH. apply existsb_eqb_In in E. apply IH in E.
    cbn [In]. split; [tauto|]. intros [H|[<-|[]]]; auto.
  - rewrite in_app_iff, IH. reflexivity.
Qed.

Lemma firstOccurrences_NoDup names : NoDup (firstOccurrences names).
Proof.
  induction names as [|name names IH] using rev_ind; [constructor|].
  rewrite firstOccurrences_snoc.
  destruct (existsb _ _) eqn:E; [exact IH|].
  apply NoDup_app; [exact IH|repeat constructor; intros []|].
  intros k Hk [<-|[]].
  apply existsb_eqb_In in Hk. congruence.
Qed.

Lemma parseFieldPairs_parsed (parse : string -> option (result FieldType)) :
  (forall s ft, parse s = Some (Ok ft) -> parsedType ft /\ Name ft = "") ->
  forall fieldPairs fields fieldOrder ft,
    parseFieldPairs parse fieldPairs fields fieldOrder = Some (Ok ft) ->
    keys fields = firstOccurrences fieldOrder ->
    (forall k t,
        In (k, t) fields ->
        parsedType t /\ Name t = k /\ tidy k /\ occurs ":" k = false) ->
    parsedType ft /\ Name ft = "".
Proof.
  intros Hparse.
  induction fieldPairs as [|fieldPair fieldPairs IH];
    intros fields fieldOrder ft; cbn [parseFieldPairs].
  - intros [= <-] Hkeys Hall. split; [now constructor|reflexivity].
  - destruct (Z.eqb_spec (strings.Index fieldPair ":") (-1)) as [|Hidx];
      [discriminate|].
    destruct (field_pair fieldPair Hidx) as (a & b & _ & Ha & -> & ->).
    destruct (parse (strings.TrimSpace b)) as [[t|e]|] eqn:Ep;
      try discriminate.
    destruct t as [ty elem fs order nm].
    intros H Hkeys Hall. apply (IH _ _ _ H).
    + rewrite keys_mset, firstOccurrences_snoc, Hkeys. reflexivity.
    + intros k t Hin. apply In_mset in Hin.
      destruct Hin as [[= -> ->]|Hin]; [|now apply Hall].
      destruct (Hparse _ _ Ep) as (Hp & _).
      split; [exact (parsedType_named (strings.TrimSpace a) _ Hp)|].
      split; [reflexivity|]. split; [apply TrimSpace_tidy|].
      now apply TrimSpace_occurs.
Qed.

Lemma parseTypeFuel_parsed fuel :
  forall typeStr ft,
    parseTypeFuel fuel typeStr = Some (Ok ft) ->
    parsedType ft /\ Name ft = "".
Proof.
  induction fuel as [|fuel IH]; intros typeStr ft; cbn [parseTypeFuel];
    [discriminate|].
  destruct (strings.HasSuffix (strings.TrimSpace typeStr) "[]").
  - destruct (parseTypeFuel fuel _) as [[e|err]|] eqn:E; try discriminate.
    intros [= <-]. destruct (IH _ _ E) as (He & Hn).
    split; [now constructor|reflexivity].
  - destruct (_ && _)%bool.
    + intros H. apply (parseFieldPairs_parsed _ IH _ _ _ _ H); [reflexivity|].
      intros k t [].
    + destruct (isBasicType (strings.TrimSpace typeStr)) eqn:Eb;
        [|discriminate].
      intros [= <-]. split; [now constructor|reflexivity].
Qed.

Lemma parseFieldPairs_errors (parse : string -> option (result FieldType)) :
  (forall s e, parse s = Some (Err e) ->
               (exists t, e = ErrUnknownType t)
               \/ (exists p, e = ErrInvalidObjectField p)) ->
  forall fieldPairs fields fieldOrder e,
    parseFieldPairs parse fieldPairs fields fieldOrder = Some (Err e) ->
    (exists t, e = ErrUnknownType t) \/ (exists p, e = ErrInvalidObjectField p).
Proof.
  intros Hparse.
  induction fieldPairs as [|fieldPair fieldPairs IH];
    intros fields fieldOrder e; cbn [parseFieldPairs]; [discriminate|].
  destruct (strings.Index fieldPair ":" =? -1)%Z.
  - intros [= <-]. right. eauto.
  - destruct (parse _) as [[t|e']|] eqn:Ep; try discriminate.
    + destruct t. apply IH.
    + intros [= <-]. now apply (Hparse _ _ Ep).
Qed.

Lemma parseTypeFuel_errors fuel :
  forall typeStr e,
    parseTypeFuel fuel typeStr = Some (Err e) ->
    (exists t, e = ErrUnknownType t) \/ (exists p, e = ErrInvalidObjectField p).
Proof.
  induction fuel as [|fuel IH]; intros typeStr e; cbn [parseTypeFuel];
    [discriminate|].
  destruct (strings.HasSuffix (strings.TrimSpace typeStr) "[]").
  - destruct (parseTypeFuel fuel _) as [[t|err]|] eqn:E; try discriminate.
    intros [= <-]. now apply (IH _ _ E).
  - destruct (_ && _)%bool.
    + apply parseFieldPairs_errors. exact IH.
    + destruct (isBasicType _); [discriminate|].
      intros [= <-]. left. eauto.
Qed.

Lemma parseType_parsed typeStr ft :
  parseType typeStr = Ok ft -> parsedType ft /\ Name ft = "".
Proof.
  intros H. pose proof (parseType_defined typeStr) as Hd. rewrite H in Hd.
  exact (parseTypeFuel_parsed _ _ _ Hd).
Qed.

End ParsedTypes.

(** X14.  Every type that [parseType] returns has the shape
    [parsedType] and no name of its own: its kind is one of the seven
    basic kinds, array or object; an array has an element type, which is
    of that shape; the map of an object holds exactly the names of its
    order, each trimmed and without a colon, and every field is of that
    shape and carries its name.  Every error of [parseType] is an
    unknown-type or an invalid-object-field error. *)
Theorem parseType_well_formed (typeStr : string) :
  (forall ft,
      parseType typeStr = Ok ft ->
      parsedType ft /\ Name ft = ""
      /\ (Type_ ft = "array" -> exists e, ElementType ft = Some e)
      /\ (forall k, In k (keys (ObjectFields ft)) <-> In k (ObjectOrder ft)))
  /\ (forall e,
         parseType typeStr = Err e ->
         (exists t, e = ErrUnknownType t)
         \/ (exists p, e = ErrInvalidObjectField p)).
Proof.
  pose proof (parseType_defined typeStr) as Hd.
  split.
  - intros ft H. rewrite H in Hd.
    destruct (parseTypeFuel_parsed _ _ _ Hd) as (Hp & Hn).
    split; [exact Hp|]. split; [exact Hn|]. split.
    + intros Hty. destruct Hp; cbn [Type_ ElementType] in *; eauto;
        subst; discriminate.
    + intros k.
      destruct Hp as [| |fields order name Hkeys _];
        cbn [ObjectFields ObjectOrder]; [tauto..|].
      rewrite Hkeys. apply firstOccurrences_In.
  - intros e H. rewrite H in Hd. exact (parseTypeFuel_errors _ _ _ Hd).
Qed.

(** ** Rendering a type and parsing it again *)

Section RenderFacts.
Import strings.

Lemma named_at ft n : Name ft = n -> named n ft = ft.
Proof. intros <-. now destruct ft. Qed.

Lemma HasPrefix_nil s : HasPrefix s "" = true.
Proof. now destruct s. Qed.

Lemma goodEnds_tidy s : goodEnds s -> tidy s.
Proof.
  intros (c0 & pre & cl & post & E & Er & Hl & Hr). apply tidy_by_ends.
  - intros c pre' E'. rewrite E in E'. now injection E' as <- _.
  - intros c post' E'. rewrite Er in E'. now injection E' as <- _.
Qed.

Lemma basic_cases t :
  isBasicType t = true ->
  In t ["string"; "int"; "int32"; "int64"; "float32"; "float64"; "bool"].
Proof.
  unfold isBasicType. rewrite existsb_exists.
  intros (x & Hin & Hx). apply String.eqb_eq in Hx. now subst.
Qed.

Lemma depthAfter_plain s :
  occurs "{" s = false -> occurs "}" s = false -> occurs "|" s = false ->
  forall d, depthAfter s d = Some d.
Proof.
  induction s as [|ch s IH]; cbn [occurs depthAfter]; [reflexivity|].
  intros H1 H2 H3 d.
  apply orb_false_elim in H1, H2, H3.
  destruct H1 as (-> & H1), H2 as (-> & H2), H3 as (-> & H3).
  now apply IH.
Qed.

(** Two maps with the same keys in the same order and the same value
    at every key are the same list. *)
Lemma assoc_ext {V : Type} (m : list (string * V)) :
  forall m',
    NoDup (keys m) -> keys m = keys m' ->
    (forall k, mget m k = mget m' k) -> m = m'.
Proof.
  induction m as [|[k v] m IH]; intros [|[k' v'] m'] Hnd Hk Hget;
    try discriminate; [reflexivity|].
  cbn [keys map fst] in Hk. injection Hk as <- Hk.
  pose proof (Hget k) as Hv. cbn [mget] in Hv. rewrite String.eqb_refl in Hv.
  injection Hv as <-.
  apply NoDup_cons_iff in Hnd. destruct Hnd as (Hnotin & Hnd).
  f_equal. apply IH; [exact Hnd|exact Hk|].
  intros x. specialize (Hget x). cbn [mget] in Hget.
  destruct (String.eqb_spec k x) as [E|_]; [|exact Hget].
  subst x. cbn [fst] in Hnotin. fold (keys m) in Hnotin.
  assert (Hnone : mget m k = None) by now apply mget_None_iff.
  assert (Hnone' : mget m' k = None).
  { apply mget_None_iff. unfold keys in *. now rewrite <- Hk. }
  now rewrite Hnone, Hnone'.
Qed.

(** What the rendering of a basic type is to the parser. *)
Lemma basic_rendering t :
  isBasicType t = true ->
  goodEnds t /\ wellFormed t
  /\ (forall d, depthAfter t d = Some d)
  /\ HasSuffix t "[]" = false
  /\ HasPrefix t "{" = false.
Proof.
  intros H. apply basic_cases in H. cbn [In] in H.
  repeat destruct H as [<-|H]; try contradiction;
    (split; [do 4 eexists; repeat split; reflexivity|]);
    (split; [vm_compute; reflexivity|]);
    (split; [intros d; now apply depthAfter_plain|]);
    split; reflexivity.
Qed.

Lemma fieldNames_parts (Q : string -> Prop) ty elem fields order name :
  Forall Q (fieldNames (mkFieldType ty elem fields order name)) ->
  (forall e, elem = Some e -> Forall Q (fieldNames e))
  /\ (forall k t, In (k, t) fields -> Q k /\ Forall Q (fieldNames t)).
Proof.
  cbn [fieldNames]. intros H. apply Forall_app in H. destruct H as (He & Hf).
  split; [now intros e ->|].
  clear He. induction fields as [|[k0 t0] fields IH]; intros k t []; subst.
  - injection H as -> ->. apply Forall_cons_iff in Hf.
    destruct Hf as (Hk & Hf). apply Forall_app in Hf. now split.
  - apply Forall_cons_iff in Hf. destruct Hf as (_ & Hf).
    apply Forall_app in Hf. destruct Hf as (_ & Hf). now apply IH.
Qed.

Lemma depthAfter_Join (pieces : list string) (d : Z) :
  d <> 0%Z ->
  Forall (fun p => depthAfter p d = Some d) pieces ->
  depthAfter (Join pieces "|") d = Some d.
Proof.
  intros Hd. induction pieces as [|x [|y pieces] IH]; intros Hall.
  - reflexivity.
  - now apply Forall_cons_iff in Hall.
  - apply Forall_cons_iff in Hall. destruct Hall as (Hx & Hall).
    change (Join (x :: y :: pieces) "|")
      with (x ++ String "|" (Join (y :: pieces) "|")).
    rewrite (depthAfter_app x _ d d Hx). cbn [depthAfter Ascii.eqb Bool.eqb].
    apply Z.eqb_neq in Hd. rewrite Hd. now apply IH.
Qed.

Lemma asciiCount_Join_In (pieces : list string) (p : string) :
  In p pieces -> (asciiCount p <= asciiCount (Join pieces "|"))%nat.
Proof.
  induction pieces as [|x [|y pieces] IH]; intros Hin.
  - contradiction.
  - destruct Hin as [<-|[]]. reflexivity.
  - change (Join (x :: y :: pieces) "|")
      with (x ++ String "|" (Join (y :: pieces) "|")).
    rewrite asciiCount_app. cbn [asciiCount].
    destruct Hin as [<-|Hin]; [lia|]. specialize (IH Hin). lia.
Qed.

Section Folded.
Variable value : string -> FieldType.

Lemma keys_folded names :
  forall acc,
    keys (fold_left (fun m n => mset n (value n) m) names acc)
    = fold_left (fun ks k => if existsb (String.eqb k) ks then ks
                             else (ks ++ [k])%list) names (keys acc).
Proof.
  induction names as [|n names IH]; intros acc; [reflexivity|].
  cbn [fold_left]. now rewrite IH, keys_mset.
Qed.

Lemma mget_folded names :
  forall acc k,
    mget (fold_left (fun m n => mset n (value n) m) names acc) k
    = if existsb (String.eqb k) names then Some (value k) else mget acc k.
Proof.
  induction names as [|n names IH]; intros acc k; [reflexivity|].
  cbn [fold_left existsb]. rewrite IH.
  destruct (existsb (String.eqb k) names); [now rewrite orb_true_r|].
  rewrite orb_false_r.
  destruct (String.eqb_spec k n) as [->|Hne].
  - now rewrite mget_mset_eq.
  - rewrite mget_mset_ne by congruence. reflexivity.
Qed.

End Folded.

(** The field pairs of a rendered object type are parsed back into the
    fields that they render. *)
Lemma pairs_back (parse : string -> option (result FieldType))
      (value : string -> FieldType) (names : list string) :
  (forall n,
      In n names ->
      Name (value n) = n /\ tidy n /\ occurs ":" n = false
      /\ tidy (fieldTypeToString (value n))
      /\ parse (fieldTypeToString (value n)) = Some (Ok (named "" (value n)))) ->
  forall fields fieldOrder,
    parseFieldPairs parse
      (map (fun n => n ++ ":" ++ fieldTypeToString (value n)) names)
      fields fieldOrder
    = Some (Ok (mkFieldType "object" None
                  (fold_left (fun m n => mset n (value n) m) names fields)
                  (fieldOrder ++ names) "")).
Proof.
  induction names as [|n names IH]; intros Hall fields fieldOrder.
  - cbn [map parseFieldPairs fold_left]. now rewrite app_nil_r.
  - destruct (Hall n (or_introl eq_refl)) as (Hn & Ht & Hc & Hr & Hp).
    cbn [map parseFieldPairs fold_left].
    change (n ++ ":" ++ fieldTypeToString (value n))
      with (n ++ String ":" (fieldTypeToString (value n))).
    rewrite (Index_first ":" n _ Hc).
    replace (Z.of_nat (String.length n) =? -1)%Z with false
      by (symmetry; apply Z.eqb_neq; lia).
    unfold before, after. rewrite Nat2Z.id, take_app_length.
    replace (Z.to_nat (Z.of_nat (String.length n) + 1))
      with (String.length (n ++ ":")) by (rewrite length_app; cbn; lia).
    replace (n ++ String ":" (fieldTypeToString (value n)))
      with ((n ++ ":") ++ fieldTypeToString (value n))
      by (now rewrite append_assoc).
    rewrite skip_app_length.
    unfold tidy in Ht, Hr. rewrite Ht, Hr, Hp.
    unfold named at 1. cbn [Type_ ElementType ObjectFields ObjectOrder].
    change (mkFieldType (Type_ (value n)) (ElementType (value n))
              (ObjectFields (value n)) (ObjectOrder (value n)) n)
      with (named n (value n)).
    rewrite (named_at _ _ Hn), IH.
    + now rewrite <- app_assoc.
    + intros k Hk. apply Hall. now right.
Qed.

Lemma rev_wrapped (o c : ascii) (x : string) :
  rev (String o (x ++ String c "")) = String c (rev x ++ String o "").
Proof. rewrite rev_String, rev_app. reflexivity. Qed.

Lemma length_wrapped (o c : ascii) (x : string) :
  slice (String o (x ++ String c ""))
        1 (String.length (String o (x ++ String c "")) - 1) = x.
Proof.
  unfold slice. cbn [skip String.length]. rewrite length_app. cbn [String.length].
  replace (S (String.length x + 1) - 1 - 1)%nat with (String.length x) by lia.
  apply take_app_length.
Qed.

(** The fields of a parsed object type, in the order of its rendering. *)
Lemma parsed_fields fields order :
  keys fields = firstOccurrences order ->
  match order with
  | _ :: _ => order
  | [] => sortNames (keys fields)
  end = order
  /\ forall n, In n order ->
                In (n, fieldAt fields n) fields
                /\ mget fields n = Some (fieldAt fields n).
Proof.
  intros Hkeys. split.
  - destruct order; [|reflexivity]. now rewrite Hkeys.
  - intros n Hin. apply firstOccurrences_In in Hin. rewrite <- Hkeys in Hin.
    unfold fieldAt. destruct (mget fields n) as [t|] eqn:E.
    + split; [now apply mget_In|reflexivity].
    + now apply mget_None_iff in E.
Qed.

(** A rendering has a line break only where a field name has one. *)
Lemma render_one_line (ft : FieldType) :
  parsedType ft ->
  Forall (fun k => occurs newline k = false) (fieldNames ft) ->
  occurs newline (fieldTypeToString ft) = false.
Proof.
  intros H. induction H as [t name Hb|e name He IH Hn|fields order name Hkeys Hall]
    using parsedType_nested_ind; intros Hnames.
  - apply basic_cases in Hb. cbn [In] in Hb.
    repeat destruct Hb as [<-|Hb]; try contradiction; reflexivity.
  - destruct (fieldNames_parts _ _ _ _ _ _ Hnames) as (Hne & _).
    change (fieldTypeToString (mkFieldType "array" (Some e) [] [] name))
      with (fieldTypeToString e ++ String "[" "]").
    rewrite occurs_app, (IH (Hne e eq_refl)). reflexivity.
  - destruct (fieldNames_parts _ _ _ _ _ _ Hnames) as (_ & Hnf).
    destruct (parsed_fields fields order Hkeys) as (Horder & Hfield).
    rewrite fieldTypeToString_object, Horder.
    change ("{" ++ ?x) with (String "{" x). cbn [occurs Ascii.eqb Bool.eqb orb].
    rewrite occurs_app. cbn [occurs Ascii.eqb Bool.eqb orb].
    rewrite orb_false_r.
    apply (Join_occurs newline); [reflexivity|].
    apply Forall_map, Forall_forall. intros n Hin.
    destruct (Hfield n Hin) as (Hf & _).
    destruct (Hall _ _ Hf) as ((_ & IH) & _).
    destruct (Hnf _ _ Hf) as (Hk & Ht).
    rewrite !occurs_app, Hk, (IH Ht). reflexivity.
Qed.

(** The rendering of a parsed type with bare field names: what the
    parser sees of it, and that it is parsed back. *)
Lemma render_facts (ft : FieldType) :
  parsedType ft ->
  Forall bareName (fieldNames ft) ->
  goodEnds (fieldTypeToString ft)
  /\ wellFormed (fieldTypeToString ft)
  /\ (forall d, (0 <= d)%Z -> depthAfter (fieldTypeToString ft) d = Some d)
  /\ (forall fuel,
         (asciiCount (fieldTypeToString ft) < fuel)%nat ->
         parseTypeFuel fuel (fieldTypeToString ft) = Some (Ok (named "" ft))).
Proof.
  intros H. induction H as [t name Hb|e name He IH Hn|fields order name Hkeys Hall]
    using parsedType_nested_ind; intros Hbare.
  - (* a basic type *)
    assert (Hr : fieldTypeToString (mkFieldType t None [] [] name) = t).
    { apply basic_cases in Hb. cbn [In] in Hb.
      repeat destruct Hb as [<-|Hb]; try contradiction; reflexivity. }
    rewrite Hr.
    destruct (basic_rendering t Hb) as (Hends & Hwf & Hdepth & Hsuf & Hpre).
    split; [exact Hends|]. split; [exact Hwf|].
    split; [intros d _; apply Hdepth|].
    intros [|fuel] Hlt; [lia|]. cbn [parseTypeFuel].
    apply goodEnds_tidy in Hends. unfold tidy in Hends.
    now rewrite Hends, Hsuf, Hpre, Hb.
  - (* an array type *)
    destruct (fieldNames_parts _ _ _ _ _ _ Hbare) as (Hbe & _).
    destruct (IH (Hbe e eq_refl)) as (Hends & Hwf & Hdepth & Hparse).
    set (r := fieldTypeToString e) in *.
    assert (Hr : fieldTypeToString (mkFieldType "array" (Some e) [] [] name)
                 = r ++ String "[" "]") by reflexivity.
    rewrite Hr.
    destruct Hends as (c0 & pre & cl & post & E & Er & Hl & _).
    assert (Hrev : rev (r ++ String "[" "]") = String "]" (String "[" (rev r))).
    { now rewrite rev_app. }
    assert (Hgood : goodEnds (r ++ String "[" "]")).
    { exists c0, (pre ++ String "[" "]"), "]"%char, (String "[" (rev r)).
      rewrite E at 1. repeat split; auto. }
    split; [exact Hgood|]. split; [|split].
    + unfold wellFormed in *.
      now rewrite (scrub_app_ascii r "[" "]" eq_refl), Hwf.
    + intros d Hd. rewrite (depthAfter_app r _ d d (Hdepth d Hd)). reflexivity.
    + intros [|fuel] Hlt; [lia|]. cbn [parseTypeFuel].
      apply goodEnds_tidy in Hgood. unfold tidy in Hgood. rewrite Hgood.
      assert (Hsuf : HasSuffix (r ++ String "[" "]") "[]" = true).
      { unfold HasSuffix. rewrite Hrev. cbn. apply HasPrefix_nil. }
      rewrite Hsuf. unfold TrimSuffix. rewrite Hsuf.
      rewrite length_app. cbn [String.length].
      replace (String.length r + 2 - 2)%nat with (String.length r) by lia.
      rewrite take_app_length.
      rewrite asciiCount_app in Hlt.
      change (asciiCount (String "[" "]")) with 2%nat in Hlt.
      rewrite (Hparse fuel) by lia.
      now rewrite (named_at e "" Hn).
  - (* an object type *)
    destruct (fieldNames_parts _ _ _ _ _ _ Hbare) as (_ & Hbf).
    assert (Hnd : NoDup (keys fields)).
    { rewrite Hkeys. apply firstOccurrences_NoDup. }
    set (value := fieldAt fields).
    set (piece := fun n => n ++ ":" ++ fieldTypeToString (value n)).
    assert (Hfield : forall n,
               In n order ->
               In (n, value n) fields /\ mget fields n = Some (value n)).
    { intros n Hin. apply firstOccurrences_In in Hin. rewrite <- Hkeys in Hin.
      unfold value, fieldAt.
      destruct (mget fields n) as [t|] eqn:E.
      - split; [now apply mget_In|reflexivity].
      - now apply mget_None_iff in E. }
    assert (Horder : match order with
                     | _ :: _ => order
                     | [] => sortNames (keys fields)
                     end = order).
    { destruct order; [|reflexivity]. now rewrite Hkeys. }
    set (J := Join (map piece order) "|").
    assert (Hr : fieldTypeToString (mkFieldType "object" None fields order name)
                 = String "{" (J ++ String "}" "")).
    { rewrite fieldTypeToString_object, Horder. reflexivity. }
    rewrite Hr.
    assert (Hpiece : forall n,
               In n order ->
               wellFormed (piece n)
               /\ (forall d, (0 <= d)%Z -> depthAfter (piece n) d = Some d)
               /\ piece n <> ""
               /\ (asciiCount (fieldTypeToString (value n))
                   < asciiCount (piece n))%nat).
    { intros n Hin. destruct (Hfield n Hin) as (Hf & _).
      destruct (Hall _ _ Hf) as ((_ & IH) & _).
      destruct (Hbf _ _ Hf) as ((Hw & Ho & Hc & Hp) & Hbt).
      destruct (IH Hbt) as (_ & Hwf & Hdepth & _).
      unfold piece.
      change (n ++ ":" ++ fieldTypeToString (value n))
        with (n ++ String ":" (fieldTypeToString (value n))).
      split; [|split; [|split]].
      - unfold wellFormed in *.
        now rewrite (scrub_app_ascii n ":" _ eq_refl), Hw, Hwf.
      - intros d Hd.
        rewrite (depthAfter_app n _ d d (depthAfter_plain n Ho Hc Hp d)).
        cbn [depthAfter Ascii.eqb Bool.eqb]. now apply Hdepth.
      - destruct n; discriminate.
      - rewrite asciiCount_app. cbn [asciiCount].
        change (utf8.within 0 127 ":"%char) with true. cbv iota. lia. }
    assert (Hgood : goodEnds (String "{" (J ++ String "}" ""))).
    { exists "{"%char, (J ++ String "}" ""), "}"%char, (rev J ++ String "{" "").
      rewrite rev_wrapped. repeat split; reflexivity. }
    assert (Hpieces : map scrub (map piece order) = map piece order).
    { apply map_scrub_wellFormed, Forall_map, Forall_forall.
      intros n Hin. now apply Hpiece. }
    split; [exact Hgood|]. split; [|split].
    + unfold wellFormed.
      rewrite (scrub_ascii "{" _ eq_refl), (scrub_app_ascii J "}" "" eq_refl).
      unfold J. now rewrite (scrub_Join _ "|" eq_refl), Hpieces.
    + intros d Hd. cbn [depthAfter Ascii.eqb Bool.eqb].
      rewrite (depthAfter_app J _ (d + 1) (d + 1)).
      * cbn [depthAfter Ascii.eqb Bool.eqb]. f_equal. lia.
      * apply depthAfter_Join; [lia|]. apply Forall_map, Forall_forall.
        intros n Hin. apply Hpiece; [exact Hin|lia].
    + intros [|fuel] Hlt; [lia|]. cbn [parseTypeFuel].
      pose proof (goodEnds_tidy _ Hgood) as Htidy. unfold tidy in Htidy.
      rewrite Htidy.
      assert (Hsuf : HasSuffix (String "{" (J ++ String "}" "")) "[]" = false).
      { unfold HasSuffix. rewrite rev_wrapped. reflexivity. }
      assert (Hclose : HasSuffix (String "{" (J ++ String "}" "")) "}" = true).
      { unfold HasSuffix. rewrite rev_wrapped. cbn. apply HasPrefix_nil. }
      assert (Hopen : HasPrefix (String "{" (J ++ String "}" "")) "{" = true).
      { cbn. apply HasPrefix_nil. }
      rewrite Hsuf, Hclose, Hopen. cbn [andb].
      rewrite length_wrapped.
      assert (Hsplit : splitObjectFields J = map piece order).
      { unfold J. rewrite splitObjectFields_Join, Hpieces; [reflexivity| |].
        - apply Forall_map, Forall_forall. intros n Hin.
          apply Hpiece; [exact Hin|lia].
        - clear - Hpiece. induction order as [|n [|n' order] IH].
          + discriminate.
          + apply Hpiece. now left.
          + apply IH. intros k Hk. apply Hpiece. now right. }
      rewrite Hsplit.
      rewrite (pairs_back (parseTypeFuel fuel) value order).
      * cbn [app]. unfold named. cbn [Type_ ElementType ObjectFields ObjectOrder].
        do 2 f_equal. f_equal. symmetry. apply assoc_ext; [exact Hnd| |].
        -- now rewrite (keys_folded value order []), Hkeys.
        -- intros k. rewrite (mget_folded value order [] k).
           destruct (existsb (String.eqb k) order) eqn:E.
           ++ apply existsb_eqb_In in E. now apply Hfield.
           ++ cbn [mget]. apply mget_None_iff. rewrite Hkeys.
              intros Hin. apply (proj1 (firstOccurrences_In _ _)) in Hin.
              apply (proj2 (existsb_eqb_In _ _)) in Hin. congruence.
      * intros n Hin. destruct (Hfield n Hin) as (Hf & _).
        destruct (Hall _ _ Hf) as ((_ & IH) & Hname & Htn & Hcn).
        destruct (Hbf _ _ Hf) as (_ & Hbt).
        destruct (IH Hbt) as (Hends & _ & _ & Hparse).
        split; [exact Hname|]. split; [exact Htn|]. split; [exact Hcn|].
        split; [now apply goodEnds_tidy|].
        apply Hparse.
        destruct (Hpiece n Hin) as (_ & _ & _ & Hcount).
        pose proof (asciiCount_Join_In (map piece order) (piece n)
                      (in_map piece order n Hin)) as Hle.
        fold J in Hle. cbn [asciiCount] in Hlt.
        rewrite asciiCount_app in Hlt. cbn [asciiCount] in Hlt.
        change (utf8.within 0 127 "{"%char) with true in Hlt.
        change (utf8.within 0 127 "}"%char) with true in Hlt.
        cbv iota in Hlt. lia.
Qed.

Lemma parsed_renders_back (ft : FieldType) :
  parsedType ft -> Name ft = "" ->
  Forall bareName (fieldNames ft) ->
  parseType (fieldTypeToString ft) = Ok ft
  /\ goodEnds (fieldTypeToString ft)
  /\ wellFormed (fieldTypeToString ft).
Proof.
  intros Hshape Hname Hbare.
  destruct (render_facts ft Hshape Hbare) as (Hends & Hwf & _ & Hback).
  split; [|now split].
  unfold parseType.
  rewrite Hback by (pose proof (asciiCount_le (fieldTypeToString ft)); lia).
  now rewrite (named_at ft "" Hname).
Qed.

End RenderFacts.

(** X15.  Rendering a parsed type and parsing the rendering gives the type
    back: for every type that [parseType] returns whose field names, at
    every depth, are well-formed UTF-8 and hold no brace and no pipe,
    [parseType] after [fieldTypeToString] is the identity.  The
    rendering is the canonical text of the type: it has no white space
    around it and is itself well-formed. *)
Theorem parseType_renders_back (typeStr : string) (ft : FieldType) :
  parseType typeStr = Ok ft ->
  Forall bareName (fieldNames ft) ->
  parseType (fieldTypeToString ft) = Ok ft
  /\ tidy (fieldTypeToString ft)
  /\ wellFormed (fieldTypeToString ft).
Proof.
  intros Hparse Hbare.
  destruct (parseType_parsed _ _ Hparse) as (Hshape & Hname).
  destruct (parsed_renders_back ft Hshape Hname Hbare) as (Hback & Hends & Hwf).
  split; [exact Hback|]. split; [now apply goodEnds_tidy|exact Hwf].
Qed.

(** ** Rendering a schema and parsing it again *)

Section NestedNames.
Import strings.

Lemma occurs_take c n : forall s, occurs c s = false -> occurs c (take n s) = false.
Proof.
  induction n as [|n IH]; intros [|a s]; cbn [take occurs]; try reflexivity.
  intros H. apply orb_false_elim in H. destruct H as (-> & H). now apply IH.
Qed.

(** Writing the runes of a text back brings no line break in. *)
Lemma oneLine_scrub s : oneLine s -> oneLine (scrub s).
Proof.
  unfold scrub, oneLine.
  apply (runes_ind (fun s rs =>
    occurs newline s = false -> occurs newline (String.concat "" rs) = false)).
  - reflexivity.
  - intros c s' _ IH H. rewrite concat_cons. cbn [append occurs] in *.
    apply orb_false_elim in H. destruct H as (-> & H). now apply IH.
  - intros r s' _ _ _ IH H. rewrite concat_cons, occurs_app.
    rewrite occurs_app in H. apply orb_false_elim in H.
    destruct H as (-> & H). now apply IH.
  - intros c s' _ _ IH H. rewrite concat_cons, occurs_app.
    cbn [occurs] in H. apply orb_false_elim in H. destruct H as (_ & H).
    rewrite (IH H). reflexivity.
Qed.

Lemma splitBytes_occurs (c : ascii) objectStr :
  forall depth current fields,
    Forall (fun p => occurs c p = false) fields ->
    occurs c current = false -> occurs c objectStr = false ->
    Forall (fun p => occurs c p = false)
           (splitBytes objectStr depth current fields).
Proof.
  induction objectStr as [|ch rest IH]; intros depth current fields Hf Hc Hs.
  - cbn [splitBytes]. destruct (0 <? _)%nat; [|exact Hf].
    apply Forall_app. split; [exact Hf|]. now repeat constructor.
  - cbn [occurs] in Hs. apply orb_false_elim in Hs. destruct Hs as (Hch & Hs).
    assert (Hnext : occurs c (current ++ String ch "") = false).
    { rewrite occurs_app, Hc. cbn [occurs]. now rewrite Hch. }
    assert (Hcut : Forall (fun p => occurs c p = false)
                          (fields ++ [current])%list).
    { apply Forall_app. split; [exact Hf|]. now repeat constructor. }
    cbn [splitBytes].
    destruct (Ascii.eqb ch "{"); [now apply IH|].
    destruct (Ascii.eqb ch "}"); [now apply IH|].
    destruct (Ascii.eqb ch "|"); [|now apply IH].
    destruct (depth =? 0)%Z; now apply IH.
Qed.

Lemma fieldNames_fields (Q : string -> Prop) ty fields order name :
  (forall k t, In (k, t) fields -> Q k /\ Forall Q (fieldNames t)) ->
  Forall Q (fieldNames (mkFieldType ty None fields order name)).
Proof.
  cbn [fieldNames app].
  induction fields as [|[k t] fields IH]; intros H; [constructor|].
  destruct (H k t (or_introl eq_refl)) as (Hk & Ht).
  constructor; [exact Hk|]. apply Forall_app. split; [exact Ht|].
  apply IH. intros k' t' Hin. apply H. now right.
Qed.

Lemma parseFieldPairs_names (parse : string -> option (result FieldType)) :
  (forall s ft, parse s = Some (Ok ft) -> oneLine s ->
                Forall oneLine (fieldNames ft)) ->
  forall fieldPairs fields fieldOrder ft,
    parseFieldPairs parse fieldPairs fields fieldOrder = Some (Ok ft) ->
    Forall oneLine fieldPairs ->
    (forall k t, In (k, t) fields ->
                 oneLine k /\ Forall oneLine (fieldNames t)) ->
    Forall oneLine (fieldNames ft).
Proof.
  intros Hparse.
  induction fieldPairs as [|fieldPair fieldPairs IH];
    intros fields fieldOrder ft; cbn [parseFieldPairs].
  - intros [= <-] _ Hall. now apply fieldNames_fields.
  - destruct (Z.eqb_spec (Index fieldPair ":") (-1)) as [|Hidx];
      [discriminate|].
    destruct (field_pair fieldPair Hidx) as (a & b & Eab & _ & -> & ->).
    destruct (parse (TrimSpace b)) as [[t|e]|] eqn:Ep; try discriminate.
    destruct t as [ty elem fs order nm].
    intros H Hp Hall. apply Forall_cons_iff in Hp. destruct Hp as (Hpair & Hp).
    apply (IH _ _ _ H Hp).
    intros k t Hin. apply In_mset in Hin.
    destruct Hin as [[= -> ->]|Hin]; [|now apply Hall].
    unfold oneLine in Hpair. rewrite Eab, occurs_app in Hpair.
    apply orb_false_elim in Hpair. destruct Hpair as (Ha & Hb).
    cbn [occurs] in Hb. apply orb_false_elim in Hb. destruct Hb as (_ & Hb).
    split; [now apply TrimSpace_occurs|].
    apply (Hparse _ _ Ep). now apply TrimSpace_occurs.
Qed.

Lemma parseTypeFuel_names fuel :
  forall typeStr ft,
    parseTypeFuel fuel typeStr = Some (Ok ft) -> oneLine typeStr ->
    Forall oneLine (fieldNames ft).
Proof.
  induction fuel as [|fuel IH]; intros typeStr ft; cbn [parseTypeFuel];
    [discriminate|].
  intros H Hnl. pose proof (TrimSpace_occurs _ _ Hnl) as Ht. revert H.
  destruct (HasSuffix (TrimSpace typeStr) "[]") eqn:Es.
  - destruct (parseTypeFuel fuel _) as [[e|err]|] eqn:E; try discriminate.
    intros [= <-]. cbn [fieldNames]. rewrite app_nil_r. apply (IH _ _ E).
    unfold TrimSuffix. rewrite Es. now apply occurs_take.
  - destruct (_ && _)%bool.
    + intros H. apply (parseFieldPairs_names _ IH _ _ _ _ H).
      * rewrite splitObjectFields_bytes.
        apply splitBytes_occurs; [constructor|reflexivity|].
        apply oneLine_scrub. unfold slice. apply occurs_take.
        now apply occurs_skip.
      * intros k t [].
    + destruct (isBasicType _); [|discriminate]. intros [= <-]. constructor.
Qed.

Lemma parseType_names typeStr ft :
  parseType typeStr = Ok ft -> oneLine typeStr ->
  Forall oneLine (fieldNames ft).
Proof.
  intros H. pose proof (parseType_defined typeStr) as Hd. rewrite H in Hd.
  exact (parseTypeFuel_names _ _ _ Hd).
Qed.

(** The name of a line that opens with no comment sign opens with
    none. *)
Lemma name_no_comment (line a b : string) :
  tidy line -> line = a ++ String ":" b ->
  HasPrefix line "#" = false -> HasPrefix (TrimSpace a) "#" = false.
Proof.
  intros Ht -> Hline. apply tidy_ends in Ht. destruct Ht as (Hl & _).
  assert (Ha : dropRune spaceRunes a = None).
  { rewrite dropRune_None in *. intros r Hin.
    destruct (HasPrefix a r) eqn:E; [|reflexivity].
    rewrite <- (Hl r Hin). symmetry. now apply HasPrefix_app. }
  unfold TrimSpace, TrimLeftSpace. rewrite (trimLeft_fixed _ _ _ Ha).
  unfold TrimRightSpace.
  destruct (trimLeft_suffix (String.length a) (map rev spaceRunes) (rev a))
    as (z & Hz).
  set (t := trimLeft _ _ _) in *.
  destruct (HasPrefix (rev t) "#") eqn:E; [|reflexivity].
  rewrite <- Hline. symmetry.
  rewrite <- (rev_rev a), Hz, rev_app, append_assoc.
  now apply HasPrefix_app.
Qed.

End NestedNames.

Section SchemaLines.
Import strings.

Lemma Split_no_sep (c : ascii) (s : string) :
  Forall (fun l => occurs c l = false) (Split s c).
Proof.
  induction s as [|a s IH]; cbn [Split]; [repeat constructor|].
  destruct (Ascii.eqb_spec a c) as [->|Hne].
  - constructor; [reflexivity|exact IH].
  - destruct (Split s c) as [|x xs]; [repeat constructor; cbn|].
    + now rewrite (proj2 (Ascii.eqb_neq a c) Hne).
    + apply Forall_cons_iff in IH. destruct IH as (Hx & Hxs).
      constructor; [|exact Hxs]. cbn [occurs].
      now rewrite (proj2 (Ascii.eqb_neq a c) Hne), Hx.
Qed.

(** The schemas that [parseSchema] builds. *)
Lemma parseSchemaLines_parsed lines :
  forall s0 s,
    parseSchemaLines lines s0 = Ok s ->
    Forall oneLine lines ->
    parsedSchema s0 -> parsedSchema s.
Proof.
  induction lines as [|line lines IH]; intros s0 s; cbn [parseSchemaLines].
  - now intros [= <-].
  - intros H Hnl Hs0. apply Forall_cons_iff in Hnl. destruct Hnl as (Hl & Hnl).
    destruct (String.eqb (TrimSpace line) "" || HasPrefix (TrimSpace line) "#")%bool
      eqn:Eskip; [now apply (IH _ _ H)|].
    apply orb_false_elim in Eskip. destruct Eskip as (_ & Hcomment).
    destruct (Z.eqb_spec (Index (TrimSpace line) ":") (-1)) as [|Hidx];
      [now apply (IH _ _ H)|].
    destruct (field_pair _ Hidx) as (a & b & Eab & Ha & Eb & Ea).
    rewrite Eb, Ea in H.
    destruct (parseType (TrimSpace b)) as [ft|e] eqn:Ep; [|discriminate].
    apply (IH _ _ H Hnl). destruct Hs0 as (Hkeys & Hall).
    assert (Hline : occurs newline (a ++ String ":" b) = false).
    { rewrite <- Eab. now apply TrimSpace_occurs. }
    rewrite occurs_app in Hline. apply orb_false_elim in Hline.
    destruct Hline as (Hna & Hnb). cbn [occurs] in Hnb.
    apply orb_false_elim in Hnb. destruct Hnb as (_ & Hnb).
    split; cbn [Fields FieldOrder].
    + now rewrite keys_mset, firstOccurrences_snoc, Hkeys.
    + intros k t Hin. apply In_mset in Hin.
      destruct Hin as [[= -> ->]|Hin]; [|now apply Hall].
      destruct (parseType_parsed _ _ Ep) as (Hp & Hn).
      split; [exact Hp|]. split; [exact Hn|]. split.
      * split; [exact (name_no_comment _ a b (TrimSpace_tidy line) Eab Hcomment)|].
        split; [apply TrimSpace_tidy|].
        split; [now apply TrimSpace_occurs|now apply TrimSpace_occurs].
      * apply (parseType_names _ _ Ep). now apply TrimSpace_occurs.
Qed.

Lemma parseSchema_parsed metaContent s :
  parseSchema metaContent = Ok s -> parsedSchema s.
Proof.
  unfold parseSchema. intros H.
  apply (parseSchemaLines_parsed _ _ _ H (Split_no_sep _ _)).
  split; [reflexivity|]. intros k ft [].
Qed.

End SchemaLines.

Section SchemaText.
Import strings.

Lemma colon_in_no_rune :
  leads ":" spaceRunes = false
  /\ forall r, In r spaceRunes -> occurs ":" (skip 1 r) = false.
Proof.
  split; [reflexivity|].
  assert (H : forallb (fun r => negb (occurs ":" (skip 1 r))) spaceRunes = true)
    by (vm_compute; reflexivity).
  rewrite forallb_forall in H. intros r Hin.
  specialize (H r Hin). now rewrite negb_true_iff in H.
Qed.

(** The text of a line of the meta section, without its indentation. *)
Lemma declaration_tidy (n r w : string) :
  tidy n -> goodEnds r ->
  dropRune spaceRunes (n ++ String ":" w) = None
  /\ tidy (n ++ String ":" (String " " r)).
Proof.
  intros Hn Hr.
  assert (Hleft : forall w', dropRune spaceRunes (n ++ String ":" w') = None).
  { intros w'. destruct n as [|c n].
    - apply dropRune_lead. reflexivity.
    - apply tidy_ends in Hn. destruct Hn as (Hn & _).
      apply dropRune_app_None; [discriminate|exact Hn|].
      apply colon_in_no_rune. }
  split; [apply Hleft|]. apply tidy_ends. split; [apply Hleft|].
  destruct Hr as (c0 & pre & cl & post & _ & Er & _ & Hcl).
  replace (n ++ String ":" (String " " r)) with ((n ++ ": ") ++ r)
    by (now rewrite append_assoc).
  rewrite rev_app, Er. now apply dropRune_lead.
Qed.

Lemma TrimSpace_indented (y : string) : TrimSpace ("    " ++ y) = TrimSpace y.
Proof.
  unfold TrimSpace, TrimLeftSpace. cbn [append String.length].
  do 4 (cbn [trimLeft]; rewrite dropRune_space). reflexivity.
Qed.

(** Trimming a text that ends with a line break takes that line break
    away and no more, when the text has no white space around it
    otherwise. *)
Lemma TrimSpace_text (x : string) :
  dropRune spaceRunes (x ++ nl) = None ->
  dropRune (map rev spaceRunes) (rev x) = None ->
  TrimSpace (x ++ nl) = x.
Proof.
  intros Hl Hr. unfold TrimSpace, TrimLeftSpace, TrimRightSpace.
  rewrite (trimLeft_fixed _ _ _ Hl), rev_app.
  change (rev nl) with nl. rewrite length_app.
  change (String.length nl) with 1%nat. rewrite Nat.add_1_r.
  change (nl ++ rev x) with (String newline (rev x)).
  cbn [trimLeft]. rewrite dropRune_newline.
  rewrite (trimLeft_fixed _ _ _ Hr). apply rev_rev.
Qed.

Lemma concat_unlines {A : Type} (f : A -> string) (l : list A) :
  String.concat "" (map (fun a => f a ++ nl) l) = unlines (map f l).
Proof.
  induction l as [|a l IH]; [reflexivity|].
  cbn [map]. rewrite concat_cons, IH. cbn [unlines fold_right].
  now rewrite append_assoc.
Qed.

Lemma HasPrefix_head (n w : string) (c : ascii) :
  n <> "" -> HasPrefix (n ++ w) (String c "") = HasPrefix n (String c "").
Proof.
  destruct n as [|a n]; [congruence|]. intros _. cbn [append HasPrefix].
  now rewrite !HasPrefix_nil.
Qed.

End SchemaText.

Section SchemaRoundTrip.
Import strings.

(** The lines of a rendered schema are parsed back into the fields
    that they render. *)
Lemma schema_lines_back (value : string -> FieldType) :
  forall (ls names : list string),
    Forall2 (fun l n =>
               TrimSpace l
               = n ++ String ":" (String " " (fieldTypeToString (value n))))
            ls names ->
    (forall n,
        In n names ->
        lineName n /\ tidy (fieldTypeToString (value n))
        /\ parseType (fieldTypeToString (value n)) = Ok (value n)) ->
    forall s0,
      parseSchemaLines ls s0
      = Ok (mkSchema
              (fold_left (fun m n => mset n (value n) m) names (Fields s0))
              (FieldOrder s0 ++ names)).
Proof.
  induction 1 as [|l n ls names Hl _ IH]; intros Hall s0.
  - cbn [parseSchemaLines fold_left]. rewrite app_nil_r. now destruct s0.
  - destruct (Hall n (or_introl eq_refl)) as ((Hhash & Ht & Hc & _) & Hr & Hp).
    cbn [parseSchemaLines fold_left]. rewrite Hl.
    set (r := fieldTypeToString (value n)) in *.
    assert (Hne : String.eqb (n ++ String ":" (String " " r)) "" = false)
      by (destruct n; reflexivity).
    assert (Hcomment : HasPrefix (n ++ String ":" (String " " r)) "#" = false).
    { destruct n as [|a n]; [reflexivity|].
      now rewrite HasPrefix_head by discriminate. }
    rewrite Hne, Hcomment. cbn [orb].
    rewrite (Index_first ":" n _ Hc).
    replace (Z.of_nat (String.length n) =? -1)%Z with false
      by (symmetry; apply Z.eqb_neq; lia).
    unfold before, after. rewrite Nat2Z.id, take_app_length.
    replace (Z.to_nat (Z.of_nat (String.length n) + 1))
      with (String.length (n ++ ":")) by (rewrite length_app; cbn; lia).
    replace (n ++ String ":" (String " " r)) with ((n ++ ":") ++ String " " r)
      by (now rewrite append_assoc).
    rewrite skip_app_length.
    unfold tidy in Ht. rewrite Ht.
    change (String " " r) with (" " ++ r).
    rewrite (TrimSpace_space r Hr), Hp.
    rewrite IH by (intros k Hk; apply Hall; now right).
    cbn [Fields FieldOrder]. now rewrite <- app_assoc.
Qed.

(** The text of lines that each end well ends well. *)
Lemma Join_goodEnd (ls : list string) :
  ls <> [] -> Forall goodEnd ls -> goodEnd (Join ls nl).
Proof.
  induction ls as [|l ls IH]; intros Hne Hall; [congruence|].
  apply Forall_cons_iff in Hall. destruct Hall as (Hl & Hall).
  destruct ls as [|l' ls]; [exact Hl|].
  destruct (IH ltac:(discriminate) Hall) as (cl & post & E & Hcl).
  replace (Join (l :: l' :: ls) nl) with ((l ++ nl) ++ Join (l' :: ls) nl)
    by (now rewrite append_assoc).
  exists cl, (post ++ rev (l ++ nl)). split; [|exact Hcl].
  rewrite rev_app, E. reflexivity.
Qed.

Lemma goodEnd_app (pre r : string) : goodEnds r -> goodEnd (pre ++ r).
Proof.
  intros (c0 & p & cl & post & _ & Er & _ & Hcl).
  exists cl, (post ++ rev pre). split; [|exact Hcl].
  now rewrite rev_app, Er.
Qed.

(** The lines of a rendered schema: the first one without its
    indentation, as the trimming of the text leaves it. *)
Lemma rendered_lines (value : string -> FieldType) (n0 : string)
      (rest : list string) :
  let text n := n ++ String ":" (String " " (fieldTypeToString (value n))) in
  let line n := "    " ++ text n in
  (forall n, In n (n0 :: rest) ->
             lineName n /\ goodEnds (fieldTypeToString (value n))
             /\ oneLine (fieldTypeToString (value n))) ->
  Split (TrimSpace (unlines (map line (n0 :: rest)))) newline
  = text n0 :: map line rest
  /\ Forall2 (fun l n => TrimSpace l = text n)
             (text n0 :: map line rest) (n0 :: rest).
Proof.
  intros text line Hall.
  assert (Htext : forall n, In n (n0 :: rest) ->
                            tidy (text n) /\ goodEnd (text n)
                            /\ oneLine (text n)).
  { intros n Hin. destruct (Hall n Hin) as ((_ & Ht & _ & Hn) & Hr & Hone).
    split; [exact (proj2 (declaration_tidy n _ "" Ht Hr))|].
    split.
    - unfold text.
      replace (n ++ String ":" (String " " (fieldTypeToString (value n))))
        with ((n ++ ": ") ++ fieldTypeToString (value n))
        by (now rewrite append_assoc).
      now apply goodEnd_app.
    - unfold oneLine, text. rewrite occurs_app, Hn. cbn [occurs orb].
      exact Hone. }
  assert (Hline : forall n, In n (n0 :: rest) ->
                            goodEnd (line n) /\ oneLine (line n)).
  { intros n Hin. destruct (Htext n Hin) as (_ & (cl & post & E & Hcl) & Hone).
    split; [|exact Hone].
    exists cl, (post ++ rev "    "). split; [|exact Hcl].
    unfold line. now rewrite rev_app, E. }
  set (ls := text n0 :: map line rest).
  assert (Hls : Forall (fun l => goodEnd l /\ oneLine l) ls).
  { constructor; [apply Htext; now left|].
    apply Forall_map, Forall_forall. intros n Hin. apply Hline. now right. }
  assert (Htrim : TrimSpace (unlines (map line (n0 :: rest))) = Join ls nl).
  { rewrite unlines_Join by discriminate.
    assert (E : Join (map line (n0 :: rest)) nl = "    " ++ Join ls nl).
    { unfold ls. cbn [map]. destruct (map line rest); cbn [Join]; unfold line;
        now rewrite ?append_assoc. }
    rewrite E, append_assoc, TrimSpace_indented.
    destruct (Join_goodEnd ls ltac:(discriminate)) as (cl & post & Er & Hcl).
    { eapply Forall_impl; [|exact Hls]. now intros l (Hl & _). }
    apply TrimSpace_text.
    - destruct (Hall n0 (or_introl eq_refl)) as ((_ & Ht & _) & Hr & _).
      assert (exists w, Join ls nl ++ nl = n0 ++ String ":" w) as (w & ->).
      { unfold ls, text. destruct (map line rest); cbn [Join];
          rewrite ?append_assoc; cbn [append]; eauto. }
      exact (proj1 (declaration_tidy n0 _ w Ht Hr)).
    - rewrite Er. now apply dropRune_lead. }
  split.
  - rewrite Htrim. apply (Split_Join newline); [discriminate|].
    eapply Forall_impl; [|exact Hls]. now intros l (_ & Hl).
  - constructor; [apply Htext; now left|].
    assert (Hrest : forall n, In n rest -> tidy (text n))
      by (intros n Hin; apply Htext; now right).
    clear - Hrest. induction rest as [|n rest IH]; [constructor|].
    cbn [map]. constructor.
    + unfold line. rewrite TrimSpace_indented. apply Hrest. now left.
    + apply IH. intros k Hk. apply Hrest. now right.
Qed.

End SchemaRoundTrip.

(** X16.  A schema that [parseSchema] returned is read back from its
    rendering: when the names of the object fields of its types, at every
    depth, are well-formed UTF-8 without brace and pipe, [parseSchema]
    returns on the text of [Schema.ToString] the same schema, with the
    same field order and the same map of field types. *)
Theorem parseSchema_renders_back (metaContent : string) (s : Schema) :
  parseSchema metaContent = Ok s ->
  (forall name ft,
      mget (Fields s) name = Some ft -> Forall bareName (fieldNames ft)) ->
  parseSchema (ToString s) = Ok s.
Proof.
  intros Hparse Hbare.
  destruct (parseSchema_parsed _ _ Hparse) as (Hkeys & Hall).
  destruct s as [fields order]. cbn [Fields FieldOrder] in *.
  destruct (parsed_fields fields order Hkeys) as (Horder & Hfield).
  unfold ToString, GetFieldOrder. cbn [Fields FieldOrder]. rewrite Horder.
  destruct order as [|n0 rest].
  { destruct fields; [reflexivity|discriminate]. }
  set (value := fieldAt fields).
  set (text n := n ++ String ":" (String " " (fieldTypeToString (value n)))).
  set (line n := "    " ++ text n).
  assert (Hfacts : forall n,
             In n (n0 :: rest) ->
             lineName n /\ goodEnds (fieldTypeToString (value n))
             /\ oneLine (fieldTypeToString (value n))
             /\ parseType (fieldTypeToString (value n)) = Ok (value n)).
  { intros n Hin. destruct (Hfield n Hin) as (Hf & Hget).
    destruct (Hall _ _ Hf) as (Hp & Hname & Hline & Hone).
    destruct (parsed_renders_back _ Hp Hname (Hbare _ _ Hget))
      as (Hback & Hends & _).
    split; [exact Hline|]. split; [exact Hends|].
    split; [now apply render_one_line|exact Hback]. }
  assert (Etext : String.concat ""
                    (map (fun name =>
                            "    " ++ name ++ ": " ++
                            fieldTypeToString
                              match mget fields name with
                              | Some ft => ft
                              | None => zeroFieldType
                              end ++ String "010" "") (n0 :: rest))
                  = unlines (map line (n0 :: rest))).
  { rewrite <- concat_unlines. f_equal. apply map_ext. intros n.
    unfold line, text, value, fieldAt. rewrite !append_assoc. reflexivity. }
  rewrite Etext. unfold parseSchema.
  destruct (rendered_lines value n0 rest) as (Hsplit & Hlines).
  { intros n Hin. destruct (Hfacts n Hin) as (H1 & H2 & H3 & _). auto. }
  unfold line, text. rewrite Hsplit.
  rewrite (schema_lines_back value _ (n0 :: rest) Hlines).
  - cbn [Fields FieldOrder app]. f_equal. f_equal.
    apply assoc_ext.
    + rewrite keys_folded. apply (firstOccurrences_NoDup (n0 :: rest)).
    + rewrite keys_folded. now rewrite Hkeys.
    + intros k. rewrite mget_folded.
      destruct (existsb (String.eqb k) (n0 :: rest)) eqn:E.
      * apply existsb_eqb_In in E. now destruct (Hfield k E) as (_ & ->).
      * symmetry. apply mget_None_iff. rewrite Hkeys.
        intros Hin. apply (proj1 (firstOccurrences_In _ _)) in Hin.
        apply (proj2 (existsb_eqb_In _ _)) in Hin. congruence.
  - intros n Hin. destruct (Hfacts n Hin) as (H1 & H2 & _ & H4).
    split; [exact H1|]. split; [now apply goodEnds_tidy|exact H4].
Qed.

(** * The definitions at concrete inputs *)

Section Examples.
Local Existing Instance NoFloats.
Local Existing Instance LargeMachine.

Example parseType_idName : parseType "{id:int|name:string}" = Ok idName.
Proof. reflexivity. Qed.

Example errorString_mismatch :
  errorString (ErrParsingField "tags" (ErrArraySizeMismatch 1 0))
  = "error parsing field tags: array size mismatch: declared 1, found 0 elements".
Proof. reflexivity. Qed.

(** C1 at two values.  An array of one string is written as
    [tags[1]: solo], which the parser rejects; an array of integers is
    written as [scores[3]: 95|87|92] and read back as an array of
    strings. *)
Theorem round_trip_loses_arrays :
  roundTrip [("tags", VArray [VString "solo"])]
  = Err (ErrParsingField "tags" (ErrArraySizeMismatch 1 0))
  /\ writeData (InferSchemaFromJSON
                  (VObject [("scores", VArray [VInt 95; VInt 87; VInt 92])]))
               [("scores", VArray [VInt 95; VInt 87; VInt 92])]
     = Ok (text ["scores[3]: 95|87|92"; ""])
  /\ roundTrip [("scores", VArray [VInt 95; VInt 87; VInt 92])]
     = Ok [("scores", VArray [VString "95"; VString "87"; VString "92"])].
Proof. repeat split; vm_compute; reflexivity. Qed.



(** A meta section that declares [b] before [a]. *)
Lemma rendering_keeps_declaration_order_witness :
  ToString (mkSchema [("b", basic "int"); ("a", basic "string")] ["b"; "a"])
  = text ["    b: int"; "    a: string"; ""].
Proof.
  apply (proj1 (proj2 rendering_keeps_declaration_order)
           (text ["b: int"; "a: string"])).
  - reflexivity.
  - intros H. vm_compute in H. discriminate H.
Defined.

(** The two fields of the example, joined and split. *)
Lemma splitObjectFields_depth_aware_witness :
  splitObjectFields "a:{b:int|c:string}|d:bool"
  = ["a:{b:int|c:string}"; "d:bool"].
Proof.
  apply (proj1 (proj2 splitObjectFields_depth_aware)
           ["a:{b:int|c:string}"; "d:bool"]).
  - repeat constructor.
  - repeat constructor.
  - discriminate.
Defined.

(** C5, where the claim fails: the piece [ x] of the line is stored as
    [x], not as it stands; and under [{a:int|a:string}], whose declared
    order holds [a] twice, the line [1] of one piece leaves the field
    of the second position present. *)
Lemma parseObjectFromLine_trims :
  parseObjectFromLine "7| x" idName
  = Ok [("id", VInt 7); ("name", VString "x")]
  /\ nth_error (strings.Split "7| x" "|") 1 = Some " x"
  /\ @VString NoFloats "x" <> VString " x"
  /\ exists ft,
       parseType "{a:int|a:string}" = Ok ft
       /\ ObjectOrder ft = ["a"; "a"]
       /\ nth_error (strings.Split "1" "|") 1 = None
       /\ exists obj, parseObjectFromLine "1" ft = Ok obj
                      /\ mget obj "a" = Some (VString "1").
Proof.
  repeat split; try reflexivity; [discriminate|].
  eexists. split; [vm_compute; reflexivity|].
  split; [reflexivity|]. split; [reflexivity|].
  eexists. split; [vm_compute; reflexivity|reflexivity].
Qed.

(** The second piece of [7|x] goes to the second field, [name]. *)
Lemma parseObjectFromLine_positional_witness :
  exists val,
    convertField "string" "name" "x" = Ok val
    /\ mget [("id", VInt 7); ("name", VString "x")] "name" = Some val.
Proof.
  assert (Hnd : NoDup (ObjectOrder idName)).
  { repeat constructor; simpl; intuition discriminate. }
  assert (Hdeclared : ObjectOrder idName = [] -> ObjectFields idName = [])
    by discriminate.
  exact (proj1 (proj1 (parseObjectFromLine_positional idName "7|x" Hdeclared)
                  [("id", VInt 7); ("name", VString "x")] eq_refl Hnd)
           1%nat "name" eq_refl).
Defined.

(** C6, where the claim fails: the value has a field that the schema
    lacks, and validation reports the mismatch of another field. *)
Lemma ValidateData_mismatch_first :
  let s := mkSchema [("name", basic "string")] [] in
  let data := [("name", VInt 5); ("extra", VString "y")] in
  In "extra" (keys data) /\ mget (Fields s) "extra" = None
  /\ ValidateData s data
     = Some (ErrValidation "name" (ErrExpected "string" "int")).
Proof. repeat split. simpl. auto. Qed.

(** A value with a mismatching field and an unknown one. *)
Lemma ValidateData_order_of_checks_witness :
  let s := mkSchema [("name", basic "string")] [] in
  let data := [("name", VInt 5); ("extra", VString "y")] in
  exists f e, mismatch s data f
              /\ ValidateData s data = Some (ErrValidation f e).
Proof.
  intros s data.
  apply (proj1 (ValidateData_order_of_checks s data
                  ltac:(repeat constructor; simpl; intuition discriminate))).
  exists "name", (basic "string"), (VInt 5). repeat split.
  intros H. inversion H; discriminate.
Defined.

(** C7, where the claim fails: the empty array gets no element type,
    and the rendering of its type is not a type expression. *)
Lemma inferFieldType_empty_array :
  ElementType (inferFieldType (VArray [])) = None
  /\ ElementType (inferFieldType (VArray [])) <> Some (basic "string")
  /\ parseType (fieldTypeToString (inferFieldType (VArray [])))
     = Err (ErrUnknownType "").
Proof. repeat split. discriminate. Qed.

(** The schema of an object with two keys. *)
Lemma inferFieldType_shapes_witness :
  let obj := [("tags", VArray [VString "a"; VInt 1]); ("n", VInt 2)] in
  FieldOrder (InferSchemaFromJSON (VObject obj)) = keys obj
  /\ forall k,
       mget (Fields (InferSchemaFromJSON (VObject obj))) k =
       option_map inferFieldType (mget obj k).
Proof.
  intros obj.
  apply (proj2 (proj2 (proj2 (proj2 (proj2 (proj2 (proj2 (proj2
           inferFieldType_shapes)))))))).
  repeat constructor; simpl; intuition discriminate.
Defined.

(** C8, where the claim fails: the field map holds [a] once, with the
    later type, but the field order holds [a] twice, so that the schema
    is rendered, and a value written, with [a] twice; a schema that
    declares [a] once does neither. *)
Lemma parseSchema_duplicate_in_order :
  let s := mkSchema [("a", basic "string"); ("b", basic "bool")]
                    ["a"; "b"; "a"] in
  parseSchema (text ["a: int"; "b: bool"; "a: string"]) = Ok s
  /\ parseSchema (text ["b: bool"; "a: string"])
     = Ok (mkSchema [("b", basic "bool"); ("a", basic "string")] ["b"; "a"])
  /\ ToString s = text ["    a: string"; "    b: bool"; "    a: string"; ""]
  /\ writeData s [("a", VString "x"); ("b", VBool true)]
     = Ok (text ["a:"; "    x"; "b:"; "    true"; "a:"; "    x"; ""]).
Proof. repeat split. Qed.

(** A meta section that declares [a] twice. *)
Lemma parseSchema_later_declaration_wins_witness :
  let metaContent := text ["a: int"; "b: bool"; "a: string"] in
  let s := mkSchema [("a", basic "string"); ("b", basic "bool")]
                    ["a"; "b"; "a"] in
  (forall name,
      mget (Fields s) name =
      lastDeclared (strings.Split (strings.TrimSpace metaContent) newline) name)
  /\ FieldOrder s = declaredNames metaContent.
Proof.
  intros metaContent s.
  apply (proj2 (parseSchema_later_declaration_wins metaContent) s).
  vm_compute. reflexivity.
Defined.

(** C9, where the claim fails: a string takes an indented next line
    that holds a colon, and an integer takes a next line that is not
    indented. *)
Lemma scalar_next_line_not_uniform :
  parseValue (basic "string") "" ["name:"; "    age: 5"] 0
  = Ok (VString "age: 5", 2%nat)
  /\ isIndented "    age: 5" = true
  /\ strings.Contains "    age: 5" ":" = true
  /\ parseValue (basic "int") "" ["age:"; "30"] 0 = Ok (VInt 30, 2%nat)
  /\ isIndented "30" = false.
Proof. repeat split. Qed.

(** A string on the indented line below its field line. *)
Lemma scalar_next_line_witness :
  parseValue (basic "string") "" ["name:"; "    John Doe"] 0
  = Ok (VString "John Doe", 2%nat).
Proof.
  apply (proj1 (proj1 (scalar_next_line (basic "string") ""
                         ["name:"; "    John Doe"] 0) eq_refl)
           "    John Doe"); reflexivity.
Defined.

(** C10, where the claim fails: the text of the one element holds a
    pipe, the emitted line holds it too, and the parser takes the
    inline path and finds two elements. *)
Lemma single_element_with_pipe :
  writeField "tags" (VArray [VString "a|b"]) stringArray 0
  = Ok "tags[1]: a|b"
  /\ strings.Contains "tags[1]: a|b" "|" = true
  /\ ParseData tagsSchema "tags[1]: a|b"
     = Err (ErrParsingField "tags" (ErrArraySizeMismatch 1 2)).
Proof. repeat split. Qed.

(** The array [["solo"]] under [tags: string[]]. *)
Lemma single_element_array_not_read_back_witness :
  writeField "tags" (VArray [VString "solo"]) stringArray 0
  = Ok "tags[1]: solo"
  /\ strings.Contains "tags[1]: solo" "|" = false
  /\ ParseData tagsSchema "tags[1]: solo"
     = Err (ErrParsingField "tags" (ErrArraySizeMismatch 1 0)).
Proof.
  apply (single_element_array_not_read_back tagsSchema "tags" stringArray
           (basic "string") (VString "solo")); try reflexivity.
  split; [discriminate|reflexivity].
Defined.
(** ** The further properties at concrete inputs *)

(** The fallback order at a schema of two fields, in both iteration
    orders of its map. *)
Lemma fallback_order_sorted_witness :
  let s := mkSchema [("b", basic "int"); ("a", basic "string")] [] in
  let s' := mkSchema [("a", basic "string"); ("b", basic "int")] [] in
  GetFieldOrder s = ["a"; "b"] /\ GetFieldOrder s' = GetFieldOrder s.
Proof.
  split; [reflexivity|].
  apply (proj1 (proj2 fallback_order_sorted)
               (mkSchema [("b", basic "int"); ("a", basic "string")] [])
               (mkSchema [("a", basic "string"); ("b", basic "int")] []));
    [reflexivity|reflexivity|apply perm_swap].
Defined.

(** The keys of a parsed record of two fields. *)
Lemma ParseData_keys_declared_witness :
  let schema := mkSchema [("name", basic "string"); ("age", basic "int")]
                         ["name"; "age"] in
  let data := [("name", VString "Ann"); ("age", VInt 30)] in
  ParseData schema (text ["name: Ann"; "age: 30"]) = Ok data
  /\ unknownFields schema (keys data) = None.
Proof.
  split; [vm_compute; reflexivity|].
  apply (ParseData_keys_declared
           (mkSchema [("name", basic "string"); ("age", basic "int")]
                     ["name"; "age"])
           (text ["name: Ann"; "age: 30"])).
  vm_compute. reflexivity.
Defined.

(** A parsed record of scalars passes validation. *)
Lemma parsed_scalars_validate_witness :
  let schema := mkSchema [("name", basic "string"); ("age", basic "int")]
                         ["name"; "age"] in
  ValidateData schema [("name", VString "Ann"); ("age", VInt 30)] = None.
Proof.
  apply (parsed_scalars_validate
           (mkSchema [("name", basic "string"); ("age", basic "int")]
                     ["name"; "age"])
           (text ["name: Ann"; "age: 30"])).
  - repeat constructor; cbn [In]; intuition discriminate.
  - intros name ft. cbn [Fields mget].
    destruct (String.eqb "name" name); [now intros [= <-]|].
    destruct (String.eqb "age" name); [now intros [= <-]|discriminate].
  - vm_compute. reflexivity.
Defined.

(** An array of declared integers is parsed as strings and rejected by
    validation. *)
Lemma parsed_array_elements_are_strings_witness :
  let schema := mkSchema [("scores", mkFieldType "array" (Some (basic "int"))
                                                 [] [] "")] ["scores"] in
  ParseData schema "scores[3]: 95|87|92"
  = Ok [("scores", VArray [VString "95"; VString "87"; VString "92"])]
  /\ exists texts,
       VArray [VString "95"; VString "87"; VString "92"]
       = VArray (map VString texts).
Proof.
  split; [vm_compute; reflexivity|].
  destruct (parsed_array_elements_are_strings
              (mkSchema [("scores", mkFieldType "array" (Some (basic "int"))
                                                [] [] "")] ["scores"])
              "scores[3]: 95|87|92"
              [("scores", VArray [VString "95"; VString "87"; VString "92"])]
              "scores"
              (mkFieldType "array" (Some (basic "int")) [] [] "")
              (VArray [VString "95"; VString "87"; VString "92"]))
    as (texts & E & _);
    [vm_compute; reflexivity|reflexivity|reflexivity|reflexivity|reflexivity|].
  now exists texts.
Defined.

(** A block of two elements under a header without a size. *)
Lemma undeclared_size_reads_block_witness :
  parseArrayWithDeclaredSize stringArray "" ["tags:"; "    a"; "    b"; "x: 1"] 0 0
  = Ok ([VString "a"; VString "b"], 3%nat).
Proof.
  apply (proj1 (undeclared_size_reads_block stringArray ""
                  ["tags:"; "    a"; "    b"; "x: 1"] 0 0
                  (Z.le_refl 0) (or_introl eq_refl))).
  repeat constructor; eexists; reflexivity.
Defined.

(** The nested array parser at a block of two elements. *)
Lemma parseArray_limit_witness :
  exists i,
    parseArray stringArray "" ["tags:"; "    a"; "    b"] 0
    = Ok ([VString "a"; VString "b"], i).
Proof.
  apply (proj2 (parseArray_limit stringArray "" ["tags:"; "    a"; "    b"] 0
                  (or_introl eq_refl))).
  repeat constructor; eexists; reflexivity.
Defined.

(** A validated record is written. *)
Lemma validated_data_is_writable_witness :
  exists text,
    writeData (mkSchema [("name", basic "string")] ["name"])
              [("name", VString "Ann")] = Ok text.
Proof.
  apply (proj2 validated_data_is_writable). reflexivity.
Defined.

(** An undeclared key at the top of a record. *)
Lemma validation_edges_witness :
  ValidateData (mkSchema [("name", basic "string")] ["name"])
               (mset "extra" (VInt 1) [("name", VString "Ann")])
  = Some (ErrUnknownField "extra").
Proof.
  apply (proj2 (proj2 (proj2 validation_edges))); reflexivity.
Defined.

(** A regular record under its inferred schema. *)
Lemma inferred_type_validates_witness :
  let obj := [("name", VString "Ann");
              ("tags", VArray [VString "a"; VString "b"])] in
  ValidateData (InferSchemaFromJSON (VObject obj)) obj = None.
Proof.
  apply (proj1 (proj2 inferred_type_validates)).
  constructor.
  - repeat constructor; cbn [In]; intuition discriminate.
  - repeat constructor.
    intros first rest x [= <- <-] [<-|[]]. reflexivity.
Defined.

(** A record of a string and an integer, written and read back. *)
Lemma flat_record_round_trip_witness :
  let schema := mkSchema [("name", basic "string"); ("age", basic "int")]
                         ["name"; "age"] in
  let data := [("age", VInt 30); ("name", VString "John Doe")] in
  exists text data',
    writeData schema data = Ok text
    /\ ParseData schema text = Ok data'
    /\ sameFields data data'.
Proof.
  apply (flat_record_round_trip
           (mkSchema [("name", basic "string"); ("age", basic "int")]
                     ["name"; "age"])
           [("age", VInt 30); ("name", VString "John Doe")]).
  - discriminate.
  - intros name v. cbn [mget].
    destruct (String.eqb_spec "age" name) as [<-|_].
    + intros [= <-]. split; [cbn; auto|].
      split; [split; [discriminate|reflexivity]|].
      exists (basic "int"). split; [reflexivity|].
      split; [reflexivity|]. unfold int64. lia.
    + destruct (String.eqb_spec "name" name) as [<-|_]; [|discriminate].
      intros [= <-]. split; [cbn; auto|].
      split; [split; [discriminate|reflexivity]|].
      exists (basic "string"). split; [reflexivity|].
      split; [reflexivity|]. split; [vm_compute; reflexivity|].
      split; [discriminate|reflexivity].
Defined.

(** A record with an array of two objects, written and read back. *)
Lemma record_round_trip_witness :
  let user := mkFieldType "object" None
                [("id", mkFieldType "int" None [] [] "id");
                 ("name", mkFieldType "string" None [] [] "name")]
                ["id"; "name"] "" in
  let schema := mkSchema [("users", mkFieldType "array" (Some user) [] [] "")]
                         ["users"] in
  let data := [("users",
                VArray [VObject [("name", VString "Alice"); ("id", VInt 1)];
                        VObject [("id", VInt 2); ("name", VString "Bob")]])] in
  exists text data',
    writeData schema data = Ok text
    /\ ParseData schema text = Ok data'
    /\ forall k,
         match mget data k with
         | Some v => exists v', mget data' k = Some v' /\ sameValue v v'
         | None => mget data' k = None
         end.
Proof.
  cbv zeta.
  apply record_round_trip; [discriminate|].
  intros name v. cbn [mget].
  destruct (String.eqb_spec "users" name) as [<-|_]; [|discriminate].
  intros [= <-]. split; [cbn; auto|].
  split; [split; [discriminate|reflexivity]|].
  eexists. split; [reflexivity|].
  apply (fits_objects _ idName
           [[("name", VString "Alice"); ("id", VInt 1)];
            [("id", VInt 2); ("name", VString "Bob")]]);
    try reflexivity; try discriminate.
  - assert (Hfit : forall obj,
               mget obj "id" = Some (VInt 1) \/ mget obj "id" = Some (VInt 2) ->
               (exists s, mget obj "name" = Some (VString s) /\ pipeText s) ->
               (forall n, In n (keys obj) -> In n ["id"; "name"]) ->
               objectFits idName obj).
    { intros obj Hid (s & Hs & Hp) Hkeys.
      split; [|split; [|split]].
      - repeat constructor; cbn [In]; intuition discriminate.
      - cbn. lia.
      - intros n [<-|[<-|[]]].
        + destruct Hid as [Hid|Hid]; eexists; (split; [exact Hid|]);
            (split; [reflexivity|unfold int64; lia]).
        + exists (VString s). split; [exact Hs|]. now split.
      - exact Hkeys. }
    constructor; [|constructor; [|constructor]]; apply Hfit.
    + now left.
    + exists "Alice". split; [reflexivity|].
      repeat split; vm_compute; reflexivity.
    + cbn. intuition.
    + now right.
    + exists "Bob". split; [reflexivity|].
      repeat split; vm_compute; reflexivity.
    + cbn. intuition.
Defined.

(** A record of a string and an array of two strings, through inference,
    the writer and the parser. *)
Lemma inferred_record_round_trip_witness :
  let data := [("name", VString "Ann");
               ("tags", VArray [VString "a"; VString "b"])] in
  exists data',
    roundTrip data = Ok data'
    /\ forall k,
         match mget data k with
         | Some v => exists v', mget data' k = Some v' /\ sameValue v v'
         | None => mget data' k = None
         end.
Proof.
  cbv zeta. apply inferred_record_round_trip.
  - repeat constructor; cbn [In]; intuition discriminate.
  - discriminate.
  - intros name v. cbn [mget].
    destruct (String.eqb_spec "name" name) as [<-|_].
    + intros [= <-]. split; [split; [discriminate|reflexivity]|].
      apply fits_scalar. split; [reflexivity|].
      split; [vm_compute; reflexivity|]. split; [discriminate|reflexivity].
    + destruct (String.eqb_spec "tags" name) as [<-|_]; [|discriminate].
      intros [= <-]. split; [split; [discriminate|reflexivity]|].
      apply (fits_strings _ (basic "string") ["a"; "b"]);
        try reflexivity; try (cbn; lia).
      * unfold int64. cbn. lia.
      * repeat constructor; vm_compute; reflexivity.
Defined.

(** The type expression of an array of objects. *)
Lemma parseType_well_formed_witness :
  parsedType (mkFieldType "array" (Some idName) [] [] "")
  /\ exists e,
       ElementType (mkFieldType "array" (Some idName) [] [] "") = Some e.
Proof.
  destruct (proj1 (parseType_well_formed "{id:int|name:string}[]")
              (mkFieldType "array" (Some idName) [] [] ""))
    as (Hshape & _ & Helem & _).
  - vm_compute. reflexivity.
  - split; [exact Hshape|]. now apply Helem.
Defined.

(** The type expression of an array of objects, written with spaces. *)
Lemma parseType_renders_back_witness :
  parseType "{id:int|name:string}[]"
  = Ok (mkFieldType "array" (Some idName) [] [] "").
Proof.
  assert (Hbare : forall k, In k ["id"; "name"] -> bareName k).
  { intros k [<-|[<-|[]]]; repeat split. }
  refine (proj1 (parseType_renders_back " { id : int | name:string } [] "
                   (mkFieldType "array" (Some idName) [] [] "") _ _)).
  - vm_compute. reflexivity.
  - cbn [fieldNames idName app]. repeat constructor; apply Hbare; cbn; auto.
Defined.

(** A schema read from a text with a comment, a blank line, an object
    type and a name that is declared twice. *)
Lemma parseSchema_renders_back_witness :
  let user :=
    mkFieldType "object" None
      [("name", mkFieldType "string" None [] [] "name");
       ("tags", mkFieldType "array" (Some (basic "string")) [] [] "tags")]
      ["name"; "tags"] "" in
  let s := mkSchema [("id", basic "int64"); ("user", user)]
                    ["id"; "user"; "id"] in
  parseSchema (ToString s) = Ok s.
Proof.
  assert (Hbare : forall k, In k ["name"; "tags"] -> bareName k).
  { intros k [<-|[<-|[]]]; repeat split. }
  cbv zeta.
  refine (parseSchema_renders_back
            ("# users" ++ nl ++ "id: int" ++ nl
             ++ "  user : { name : string | tags:string[] }" ++ nl ++ nl
             ++ "id: int64" ++ nl) _ _ _).
  - vm_compute. reflexivity.
  - intros name ft H. apply mget_In in H. cbn [Fields In] in H.
    destruct H as [[= <- <-]|[[= <- <-]|[]]].
    + constructor.
    + cbn [fieldNames app]. repeat constructor; apply Hbare; cbn; auto.
Defined.

End Examples.
